(** * The KV cache bookkeeping of llama.cpp (src/llama-kv-cache.cpp)

    A shallow embedding of [llama_kv_cache]: the cell pool, the sequence
    operations ([seq_rm], [seq_cp], [seq_keep], [seq_add], [seq_div],
    [seq_pos_max]), [clear], both disciplines of [find_slot] (one cell
    per token for transformers, one tail cell per sequence for recurrent
    models), the queries ([n_tokens], [max_pos], [cell_max]), [defrag]
    and the view of the pool, followed by the properties of the
    specification and by further properties of the code.

    Conventions of the embedding.
    - [int32_t] and [uint32_t] values are integers of [Z]; every arithmetic
      operation of the source that can leave the range is followed by
      [wrap_i32] or [wrap_u32].
    - [std::set<llama_seq_id>] is a [gset Z]; [std::vector<llama_kv_cell>]
      is a [list llama_kv_cell].
    - [size] is written once, by [init], together with
      [cells.resize(kv_size)]; the model reads it off the vector.
    - A function that may not return (a failed [GGML_ASSERT], a division by
      zero, an access outside an array in [find_slot]) returns an [option],
      [None] standing for "no return".
    - The tensors and backend buffers ([k_l], [v_l], [bufs]) and the flags
      [v_trans] and [can_shift] take no part in the bookkeeping and are
      left out. *)

From Stdlib Require Import ZArith List Bool Lia.
From stdpp Require Import base option list gmap sorting.

Open Scope Z_scope.

(** ** Machine integers *)

Definition INT32_MAX : Z := 2147483647.
Definition INT32_MIN : Z := -2147483648.
Definition UINT32_MOD : Z := 4294967296.

(** Value of a 32-bit pattern read as [uint32_t]. *)
Definition wrap_u32 (z : Z) : Z := z mod UINT32_MOD.

(** Value of a 32-bit pattern read as [int32_t] (two's complement). *)
Definition wrap_i32 (z : Z) : Z := (z + 2147483648) mod UINT32_MOD - 2147483648.

Definition is_i32 (z : Z) : Prop := INT32_MIN <= z <= INT32_MAX.

(** ** Cells *)

(** Modelled from the spec: [struct llama_kv_cell] is declared in
    llama-kv-cache.h, which is not part of the sources at hand. The spec
    (section 3) gives the attributes [pos], [delta], [src], [tail] and the
    seq-id set, and "a cell is empty iff its seq-id set is empty". *)
Record llama_kv_cell := mk_cell {
  pos    : Z;        (* llama_pos *)
  delta  : Z;        (* llama_pos *)
  src    : Z;        (* int32_t   *)
  tail   : Z;        (* int32_t   *)
  seq_id : gset Z;   (* std::set<llama_seq_id> *)
}.

(** Modelled from the spec: a default-constructed cell ("cells are born
    empty": no position, no source, no tail, no pending shift). *)
Definition cell_new : llama_kv_cell :=
  {| pos := -1; delta := 0; src := -1; tail := -1; seq_id := ∅ |}.

(** Modelled from the spec: [llama_kv_cell::has_seq_id]. *)
Definition has_seq_id (c : llama_kv_cell) (id : Z) : bool :=
  bool_decide (id ∈ seq_id c).

(** Modelled from the spec: [llama_kv_cell::is_empty]. *)
Definition is_empty (c : llama_kv_cell) : bool :=
  bool_decide (seq_id c = ∅).

Definition set_pos (v : Z) (c : llama_kv_cell) : llama_kv_cell :=
  {| pos := v; delta := delta c; src := src c; tail := tail c; seq_id := seq_id c |}.
Definition set_delta (v : Z) (c : llama_kv_cell) : llama_kv_cell :=
  {| pos := pos c; delta := v; src := src c; tail := tail c; seq_id := seq_id c |}.
Definition set_src (v : Z) (c : llama_kv_cell) : llama_kv_cell :=
  {| pos := pos c; delta := delta c; src := v; tail := tail c; seq_id := seq_id c |}.
Definition set_tail (v : Z) (c : llama_kv_cell) : llama_kv_cell :=
  {| pos := pos c; delta := delta c; src := src c; tail := v; seq_id := seq_id c |}.
Definition set_seq_id (v : gset Z) (c : llama_kv_cell) : llama_kv_cell :=
  {| pos := pos c; delta := delta c; src := src c; tail := tail c; seq_id := v |}.

(** [cell.seq_id.erase(id)], [cell.seq_id.insert(id)], [cell.seq_id.clear()]. *)
Definition seq_erase (id : Z) (c : llama_kv_cell) : llama_kv_cell :=
  set_seq_id (seq_id c ∖ {[id]}) c.
Definition seq_insert (id : Z) (c : llama_kv_cell) : llama_kv_cell :=
  set_seq_id ({[id]} ∪ seq_id c) c.
Definition seq_clear (c : llama_kv_cell) : llama_kv_cell :=
  set_seq_id ∅ c.

(** ** The cache *)

(** Modelled from the spec: [struct llama_kv_cache] is declared in
    llama-kv-cache.h too. The fields are the aggregate state of section 3
    of the spec, as the functions of llama-kv-cache.cpp read and write
    them. *)
Record llama_kv_cache := mk_cache {
  has_shift : bool;
  do_defrag : bool;
  recurrent : bool;
  head      : Z;     (* uint32_t *)
  used      : Z;     (* uint32_t *)
  n         : Z;     (* uint32_t *)
  cells     : list llama_kv_cell;
}.

Definition size (kv : llama_kv_cache) : Z := Z.of_nat (length (cells kv)).

Definition set_cells (cs : list llama_kv_cell) (kv : llama_kv_cache) : llama_kv_cache :=
  {| has_shift := has_shift kv; do_defrag := do_defrag kv; recurrent := recurrent kv;
     head := head kv; used := used kv; n := n kv; cells := cs |}.
Definition set_head (v : Z) (kv : llama_kv_cache) : llama_kv_cache :=
  {| has_shift := has_shift kv; do_defrag := do_defrag kv; recurrent := recurrent kv;
     head := v; used := used kv; n := n kv; cells := cells kv |}.
Definition set_used (v : Z) (kv : llama_kv_cache) : llama_kv_cache :=
  {| has_shift := has_shift kv; do_defrag := do_defrag kv; recurrent := recurrent kv;
     head := head kv; used := v; n := n kv; cells := cells kv |}.
Definition set_n (v : Z) (kv : llama_kv_cache) : llama_kv_cache :=
  {| has_shift := has_shift kv; do_defrag := do_defrag kv; recurrent := recurrent kv;
     head := head kv; used := used kv; n := v; cells := cells kv |}.
Definition set_has_shift (v : bool) (kv : llama_kv_cache) : llama_kv_cache :=
  {| has_shift := v; do_defrag := do_defrag kv; recurrent := recurrent kv;
     head := head kv; used := used kv; n := n kv; cells := cells kv |}.

(** The bookkeeping part of [init]: [has_shift = false], [head = 0],
    [used = 0], [cells.clear(); cells.resize(kv_size)]. [init] writes
    neither [n] nor [do_defrag]; a fresh cache has them at 0 and false. *)
Definition init (is_recurrent : bool) (kv_size : nat) : llama_kv_cache :=
  {| has_shift := false; do_defrag := false; recurrent := is_recurrent;
     head := 0; used := 0; n := 0; cells := replicate kv_size cell_new |}.

(** *** Indexing the vector

    [cells[i]] outside [0, size) is undefined in the source. [get] is the
    checked read. [cell_at] reads a default-constructed cell there and
    [upd] ignores the write: the sequence operations use them on the tail
    indices, which stay below [size] in every state [find_slot] leaves. *)
Definition get (cs : list llama_kv_cell) (i : Z) : option llama_kv_cell :=
  if i <? 0 then None else cs !! Z.to_nat i.

Definition cell_at (cs : list llama_kv_cell) (i : Z) : llama_kv_cell :=
  default cell_new (get cs i).

Definition upd (i : Z) (f : llama_kv_cell → llama_kv_cell)
    (cs : list llama_kv_cell) : list llama_kv_cell :=
  if i <? 0 then cs else alter f (Z.to_nat i) cs.

(** *** Loops over the pool

    [for (uint32_t i = 0; i < size; ++i) { ... cells[i] ... }] where the
    body reads and writes cell [i] and some scalars [a] only. *)
Fixpoint for_cells {A : Type}
    (body : Z → llama_kv_cell → A → llama_kv_cell * A)
    (i : Z) (cs : list llama_kv_cell) (a : A) : list llama_kv_cell * A :=
  match cs with
  | [] => ([], a)
  | c :: rest =>
      let '(c', a') := body i c a in
      let '(rest', a'') := for_cells body (i + 1) rest a' in
      (c' :: rest', a'')
  end.

(** [p0 < 0] means 0 and [p1 < 0] means the largest position. *)
Definition norm_p0 (p0 : Z) : Z := if p0 <? 0 then 0 else p0.
Definition norm_p1 (p1 : Z) : Z := if p1 <? 0 then INT32_MAX else p1.

Definition in_range (p0 p1 : Z) (c : llama_kv_cell) : bool :=
  (p0 <=? pos c) && (pos c <? p1).

(** ** clear *)

Definition clear_cell (c : llama_kv_cell) : llama_kv_cell :=
  set_tail (-1) (set_src (-1) (seq_clear (set_pos (-1) c))).

(** [for (int32_t i = 0; i < (int32_t) size; ++i)]: the bound of the loop
    is [size] read as an [int32_t]. The cells from that bound on are not
    visited: a pool of 2^31 cells or more has a negative bound, and none
    of its cells is reset. *)
Definition clear (kv : llama_kv_cache) : llama_kv_cache :=
  let k := Z.to_nat (wrap_i32 (size kv)) in
  let '(cs, _) :=
    for_cells (λ _ c (a : unit), (clear_cell c, a)) 0 (take k (cells kv)) tt in
  set_used 0 (set_head 0 (set_cells (cs ++ drop k (cells kv)) kv)).

(** ** seq_rm *)

(** Scalars of the sweep: [used] and [new_head]. *)
Definition seq_rm_body (sz seq p0 p1 : Z) (i : Z) (c : llama_kv_cell)
    (a : Z * Z) : llama_kv_cell * (Z * Z) :=
  let '(u, new_head) := a in
  if in_range p0 p1 c then
    let freed (c1 : llama_kv_cell) :=
      if is_empty c1 then
        (set_src (-1) (set_pos (-1) c1),
         (if 0 <=? pos c1 then wrap_u32 (u - 1) else u,
          if new_head =? sz then i else new_head))
      else (c1, a) in
    if seq <? 0 then freed (seq_clear c)
    else if has_seq_id c seq then freed (seq_erase seq c)
    else (c, a)
  else (c, a).

(** The recurrent prologue of [seq_rm]: [None] is the early [return false],
    [Some cs] the cells with the tail of [seq] invalidated where the source
    does so. *)
Definition seq_rm_recurrent (cs : list llama_kv_cell) (sz seq p0 p1 : Z)
    : option (list llama_kv_cell) :=
  if sz <=? seq then None
  else if 0 <=? seq then
    let tail_id := tail (cell_at cs seq) in
    if 0 <=? tail_id then
      let cell := cell_at cs tail_id in
      if ((0 <? p0) && (p0 <=? pos cell)) || ((0 <? p1) && (p1 <=? pos cell))
      then None
      else if (p0 <=? pos cell) && (pos cell <? p1)
      then Some (upd seq (set_tail (-1)) cs)
      else Some cs
    else Some cs
  else
    if negb (p0 =? p1) && (negb (p0 =? 0) || negb (p1 =? INT32_MAX))
    then None
    else Some cs.

Definition seq_rm (kv : llama_kv_cache) (seq p0 p1 : Z) : llama_kv_cache * bool :=
  let p0 := norm_p0 p0 in
  let p1 := norm_p1 p1 in
  let pre :=
    if recurrent kv then seq_rm_recurrent (cells kv) (size kv) seq p0 p1
    else Some (cells kv) in
  match pre with
  | None => (kv, false)
  | Some cs0 =>
      let '(cs, (u, new_head)) :=
        for_cells (seq_rm_body (size kv) seq p0 p1) 0 cs0 (used kv, size kv) in
      let kv1 := set_used u (set_cells cs kv) in
      (if negb (new_head =? size kv) && (new_head <? head kv)
       then set_head new_head kv1 else kv1, true)
  end.

(** ** seq_cp *)

(** The first half of the recurrent copy: "clear destination seq_id if it
    wasn't empty". *)
Definition seq_cp_clear_dst (kv : llama_kv_cache) (seq_dst : Z) : llama_kv_cache :=
  let t_dst := tail (cell_at (cells kv) seq_dst) in
  if 0 <=? t_dst then
    let cs1 := upd t_dst (seq_erase seq_dst) (cells kv) in
    let cs2 := upd seq_dst (set_tail (-1)) cs1 in
    if is_empty (cell_at cs2 t_dst) then
      set_used (wrap_u32 (used kv - 1))
        (set_cells
           (upd t_dst (λ c, set_src (-1) (set_delta (-1) (set_pos (-1) c))) cs2)
           kv)
    else set_cells cs2 kv
  else kv.

Definition seq_cp_recurrent (kv : llama_kv_cache) (seq_src seq_dst : Z)
    : llama_kv_cache :=
  if (wrap_u32 seq_dst <? size kv) && (wrap_u32 seq_src <? size kv) then
    let kv1 := seq_cp_clear_dst kv seq_dst in
    let t_src := tail (cell_at (cells kv1) seq_src) in
    if 0 <=? t_src then
      set_cells
        (upd seq_dst (set_tail t_src) (upd t_src (seq_insert seq_dst) (cells kv1)))
        kv1
    else kv1
  else kv.

Definition seq_cp_body (seq_src seq_dst p0 p1 : Z) (i : Z) (c : llama_kv_cell)
    (a : unit) : llama_kv_cell * unit :=
  if has_seq_id c seq_src && in_range p0 p1 c
  then (seq_insert seq_dst c, a) else (c, a).

Definition seq_cp (kv : llama_kv_cache) (seq_src seq_dst p0 p1 : Z)
    : llama_kv_cache :=
  if seq_src =? seq_dst then kv
  else
    let p0 := norm_p0 p0 in
    let p1 := norm_p1 p1 in
    if recurrent kv then seq_cp_recurrent kv seq_src seq_dst
    else
      (* otherwise, this is the KV of a Transformer-like model *)
      let '(cs, _) := for_cells (seq_cp_body seq_src seq_dst p0 p1) 0 (cells kv) tt in
      set_cells cs (set_head 0 kv).

(** ** seq_keep *)

Definition seq_keep_body (rec : bool) (sz seq : Z) (i : Z) (c : llama_kv_cell)
    (a : Z * Z) : llama_kv_cell * (Z * Z) :=
  let '(u, new_head) := a in
  let c := if rec && negb (wrap_i32 i =? seq) then set_tail (-1) c else c in
  if negb (has_seq_id c seq) then
    (seq_clear (set_src (-1) (set_pos (-1) c)),
     (if 0 <=? pos c then wrap_u32 (u - 1) else u,
      if new_head =? sz then i else new_head))
  else (seq_insert seq (seq_clear c), a).

Definition seq_keep (kv : llama_kv_cache) (seq : Z) : llama_kv_cache :=
  let '(cs, (u, new_head)) :=
    for_cells (seq_keep_body (recurrent kv) (size kv) seq) 0 (cells kv)
      (used kv, size kv) in
  let kv1 := set_used u (set_cells cs kv) in
  if negb (new_head =? size kv) && (new_head <? head kv)
  then set_head new_head kv1 else kv1.

(** ** seq_add *)

(** Scalars of the sweep: [has_shift], [used], [new_head]. *)
Definition seq_add_body (sz seq p0 p1 d : Z) (i : Z) (c : llama_kv_cell)
    (a : bool * Z * Z) : llama_kv_cell * (bool * Z * Z) :=
  let '(hs, u, new_head) := a in
  if has_seq_id c seq && in_range p0 p1 c then
    let c1 := set_delta (wrap_i32 (delta c + d)) (set_pos (wrap_i32 (pos c + d)) c) in
    if pos c1 <? 0 then
      (seq_clear (set_pos (-1) c1),
       (true,
        if negb (is_empty c1) then wrap_u32 (u - 1) else u,
        if new_head =? sz then i else new_head))
    else (c1, (true, u, new_head))
  else (c, a).

(** For Mamba-like or RWKV models, only the pos of the tail is shifted. *)
Definition seq_add_recurrent (kv : llama_kv_cache) (seq p0 p1 d : Z)
    : llama_kv_cache :=
  if (0 <=? seq) && (seq <? size kv) then
    let tail_id := tail (cell_at (cells kv) seq) in
    if 0 <=? tail_id then
      let cell := cell_at (cells kv) tail_id in
      if has_seq_id cell seq && in_range p0 p1 cell
      then set_cells (upd tail_id (λ c, set_pos (wrap_i32 (pos c + d)) c) (cells kv)) kv
      else kv
    else kv
  else kv.

Definition seq_add (kv : llama_kv_cache) (seq p0 p1 d : Z) : llama_kv_cache :=
  if d =? 0 then kv
  else
    let p0 := norm_p0 p0 in
    let p1 := norm_p1 p1 in
    if p0 =? p1 then kv
    else if recurrent kv then seq_add_recurrent kv seq p0 p1 d
    else
      let '(cs, (hs, u, new_head)) :=
        for_cells (seq_add_body (size kv) seq p0 p1 d) 0 (cells kv)
          (has_shift kv, used kv, size kv) in
      set_head (if negb (new_head =? size kv) then new_head else 0)
        (set_used u (set_has_shift hs (set_cells cs kv))).

(** ** seq_div

    [pos /= d] is the truncating division of C++ ([Z.quot]); a division by
    zero is undefined, and the model returns [None] when some cell would be
    divided by [d = 0]. The dividend is never negative ([p0 <= pos] with
    [p0] normalised), so the quotient cannot overflow. *)

Definition seq_div_body (seq p0 p1 d : Z) (i : Z) (c : llama_kv_cell)
    (hs : bool) : llama_kv_cell * bool :=
  if has_seq_id c seq && in_range p0 p1 c then
    let p_old := pos c in
    let c1 := set_pos (Z.quot (pos c) d) c in
    (set_delta (wrap_i32 (delta c1 + wrap_i32 (pos c1 - p_old))) c1, true)
  else (c, hs).

Definition seq_div_recurrent (kv : llama_kv_cache) (seq p0 p1 d : Z)
    : option llama_kv_cache :=
  if (0 <=? seq) && (seq <? size kv) then
    let tail_id := tail (cell_at (cells kv) seq) in
    if 0 <=? tail_id then
      let cell := cell_at (cells kv) tail_id in
      if has_seq_id cell seq && in_range p0 p1 cell then
        if d =? 0 then None
        else Some (set_cells (upd tail_id (λ c, set_pos (Z.quot (pos c) d) c) (cells kv)) kv)
      else Some kv
    else Some kv
  else Some kv.

Definition seq_div (kv : llama_kv_cache) (seq p0 p1 d : Z)
    : option llama_kv_cache :=
  if d =? 1 then Some kv
  else
    let p0 := norm_p0 p0 in
    let p1 := norm_p1 p1 in
    if p0 =? p1 then Some kv
    else if recurrent kv then seq_div_recurrent kv seq p0 p1 d
    else
      if (d =? 0) && existsb (λ c, has_seq_id c seq && in_range p0 p1 c) (cells kv)
      then None
      else
        let '(cs, hs) :=
          for_cells (seq_div_body seq p0 p1 d) 0 (cells kv) (has_shift kv) in
        Some (set_has_shift hs (set_cells cs kv)).

(** ** seq_pos_max *)

Definition seq_pos_max_body (seq : Z) (i : Z) (c : llama_kv_cell) (result : Z)
    : llama_kv_cell * Z :=
  (c, if has_seq_id c seq then Z.max result (pos c) else result).

Definition seq_pos_max (kv : llama_kv_cache) (seq : Z) : Z :=
  snd (for_cells (seq_pos_max_body seq) 0 (cells kv) 0).

(** ** Micro-batches and slot descriptors *)

(** Modelled from the spec: [struct llama_ubatch] is declared in
    llama-batch.h, which is not part of the sources at hand. The spec
    (section 6) lists [n_tokens], [n_seqs], [n_seq_tokens], [equal_seqs],
    [pos[n_tokens]], [n_seq_id[n_seqs]] and the ragged [seq_id[n_seqs][*]]. *)
Record llama_ubatch := mk_ubatch {
  equal_seqs   : bool;
  n_tokens     : Z;                (* uint32_t *)
  n_seq_tokens : Z;                (* uint32_t *)
  n_seqs       : Z;                (* uint32_t *)
  ub_pos       : list Z;           (* llama_pos *    *)
  ub_n_seq_id  : list Z;           (* int32_t *      *)
  ub_seq_id    : list (list Z);    (* llama_seq_id ** *)
}.

(** Modelled from the spec: [struct llama_kv_cache_slot_info] is declared
    in llama-kv-cache.h; the spec (section 6) gives [SlotInfo{ok, begin,
    end}], the failure being [{ok = false}]. *)
Record llama_kv_cache_slot_info := mk_slot_info {
  found      : bool;
  boundaries : Z * Z;
}.

Definition llama_kv_cache_slot_info_failed : llama_kv_cache_slot_info :=
  {| found := false; boundaries := (0, 0) |}.

(** [ubatch.seq_id[s][j]]; [None] when the batch has no such entry. *)
Definition batch_id (ub : llama_ubatch) (s j : Z) : option Z :=
  ids ← ub_seq_id ub !! Z.to_nat s; ids !! Z.to_nat j.

(** Counted loops whose body may read outside an array ([None]). *)
Fixpoint for_opt {T : Type} (k : nat) (i : Z) (body : Z → T → option T) (s : T)
    : option T :=
  match k with
  | O => Some s
  | S k' => s' ← body i s; for_opt k' (i + 1) body s'
  end.

(** Counted loops whose body may also [return] from the function ([inr]). *)
Fixpoint for_ret {T R : Type} (k : nat) (i : Z) (body : Z → T → option (T + R))
    (s : T) : option (T + R) :=
  match k with
  | O => Some (inl s)
  | S k' =>
      r ← body i s;
      match r with
      | inl s' => for_ret k' (i + 1) body s'
      | inr x => Some (inr x)
      end
  end.

(** ** find_slot, one cell per token *)

(** The inner [for] of the search: the first offset [i < n_tokens] whose
    cell is occupied, if any. *)
Inductive probe := AllFree | Occupied (i : Z) | OutOfBounds.

Fixpoint probe_run (cs : list llama_kv_cell) (hd : Z) (k : nat) (i : Z) : probe :=
  match k with
  | O => AllFree
  | S k' =>
      match get cs (wrap_u32 (hd + i)) with
      | None => OutOfBounds
      | Some c => if 0 <=? pos c then Occupied i else probe_run cs hd k' (i + 1)
      end
  end.

(** The [while (true)] of the search, on the scalars [head] and [n_tested].
    [Some (true, h)] is the [break] with the run at [h]; [Some (false, h)]
    is the failing [return], [head] being left at [h]; [None] is an
    exhausted [fuel] or a read outside the vector. *)
Fixpoint find_loop (fuel : nat) (cs : list llama_kv_cell) (sz ntok : Z)
    (hd n_tested : Z) : option (bool * Z) :=
  match fuel with
  | O => None
  | S fuel' =>
      if sz <? wrap_u32 (hd + ntok) then
        find_loop fuel' cs sz ntok 0 (wrap_u32 (n_tested + wrap_u32 (sz - hd)))
      else
        match probe_run cs hd (Z.to_nat ntok) 0 with
        | AllFree => Some (true, hd)
        | Occupied i =>
            let hd' := wrap_u32 (hd + (i + 1)) in
            let n_tested' := wrap_u32 (n_tested + (i + 1)) in
            if sz <=? n_tested' then Some (false, hd')
            else find_loop fuel' cs sz ntok hd' n_tested'
        | OutOfBounds => None
        end
  end.

(** The body of the innermost loop, [cells[head + k].seq_id.insert(...)]
    for [j < n_seq_id[s]], after [cells[head + k].pos = ubatch.pos[k]]. *)
Definition stamp_token (ub : llama_ubatch) (hd s : Z) (i : Z)
    (cs : list llama_kv_cell) : option (list llama_kv_cell) :=
  let k := wrap_u32 (s * n_seq_tokens ub + i) in
  p ← ub_pos ub !! Z.to_nat k;
  _ ← get cs (wrap_u32 (hd + k));
  cnt ← ub_n_seq_id ub !! Z.to_nat s;
  for_opt (Z.to_nat cnt) 0
    (λ j cs', id ← batch_id ub s j;
              Some (upd (wrap_u32 (hd + k)) (seq_insert id) cs'))
    (upd (wrap_u32 (hd + k)) (set_pos p) cs).

Definition stamp (ub : llama_ubatch) (hd : Z) (cs : list llama_kv_cell)
    : option (list llama_kv_cell) :=
  for_opt (Z.to_nat (n_seqs ub)) 0
    (λ s cs', for_opt (Z.to_nat (n_seq_tokens ub)) 0 (stamp_token ub hd s) cs')
    cs.

Definition find_slot_transformer (fuel : nat) (kv : llama_kv_cache)
    (ub : llama_ubatch) : option (llama_kv_cache * llama_kv_cache_slot_info) :=
  if size kv <? n_tokens ub then Some (kv, llama_kv_cache_slot_info_failed)
  else
    match find_loop fuel (cells kv) (size kv) (n_tokens ub) (head kv) 0 with
    | None => None
    | Some (false, hd) => Some (set_head hd kv, llama_kv_cache_slot_info_failed)
    | Some (true, hd) =>
        cs ← stamp ub hd (cells kv);
        Some (set_used (wrap_u32 (used kv + n_tokens ub))
                (set_cells cs (set_head hd kv)),
              {| found := true; boundaries := (hd, wrap_u32 (hd + n_tokens ub)) |})
    end.

(** ** find_slot, one tail cell per sequence (recurrent models)

    [None] is a failed [GGML_ASSERT] (the process aborts) or an access
    outside the vector or the batch arrays. *)

(** The body of the first loop nest: the id [ubatch.seq_id[s][j]] is range
    checked ([inr] is the early failing [return]) and, for [j > 0], taken
    out of the cell that was its tail. *)
Definition fs_check_id (ub : llama_ubatch) (s j : Z) (kv : llama_kv_cache)
    : option (llama_kv_cache + llama_kv_cache) :=
  seq ← batch_id ub s j;
  if (seq <? 0) || (size kv <=? wrap_u32 seq) then Some (inr kv)
  else if 0 <? j then
    seq_c ← get (cells kv) seq;
    if 0 <=? tail seq_c then
      cell ← get (cells kv) (tail seq_c);
      (* clear cells from seq_ids that become shared *)
      let cs1 := upd (tail seq_c) (seq_erase seq) (cells kv) in
      let cs2 := upd seq (set_tail (-1)) cs1 in
      if is_empty (seq_erase seq cell) then
        Some (inl (set_used (wrap_u32 (used kv - 1))
                     (set_cells
                        (upd (tail seq_c) (λ c, set_src (-1) (set_pos (-1) c)) cs2)
                        kv)))
      else Some (inl (set_cells cs2 kv))
    else Some (inl kv)
  else Some (inl kv).

Definition fs_check (ub : llama_ubatch) (kv : llama_kv_cache)
    : option (llama_kv_cache + llama_kv_cache) :=
  for_ret (Z.to_nat (n_seqs ub)) 0
    (λ s kv',
       cnt ← ub_n_seq_id ub !! Z.to_nat s;
       for_ret (Z.to_nat (wrap_u32 cnt)) 0 (fs_check_id ub s) kv')
    kv.

(** "find next empty cell": at most [k] probes, from [next]. *)
Fixpoint next_empty (k : nat) (cs : list llama_kv_cell) (sz next : Z) : option Z :=
  match k with
  | O => Some next
  | S k' =>
      let next := if sz <=? next then wrap_u32 (next - sz) else next in
      cell ← get cs next;
      if is_empty cell then Some next
      else next_empty k' cs sz (wrap_u32 (next + 1))
  end.

(** "find usable cell range": group [s] keeps the tail it owns alone or
    claims [next_empty_cell]. The scalars are [next_empty_cell], [min] and
    [max]. *)
Definition fs_claim (ub : llama_ubatch) (sz : Z) (s : Z)
    (st : list llama_kv_cell * Z * Z * Z)
    : option (list llama_kv_cell * Z * Z * Z) :=
  let '(cs, nxt, mn, mx) := st in
  seq ← batch_id ub s 0;
  seq_meta ← get cs seq;
  has_cell ←
    (if 0 <=? tail seq_meta then
       cell ← get cs (tail seq_meta);
       if has_seq_id cell seq                       (* GGML_ASSERT *)
       then Some (bool_decide (base.size (seq_id cell) = 1%nat))
       else None
     else Some false);
  r ←
    (if has_cell : bool then Some (cs, nxt)
     else
       empty_cell ← get cs nxt;
       if is_empty empty_cell then                  (* GGML_ASSERT *)
         cs1 ←
           (if 0 <=? tail seq_meta then
              (* copy old tail into the empty cell *)
              orig_cell ← get cs (tail seq_meta);
              Some (upd nxt (seq_insert seq)
                      (upd (tail seq_meta) (seq_erase seq)
                         (upd nxt (λ c, set_src (src orig_cell)
                                          (set_pos (pos orig_cell) c)) cs)))
            else Some cs);
         let cs2 := upd seq (set_tail (wrap_i32 nxt)) cs1 in
         nxt' ←
           (if wrap_u32 (s + 1) <? n_seqs ub
            then next_empty (length cs2) cs2 sz (wrap_u32 (nxt + 1))
            else Some nxt);
         Some (cs2, nxt')
       else None);
  let '(cs', nxt') := r in
  seq_meta' ← get cs' seq;
  Some (cs', nxt',
        if tail seq_meta' <? mn then tail seq_meta' else mn,
        if mx <? tail seq_meta' then tail seq_meta' else mx).

(** [for (seq_id : ids) cells[seq_id].tail = v]. *)
Definition set_tails (ids : gset Z) (v : Z) (cs : list llama_kv_cell)
    : option (list llama_kv_cell) :=
  foldl (λ acc id, cs' ← acc; _ ← get cs' id; Some (upd id (set_tail v) cs'))
    (Some cs) (elements ids).

(** "gather and re-order": the tail of group [s] is swapped into cell
    [min + s]. [std::swap] exchanges [pos], [src] and the seq-id sets. *)
Definition swap_in (from c : llama_kv_cell) : llama_kv_cell :=
  set_seq_id (seq_id from) (set_src (src from) (set_pos (pos from) c)).

Definition fs_gather (ub : llama_ubatch) (mn : Z) (s : Z)
    (cs : list llama_kv_cell) : option (list llama_kv_cell) :=
  let dst_id := wrap_i32 (s + mn) in
  seq ← batch_id ub s 0;
  seq_c ← get cs seq;
  let src_id := tail seq_c in
  if dst_id =? src_id then Some cs
  else
    dst_cell ← get cs dst_id;
    src_cell ← get cs src_id;
    let cs1 := upd src_id (swap_in dst_cell) (upd dst_id (swap_in src_cell) cs) in
    (* swap tails (assuming they NEVER overlap) *)
    cs2 ← set_tails (seq_id dst_cell) src_id cs1;
    set_tails (seq_id src_cell) dst_id cs2.

(** "update the pos of the used seqs". *)
Definition fs_stamp (ub : llama_ubatch) (mn : Z) (s : Z)
    (cs : list llama_kv_cell) : option (list llama_kv_cell) :=
  last_pos ← ub_pos ub !! Z.to_nat (wrap_u32 (n_seq_tokens ub * s + n_seq_tokens ub - 1));
  let cell_id := wrap_i32 (s + mn) in
  _ ← get cs cell_id;
  cnt ← ub_n_seq_id ub !! Z.to_nat s;
  for_opt (Z.to_nat cnt) 0
    (λ j cs',
       seq ← batch_id ub s j;
       _ ← get cs' seq;
       Some (upd seq (set_tail cell_id) (upd cell_id (seq_insert seq) cs')))
    (upd cell_id (λ c, seq_clear (set_pos last_pos c)) cs).

(** [std::count_if(cells.begin(), cells.end(), !is_empty)]. *)
Definition count_non_empty (cs : list llama_kv_cell) : Z :=
  Z.of_nat (length (filter (λ c, is_empty c = false) cs)).

Definition find_slot_recurrent (kv : llama_kv_cache) (ub : llama_ubatch)
    : option (llama_kv_cache * llama_kv_cache_slot_info) :=
  if negb (equal_seqs ub) then None                (* GGML_ASSERT *)
  else
    let sz := size kv in
    let nseq := Z.to_nat (n_seqs ub) in
    r ← fs_check ub kv;
    match r with
    | inr kv' => Some (kv', llama_kv_cache_slot_info_failed)
    | inl kv1 =>
        nxt ← next_empty (length (cells kv1)) (cells kv1) sz (head kv1);
        st ← for_opt nseq 0 (fs_claim ub sz) (cells kv1, nxt, wrap_i32 (sz - 1), 0);
        let '(cs1, _, mn, mx) := st in
        cs2 ← for_opt nseq 0 (fs_gather ub mn) cs1;
        cs3 ← for_opt nseq 0 (fs_stamp ub mn) cs2;
        (* allow getting the range of used cells, from head to head + n *)
        let n' := wrap_u32 (mx - mn + 1) in
        Some (set_used (wrap_u32 (count_non_empty cs3))
                (set_n n' (set_head (wrap_u32 mn) (set_cells cs3 kv1))),
              {| found := n_seqs ub <=? n'; boundaries := (0, 0) |})
    end.

(** ** find_slot

    The search loop of the transformer branch is given enough fuel for any
    pool of at most 2^30 cells (see [find_loop_returns] below). *)

Definition find_slot (kv : llama_kv_cache) (ub : llama_ubatch)
    : option (llama_kv_cache * llama_kv_cache_slot_info) :=
  if recurrent kv then find_slot_recurrent kv ub
  else find_slot_transformer (4 * length (cells kv) + 4) kv ub.

(** ** The public operations as data *)

Inductive kv_op :=
  | Op_find_slot (ub : llama_ubatch)
  | Op_seq_rm (seq p0 p1 : Z)
  | Op_seq_cp (seq_src seq_dst p0 p1 : Z)
  | Op_seq_keep (seq : Z)
  | Op_seq_add (seq p0 p1 d : Z)
  | Op_seq_div (seq p0 p1 d : Z)
  | Op_clear.

Inductive kv_ret :=
  | Ret_void
  | Ret_bool (b : bool)
  | Ret_slot (si : llama_kv_cache_slot_info).

(** One call; [None] when the call does not return (see [find_slot] and
    [seq_div]). *)
Definition run_op (kv : llama_kv_cache) (op : kv_op)
    : option (llama_kv_cache * kv_ret) :=
  match op with
  | Op_find_slot ub => r ← find_slot kv ub; Some (r.1, Ret_slot r.2)
  | Op_seq_rm seq p0 p1 =>
      let r := seq_rm kv seq p0 p1 in Some (r.1, Ret_bool r.2)
  | Op_seq_cp s d p0 p1 => Some (seq_cp kv s d p0 p1, Ret_void)
  | Op_seq_keep seq => Some (seq_keep kv seq, Ret_void)
  | Op_seq_add seq p0 p1 d => Some (seq_add kv seq p0 p1 d, Ret_void)
  | Op_seq_div seq p0 p1 d => kv' ← seq_div kv seq p0 p1 d; Some (kv', Ret_void)
  | Op_clear => Some (clear kv, Ret_void)
  end.

(** A sequence of calls, each one returning. *)
Fixpoint run_ops (kv : llama_kv_cache) (ops : list kv_op) : option llama_kv_cache :=
  match ops with
  | [] => Some kv
  | op :: rest => r ← run_op kv op; run_ops r.1 rest
  end.

(** ** Notions of the specification *)

(** "A cell is occupied iff [pos >= 0]"; the number of occupied cells. *)
Definition occupied (c : llama_kv_cell) : bool := 0 <=? pos c.

Definition n_occupied (cs : list llama_kv_cell) : Z :=
  Z.of_nat (length (filter (λ c, occupied c = true) cs)).

(** The cell [c] is matched by a sweep over [(seq, [p0, p1))], the bounds
    being already normalised. *)
Definition matches (seq p0 p1 : Z) (c : llama_kv_cell) : bool :=
  has_seq_id c seq && in_range p0 p1 c.

(** ** The failures of seq_rm *)

(** "Partial intersection": the position of the cell lies at or beyond a
    bound that is not the open end of the range. *)
Definition partial_overlap (p0 p1 : Z) (c : llama_kv_cell) : Prop :=
  (0 < p0 ∧ p0 <= pos c) ∨ (0 < p1 ∧ p1 <= pos c).

(** The tail cell of sequence [seq] (meaningful when [0 <= seq < size] and
    the tail index is not negative). *)
Definition tail_cell (kv : llama_kv_cache) (seq : Z) : llama_kv_cell :=
  cell_at (cells kv) (tail (cell_at (cells kv) seq)).

(** The range [[p0, p1)] holds no position. *)
Definition range_empty (p0 p1 : Z) : Prop := ∀ p, ¬ (p0 <= p < p1).

(** The range [[p0, p1)] is the whole of the positions. *)
Definition range_all (p0 p1 : Z) : Prop := p0 = 0 ∧ p1 = INT32_MAX.

(** The failure condition of [seq_rm] in the words of the spec: the model
    is recurrent and [seq >= size], or the tail of [seq >= 0] partially
    overlaps the range, or [seq < 0] with a range neither empty nor
    all-inclusive. *)
Definition seq_rm_fails_as_specified (kv : llama_kv_cache) (seq p0 p1 : Z) : Prop :=
  recurrent kv = true ∧
  (size kv <= seq
   ∨ (0 <= seq ∧ 0 <= tail (cell_at (cells kv) seq) ∧
      partial_overlap (norm_p0 p0) (norm_p1 p1) (tail_cell kv seq))
   ∨ (seq < 0 ∧ ¬ range_empty (norm_p0 p0) (norm_p1 p1)
              ∧ ¬ range_all (norm_p0 p0) (norm_p1 p1))).

(** The failure condition the source implements: as above, with
    [p0 = p1] (after normalisation) in place of "empty". *)
Definition seq_rm_fails (kv : llama_kv_cache) (seq p0 p1 : Z) : Prop :=
  recurrent kv = true ∧
  (size kv <= seq
   ∨ (0 <= seq ∧ 0 <= tail (cell_at (cells kv) seq) ∧
      partial_overlap (norm_p0 p0) (norm_p1 p1) (tail_cell kv seq))
   ∨ (seq < 0 ∧ norm_p0 p0 ≠ norm_p1 p1
              ∧ ¬ range_all (norm_p0 p0) (norm_p1 p1))).

(** ** The sweeps, cell by cell

    What the sweep of [seq_div], and of [seq_add], makes of one cell: the
    new cell depends on no scalar of the loop. *)
Definition seq_div_cell (seq p0 p1 d : Z) (c : llama_kv_cell) : llama_kv_cell :=
  (seq_div_body seq p0 p1 d 0 c false).1.

Definition seq_add_cell (seq p0 p1 d : Z) (c : llama_kv_cell) : llama_kv_cell :=
  (seq_add_body 0 seq p0 p1 d 0 c (false, 0, 0)).1.

(** ** What clear leaves behind

    [clear] writes [pos], [seq_id], [src] and [tail] of every cell and
    [head] and [used]; it writes neither [delta] nor [has_shift], [n] and
    [do_defrag]. [forget] erases these four from a state. *)
Definition forget_cell (c : llama_kv_cell) : llama_kv_cell := set_delta 0 c.

Definition forget (kv : llama_kv_cache) : llama_kv_cache :=
  {| has_shift := false; do_defrag := false; recurrent := recurrent kv;
     head := head kv; used := used kv; n := 0;
     cells := map forget_cell (cells kv) |}.

(** Two vectors of cells equal up to [delta]. *)
Definition cells_eq (cs1 cs2 : list llama_kv_cell) : Prop :=
  map forget_cell cs1 = map forget_cell cs2.

Definition forget_result (r : option (llama_kv_cache * kv_ret))
    : option (llama_kv_cache * kv_ret) :=
  (λ x, (forget x.1, x.2)) <$> r.

(** Two states equal up to what [forget] erases. *)
Definition kv_eq (k1 k2 : llama_kv_cache) : Prop := forget k1 = forget k2.

(** The same for the scalars and cells threaded through "find usable cell
    range". *)
Definition claim_eq (s1 s2 : list llama_kv_cell * Z * Z * Z) : Prop :=
  cells_eq s1.1.1.1 s2.1.1.1 ∧ s1.1.1.2 = s2.1.1.2 ∧ s1.1.2 = s2.1.2 ∧ s1.2 = s2.2.

(** ** Runs of free cells

    The cell of index [k] exists and is free ([pos < 0]); [n] consecutive
    free cells start at [h]; no such run starts in [[a, b)]. *)
Definition free_at (cs : list llama_kv_cell) (k : Z) : Prop :=
  ∃ c, get cs k = Some c ∧ pos c < 0.

Definition free_run (cs : list llama_kv_cell) (ntok h : Z) : Prop :=
  0 <= h ∧ h + ntok <= Z.of_nat (length cs) ∧
  ∀ k, h <= k < h + ntok → free_at cs k.

Definition no_run_in (cs : list llama_kv_cell) (ntok a b : Z) : Prop :=
  ∀ h, a <= h < b → ¬ free_run cs ntok h.

Definition no_run (cs : list llama_kv_cell) (ntok : Z) : Prop :=
  ∀ h, ¬ free_run cs ntok h.

(** [h] is the first run met when the starts are tried from [h0] upwards
    and then, once, from 0 up to [h0]. *)
Definition first_run_from (cs : list llama_kv_cell) (ntok h0 h : Z) : Prop :=
  free_run cs ntok h ∧
  ((h0 <= h ∧ no_run_in cs ntok h0 h) ∨
   (h < h0 ∧ no_run_in cs ntok h0 (Z.of_nat (length cs) + 1) ∧ no_run_in cs ntok 0 h)).

(** The search loop again, counting the executions of
    [n_tested += size - head; head = 0; continue]. *)
Fixpoint find_loop_wraps (fuel : nat) (cs : list llama_kv_cell) (sz ntok : Z)
    (hd n_tested : Z) (wraps : nat) : option (bool * Z * nat) :=
  match fuel with
  | O => None
  | S fuel' =>
      if sz <? wrap_u32 (hd + ntok) then
        find_loop_wraps fuel' cs sz ntok 0
          (wrap_u32 (n_tested + wrap_u32 (sz - hd))) (S wraps)
      else
        match probe_run cs hd (Z.to_nat ntok) 0 with
        | AllFree => Some (true, hd, wraps)
        | Occupied i =>
            let hd' := wrap_u32 (hd + (i + 1)) in
            let n_tested' := wrap_u32 (n_tested + (i + 1)) in
            if sz <=? n_tested' then Some (false, hd', wraps)
            else find_loop_wraps fuel' cs sz ntok hd' n_tested' wraps
        | OutOfBounds => None
        end
  end.

(** What the search knows at the top of the loop, having started at [h0]:
    before any wrap, the starts of [[h0, hd)] hold no run; after the first
    wrap so do those from [h0] on and those of [[0, hd)]; and once
    [n_tested] has reached [size] no run is left to be found. *)
Definition scan_inv (cs : list llama_kv_cell) (ntok h0 hd nt : Z) (w : nat) : Prop :=
  let sz := Z.of_nat (length cs) in
  (h0 <= hd <= sz ∧ nt = hd - h0 ∧ w = 0%nat ∧ no_run_in cs ntok h0 hd)
  ∨ (0 <= hd < h0 ∧ nt = sz - h0 + hd ∧ w = 1%nat ∧
     no_run_in cs ntok h0 (sz + 1) ∧ no_run_in cs ntok 0 hd)
  ∨ (hd = 0 ∧ sz <= nt <= 2 * sz ∧ (w <= 2)%nat ∧ no_run cs ntok).

Definition scan_rank (sz ntok hd nt : Z) : Z :=
  2 * (2 * sz + 1 - nt) - (if hd + ntok <=? sz then 1 else 0).

(** ** The search, in the words of the spec

    "Scan linearly from [head] [...]. On mismatch at offset [i], advance
    the cursor by [i + 1] (skipping the known-occupied cell). Fail if the
    scan covers >= [size] cells without success."

    [first_mismatch cs hd ntok i]: of the [ntok] cells from [hd] on, the
    cell at offset [i] is the first that is not free. *)
Definition first_mismatch (cs : list llama_kv_cell) (hd ntok i : Z) : Prop :=
  0 <= i < ntok ∧ ¬ free_at cs (hd + i) ∧ ∀ j, 0 <= j < i → free_at cs (hd + j).

(** [scans cs sz ntok hd nt r]: the scan from the cursor [hd], [nt] cells
    being counted as covered so far, has the outcome [r]: [(true, h)] is
    the run found at [h], and [(false, h)] the failure, the cursor being
    left at [h]. A cursor with no room for [ntok] cells goes back to 0,
    the cells up to the end counting as covered. *)
Inductive scans (cs : list llama_kv_cell) (sz ntok : Z) : Z → Z → bool * Z → Prop :=
  | scans_wrap hd nt r :
      sz < hd + ntok →
      scans cs sz ntok 0 (nt + (sz - hd)) r →
      scans cs sz ntok hd nt r
  | scans_found hd nt :
      hd + ntok <= sz →
      (∀ j, 0 <= j < ntok → free_at cs (hd + j)) →
      scans cs sz ntok hd nt (true, hd)
  | scans_skip hd nt i r :
      hd + ntok <= sz → first_mismatch cs hd ntok i →
      nt + (i + 1) < sz →
      scans cs sz ntok (hd + (i + 1)) (nt + (i + 1)) r →
      scans cs sz ntok hd nt r
  | scans_give_up hd nt i :
      hd + ntok <= sz → first_mismatch cs hd ntok i →
      sz <= nt + (i + 1) →
      scans cs sz ntok hd nt (false, hd + (i + 1)).

(** ** Stamping, in the words of the spec

    "For each token [k = s * n_seq_tokens + i], set
    [cells[head + k].pos := ubatch.pos[k]] and insert every seq-id from
    [ubatch.seq_id[s]] into that cell's set." *)

(** The ids of group [s]: the first [n_seq_id[s]] entries of [seq_id[s]]. *)
Definition group_ids (ub : llama_ubatch) (s : Z) : list Z :=
  match ub_n_seq_id ub !! Z.to_nat s, ub_seq_id ub !! Z.to_nat s with
  | Some cnt, Some ids => take (Z.to_nat cnt) ids
  | _, _ => []
  end.

(** The batch is as section 6 of the spec has it: [n_tokens = n_seqs *
    n_seq_tokens], and the arrays are as long as these counts say. *)
Definition ubatch_wf (ub : llama_ubatch) : Prop :=
  0 <= n_seqs ub ∧ 0 <= n_seq_tokens ub ∧
  n_tokens ub = n_seqs ub * n_seq_tokens ub ∧
  n_tokens ub <= Z.of_nat (length (ub_pos ub)) ∧
  ∀ s, 0 <= s < n_seqs ub →
    ∃ cnt ids, ub_n_seq_id ub !! Z.to_nat s = Some cnt ∧
               ub_seq_id ub !! Z.to_nat s = Some ids ∧
               cnt <= Z.of_nat (length ids).

(** The cell of token [k] after stamping. *)
Definition stamp_cell (ub : llama_ubatch) (k : Z) (c : llama_kv_cell) : llama_kv_cell :=
  set_seq_id (list_to_set (group_ids ub (k / n_seq_tokens ub)) ∪ seq_id c)
    (set_pos (nth (Z.to_nat k) (ub_pos ub) 0) c).

(** The pool once the tokens [0 .. done) of the batch are stamped into the
    cells from [h] on; every other cell is as it was. *)
Definition stamped (ub : llama_ubatch) (h done : Z) (cs : list llama_kv_cell)
    : list llama_kv_cell :=
  imap (λ idx c, let k := Z.of_nat idx - h in
                 if (0 <=? k) && (k <? done) then stamp_cell ub k c else c) cs.

(** ** Sequences of operations on a transformer pool *)

(** The calls the invariant of [used] is proved for: batches as section 6
    of the spec has them, with token positions that are not negative, and
    divisors that are positive. *)
Definition op_wf (op : kv_op) : Prop :=
  match op with
  | Op_find_slot ub => ubatch_wf ub ∧ Forall (λ p, 0 <= p) (ub_pos ub)
  | Op_seq_div _ _ _ d => 0 < d
  | _ => True
  end.

(** What every call keeps on a transformer pool. *)
Definition kv_inv (kv : llama_kv_cache) : Prop :=
  recurrent kv = false ∧ size kv <= 1073741824 ∧ 0 <= head kv <= size kv ∧
  used kv = n_occupied (cells kv).

(** ** Tails of a recurrent pool

    "For every sequence id [s] with [cells[s].tail >= 0], the cell of index
    [cells[s].tail] contains [s]." *)
Definition tails_point_home (kv : llama_kv_cache) : Prop :=
  ∀ s, 0 <= s < size kv → 0 <= tail (cell_at (cells kv) s) → s ∈ seq_id (tail_cell kv s).

(** ** Scenarios

    Batches and sequences of calls the properties are tried on; S1 to S6
    are the boundary scenarios of the spec (section 8). *)

(** The batch of the recurrent scenario of the spec (S6): one sequence,
    id 0, two tokens at positions 5 and 6. *)
Definition ub_S6 : llama_ubatch :=
  {| equal_seqs := true; n_tokens := 2; n_seq_tokens := 2; n_seqs := 1;
     ub_pos := [5; 6]; ub_n_seq_id := [1]; ub_seq_id := [[0]] |}.

(** A batch of one sequence, id 0, with the given token positions. *)
Definition ub_seq0 (ps : list Z) : llama_ubatch :=
  {| equal_seqs := true; n_tokens := Z.of_nat (length ps);
     n_seq_tokens := Z.of_nat (length ps); n_seqs := 1;
     ub_pos := ps; ub_n_seq_id := [1]; ub_seq_id := [[0]] |}.

(** A recurrent pool of four cells after S6 and a shift of sequence 0 by
    -10: the tail of sequence 0 is left at position -4. *)
Definition ops_shifted_tail : list kv_op :=
  [Op_find_slot ub_S6; Op_seq_add 0 0 (-1) (-10)].

(** S6 followed by the removal of every sequence over the whole range. *)
Definition ops_rm_all : list kv_op :=
  [Op_find_slot ub_S6; Op_seq_rm (-1) (-1) (-1)].

(** A transformer pool of eight cells filled by one batch (the state of
    scenario S3 of the spec). *)
Definition ops_fill8 : list kv_op :=
  [Op_find_slot (ub_seq0 [0; 1; 2; 3; 4; 5; 6; 7])].

(** A pool of eight cells filled by a batch of seven tokens and a batch of
    one: the pool is full and [head] is left at 7, where the second search
    stopped. *)
Definition ops_fill7_1 : list kv_op :=
  [Op_find_slot (ub_seq0 [0; 1; 2; 3; 4; 5; 6]); Op_find_slot (ub_seq0 [7])].

(** A transformer pool of eight cells holding sequence 0 at the positions
    0 to 7, and the division of these positions by -1. *)
Definition ops_div_negative : list kv_op :=
  ops_fill8 ++ [Op_seq_div 0 0 (-1) (-1)].

(** The full pool of [ops_fill7_1] after the cells 0 and 1 are freed and a
    search for three tokens has failed: the cells 0 and 1 are free and
    [head] is left at 3. *)
Definition ops_free_behind_head : list kv_op :=
  ops_fill7_1 ++ [Op_seq_rm 0 0 2; Op_find_slot (ub_seq0 [8; 9; 10])].

(** A transformer pool of eight cells filled by one batch, with the cells
    2, 5 and 6 freed again, after a search for three tokens has failed
    and left [head] at 8. *)
Definition ops_holes : list kv_op :=
  ops_fill8 ++ [Op_seq_rm 0 2 3; Op_seq_rm 0 5 7;
                Op_find_slot (ub_seq0 [8; 9; 10])].

(** A batch with a negative token position on a transformer pool. *)
Definition ops_negative_pos : list kv_op := [Op_find_slot (ub_seq0 [-1])].

(** Scenarios S1 and S2 of the spec on a transformer pool, followed by a
    division of the positions of sequence 0 by 2. *)
Definition ops_S2_div : list kv_op :=
  [Op_find_slot (ub_seq0 [0; 1; 2]); Op_seq_rm 0 1 2;
   Op_find_slot (ub_seq0 [3; 4]); Op_seq_div 0 0 (-1) 2].

(** A transformer pool of one cell holding sequence 0 at position 0 (the
    state of scenario S5 of the spec). *)
Definition ops_S5 : list kv_op := [Op_find_slot (ub_seq0 [0])].

(** A transformer pool of one cell whose only cell was stamped and then
    shifted by +1. *)
Definition ops_shifted_once : list kv_op :=
  [Op_find_slot (ub_seq0 [1]); Op_seq_add 0 0 (-1) 1].

(** ** The queries of the pool *)

(** [llama_kv_cache::n_tokens], which [llama_kv_cache_n_tokens] returns:
    [result += cells[i].seq_id.size()] on an [int32_t], for [i < size]. *)
Definition n_tokens_body (i : Z) (c : llama_kv_cell) (result : Z)
    : llama_kv_cell * Z :=
  (c, wrap_i32 (result + Z.of_nat (base.size (seq_id c)))).

Definition llama_kv_cache_n_tokens (kv : llama_kv_cache) : Z :=
  snd (for_cells n_tokens_body 0 (cells kv) 0).

(** [llama_kv_cache_used_cells]: the [uint32_t] counter read as [int32_t]. *)
Definition llama_kv_cache_used_cells (kv : llama_kv_cache) : Z :=
  wrap_i32 (used kv).

(** [llama_kv_cache::max_pos]: [std::max] over all the cells, from -1. *)
Definition max_pos (kv : llama_kv_cache) : Z :=
  foldl (λ m cell, Z.max m (pos cell)) (-1) (cells kv).

(** [llama_kv_cache::cell_max]: [for (i = size; i > 0; --i)], the first
    [i] whose cell [i - 1] has [pos >= 0] and a seq-id, or 0. *)
Fixpoint cell_max_from (cs : list llama_kv_cell) (i : nat) : Z :=
  match i with
  | O => 0
  | S i' =>
      let cell := cell_at cs (Z.of_nat i') in
      if (0 <=? pos cell) && negb (is_empty cell) then Z.of_nat i
      else cell_max_from cs i'
  end.

Definition cell_max (kv : llama_kv_cache) : Z :=
  cell_max_from (cells kv) (length (cells kv)).

(** [llama_kv_cache::get_padding], of [cparams.flash_attn]. *)
Definition get_padding (flash_attn : bool) : Z :=
  if flash_attn then 256 else 32.

(** ** defrag *)

Definition set_do_defrag (v : bool) (kv : llama_kv_cache) : llama_kv_cache :=
  {| has_shift := has_shift kv; do_defrag := v; recurrent := recurrent kv;
     head := head kv; used := used kv; n := n kv; cells := cells kv |}.

Definition defrag (kv : llama_kv_cache) : llama_kv_cache :=
  if negb (recurrent kv) then set_do_defrag true kv else kv.

(** ** The view of the pool

    [llama_kv_cache_view_init], [llama_kv_cache_view_free] and
    [llama_kv_cache_view_update].

    The two buffers of a view are lists, [None] being [nullptr]; an
    element is [None] as long as nothing was written to it since
    [realloc] handed it out. Whether [realloc] grants the two requests of
    an update is an input of the model ([granted]); a refused request is
    a failed [GGML_ASSERT], and a write outside a buffer is undefined:
    the update returns [None] for both. *)

(** Modelled from the spec: [struct llama_kv_cache_view] is declared in
    llama.h, which is not part of the sources at hand. The fields are
    those of the initialiser of [llama_kv_cache_view_init], in its order,
    all [int32_t] but the two buffers; an element of [cells] holds one
    position (section 4.5 of the spec: "a per-cell record containing
    effective position"). *)
Record llama_kv_cache_view := mk_view {
  n_cells            : Z;
  n_seq_max          : Z;
  token_count        : Z;
  used_cells         : Z;
  max_contiguous     : Z;
  max_contiguous_idx : Z;
  view_cells         : option (list (option Z));   (* cells *)
  cells_sequences    : option (list (option Z));
}.

Definition llama_kv_cache_view_init (kv : llama_kv_cache) (n_seq_max : Z)
    : llama_kv_cache_view :=
  {| n_cells := 0; n_seq_max := n_seq_max; token_count := 0;
     used_cells := llama_kv_cache_used_cells kv;
     max_contiguous := 0; max_contiguous_idx := -1;
     view_cells := None; cells_sequences := None |}.

Definition llama_kv_cache_view_free (view : llama_kv_cache_view)
    : llama_kv_cache_view :=
  {| n_cells := n_cells view; n_seq_max := n_seq_max view;
     token_count := token_count view; used_cells := used_cells view;
     max_contiguous := max_contiguous view;
     max_contiguous_idx := max_contiguous_idx view;
     view_cells := None; cells_sequences := None |}.

(** The number of 4-byte elements in a block of [sizeof(...) * count]
    bytes, the product being computed in [size_t] (64 bits). *)
Definition alloc_len (count : Z) : nat :=
  Z.to_nat ((4 * count) mod 18446744073709551616 / 4).

(** [realloc(p, ...)] when granted: the old elements as far as the new
    block goes, then elements that hold nothing yet. *)
Definition realloc (old : option (list (option Z))) (len : nat)
    : list (option Z) :=
  take len (default [] old) ++ replicate (len - length (default [] old)) None.

(** [buf[k] = v]. *)
Definition store (buf : list (option Z)) (k v : Z) : option (list (option Z)) :=
  if (0 <=? k) && (k <? Z.of_nat (length buf))
  then Some (<[Z.to_nat k := Some v]> buf) else None.

(** The scalars and the two buffers of the loop of the update. *)
Record view_loop := mk_view_loop {
  l_cells           : list (option Z);
  l_seqs            : list (option Z);
  l_used_cells      : Z;    (* int32_t  *)
  l_token_count     : Z;    (* int32_t  *)
  l_curr_contig_idx : Z;    (* int32_t  *)
  l_max_contig      : Z;    (* uint32_t *)
  l_max_contig_idx  : Z;    (* int32_t  *)
}.

(** [for (it : kv_cells[i].seq_id) { if (seq_idx >= n_seq_max) break;
    cs_curr[seq_idx] = it; seq_idx++; }], the set being walked in
    increasing order; [cs_curr] is [cells_sequences + base]. *)
Fixpoint view_ids (nsm base : Z) (ids : list Z) (seq_idx : Z)
    (seqs : list (option Z)) : option (Z * list (option Z)) :=
  match ids with
  | [] => Some (seq_idx, seqs)
  | it :: rest =>
      if nsm <=? seq_idx then Some (seq_idx, seqs)
      else
        seqs' ← store seqs (base + seq_idx) it;
        view_ids nsm base rest (seq_idx + 1) seqs'
  end.

(** The body of the loop, for the cell [c] of index [i]. *)
Definition view_cell (nsm : Z) (i : Z) (c : llama_kv_cell) (st : view_loop)
    : option view_loop :=
  let curr_size := Z.of_nat (base.size (seq_id c)) in
  let token_count := wrap_i32 (l_token_count st + curr_size) in
  cells' ← store (l_cells st) i (wrap_i32 (pos c + delta c));
  let '(cci, mc, mci) :=
    if 0 <? curr_size then
      if (0 <=? l_curr_contig_idx st)
         && (l_max_contig st <? wrap_u32 (i - l_curr_contig_idx st))
      then (-1, wrap_u32 (i - l_curr_contig_idx st), l_curr_contig_idx st)
      else (-1, l_max_contig st, l_max_contig_idx st)
    else if l_curr_contig_idx st <? 0
      then (i, l_max_contig st, l_max_contig_idx st)
      else (l_curr_contig_idx st, l_max_contig st, l_max_contig_idx st) in
  r ← view_ids nsm (i * nsm) (merge_sort Z.le (elements (seq_id c))) 0 (l_seqs st);
  let '(seq_idx, seqs') := r in
  let used_cells :=
    if negb (seq_idx =? 0) then wrap_i32 (l_used_cells st + 1)
    else l_used_cells st in
  seqs'' ← for_opt (Z.to_nat (nsm - seq_idx)) seq_idx
             (λ j s, store s (i * nsm + j) (-1)) seqs';
  Some {| l_cells := cells'; l_seqs := seqs''; l_used_cells := used_cells;
          l_token_count := token_count; l_curr_contig_idx := cci;
          l_max_contig := mc; l_max_contig_idx := mci |}.

(** [for (int32_t i = 0; i < int32_t(kv.size); i++, ...)], from [i]. *)
Fixpoint view_cells_loop (nsm : Z) (i : Z) (kv_cells : list llama_kv_cell)
    (st : view_loop) : option view_loop :=
  match kv_cells with
  | [] => Some st
  | c :: rest => st' ← view_cell nsm i c st; view_cells_loop nsm (i + 1) rest st'
  end.

(** [llama_kv_cache_view_update]: the view afterwards, and whether the
    "used cells mismatch" error is logged. *)
Definition llama_kv_cache_view_update (granted : bool)
    (view : llama_kv_cache_view) (kv : llama_kv_cache)
    : option (llama_kv_cache_view * bool) :=
  bufs ←
    (if (wrap_u32 (n_cells view) <? size kv)
        || (if view_cells view is None then true else false)
     then
       if granted then
         let nc := wrap_i32 (size kv) in
         Some (nc,
               realloc (view_cells view) (alloc_len nc),
               realloc (cells_sequences view) (alloc_len (n_seq_max view * nc)))
       else None
     else Some (n_cells view, default [] (view_cells view),
                default [] (cells_sequences view)));
  let '(nc, c_buf, cs_buf) := bufs in
  let cs_null := negb (wrap_u32 (n_cells view) <? size kv)
                 && (if view_cells view is None then false else true)
                 && (if cells_sequences view is None then true else false) in
  st ← view_cells_loop (n_seq_max view) 0
         (take (Z.to_nat (wrap_i32 (size kv))) (cells kv))
         {| l_cells := c_buf; l_seqs := cs_buf; l_used_cells := 0;
            l_token_count := 0; l_curr_contig_idx := -1;
            l_max_contig := 0; l_max_contig_idx := -1 |};
  let '(mc, mci) :=
    if (0 <=? l_curr_contig_idx st)
       && (l_max_contig st <? size kv - l_curr_contig_idx st)
    then (wrap_u32 (size kv - l_curr_contig_idx st), l_curr_contig_idx st)
    else (l_max_contig st, l_max_contig_idx st) in
  Some ({| n_cells := nc; n_seq_max := n_seq_max view;
           token_count := l_token_count st; used_cells := l_used_cells st;
           max_contiguous := wrap_i32 mc; max_contiguous_idx := mci;
           view_cells := Some (l_cells st);
           cells_sequences := if cs_null then None else Some (l_seqs st) |},
        negb (wrap_u32 (l_used_cells st) =? used kv)).

(** ** Notions used by the further properties *)

(** The number of pairs (cell, seq-id) with the id in the set of the
    cell. *)
Definition n_memberships (cs : list llama_kv_cell) : Z :=
  foldr (λ c acc, Z.of_nat (base.size (seq_id c)) + acc) 0 cs.

(** The cell holds a token: [pos >= 0] and a seq-id. *)
Definition active (c : llama_kv_cell) : Prop := 0 <= pos c ∧ seq_id c ≠ ∅.

(** The cell of index [k] exists and has no seq-id; [len] such cells
    start at [a]. *)
Definition empty_at (cs : list llama_kv_cell) (k : Z) : Prop :=
  ∃ c, get cs k = Some c ∧ seq_id c = ∅.

Definition empty_run (cs : list llama_kv_cell) (a len : Z) : Prop :=
  0 <= a ∧ 0 <= len ∧ a + len <= Z.of_nat (length cs) ∧
  ∀ k, a <= k < a + len → empty_at cs k.

(** [(len, idx)] is the longest run of cells without seq-id among those
    that end at or before [b], and the first of that length; [idx = -1]
    when there is none. *)
Definition longest_empty_run (cs : list llama_kv_cell) (b len idx : Z) : Prop :=
  0 <= len ∧
  (∀ a l, empty_run cs a l → a + l <= b → l <= len) ∧
  (len = 0 → idx = -1) ∧
  (0 < len → empty_run cs idx len ∧ idx + len <= b ∧
             ∀ a, empty_run cs a len → a + len <= b → idx <= a).

(** The buffers of a view are both null, or hold [n_cells] positions and
    [n_seq_max * n_cells] ids. *)
Definition view_wf (view : llama_kv_cache_view) : Prop :=
  0 <= n_seq_max view <= INT32_MAX ∧ 0 <= n_cells view <= INT32_MAX ∧
  match view_cells view, cells_sequences view with
  | None, None => True
  | Some c, Some s =>
      Z.of_nat (length c) = n_cells view ∧
      Z.of_nat (length s) = n_seq_max view * n_cells view
  | _, _ => False
  end.

(** The ids of a cell as the view lists them: in increasing order. *)
Definition ids_in_order (c : llama_kv_cell) (ids : list Z) : Prop :=
  Sorted Z.lt ids ∧ ∀ x, x ∈ ids ↔ x ∈ seq_id c.

(** The first index from [i] on whose cell does not hold [seq], or [sz]
    when every cell does. *)
Fixpoint first_lacking (seq sz i : Z) (cs : list llama_kv_cell) : Z :=
  match cs with
  | [] => sz
  | c :: rest => if has_seq_id c seq then first_lacking seq sz (i + 1) rest else i
  end.

(** On a transformer pool a cell has a position exactly when it has a
    seq-id. *)
Definition pos_iff_ids (cs : list llama_kv_cell) : Prop :=
  Forall (λ c, 0 <= pos c ↔ seq_id c ≠ ∅) cs.

(** Batches whose groups all name a sequence. *)
Definition groups_named (ub : llama_ubatch) : Prop :=
  ∀ s, 0 <= s < n_seqs ub → group_ids ub s ≠ [].

Definition op_named (op : kv_op) : Prop :=
  match op with
  | Op_find_slot ub => groups_named ub
  | _ => True
  end.

(** The tails of a recurrent pool are in order: see [tails_point_home];
    the calls that keep them so. *)
Definition op_keeps_tails (op : kv_op) : Prop :=
  match op with
  | Op_find_slot _ => False
  | Op_seq_rm seq _ _ => 0 <= seq
  | _ => True
  end.

(** What the loop of the view knows of the runs of cells without seq-id
    when it reaches the cell [i]: no run is open ([cci = -1]) and
    [(mc, mci)] is the best among the cells before [i]; or the run that
    began at [cci] is still open, and [(mc, mci)] is the best among the
    cells before [cci]. *)
Definition contig_inv (cs : list llama_kv_cell) (i cci mc mci : Z) : Prop :=
  (cci = -1 ∧ (i = 0 ∨ ¬ empty_at cs (i - 1)) ∧ longest_empty_run cs i mc mci) ∨
  (0 <= cci < i ∧ (∀ k, cci <= k < i → empty_at cs k) ∧
   (cci = 0 ∨ ¬ empty_at cs (cci - 1)) ∧ longest_empty_run cs cci mc mci).

(** What no operation changes: the number of cells, the discipline of the
    pool and the request for a defragmentation. *)
Definition same_shape (kv kv' : llama_kv_cache) : Prop :=
  size kv' = size kv ∧ recurrent kv' = recurrent kv ∧ do_defrag kv' = do_defrag kv.

(** What the sweeps of [seq_rm], [seq_keep] and [seq_cp] make of one cell:
    the new cell depends on no scalar of the loop. *)
Definition seq_rm_cell (seq p0 p1 : Z) (c : llama_kv_cell) : llama_kv_cell :=
  (seq_rm_body 0 seq p0 p1 0 c (0, 0)).1.

Definition seq_keep_cell (rec : bool) (seq i : Z) (c : llama_kv_cell)
    : llama_kv_cell :=
  (seq_keep_body rec 0 seq i c (0, 0)).1.

Definition seq_cp_cell (seq_src seq_dst p0 p1 : Z) (c : llama_kv_cell)
    : llama_kv_cell :=
  (seq_cp_body seq_src seq_dst p0 p1 0 c tt).1.

(** [tails_point_home] of the cells alone. *)
Definition tails_ok (cs : list llama_kv_cell) : Prop :=
  ∀ s, 0 <= s < Z.of_nat (length cs) → 0 <= tail (cell_at cs s) →
       s ∈ seq_id (cell_at cs (tail (cell_at cs s))).

(** A batch of one sequence, id [seq], with the given token positions. *)
Definition ub_seq (seq : Z) (ps : list Z) : llama_ubatch :=
  {| equal_seqs := true; n_tokens := Z.of_nat (length ps);
     n_seq_tokens := Z.of_nat (length ps); n_seqs := 1;
     ub_pos := ps; ub_n_seq_id := [1]; ub_seq_id := [[seq]] |}.

(** The cell that a batch of the single sequence [seq] is given on a
    recurrent pool, [nxt] being the next empty cell: the tail of [seq]
    when [seq] holds it alone, else [nxt]; and the cells once it is
    claimed, and once it is stamped. *)
Definition owns_tail (cs : list llama_kv_cell) (seq : Z) : bool :=
  bool_decide (seq_id (cell_at cs (tail (cell_at cs seq))) = {[seq]}).

Definition slot_one (cs : list llama_kv_cell) (seq nxt : Z) : Z :=
  if owns_tail cs seq then tail (cell_at cs seq) else nxt.

Definition claim_one (cs : list llama_kv_cell) (seq nxt : Z) : list llama_kv_cell :=
  let t := tail (cell_at cs seq) in
  if owns_tail cs seq then cs
  else upd seq (set_tail nxt)
         (if 0 <=? t
          then upd nxt (seq_insert seq)
                 (upd t (seq_erase seq)
                    (upd nxt (λ c, set_src (src (cell_at cs t))
                                     (set_pos (pos (cell_at cs t)) c)) cs))
          else cs).

Definition stamp_one (cs : list llama_kv_cell) (seq e last_pos : Z)
    : list llama_kv_cell :=
  upd seq (set_tail e)
    (upd e (seq_insert seq) (upd e (λ c, seq_clear (set_pos last_pos c)) cs)).

(** A recurrent pool of four cells after S6 and a copy of sequence 0 to
    sequence 1: the two sequences share one tail cell. *)
Definition ops_shared_tail : list kv_op :=
  [Op_find_slot ub_S6; Op_seq_cp 0 1 (-1) (-1)].

(** The call that led from [kv] to [kv'] wrote nothing but the position of
    the cell [t]. *)
Definition wrote_pos_only (kv kv' : llama_kv_cache) (t : Z) : Prop :=
  has_shift kv' = has_shift kv ∧ do_defrag kv' = do_defrag kv ∧
  head kv' = head kv ∧ used kv' = used kv ∧ n kv' = n kv ∧
  Forall2 (λ c c', seq_id c' = seq_id c ∧ delta c' = delta c ∧
                   src c' = src c ∧ tail c' = tail c) (cells kv) (cells kv') ∧
  ∀ i, i ≠ t → cell_at (cells kv') i = cell_at (cells kv) i.

(** On a transformer pool no cell has a source, and a cell without a
    position is at -1. *)
Definition tidy (c : llama_kv_cell) : Prop :=
  src c = -1 ∧ (pos c < 0 → pos c = -1).

(** * Properties *)

(** ** Machine integers *)

Lemma wrap_u32_id z : 0 <= z < UINT32_MOD → wrap_u32 z = z.
Proof. intros H. unfold wrap_u32. now apply Z.mod_small. Qed.

Lemma wrap_i32_id z : is_i32 z → wrap_i32 z = z.
Proof.
  unfold is_i32, wrap_i32, INT32_MIN, INT32_MAX, UINT32_MOD. intros H.
  rewrite Z.mod_small; lia.
Qed.

(** ** Loops over the pool *)

Section for_cells_facts.
Context {A : Type} (body : Z → llama_kv_cell → A → llama_kv_cell * A).

Lemma for_cells_cons_1 i c cs a :
  (for_cells body i (c :: cs) a).1 =
  (body i c a).1 :: (for_cells body (i + 1) cs (body i c a).2).1.
Proof.
  simpl. destruct (body i c a) as [c' a']. simpl.
  now destruct (for_cells body (i + 1) cs a').
Qed.

Lemma for_cells_cons_2 i c cs a :
  (for_cells body i (c :: cs) a).2 =
  (for_cells body (i + 1) cs (body i c a).2).2.
Proof.
  simpl. destruct (body i c a) as [c' a']. simpl.
  now destruct (for_cells body (i + 1) cs a').
Qed.

Lemma for_cells_length i cs a :
  length (for_cells body i cs a).1 = length cs.
Proof.
  revert i a. induction cs as [|c cs IH]; intros i a; simpl; [reflexivity|].
  destruct (body i c a) as [c' a'].
  specialize (IH (i + 1) a'). destruct (for_cells body (i + 1) cs a').
  simpl in *. now rewrite IH.
Qed.

(** When the new cell does not depend on the scalars, the sweep is a map
    over the cells. *)
Lemma for_cells_imap (g : Z → llama_kv_cell → llama_kv_cell) i cs a :
  (∀ j c b, (body j c b).1 = g j c) →
  (for_cells body i cs a).1 = imap (λ k, g (i + Z.of_nat k)) cs.
Proof.
  intros Hg. revert i a. induction cs as [|c cs IH]; intros i a; simpl; [reflexivity|].
  pose proof (Hg i c a) as Hc. destruct (body i c a) as [c' a'].
  specialize (IH (i + 1) a'). destruct (for_cells body (i + 1) cs a').
  simpl in *. rewrite IH, Hc. f_equal.
  - now rewrite Z.add_0_r.
  - apply imap_ext. intros k x _. simpl. f_equal. lia.
Qed.

Lemma for_cells_map (g : llama_kv_cell → llama_kv_cell) i cs a :
  (∀ j c b, (body j c b).1 = g c) →
  (for_cells body i cs a).1 = map g cs.
Proof.
  intros Hg. rewrite (for_cells_imap (λ _, g)) by assumption.
  induction cs as [|c cs IH]; simpl; [reflexivity|]. f_equal. apply IH.
Qed.

(** A property of the scalars kept by every iteration is kept by the
    sweep. *)
Lemma for_cells_acc (P : A → Prop) i cs a :
  (∀ j c b, P b → P (body j c b).2) →
  P a → P (for_cells body i cs a).2.
Proof.
  intros Hb. revert i a. induction cs as [|c cs IH]; intros i a Ha; simpl; [assumption|].
  pose proof (Hb i c a Ha) as Hc. destruct (body i c a) as [c' a'].
  specialize (IH (i + 1) a' Hc). now destruct (for_cells body (i + 1) cs a').
Qed.
End for_cells_facts.

(** ** clear *)

(** The sweep of [clear], over the cells below its bound. *)
Lemma clear_sweep kv :
  clear kv =
  set_used 0 (set_head 0 (set_cells
    (map clear_cell (take (Z.to_nat (wrap_i32 (size kv))) (cells kv))
     ++ drop (Z.to_nat (wrap_i32 (size kv))) (cells kv)) kv)).
Proof.
  unfold clear.
  pose proof (for_cells_map (λ _ c (a : unit), (clear_cell c, a)) clear_cell 0
                (take (Z.to_nat (wrap_i32 (size kv))) (cells kv)) tt
                (λ _ _ _, eq_refl)) as H.
  destruct (for_cells _ _ _ _) as [cs []]. cbn [fst] in H. now subst cs.
Qed.

(** On a pool of at most 2^31 - 1 cells the bound is [size], and every
    cell is reset. *)
Lemma clear_unfold kv :
  size kv <= INT32_MAX →
  clear kv = set_used 0 (set_head 0 (set_cells (map clear_cell (cells kv)) kv)).
Proof.
  intros Hsz. rewrite clear_sweep.
  rewrite wrap_i32_id by (unfold is_i32, INT32_MIN, size in *; lia).
  unfold size. rewrite Nat2Z.id, firstn_all, drop_all, app_nil_r. reflexivity.
Qed.

Lemma clear_cells kv :
  size kv <= INT32_MAX → cells (clear kv) = map clear_cell (cells kv).
Proof. intros Hsz. now rewrite clear_unfold. Qed.

(** Whatever the size, [clear] keeps the number of cells and leaves
    [head] and [used] at 0. *)
Lemma clear_length kv : length (cells (clear kv)) = length (cells kv).
Proof.
  rewrite clear_sweep. cbn [cells set_used set_head set_cells].
  rewrite length_app, length_map, <- length_app, take_drop. reflexivity.
Qed.

Lemma clear_scalars kv :
  head (clear kv) = 0 ∧ used (clear kv) = 0 ∧ n (clear kv) = n kv ∧
  has_shift (clear kv) = has_shift kv ∧ do_defrag (clear kv) = do_defrag kv ∧
  recurrent (clear kv) = recurrent kv.
Proof. rewrite clear_sweep. repeat split. Qed.

(** ** seq_pos_max *)

Lemma seq_pos_max_loop seq i cs r :
  ∀ r', (for_cells (seq_pos_max_body seq) i cs r).2 = r' →
  r <= r' ∧
  (∀ c, c ∈ cs → seq ∈ seq_id c → pos c <= r') ∧
  (r' = r ∨ ∃ c, c ∈ cs ∧ seq ∈ seq_id c ∧ pos c = r').
Proof.
  revert i r. induction cs as [|c cs IH]; intros i r r'.
  - simpl. intros <-. split; [lia|]. split; [|now left]. intros c Hc. inversion Hc.
  - rewrite for_cells_cons_2. unfold seq_pos_max_body at 2. simpl.
    set (r1 := if has_seq_id c seq then Z.max r (pos c) else r).
    intros Hr'. destruct (IH (i + 1) r1 r' Hr') as (Hle & Hub & Hatt).
    assert (Hr1 : r <= r1 ∧ (seq ∈ seq_id c → pos c <= r1) ∧
                  (r1 = r ∨ (seq ∈ seq_id c ∧ pos c = r1))).
    { subst r1. unfold has_seq_id. case_bool_decide; [|split; [lia|split; [tauto|auto]]].
      split; [lia|]. split; [lia|].
      destruct (Z.max_spec r (pos c)) as [[? ->]|[? ->]]; auto. }
    destruct Hr1 as (H1 & H2 & H3).
    split; [lia|]. split.
    + intros c0 Hc0 Hs. apply elem_of_cons in Hc0 as [-> |Hc0]; [|now apply Hub].
      specialize (H2 Hs). lia.
    + destruct Hatt as [-> |(c0 & Hin & Hs & Hp)].
      * destruct H3 as [-> |[Hs Hp]]; [now left|].
        right. exists c. split; [apply elem_of_cons; now left|auto].
      * right. exists c0. split; [apply elem_of_cons; now right|auto].
Qed.

(** C8 (as amended). [seq_pos_max kv seq] is the greatest of 0 and the
    positions of the cells whose seq-id set contains [seq]: it is never
    negative, it bounds the position of every such cell, and it is either 0
    or the position of one of them. It is the maximum position over these
    cells as soon as one of them is at a position that is not negative, and
    0 when no cell contains [seq]. *)
Theorem seq_pos_max_is_floored_max kv seq :
  0 <= seq_pos_max kv seq ∧
  (∀ c, c ∈ cells kv → seq ∈ seq_id c → pos c <= seq_pos_max kv seq) ∧
  (seq_pos_max kv seq = 0 ∨
   ∃ c, c ∈ cells kv ∧ seq ∈ seq_id c ∧ pos c = seq_pos_max kv seq) ∧
  ((∃ c, c ∈ cells kv ∧ seq ∈ seq_id c ∧ 0 <= pos c) →
   ∃ c, c ∈ cells kv ∧ seq ∈ seq_id c ∧ pos c = seq_pos_max kv seq) ∧
  ((∀ c, c ∈ cells kv → seq ∉ seq_id c) → seq_pos_max kv seq = 0).
Proof.
  unfold seq_pos_max.
  destruct (seq_pos_max_loop seq 0 (cells kv) 0 _ eq_refl) as (H1 & H2 & H3).
  repeat split; try assumption.
  - intros (c & Hin & Hs & Hpos). destruct H3 as [H3|H3]; [|assumption].
    exists c. repeat split; try assumption. specialize (H2 c Hin Hs). lia.
  - intros Hno. destruct H3 as [H3|(c & Hin & Hs & _)]; [assumption|].
    exfalso. exact (Hno c Hin Hs).
Qed.

(** C8 (as stated) fails: in the recurrent pool where sequence 0 was given
    a tail at position 6 and then shifted by -10, a cell contains sequence
    0, every such cell is at position -4, and [seq_pos_max] returns 0, which
    is the position of none of them. *)
Lemma seq_pos_max_not_max_counterexample :
  ∃ kv, run_ops (init true 4) ops_shifted_tail = Some kv ∧
        Exists (λ c, 0 ∈ seq_id c) (cells kv) ∧
        Forall (λ c, 0 ∈ seq_id c → pos c = -4) (cells kv) ∧
        seq_pos_max kv 0 = 0.
Proof.
  eexists. split; [vm_compute; reflexivity|].
  split; [compute_done|]. split; compute_done.
Qed.

(** ** seq_rm: the returned boolean *)

Lemma seq_rm_ret kv seq p0 p1 :
  (seq_rm kv seq p0 p1).2 =
  if recurrent kv
  then bool_decide (is_Some (seq_rm_recurrent (cells kv) (size kv) seq
                               (norm_p0 p0) (norm_p1 p1)))
  else true.
Proof.
  unfold seq_rm. destruct (recurrent kv).
  - destruct (seq_rm_recurrent _ _ _ _ _) as [cs0|].
    + destruct (for_cells _ _ _ _) as [cs [u nh]]. reflexivity.
    + reflexivity.
  - now destruct (for_cells _ _ _ _) as [cs [u nh]].
Qed.

Lemma seq_rm_recurrent_None cs sz seq p0 p1 :
  seq_rm_recurrent cs sz seq p0 p1 = None ↔
  sz <= seq
  ∨ (0 <= seq ∧ 0 <= tail (cell_at cs seq) ∧
     partial_overlap p0 p1 (cell_at cs (tail (cell_at cs seq))))
  ∨ (seq < 0 ∧ p0 ≠ p1 ∧ ¬ range_all p0 p1).
Proof.
  unfold seq_rm_recurrent, partial_overlap, range_all.
  destruct (Z.leb_spec sz seq) as [Hsz|Hsz]; [split; auto|].
  destruct (Z.leb_spec 0 seq) as [H0|H0].
  - destruct (Z.leb_spec 0 (tail (cell_at cs seq))) as [Ht|Ht].
    + set (c := cell_at cs (tail (cell_at cs seq))).
      destruct (Z.ltb_spec 0 p0), (Z.leb_spec p0 (pos c)),
               (Z.ltb_spec 0 p1), (Z.leb_spec p1 (pos c)); simpl;
        try (split; [intros _; right; left; repeat split; auto; lia | reflexivity]);
        destruct (Z.ltb_spec (pos c) p1); simpl;
        (split; [discriminate | intros [?|[(_ & _ & [?|?])|?]]; lia]).
    + split; [discriminate|]. intros [?|[?|?]]; lia.
  - destruct (Z.eqb_spec p0 p1), (Z.eqb_spec p0 0), (Z.eqb_spec p1 INT32_MAX); simpl;
      try (split; [discriminate | intros [?|[?|(_ & ? & ?)]]; (lia || tauto)]);
      (split; [intros _; right; right; repeat split; (lia || tauto) | reflexivity]).
Qed.

(** C5 (as amended). [seq_rm] returns [false] exactly when the model is
    recurrent and [seq >= size], or [seq >= 0] has a tail whose position
    partially overlaps the normalised range, or [seq < 0] and the
    normalised bounds differ ([p0 <> p1]) without being the whole range;
    for a transformer it returns [true] on every input. *)
Theorem seq_rm_false_iff kv seq p0 p1 :
  ((seq_rm kv seq p0 p1).2 = false ↔ seq_rm_fails kv seq p0 p1) ∧
  (recurrent kv = false → (seq_rm kv seq p0 p1).2 = true).
Proof.
  rewrite seq_rm_ret. unfold seq_rm_fails, tail_cell. split.
  - destruct (recurrent kv); [|split; [discriminate|intros [? _]; discriminate]].
    rewrite <- seq_rm_recurrent_None. rewrite bool_decide_eq_false.
    rewrite <- eq_None_not_Some. tauto.
  - now intros ->.
Qed.

Lemma range_empty_iff p0 p1 : range_empty p0 p1 ↔ p1 <= p0.
Proof.
  unfold range_empty. split.
  - intros H. destruct (Z.le_gt_cases p1 p0) as [|Hlt]; [assumption|].
    exfalso. apply (H p0). lia.
  - intros H p. lia.
Qed.

(** For a range that is not reversed, the condition of the spec and the
    condition of the source are the same. *)
Lemma seq_rm_fails_as_specified_iff kv seq p0 p1 :
  norm_p0 p0 <= norm_p1 p1 →
  (seq_rm_fails_as_specified kv seq p0 p1 ↔ seq_rm_fails kv seq p0 p1).
Proof.
  intros Hle. unfold seq_rm_fails_as_specified, seq_rm_fails.
  rewrite range_empty_iff.
  split; intros (Hrec & [H|[H|(Hs & He & Ha)]]); split; auto;
    right; right; repeat split; auto; lia.
Qed.

(** C5 (as stated) fails: on a recurrent pool, [seq_rm(-1, 5, 3)] returns
    [false] although no position lies in [[5, 3)]: the range is empty and
    the spec's condition for a failure does not hold. *)
Lemma seq_rm_reversed_range_counterexample :
  ¬ ((seq_rm (init true 4) (-1) 5 3).2 = false ↔
     seq_rm_fails_as_specified (init true 4) (-1) 5 3).
Proof.
  intros [H _]. specialize (H eq_refl).
  destruct H as (_ & [H|[(H & _)|(_ & H & _)]]).
  - vm_compute in H. now apply H.
  - lia.
  - apply H. intros p. unfold norm_p0, norm_p1. simpl. lia.
Qed.

(** ** seq_cp on a recurrent pool *)




(** ** seq_div on a transformer pool *)

Lemma seq_div_body_cell seq p0 p1 d j c b :
  (seq_div_body seq p0 p1 d j c b).1 = seq_div_cell seq p0 p1 d c.
Proof. unfold seq_div_cell, seq_div_body. now destruct (_ && _). Qed.

Lemma seq_div_body_shift seq p0 p1 d j c b :
  (seq_div_body seq p0 p1 d j c b).2 = b ∨ (seq_div_body seq p0 p1 d j c b).2 = true.
Proof. unfold seq_div_body. destruct (_ && _); auto. Qed.

Lemma seq_div_cell_frame seq p0 p1 d c :
  let c' := seq_div_cell seq p0 p1 d c in
  seq_id c' = seq_id c ∧ src c' = src c ∧ tail c' = tail c ∧
  is_empty c' = is_empty c ∧
  (matches seq p0 p1 c = false → c' = c).
Proof.
  unfold seq_div_cell, seq_div_body, matches.
  destruct (_ && _); simpl; repeat split; auto; discriminate.
Qed.

(** The sweep of the transformer branch of [seq_div]. *)
Lemma seq_div_transformer kv seq p0 p1 d kv' :
  recurrent kv = false →
  seq_div kv seq p0 p1 d = Some kv' →
  kv' = kv ∨
  ∃ hs, (hs = has_shift kv ∨ hs = true) ∧
        kv' = set_has_shift hs
                (set_cells (map (seq_div_cell seq (norm_p0 p0) (norm_p1 p1) d) (cells kv)) kv).
Proof.
  intros Hrec. unfold seq_div. rewrite Hrec.
  destruct (d =? 1); [intros H; injection H as <-; now left|].
  destruct (norm_p0 p0 =? norm_p1 p1); [intros H; injection H as <-; now left|].
  destruct (_ && _); [discriminate|].
  pose proof (for_cells_map (seq_div_body seq (norm_p0 p0) (norm_p1 p1) d)
                (seq_div_cell seq (norm_p0 p0) (norm_p1 p1) d) 0 (cells kv)
                (has_shift kv) (seq_div_body_cell _ _ _ _)) as Hcs.
  pose proof (for_cells_acc (seq_div_body seq (norm_p0 p0) (norm_p1 p1) d)
                (λ b, b = has_shift kv ∨ b = true) 0 (cells kv) (has_shift kv)) as Hhs.
  destruct (for_cells _ _ _ _) as [cs hs]. simpl in *. subst cs.
  intros H; injection H as <-. right. exists hs. split; [|reflexivity].
  apply Hhs; [|now left].
  intros j c b [-> | ->]; [apply seq_div_body_shift|].
  destruct (seq_div_body_shift seq (norm_p0 p0) (norm_p1 p1) d j c true); auto.
Qed.

(** C9. On a transformer pool [seq_div] returns for every divisor other
    than 0, and for every divisor its result has the [used], [head], [n]
    and [do_defrag] of the state it was given and, cell by cell, the same
    seq-id set, [src] and [tail] (so no cell is emptied or evicted); a cell
    that is not matched by [(seq, [p0, p1))] is left as it was, and
    [has_shift] is kept or set. *)
Theorem seq_div_frame kv seq p0 p1 d :
  recurrent kv = false →
  (d ≠ 0 → is_Some (seq_div kv seq p0 p1 d)) ∧
  (∀ kv', seq_div kv seq p0 p1 d = Some kv' →
     used kv' = used kv ∧ head kv' = head kv ∧ n kv' = n kv ∧
     do_defrag kv' = do_defrag kv ∧ recurrent kv' = recurrent kv ∧
     (has_shift kv' = has_shift kv ∨ has_shift kv' = true) ∧
     Forall2 (λ c c', seq_id c' = seq_id c ∧ src c' = src c ∧ tail c' = tail c ∧
                      is_empty c' = is_empty c ∧
                      (matches seq (norm_p0 p0) (norm_p1 p1) c = false → c' = c))
       (cells kv) (cells kv')).
Proof.
  intros Hrec. split.
  - intros Hd. unfold seq_div. rewrite Hrec.
    destruct (d =? 1); [eauto|]. destruct (_ =? _); [eauto|].
    destruct (Z.eqb_spec d 0) as [|_]; [contradiction|]. simpl.
    destruct (for_cells _ _ _ _). eauto.
  - intros kv' Hdiv.
    destruct (seq_div_transformer _ _ _ _ _ _ Hrec Hdiv) as [-> |(hs & Hhs & ->)].
    + repeat split; auto. apply Forall_Forall2_diag, Forall_forall.
      intros c _. repeat split; auto.
    + simpl. repeat split; auto.
      apply Forall2_fmap_r, Forall_Forall2_diag, Forall_forall.
      intros c _. apply seq_div_cell_frame.
Qed.

(** The theorem where [seq_div] has cells to divide: on the pool of eight
    cells that hold sequence 0 at the positions 0 to 7, the division by 2
    of the positions from 2 on moves the cells at 2 to 7 to the positions
    1, 1, 2, 2, 3, 3 and sets [has_shift]. *)
Lemma seq_div_frame_witness :
  ∃ kv, run_ops (init false 8) ops_fill8 = Some kv ∧
    map pos (cells kv) = [0; 1; 2; 3; 4; 5; 6; 7] ∧ has_shift kv = false ∧
    (map pos <$> (cells <$> seq_div kv 0 2 (-1) 2)) = Some [0; 1; 1; 1; 2; 2; 3; 3] ∧
    (has_shift <$> seq_div kv 0 2 (-1) 2) = Some true ∧
    (2 ≠ 0 → is_Some (seq_div kv 0 2 (-1) 2)) ∧
    (∀ kv', seq_div kv 0 2 (-1) 2 = Some kv' →
       used kv' = used kv ∧ head kv' = head kv ∧ n kv' = n kv ∧
       do_defrag kv' = do_defrag kv ∧ recurrent kv' = recurrent kv ∧
       (has_shift kv' = has_shift kv ∨ has_shift kv' = true) ∧
       Forall2 (λ c c', seq_id c' = seq_id c ∧ src c' = src c ∧ tail c' = tail c ∧
                        is_empty c' = is_empty c ∧
                        (matches 0 (norm_p0 2) (norm_p1 (-1)) c = false → c' = c))
         (cells kv) (cells kv')).
Proof.
  exists (default (init false 8) (run_ops (init false 8) ops_fill8)).
  split; [vm_compute; reflexivity|]. split; [reflexivity|].
  split; [reflexivity|]. split; [vm_compute; reflexivity|].
  split; [vm_compute; reflexivity|].
  apply (seq_div_frame _ 0 2 (-1) 2). reflexivity.
Defined.

(** ** find_slot on a transformer pool: the failing search *)

(** C3 (as amended). When [find_slot] fails on a transformer pool, every
    cell and the aggregates [used], [n], [has_shift] and [do_defrag] are
    those of the state it was given; [head] alone may have moved, and it
    has not when the batch is larger than the pool. *)
Theorem find_slot_failure_frame kv ub kv' si :
  recurrent kv = false →
  find_slot kv ub = Some (kv', si) →
  found si = false →
  cells kv' = cells kv ∧ used kv' = used kv ∧ n kv' = n kv ∧
  has_shift kv' = has_shift kv ∧ do_defrag kv' = do_defrag kv ∧
  recurrent kv' = recurrent kv ∧
  (size kv < n_tokens ub → head kv' = head kv).
Proof.
  intros Hrec. unfold find_slot, find_slot_transformer. rewrite Hrec.
  destruct (Z.ltb_spec (size kv) (n_tokens ub)) as [Hbig|Hfit].
  - intros H _. injection H as <- <-. repeat split; auto.
  - destruct (find_loop _ _ _ _ _ _) as [[[|] hd]|]; [| |discriminate].
    + destruct (stamp _ _ _); [|discriminate].
      simpl. intros H; injection H as <- <-. discriminate.
    + intros H _. injection H as <- <-. simpl. repeat split; auto. lia.
Qed.

Lemma find_slot_failure_frame_witness :
  ∃ kv kv' si,
    run_ops (init false 8) ops_fill8 = Some kv ∧
    find_slot kv (ub_seq0 [8]) = Some (kv', si) ∧
    cells kv' = cells kv ∧ used kv' = used kv ∧ n kv' = n kv ∧
    has_shift kv' = has_shift kv ∧ do_defrag kv' = do_defrag kv ∧
    recurrent kv' = recurrent kv ∧
    (size kv < n_tokens (ub_seq0 [8]) → head kv' = head kv).
Proof.
  eexists _, _, _. split; [vm_compute; reflexivity|].
  split; [vm_compute; reflexivity|].
  eapply find_slot_failure_frame; [reflexivity|vm_compute;reflexivity|reflexivity].
Defined.

(** C3 (as stated) fails: on the full pool of eight cells (S3) the failing
    [find_slot] of one token leaves [head] at 8, where it was 0. *)
Lemma find_slot_failure_moves_head_counterexample :
  ∃ kv kv' si,
    run_ops (init false 8) ops_fill8 = Some kv ∧
    find_slot kv (ub_seq0 [8]) = Some (kv', si) ∧
    found si = false ∧ head kv = 0 ∧ head kv' = 8.
Proof.
  eexists _, _, _. split; [vm_compute; reflexivity|].
  split; [vm_compute; reflexivity|]. repeat split.
Qed.

(** ** seq_add on a transformer pool: shifting forth and back *)

Lemma seq_add_body_cell sz seq p0 p1 d j c b :
  (seq_add_body sz seq p0 p1 d j c b).1 = seq_add_cell seq p0 p1 d c.
Proof.
  unfold seq_add_cell, seq_add_body. destruct b as [[hs u] nh].
  destruct (_ && _); [|reflexivity]. now destruct (_ <? 0).
Qed.

Lemma seq_add_cells kv seq p0 p1 d :
  recurrent kv = false →
  cells (seq_add kv seq p0 p1 d) =
  if (d =? 0) || (norm_p0 p0 =? norm_p1 p1) then cells kv
  else map (seq_add_cell seq (norm_p0 p0) (norm_p1 p1) d) (cells kv).
Proof.
  intros Hrec. unfold seq_add. rewrite Hrec.
  destruct (d =? 0); [reflexivity|]. destruct (_ =? _); [reflexivity|]. simpl.
  pose proof (for_cells_map (seq_add_body (size kv) seq (norm_p0 p0) (norm_p1 p1) d)
                (seq_add_cell seq (norm_p0 p0) (norm_p1 p1) d) 0 (cells kv)
                (has_shift kv, used kv, size kv) (seq_add_body_cell _ _ _ _ _)) as Hcs.
  destruct (for_cells _ _ _ _) as [cs [[hs u] nh]]. simpl in *. now subst cs.
Qed.

Lemma seq_add_recurrent_flag kv seq p0 p1 d :
  recurrent kv = false → recurrent (seq_add kv seq p0 p1 d) = false.
Proof.
  intros Hrec. unfold seq_add. rewrite Hrec.
  destruct (d =? 0); [assumption|]. destruct (_ =? _); [assumption|].
  now destruct (for_cells _ _ _ _) as [cs [[hs u] nh]].
Qed.

(** A matched cell whose shifted position is a non-negative [int32_t] is
    moved and keeps its sequences. *)
Lemma seq_add_cell_moved seq p0 p1 d c :
  seq ∈ seq_id c → p0 <= pos c < p1 → 0 <= pos c + d <= INT32_MAX →
  pos (seq_add_cell seq p0 p1 d c) = pos c + d ∧
  seq_id (seq_add_cell seq p0 p1 d c) = seq_id c.
Proof.
  intros Hs Hp Hd. unfold seq_add_cell, seq_add_body, has_seq_id, in_range.
  rewrite bool_decide_eq_true_2 by assumption.
  destruct (Z.leb_spec p0 (pos c)); [|lia]. destruct (Z.ltb_spec (pos c) p1); [|lia].
  simpl. rewrite wrap_i32_id by (unfold is_i32, INT32_MIN, INT32_MAX in *; lia).
  destruct (Z.ltb_spec (pos c + d) 0); [lia|]. simpl. auto.
Qed.

(** A cell at a negative position is matched by no sweep. *)
Lemma seq_add_cell_negative seq p0 p1 d c :
  0 <= p0 → pos c < 0 → seq_add_cell seq p0 p1 d c = c.
Proof.
  intros Hp0 Hneg. unfold seq_add_cell, seq_add_body, in_range.
  destruct (Z.leb_spec p0 (pos c)); [lia|]. now rewrite andb_false_r.
Qed.

Lemma norm_p0_nonneg p : 0 <= norm_p0 p.
Proof. unfold norm_p0. destruct (Z.ltb_spec p 0); lia. Qed.

Lemma norm_p0_spec p : (p < 0 ∧ norm_p0 p = 0) ∨ (0 <= p ∧ norm_p0 p = p).
Proof. unfold norm_p0. destruct (Z.ltb_spec p 0); lia. Qed.

Lemma norm_p1_spec p : (p < 0 ∧ norm_p1 p = INT32_MAX) ∨ (0 <= p ∧ norm_p1 p = p).
Proof. unfold norm_p1. destruct (Z.ltb_spec p 0); lia. Qed.

(** C6 (as amended). On a transformer pool, with bounds that are
    representable ([p1] and [p1 + d] at most [INT32_MAX]),
    [seq_add(s, p0, p1, d)] followed by [seq_add(s, p0 + d, p1 + d, -d)]
    gives back its position to every cell that contained [s] at a position
    of [[p0, p1)], unless the first call evicts the cell: a cell at a
    position [pos >= 0] with [pos + d < 0]. *)
Theorem seq_add_round_trip kv seq p0 p1 d i c :
  recurrent kv = false →
  p1 <= INT32_MAX → p1 + d <= INT32_MAX →
  cells kv !! i = Some c → seq ∈ seq_id c → p0 <= pos c < p1 →
  (0 <= pos c → 0 <= pos c + d) →
  pos <$> cells (seq_add (seq_add kv seq p0 p1 d) seq (p0 + d) (p1 + d) (- d)) !! i
  = Some (pos c).
Proof.
  intros Hrec Hp1 Hp1d Hi Hs Hp Hd.
  rewrite seq_add_cells by now apply seq_add_recurrent_flag.
  rewrite seq_add_cells by assumption.
  replace (- d =? 0) with (d =? 0)
    by (destruct (Z.eqb_spec d 0), (Z.eqb_spec (- d) 0); lia).
  destruct (Z.eqb_spec d 0) as [Hd0|Hd0]; simpl; [now rewrite Hi|].
  assert (Hcases : (norm_p0 p0 <= pos c < norm_p1 p1) ∨ pos c < 0).
  { destruct (norm_p0_spec p0) as [[? ->]|[? ->]],
             (norm_p1_spec p1) as [[? ->]|[? ->]]; lia. }
  destruct Hcases as [Hin|Hneg].
  - (* the cell is shifted by the first call and shifted back by the second *)
    assert (Hne : norm_p0 p0 ≠ norm_p1 p1) by lia.
    destruct (Z.eqb_spec (norm_p0 p0) (norm_p1 p1)) as [|_]; [contradiction|].
    pose proof (norm_p0_nonneg p0) as Hq0.
    assert (Hq : norm_p0 p0 = p0 ∨ (p0 < 0 ∧ norm_p0 p0 = 0))
      by (destruct (norm_p0_spec p0); lia).
    assert (Hrange : 0 <= pos c + d <= INT32_MAX) by lia.
    destruct (seq_add_cell_moved seq (norm_p0 p0) (norm_p1 p1) d c Hs Hin Hrange)
      as [Hpos1 Hseq1].
    set (c1 := seq_add_cell seq (norm_p0 p0) (norm_p1 p1) d c) in *.
    assert (Hin2 : norm_p0 (p0 + d) <= pos c1 < norm_p1 (p1 + d)).
    { rewrite Hpos1.
      destruct (norm_p0_spec (p0 + d)) as [[? ->]|[? ->]],
               (norm_p1_spec (p1 + d)) as [[? ->]|[? ->]]; lia. }
    destruct (Z.eqb_spec (norm_p0 (p0 + d)) (norm_p1 (p1 + d))) as [|_]; [lia|].
    rewrite !list_lookup_fmap, Hi. simpl. f_equal. fold c1.
    assert (Hs1 : seq ∈ seq_id c1) by now rewrite Hseq1.
    destruct (seq_add_cell_moved seq _ _ (- d) c1 Hs1 Hin2) as [Hpos2 _];
      [unfold INT32_MAX in *; lia|].
    rewrite Hpos2, Hpos1. lia.
  - (* the cell is below zero and no sweep matches it *)
    assert (Hc1 : (if norm_p0 p0 =? norm_p1 p1 then cells kv
                   else map (seq_add_cell seq (norm_p0 p0) (norm_p1 p1) d) (cells kv))
                  !! i = Some c).
    { destruct (_ =? _); [assumption|].
      rewrite list_lookup_fmap, Hi. simpl.
      now rewrite seq_add_cell_negative by (auto using norm_p0_nonneg). }
    destruct (_ =? _) in |- * at 1.
    + now rewrite Hc1.
    + rewrite list_lookup_fmap, Hc1. simpl.
      now rewrite seq_add_cell_negative by (auto using norm_p0_nonneg).
Qed.

(** The theorem on a shift to the left that evicts other cells of the
    range: with sequence 0 at the positions 0 to 7, the cell at position 5
    goes to 2 and comes back, while those at 0, 1 and 2 are evicted. *)
Lemma seq_add_round_trip_witness :
  ∃ kv c,
    run_ops (init false 8) ops_fill8 = Some kv ∧
    cells kv !! 5%nat = Some c ∧ pos c = 5 ∧
    pos <$> cells (seq_add kv 0 0 8 (-3)) !! 5%nat = Some 2 ∧
    pos <$> cells (seq_add kv 0 0 8 (-3)) !! 1%nat = Some (-1) ∧
    pos <$> cells (seq_add (seq_add kv 0 0 8 (-3)) 0 (0 + -3) (8 + -3) (- -3)) !! 5%nat
    = Some (pos c).
Proof.
  exists (default (init false 8) (run_ops (init false 8) ops_fill8)).
  eexists. split; [vm_compute; reflexivity|]. split; [reflexivity|].
  split; [reflexivity|]. split; [vm_compute; reflexivity|].
  split; [vm_compute; reflexivity|].
  apply seq_add_round_trip.
  - reflexivity.
  - vm_compute. discriminate.
  - vm_compute. discriminate.
  - reflexivity.
  - compute_done.
  - simpl. lia.
  - simpl. lia.
Defined.

(** C6 (as stated) fails: in the pool of S5 (sequence 0 at position 0),
    [seq_add(0, 0, 1, -1)] evicts the cell ([pos = 0] and [pos + d = -1]),
    and [seq_add(0, -1, 0, +1)] does not bring it back: its position is
    -1, where it was 0. *)
Lemma seq_add_round_trip_counterexample :
  ∃ kv c,
    run_ops (init false 1) ops_S5 = Some kv ∧
    cells kv !! 0%nat = Some c ∧ 0 ∈ seq_id c ∧ 0 <= pos c < 1 ∧ pos c = 0 ∧
    pos <$> cells (seq_add (seq_add kv 0 0 1 (-1)) 0 (0 + -1) (1 + -1) (- -1)) !! 0%nat
    = Some (-1).
Proof.
  eexists _, _. split; [vm_compute; reflexivity|]. split; [reflexivity|].
  split; [compute_done|]. split; [simpl; lia|]. split; [reflexivity|].
  vm_compute. reflexivity.
Qed.

(** ** Tails of a recurrent pool *)

(** C4, evaluated where the source breaks it. On a recurrent pool of four
    cells, after the batch of S6 and [seq_rm(-1, -1, -1)], sequence 0 still
    has the tail 0 while cell 0 no longer contains it: the tails do not
    point home. The next [find_slot] for sequence 0 does not return: it
    runs into [GGML_ASSERT(cell.has_seq_id(seq_id))]. *)
Lemma seq_rm_all_leaves_dangling_tail :
  ∃ kv, run_ops (init true 4) ops_rm_all = Some kv ∧
        tail (cell_at (cells kv) 0) = 0 ∧
        (0 ∉ seq_id (tail_cell kv 0)) ∧
        ¬ tails_point_home kv ∧
        find_slot kv ub_S6 = None.
Proof.
  eexists. split; [vm_compute; reflexivity|].
  split; [reflexivity|]. split; [compute_done|]. split; [|vm_compute; reflexivity].
  intros H. specialize (H 0). revert H. compute_done.
Qed.

(** ** clear and the history of a pool *)

(** *** States that differ in what [forget] erases *)

Lemma forget_cell_eq c1 c2 :
  forget_cell c1 = forget_cell c2 ↔
  pos c1 = pos c2 ∧ src c1 = src c2 ∧ tail c1 = tail c2 ∧ seq_id c1 = seq_id c2.
Proof.
  destruct c1, c2. unfold forget_cell, set_delta. simpl. split.
  - intros H. injection H. auto.
  - intros (-> & -> & -> & ->). reflexivity.
Qed.

(** Two cells equal up to [delta] are brought to the same fields. *)
Ltac same_cells H :=
  apply forget_cell_eq in H; destruct H as (? & ? & ? & ?);
  repeat match goal with c : llama_kv_cell |- _ => destruct c end;
  simpl in *; subst.

Ltac cell_eq := apply forget_cell_eq; simpl; auto.

Lemma cells_eq_length cs1 cs2 : cells_eq cs1 cs2 → length cs1 = length cs2.
Proof.
  unfold cells_eq. intros H. apply (f_equal length) in H.
  now rewrite !length_map in H.
Qed.

Lemma cells_eq_lookup cs1 cs2 (i : nat) :
  cells_eq cs1 cs2 → forget_cell <$> cs1 !! i = forget_cell <$> cs2 !! i.
Proof. unfold cells_eq. intros H. rewrite <- !list_lookup_fmap. now f_equal. Qed.

Lemma cells_eq_get cs1 cs2 i :
  cells_eq cs1 cs2 →
  (get cs1 i = None ∧ get cs2 i = None) ∨
  (∃ c1 c2, get cs1 i = Some c1 ∧ get cs2 i = Some c2 ∧
            forget_cell c1 = forget_cell c2).
Proof.
  intros H. unfold get. destruct (i <? 0); [now left|].
  pose proof (cells_eq_lookup _ _ (Z.to_nat i) H) as Hi.
  destruct (cs1 !! Z.to_nat i) as [c1|], (cs2 !! Z.to_nat i) as [c2|];
    simpl in Hi; try discriminate; [right|now left].
  exists c1, c2. repeat split. congruence.
Qed.

Lemma cells_eq_cell_at cs1 cs2 i :
  cells_eq cs1 cs2 → forget_cell (cell_at cs1 i) = forget_cell (cell_at cs2 i).
Proof.
  intros H. unfold cell_at.
  destruct (cells_eq_get _ _ i H) as [[-> ->]|(c1 & c2 & -> & -> & Hc)]; auto.
Qed.

Lemma cells_eq_upd cs1 cs2 i f1 f2 :
  (∀ c1 c2, forget_cell c1 = forget_cell c2 →
            forget_cell (f1 c1) = forget_cell (f2 c2)) →
  cells_eq cs1 cs2 → cells_eq (upd i f1 cs1) (upd i f2 cs2).
Proof.
  intros Hf H. unfold upd. destruct (i <? 0); [assumption|].
  unfold cells_eq. apply list_eq. intros k. rewrite !list_lookup_fmap.
  destruct (decide (Z.to_nat i = k)) as [<-|Hne].
  - rewrite !list_lookup_alter_eq.
    pose proof (cells_eq_lookup _ _ (Z.to_nat i) H) as Hi.
    destruct (cs1 !! Z.to_nat i), (cs2 !! Z.to_nat i); simpl in *;
      try discriminate; [|reflexivity].
    f_equal. apply Hf. congruence.
  - rewrite !list_lookup_alter_ne by assumption. now apply cells_eq_lookup.
Qed.

(** *** The sweeps *)

Lemma for_cells_eq {A : Type} (RA : A → A → Prop)
    (body : Z → llama_kv_cell → A → llama_kv_cell * A) i cs1 cs2 a1 a2 :
  (∀ j c1 c2 b1 b2, forget_cell c1 = forget_cell c2 → RA b1 b2 →
     forget_cell (body j c1 b1).1 = forget_cell (body j c2 b2).1 ∧
     RA (body j c1 b1).2 (body j c2 b2).2) →
  cells_eq cs1 cs2 → RA a1 a2 →
  cells_eq (for_cells body i cs1 a1).1 (for_cells body i cs2 a2).1 ∧
  RA (for_cells body i cs1 a1).2 (for_cells body i cs2 a2).2.
Proof.
  intros Hb. revert i cs2 a1 a2.
  induction cs1 as [|c1 cs1 IH]; intros i [|c2 cs2] a1 a2 Hcs Ha;
    try discriminate; [simpl; auto|].
  unfold cells_eq in Hcs. simpl in Hcs.
  assert (Hc : forget_cell c1 = forget_cell c2) by congruence.
  assert (Hcs0 : cells_eq cs1 cs2) by (unfold cells_eq; congruence).
  rewrite !for_cells_cons_1, !for_cells_cons_2.
  destruct (Hb i c1 c2 a1 a2 Hc Ha) as [Hc' Ha'].
  destruct (IH (i + 1) cs2 _ _ Hcs0 Ha') as [Hcs' Ha''].
  split; [|assumption]. unfold cells_eq in *. simpl. now f_equal.
Qed.

Ltac body_eq H :=
  same_cells H; simpl;
  repeat (first [progress simpl | case_match]);
  simpl; repeat split; subst; simpl in *; try reflexivity; try congruence;
  try cell_eq.

Lemma seq_rm_body_eq sz seq p0 p1 j c1 c2 b :
  forget_cell c1 = forget_cell c2 →
  forget_cell (seq_rm_body sz seq p0 p1 j c1 b).1 =
  forget_cell (seq_rm_body sz seq p0 p1 j c2 b).1 ∧
  (seq_rm_body sz seq p0 p1 j c1 b).2 = (seq_rm_body sz seq p0 p1 j c2 b).2.
Proof.
  intros H. destruct b as [u nh].
  unfold seq_rm_body, in_range, has_seq_id, is_empty, seq_clear, seq_erase.
  body_eq H.
Qed.

Lemma seq_cp_body_eq s d p0 p1 j c1 c2 b :
  forget_cell c1 = forget_cell c2 →
  forget_cell (seq_cp_body s d p0 p1 j c1 b).1 =
  forget_cell (seq_cp_body s d p0 p1 j c2 b).1 ∧
  (seq_cp_body s d p0 p1 j c1 b).2 = (seq_cp_body s d p0 p1 j c2 b).2.
Proof.
  intros H. unfold seq_cp_body, in_range, has_seq_id, seq_insert. body_eq H.
Qed.

Lemma seq_keep_body_eq rec sz seq j c1 c2 b :
  forget_cell c1 = forget_cell c2 →
  forget_cell (seq_keep_body rec sz seq j c1 b).1 =
  forget_cell (seq_keep_body rec sz seq j c2 b).1 ∧
  (seq_keep_body rec sz seq j c1 b).2 = (seq_keep_body rec sz seq j c2 b).2.
Proof.
  intros H. destruct b as [u nh].
  unfold seq_keep_body, has_seq_id, seq_clear, seq_insert.
  destruct (rec && negb (wrap_i32 j =? seq)); body_eq H.
Qed.

Lemma seq_add_body_eq sz seq p0 p1 d j c1 c2 b1 b2 :
  forget_cell c1 = forget_cell c2 → b1.1.2 = b2.1.2 ∧ b1.2 = b2.2 →
  forget_cell (seq_add_body sz seq p0 p1 d j c1 b1).1 =
  forget_cell (seq_add_body sz seq p0 p1 d j c2 b2).1 ∧
  ((seq_add_body sz seq p0 p1 d j c1 b1).2.1.2 =
   (seq_add_body sz seq p0 p1 d j c2 b2).2.1.2 ∧
   (seq_add_body sz seq p0 p1 d j c1 b1).2.2 =
   (seq_add_body sz seq p0 p1 d j c2 b2).2.2).
Proof.
  intros H [Hu Hnh]. destruct b1 as [[hs1 u1] nh1], b2 as [[hs2 u2] nh2].
  simpl in Hu, Hnh. subst.
  unfold seq_add_body, in_range, has_seq_id, is_empty, seq_clear.
  body_eq H.
Qed.

Lemma seq_div_body_eq seq p0 p1 d j c1 c2 b1 b2 :
  forget_cell c1 = forget_cell c2 →
  forget_cell (seq_div_body seq p0 p1 d j c1 b1).1 =
  forget_cell (seq_div_body seq p0 p1 d j c2 b2).1.
Proof.
  intros H. unfold seq_div_body, in_range, has_seq_id. body_eq H.
Qed.

(** *** The operations *)

Lemma forget_eq k1 k2 :
  forget k1 = forget k2 ↔
  recurrent k1 = recurrent k2 ∧ head k1 = head k2 ∧ used k1 = used k2 ∧
  cells_eq (cells k1) (cells k2).
Proof.
  destruct k1, k2. unfold forget, cells_eq. simpl. split.
  - intros H. injection H. auto.
  - intros (-> & -> & -> & ->). reflexivity.
Qed.

Lemma forget_size k1 k2 : forget k1 = forget k2 → size k1 = size k2.
Proof.
  intros H. apply forget_eq in H as (_ & _ & _ & H).
  unfold size. now rewrite (cells_eq_length _ _ H).
Qed.

Section cell_at_eq.
Context (cs1 cs2 : list llama_kv_cell) (Hcs : cells_eq cs1 cs2).

Lemma cell_at_pos i : pos (cell_at cs1 i) = pos (cell_at cs2 i).
Proof. now apply forget_cell_eq, cells_eq_cell_at. Qed.

Lemma cell_at_src i : src (cell_at cs1 i) = src (cell_at cs2 i).
Proof. now apply forget_cell_eq, cells_eq_cell_at. Qed.

Lemma cell_at_tail i : tail (cell_at cs1 i) = tail (cell_at cs2 i).
Proof. now apply forget_cell_eq, cells_eq_cell_at. Qed.

Lemma cell_at_seq_id i : seq_id (cell_at cs1 i) = seq_id (cell_at cs2 i).
Proof. now apply forget_cell_eq, cells_eq_cell_at. Qed.

Lemma cell_at_has_seq_id i s :
  has_seq_id (cell_at cs1 i) s = has_seq_id (cell_at cs2 i) s.
Proof. unfold has_seq_id. now rewrite cell_at_seq_id. Qed.

Lemma cell_at_is_empty i : is_empty (cell_at cs1 i) = is_empty (cell_at cs2 i).
Proof. unfold is_empty. now rewrite cell_at_seq_id. Qed.

Lemma cell_at_in_range i p0 p1 :
  in_range p0 p1 (cell_at cs1 i) = in_range p0 p1 (cell_at cs2 i).
Proof. unfold in_range. now rewrite cell_at_pos. Qed.
End cell_at_eq.

(** A function of a cell that reads no [delta] and writes it, if at all,
    regardless of the cell. *)
Ltac upd_eq :=
  let c1 := fresh "c" in let c2 := fresh "c" in let H := fresh "H" in
  intros c1 c2 H; same_cells H; cell_eq.

Lemma forget_cleared cs :
  map forget_cell (map clear_cell cs) = replicate (length cs) cell_new.
Proof. induction cs as [|c cs IH]; simpl; [reflexivity|]. now rewrite IH. Qed.

(** What is left of the history after [clear]: nothing of the cells below
    the bound of its loop, and the cells from the bound on. *)
Lemma forget_clear_sweep kv :
  forget (clear kv) =
  {| has_shift := false; do_defrag := false; recurrent := recurrent kv;
     head := 0; used := 0; n := 0;
     cells := replicate (length (take (Z.to_nat (wrap_i32 (size kv)))
                                   (map forget_cell (cells kv)))) cell_new
              ++ drop (Z.to_nat (wrap_i32 (size kv))) (map forget_cell (cells kv)) |}.
Proof.
  rewrite clear_sweep. unfold forget. cbn [cells recurrent head used set_used
    set_head set_cells]. f_equal.
  rewrite map_app, forget_cleared, <- fmap_take, <- fmap_drop, !length_map.
  reflexivity.
Qed.

Lemma forget_clear kv :
  size kv <= INT32_MAX →
  forget (clear kv) =
  {| has_shift := false; do_defrag := false; recurrent := recurrent kv;
     head := 0; used := 0; n := 0;
     cells := replicate (length (cells kv)) cell_new |}.
Proof.
  intros Hsz. rewrite clear_unfold by assumption. unfold forget.
  cbn [cells recurrent head used set_used set_head set_cells]. f_equal.
  apply forget_cleared.
Qed.

Lemma seq_rm_recurrent_eq cs1 cs2 sz seq p0 p1 :
  cells_eq cs1 cs2 →
  match seq_rm_recurrent cs1 sz seq p0 p1, seq_rm_recurrent cs2 sz seq p0 p1 with
  | Some a, Some b => cells_eq a b
  | None, None => True
  | _, _ => False
  end.
Proof.
  intros H. unfold seq_rm_recurrent.
  rewrite (cell_at_tail _ _ H seq), (cell_at_pos _ _ H (tail (cell_at cs2 seq))).
  destruct (sz <=? seq); [exact I|].
  destruct (0 <=? seq).
  - destruct (0 <=? tail (cell_at cs2 seq)); [|assumption].
    destruct (_ || _); [exact I|].
    destruct (_ && _); [|assumption].
    apply cells_eq_upd; [upd_eq|assumption].
  - now destruct (_ && _).
Qed.

Lemma seq_rm_eq k1 k2 seq p0 p1 :
  forget k1 = forget k2 →
  forget (seq_rm k1 seq p0 p1).1 = forget (seq_rm k2 seq p0 p1).1 ∧
  (seq_rm k1 seq p0 p1).2 = (seq_rm k2 seq p0 p1).2.
Proof.
  intros H. pose proof (forget_size _ _ H) as Hsz.
  apply forget_eq in H as (Hrec & Hhd & Hu & Hcs).
  unfold seq_rm. rewrite Hrec, Hsz, Hhd, Hu.
  assert (Hpre :
    match (if recurrent k2 then seq_rm_recurrent (cells k1) (size k2) seq
                                  (norm_p0 p0) (norm_p1 p1) else Some (cells k1)),
          (if recurrent k2 then seq_rm_recurrent (cells k2) (size k2) seq
                                  (norm_p0 p0) (norm_p1 p1) else Some (cells k2)) with
    | Some a, Some b => cells_eq a b
    | None, None => True
    | _, _ => False
    end).
  { destruct (recurrent k2); [now apply seq_rm_recurrent_eq|assumption]. }
  destruct (if recurrent k2 then _ else _) as [a|],
           (if recurrent k2 then _ else _) as [b|]; try contradiction.
  - destruct (for_cells_eq eq (seq_rm_body (size k2) seq (norm_p0 p0) (norm_p1 p1))
                0 a b (used k2, size k2) (used k2, size k2)) as [H1 H2];
      [|assumption|reflexivity|].
    { intros j c1 c2 b1 b2 Hc <-. now apply seq_rm_body_eq. }
    destruct (for_cells _ 0 a _) as [cs1' [u1 nh1]],
             (for_cells _ 0 b _) as [cs2' [u2 nh2]].
    simpl in H1, H2. injection H2 as -> ->. split; [|reflexivity].
    destruct (_ && _); apply forget_eq; simpl; auto.
  - split; [|reflexivity]. apply forget_eq. auto.
Qed.

Lemma seq_cp_clear_dst_eq k1 k2 d :
  forget k1 = forget k2 →
  forget (seq_cp_clear_dst k1 d) = forget (seq_cp_clear_dst k2 d).
Proof.
  intros H. pose proof H as H'.
  apply forget_eq in H' as (Hrec & Hhd & Hu & Hcs).
  unfold seq_cp_clear_dst. rewrite (cell_at_tail _ _ Hcs d).
  destruct (0 <=? tail (cell_at (cells k2) d)); [|assumption].
  set (t := tail (cell_at (cells k2) d)).
  assert (Hcs2 : cells_eq (upd d (set_tail (-1)) (upd t (seq_erase d) (cells k1)))
                          (upd d (set_tail (-1)) (upd t (seq_erase d) (cells k2)))).
  { apply cells_eq_upd; [upd_eq|]. apply cells_eq_upd; [upd_eq|assumption]. }
  rewrite (cell_at_is_empty _ _ Hcs2 t). destruct (is_empty _).
  - apply forget_eq. simpl. repeat split; auto; try congruence.
    apply cells_eq_upd; [upd_eq|assumption].
  - apply forget_eq. simpl. auto.
Qed.

Lemma seq_cp_eq k1 k2 s d p0 p1 :
  forget k1 = forget k2 →
  forget (seq_cp k1 s d p0 p1) = forget (seq_cp k2 s d p0 p1).
Proof.
  intros H. pose proof (forget_size _ _ H) as Hsz. pose proof H as H'.
  apply forget_eq in H' as (Hrec & Hhd & Hu & Hcs).
  unfold seq_cp. destruct (s =? d); [assumption|]. rewrite Hrec.
  destruct (recurrent k2) eqn:Hrec2.
  - unfold seq_cp_recurrent. rewrite Hsz. destruct (_ && _); [|assumption].
    pose proof (seq_cp_clear_dst_eq _ _ d H) as H1. pose proof H1 as H1'.
    apply forget_eq in H1' as (Hrec1 & Hhd1 & Hu1 & Hcs1).
    rewrite (cell_at_tail _ _ Hcs1 s).
    destruct (0 <=? _); [|assumption].
    apply forget_eq; simpl; repeat split; auto; try congruence.
    apply cells_eq_upd; [upd_eq|]. apply cells_eq_upd; [upd_eq|assumption].
  - destruct (for_cells_eq eq (seq_cp_body s d (norm_p0 p0) (norm_p1 p1))
                0 (cells k1) (cells k2) tt tt) as [H1 _];
      [|assumption|reflexivity|].
    { intros j c1 c2 b1 b2 Hc <-. now apply seq_cp_body_eq. }
    destruct (for_cells _ 0 (cells k1) _) as [cs1' []],
             (for_cells _ 0 (cells k2) _) as [cs2' []].
    simpl in H1. apply forget_eq. simpl. repeat split; auto; congruence.
Qed.

Lemma seq_keep_eq k1 k2 seq :
  forget k1 = forget k2 → forget (seq_keep k1 seq) = forget (seq_keep k2 seq).
Proof.
  intros H. pose proof (forget_size _ _ H) as Hsz.
  apply forget_eq in H as (Hrec & Hhd & Hu & Hcs).
  unfold seq_keep. rewrite Hrec, Hsz, Hhd, Hu.
  destruct (for_cells_eq eq (seq_keep_body (recurrent k2) (size k2) seq)
              0 (cells k1) (cells k2) (used k2, size k2) (used k2, size k2))
    as [H1 H2]; [|assumption|reflexivity|].
  { intros j c1 c2 b1 b2 Hc <-. now apply seq_keep_body_eq. }
  destruct (for_cells _ 0 (cells k1) _) as [cs1' [u1 nh1]],
           (for_cells _ 0 (cells k2) _) as [cs2' [u2 nh2]].
  simpl in H1, H2. injection H2 as -> ->.
  destruct (_ && _); apply forget_eq; simpl; auto.
Qed.

Lemma seq_add_eq k1 k2 seq p0 p1 d :
  forget k1 = forget k2 →
  forget (seq_add k1 seq p0 p1 d) = forget (seq_add k2 seq p0 p1 d).
Proof.
  intros H. pose proof (forget_size _ _ H) as Hsz. pose proof H as H'.
  apply forget_eq in H' as (Hrec & Hhd & Hu & Hcs).
  unfold seq_add. destruct (d =? 0); [assumption|].
  destruct (_ =? _); [assumption|]. rewrite Hrec. destruct (recurrent k2) eqn:Hrec2.
  - unfold seq_add_recurrent. rewrite Hsz. destruct (_ && _); [|assumption].
    rewrite (cell_at_tail _ _ Hcs seq). destruct (0 <=? _); [|assumption].
    rewrite (cell_at_has_seq_id _ _ Hcs), (cell_at_in_range _ _ Hcs).
    destruct (_ && _); [|assumption]. apply forget_eq. simpl.
    repeat split; auto; try congruence.
    apply cells_eq_upd; [upd_eq|assumption].
  - rewrite Hsz, Hu.
    destruct (for_cells_eq (λ b1 b2 : bool * Z * Z, b1.1.2 = b2.1.2 ∧ b1.2 = b2.2)
                (seq_add_body (size k2) seq (norm_p0 p0) (norm_p1 p1) d)
                0 (cells k1) (cells k2)
                (has_shift k1, used k2, size k2) (has_shift k2, used k2, size k2))
      as [H1 H2]; [|assumption|split; reflexivity|].
    { intros j c1 c2 b1 b2 Hc Hb. now apply seq_add_body_eq. }
    destruct (for_cells _ 0 (cells k1) _) as [cs1' [[hs1 u1] nh1]],
             (for_cells _ 0 (cells k2) _) as [cs2' [[hs2 u2] nh2]].
    simpl in H1, H2. destruct H2 as [-> ->]. apply forget_eq. simpl.
    repeat split; auto; congruence.
Qed.

Lemma existsb_cells_eq (f : llama_kv_cell → bool) cs1 cs2 :
  (∀ c1 c2, forget_cell c1 = forget_cell c2 → f c1 = f c2) →
  cells_eq cs1 cs2 → existsb f cs1 = existsb f cs2.
Proof.
  intros Hf. revert cs2. induction cs1 as [|c1 cs1 IH]; intros [|c2 cs2] H;
    try discriminate; [reflexivity|].
  unfold cells_eq in H. simpl in *.
  rewrite (Hf c1 c2) by congruence. f_equal. apply IH. unfold cells_eq. congruence.
Qed.

Lemma seq_div_eq k1 k2 seq p0 p1 d :
  forget k1 = forget k2 →
  forget <$> seq_div k1 seq p0 p1 d = forget <$> seq_div k2 seq p0 p1 d.
Proof.
  intros H. pose proof (forget_size _ _ H) as Hsz. pose proof H as H'.
  apply forget_eq in H' as (Hrec & Hhd & Hu & Hcs).
  unfold seq_div. destruct (d =? 1); [simpl; now f_equal|].
  destruct (_ =? _); [simpl; now f_equal|]. rewrite Hrec. destruct (recurrent k2) eqn:Hrec2.
  - unfold seq_div_recurrent. rewrite Hsz.
    destruct (_ && _); [|simpl; now f_equal].
    rewrite (cell_at_tail _ _ Hcs seq). destruct (0 <=? _); [|simpl; now f_equal].
    rewrite (cell_at_has_seq_id _ _ Hcs), (cell_at_in_range _ _ Hcs).
    destruct (_ && _); [|simpl; now f_equal]. destruct (d =? 0); [reflexivity|].
    simpl. f_equal. apply forget_eq. simpl. repeat split; auto; try congruence.
    apply cells_eq_upd; [upd_eq|assumption].
  - rewrite (existsb_cells_eq _ (cells k1) (cells k2)); [|
      intros c1 c2 Hc; unfold has_seq_id, in_range; same_cells Hc; reflexivity
      |assumption].
    destruct (_ && _); [reflexivity|].
    destruct (for_cells_eq (λ _ _, True)
                (seq_div_body seq (norm_p0 p0) (norm_p1 p1) d)
                0 (cells k1) (cells k2) (has_shift k1) (has_shift k2))
      as [H1 _]; [|assumption|exact I|].
    { intros j c1 c2 b1 b2 Hc _. split; [now apply seq_div_body_eq|exact I]. }
    destruct (for_cells _ 0 (cells k1) _) as [cs1' hs1],
             (for_cells _ 0 (cells k2) _) as [cs2' hs2].
    simpl in *. f_equal. apply forget_eq. simpl. repeat split; auto; congruence.
Qed.

(** *** find_slot *)

Lemma bind_rel {A B : Type} (RA : A → A → Prop) (RB : B → B → Prop)
    (m1 m2 : option A) (f1 f2 : A → option B) :
  option_Forall2 RA m1 m2 →
  (∀ a b, RA a b → option_Forall2 RB (f1 a) (f2 b)) →
  option_Forall2 RB (m1 ≫= f1) (m2 ≫= f2).
Proof. intros [a b Hab|] Hf; simpl; [now apply Hf|constructor]. Qed.

Lemma get_rel cs1 cs2 i :
  cells_eq cs1 cs2 →
  option_Forall2 (λ c1 c2, forget_cell c1 = forget_cell c2) (get cs1 i) (get cs2 i).
Proof.
  intros H. destruct (cells_eq_get _ _ i H) as [[-> ->]|(c1 & c2 & -> & -> & Hc)];
    now constructor.
Qed.

Lemma for_opt_rel {T : Type} (R : T → T → Prop) k i (body : Z → T → option T) s1 s2 :
  (∀ j a b, R a b → option_Forall2 R (body j a) (body j b)) →
  R s1 s2 → option_Forall2 R (for_opt k i body s1) (for_opt k i body s2).
Proof.
  intros Hb. revert i s1 s2. induction k as [|k IH]; intros i s1 s2 Hs; simpl.
  - now constructor.
  - apply (bind_rel R R); [now apply Hb|]. intros a b Hab. now apply IH.
Qed.

Lemma probe_run_eq cs1 cs2 hd k i :
  cells_eq cs1 cs2 → probe_run cs1 hd k i = probe_run cs2 hd k i.
Proof.
  intros H. revert i. induction k as [|k IH]; intros i; simpl; [reflexivity|].
  destruct (get_rel _ _ (wrap_u32 (hd + i)) H) as [c1 c2 Hc|]; [|reflexivity].
  apply forget_cell_eq in Hc as (-> & _). now rewrite IH.
Qed.

Lemma find_loop_eq fuel cs1 cs2 sz ntok hd nt :
  cells_eq cs1 cs2 →
  find_loop fuel cs1 sz ntok hd nt = find_loop fuel cs2 sz ntok hd nt.
Proof.
  intros H. revert hd nt. induction fuel as [|fuel IH]; intros hd nt; simpl;
    [reflexivity|].
  rewrite (probe_run_eq _ _ _ _ _ H), IH.
  destruct (_ <? _); [reflexivity|].
  destruct (probe_run _ _ _ _); try reflexivity. now rewrite IH.
Qed.

Lemma stamp_token_rel ub hd s i cs1 cs2 :
  cells_eq cs1 cs2 →
  option_Forall2 cells_eq (stamp_token ub hd s i cs1) (stamp_token ub hd s i cs2).
Proof.
  intros H. unfold stamp_token.
  destruct (ub_pos ub !! _) as [p|]; simpl; [|constructor].
  apply (bind_rel _ _ _ _ _ _ (get_rel _ _ _ H)). intros _ _ _.
  destruct (ub_n_seq_id ub !! _) as [cnt|]; simpl; [|constructor].
  apply for_opt_rel.
  - intros j a b Hab. destruct (batch_id ub s j) as [id|]; simpl; constructor.
    apply cells_eq_upd; [upd_eq|assumption].
  - apply cells_eq_upd; [upd_eq|assumption].
Qed.

Lemma stamp_rel ub hd cs1 cs2 :
  cells_eq cs1 cs2 → option_Forall2 cells_eq (stamp ub hd cs1) (stamp ub hd cs2).
Proof.
  intros H. unfold stamp. apply for_opt_rel; [|assumption].
  intros s a b Hab. apply for_opt_rel; [|assumption].
  intros i a' b' Hab'. now apply stamp_token_rel.
Qed.

Lemma find_slot_transformer_eq fuel k1 k2 ub :
  forget k1 = forget k2 →
  (λ x, (forget x.1, x.2)) <$> find_slot_transformer fuel k1 ub =
  (λ x, (forget x.1, x.2)) <$> find_slot_transformer fuel k2 ub.
Proof.
  intros H. pose proof (forget_size _ _ H) as Hsz. pose proof H as H'.
  apply forget_eq in H' as (Hrec & Hhd & Hu & Hcs).
  unfold find_slot_transformer. rewrite Hsz, Hhd, Hu, (find_loop_eq _ _ _ _ _ _ _ Hcs).
  destruct (_ <? _); [simpl; now rewrite H|].
  destruct (find_loop _ _ _ _ _ _) as [[[|] hd]|]; [| |reflexivity].
  - destruct (stamp_rel ub hd _ _ Hcs) as [a b Hab|]; [|reflexivity].
    simpl. do 2 f_equal. apply forget_eq. simpl. auto.
  - simpl. do 2 f_equal. apply forget_eq. simpl. auto.
Qed.

Lemma for_ret_rel {T R : Type} (RT : T → T → Prop) (RR : R → R → Prop) k i
    (body : Z → T → option (T + R)) s1 s2 :
  (∀ j a b, RT a b → option_Forall2 (sum_relation RT RR) (body j a) (body j b)) →
  RT s1 s2 →
  option_Forall2 (sum_relation RT RR) (for_ret k i body s1) (for_ret k i body s2).
Proof.
  intros Hb. revert i s1 s2. induction k as [|k IH]; intros i s1 s2 Hs; simpl.
  - now repeat constructor.
  - apply (bind_rel (sum_relation RT RR) _); [now apply Hb|].
    intros a b [a' b' Hab|a' b' Hab]; [now apply IH|now repeat constructor].
Qed.

Lemma fs_check_id_rel ub s j k1 k2 :
  kv_eq k1 k2 →
  option_Forall2 (sum_relation kv_eq kv_eq) (fs_check_id ub s j k1) (fs_check_id ub s j k2).
Proof.
  intros H. pose proof (forget_size _ _ H) as Hsz. pose proof H as H'.
  apply forget_eq in H' as (Hrec & Hhd & Hu & Hcs).
  unfold fs_check_id. destruct (batch_id ub s j) as [seq|]; simpl; [|constructor].
  rewrite Hsz. destruct (_ || _); [now repeat constructor|].
  destruct (0 <? j); [|now repeat constructor].
  apply (bind_rel _ _ _ _ _ _ (get_rel _ _ seq Hcs)). intros c1 c2 Hc.
  apply forget_cell_eq in Hc as (_ & _ & -> & _).
  destruct (0 <=? tail c2); [|now repeat constructor].
  apply (bind_rel _ _ _ _ _ _ (get_rel _ _ (tail c2) Hcs)). intros d1 d2 Hd.
  assert (Hcs2 : cells_eq
            (upd seq (set_tail (-1)) (upd (tail c2) (seq_erase seq) (cells k1)))
            (upd seq (set_tail (-1)) (upd (tail c2) (seq_erase seq) (cells k2)))).
  { apply cells_eq_upd; [upd_eq|]. apply cells_eq_upd; [upd_eq|assumption]. }
  replace (is_empty (seq_erase seq d1)) with (is_empty (seq_erase seq d2))
    by (unfold is_empty, seq_erase; same_cells Hd; reflexivity).
  destruct (is_empty _); repeat constructor; apply forget_eq; simpl;
    repeat split; auto; try congruence.
  apply cells_eq_upd; [upd_eq|assumption].
Qed.

Lemma fs_check_rel ub k1 k2 :
  kv_eq k1 k2 →
  option_Forall2 (sum_relation kv_eq kv_eq) (fs_check ub k1) (fs_check ub k2).
Proof.
  intros H. unfold fs_check. apply for_ret_rel; [|assumption].
  intros s a b Hab. destruct (ub_n_seq_id ub !! _) as [cnt|]; simpl; [|constructor].
  apply for_ret_rel; [|assumption]. intros j a' b' Hab'. now apply fs_check_id_rel.
Qed.

Lemma next_empty_eq k cs1 cs2 sz nxt :
  cells_eq cs1 cs2 → next_empty k cs1 sz nxt = next_empty k cs2 sz nxt.
Proof.
  intros H. revert nxt. induction k as [|k IH]; intros nxt; simpl; [reflexivity|].
  destruct (get_rel _ _ (if sz <=? nxt then wrap_u32 (nxt - sz) else nxt) H)
    as [c1 c2 Hc|]; [|reflexivity].
  simpl. replace (is_empty c1) with (is_empty c2)
    by (unfold is_empty; same_cells Hc; reflexivity).
  destruct (is_empty c2); [reflexivity|apply IH].
Qed.

Lemma fs_claim_rel ub sz s st1 st2 :
  claim_eq st1 st2 →
  option_Forall2 claim_eq (fs_claim ub sz s st1) (fs_claim ub sz s st2).
Proof.
  destruct st1 as [[[cs1 nxt1] mn1] mx1], st2 as [[[cs2 nxt2] mn2] mx2].
  intros (Hcs & Hn & Hmn & Hmx). simpl in *. subst.
  unfold fs_claim. destruct (batch_id ub s 0) as [seq|]; simpl; [|constructor].
  apply (bind_rel _ _ _ _ _ _ (get_rel _ _ seq Hcs)). intros m1 m2 Hm.
  pose proof Hm as Hm'. apply forget_cell_eq in Hm' as (_ & _ & Ht & _).
  rewrite Ht.
  apply (bind_rel eq).
  { destruct (0 <=? tail m2); [|now constructor].
    apply (bind_rel _ _ _ _ _ _ (get_rel _ _ (tail m2) Hcs)). intros d1 d2 Hd.
    unfold has_seq_id. same_cells Hd. destruct (bool_decide _); now constructor. }
  intros has_cell ? <-.
  apply (bind_rel (λ a b : list llama_kv_cell * Z, cells_eq a.1 b.1 ∧ a.2 = b.2)).
  - destruct has_cell; [now repeat constructor|].
    apply (bind_rel _ _ _ _ _ _ (get_rel _ _ nxt2 Hcs)). intros e1 e2 He.
    replace (is_empty e1) with (is_empty e2)
      by (unfold is_empty; same_cells He; reflexivity).
    destruct (is_empty e2); [|constructor].
    apply (bind_rel cells_eq).
    { destruct (0 <=? tail m2); [|now constructor].
      apply (bind_rel _ _ _ _ _ _ (get_rel _ _ (tail m2) Hcs)). intros o1 o2 Ho.
      constructor. apply forget_cell_eq in Ho as (-> & -> & _ & _).
      apply cells_eq_upd; [upd_eq|]. apply cells_eq_upd; [upd_eq|].
      apply cells_eq_upd; [upd_eq|assumption]. }
    intros a b Hab.
    assert (Hcs2 : cells_eq (upd seq (set_tail (wrap_i32 nxt2)) a)
                            (upd seq (set_tail (wrap_i32 nxt2)) b))
      by (apply cells_eq_upd; [upd_eq|assumption]).
    apply (bind_rel eq).
    + destruct (_ <? _); [|now constructor].
      rewrite (cells_eq_length _ _ Hcs2), (next_empty_eq _ _ _ _ _ Hcs2).
      destruct (next_empty _ _ _ _); now constructor.
    + intros nxt' ? <-. now repeat constructor.
  - intros [a na] [b nb] [Hab Hn]. simpl in *. subst.
    apply (bind_rel _ _ _ _ _ _ (get_rel _ _ seq Hab)). intros f1 f2 Hf.
    apply forget_cell_eq in Hf as (_ & _ & -> & _).
    constructor. repeat split; assumption.
Qed.

Lemma set_tails_rel ids v cs1 cs2 :
  cells_eq cs1 cs2 →
  option_Forall2 cells_eq (set_tails ids v cs1) (set_tails ids v cs2).
Proof.
  intros H. unfold set_tails.
  assert (Hacc : option_Forall2 cells_eq (Some cs1) (Some cs2)) by now constructor.
  revert Hacc. generalize (Some cs1) (Some cs2).
  induction (elements ids) as [|id l IH]; intros a b Hab; simpl; [assumption|].
  apply IH. apply (bind_rel _ _ _ _ _ _ Hab). intros a' b' Hab'.
  apply (bind_rel _ _ _ _ _ _ (get_rel _ _ id Hab')). intros _ _ _.
  constructor. apply cells_eq_upd; [upd_eq|assumption].
Qed.

Lemma fs_gather_rel ub mn s cs1 cs2 :
  cells_eq cs1 cs2 →
  option_Forall2 cells_eq (fs_gather ub mn s cs1) (fs_gather ub mn s cs2).
Proof.
  intros H. unfold fs_gather.
  destruct (batch_id ub s 0) as [seq|]; simpl; [|constructor].
  apply (bind_rel _ _ _ _ _ _ (get_rel _ _ seq H)). intros m1 m2 Hm.
  apply forget_cell_eq in Hm as (_ & _ & -> & _).
  destruct (_ =? _); [now constructor|].
  apply (bind_rel _ _ _ _ _ _ (get_rel _ _ _ H)). intros d1 d2 Hd.
  apply (bind_rel _ _ _ _ _ _ (get_rel _ _ _ H)). intros s1 s2 Hs.
  pose proof Hd as Hd'. pose proof Hs as Hs'.
  apply forget_cell_eq in Hd' as (Hd1 & Hd2 & _ & Hd3).
  apply forget_cell_eq in Hs' as (Hs1 & Hs2 & _ & Hs3).
  rewrite Hd3, Hs3.
  apply (bind_rel cells_eq).
  - apply set_tails_rel. unfold swap_in. rewrite Hd1, Hd2, Hd3, Hs1, Hs2, Hs3.
    apply cells_eq_upd; [upd_eq|]. apply cells_eq_upd; [upd_eq|assumption].
  - intros a b Hab. now apply set_tails_rel.
Qed.

Lemma fs_stamp_rel ub mn s cs1 cs2 :
  cells_eq cs1 cs2 →
  option_Forall2 cells_eq (fs_stamp ub mn s cs1) (fs_stamp ub mn s cs2).
Proof.
  intros H. unfold fs_stamp.
  destruct (ub_pos ub !! _) as [last_pos|]; simpl; [|constructor].
  apply (bind_rel _ _ _ _ _ _ (get_rel _ _ _ H)). intros _ _ _.
  destruct (ub_n_seq_id ub !! _) as [cnt|]; simpl; [|constructor].
  apply for_opt_rel.
  - intros j a b Hab. destruct (batch_id ub s j) as [seq|]; simpl; [|constructor].
    apply (bind_rel _ _ _ _ _ _ (get_rel _ _ _ Hab)). intros _ _ _.
    constructor. apply cells_eq_upd; [upd_eq|]. apply cells_eq_upd; [upd_eq|assumption].
  - apply cells_eq_upd; [upd_eq|assumption].
Qed.

Lemma count_non_empty_eq cs1 cs2 :
  cells_eq cs1 cs2 → count_non_empty cs1 = count_non_empty cs2.
Proof.
  unfold count_non_empty, cells_eq. intros H. f_equal. revert cs2 H.
  induction cs1 as [|c1 cs1 IH]; intros [|c2 cs2] H; try discriminate;
    [reflexivity|].
  simpl in H. assert (Hc : forget_cell c1 = forget_cell c2) by congruence.
  assert (Hcs : map forget_cell cs1 = map forget_cell cs2) by congruence.
  rewrite !filter_cons.
  replace (is_empty c1) with (is_empty c2)
    by (unfold is_empty; same_cells Hc; reflexivity).
  destruct (decide _); simpl; rewrite (IH _ Hcs); reflexivity.
Qed.

Lemma find_slot_recurrent_eq k1 k2 ub :
  kv_eq k1 k2 →
  (λ x, (forget x.1, x.2)) <$> find_slot_recurrent k1 ub =
  (λ x, (forget x.1, x.2)) <$> find_slot_recurrent k2 ub.
Proof.
  intros H. pose proof (forget_size _ _ H) as Hsz.
  unfold find_slot_recurrent. destruct (negb _); [reflexivity|].
  destruct (fs_check_rel ub _ _ H) as [r1 r2 [a b Hab|a b Hab]|]; simpl;
    [| |reflexivity].
  - pose proof Hab as Hab'. apply forget_eq in Hab' as (Hrec & Hhd & Hu & Hcs).
    rewrite (cells_eq_length _ _ Hcs), (next_empty_eq _ _ _ _ _ Hcs), Hhd, Hsz.
    destruct (next_empty _ _ _ _) as [nxt|]; simpl; [|reflexivity].
    destruct (for_opt_rel claim_eq (Z.to_nat (n_seqs ub)) 0 (fs_claim ub (size k2))
                (cells a, nxt, wrap_i32 (size k2 - 1), 0)
                (cells b, nxt, wrap_i32 (size k2 - 1), 0))
      as [[[[cs1 n1] mn1] mx1] [[[cs2 n2] mn2] mx2] (Hc1 & _ & Hmn & Hmx)|];
      [intros; now apply fs_claim_rel|repeat split; assumption| |reflexivity].
    simpl in *. subst.
    destruct (for_opt_rel cells_eq (Z.to_nat (n_seqs ub)) 0 (fs_gather ub mn2) cs1 cs2)
      as [g1 g2 Hg|]; [intros; now apply fs_gather_rel|assumption| |reflexivity].
    simpl.
    destruct (for_opt_rel cells_eq (Z.to_nat (n_seqs ub)) 0 (fs_stamp ub mn2) g1 g2)
      as [t1 t2 Ht|]; [intros; now apply fs_stamp_rel|assumption| |reflexivity].
    simpl. do 2 f_equal. apply forget_eq. simpl.
    rewrite (count_non_empty_eq _ _ Ht). auto.
  - do 2 f_equal. exact Hab.
Qed.

Lemma find_slot_eq k1 k2 ub :
  kv_eq k1 k2 →
  (λ x, (forget x.1, x.2)) <$> find_slot k1 ub =
  (λ x, (forget x.1, x.2)) <$> find_slot k2 ub.
Proof.
  intros H. pose proof H as H'. apply forget_eq in H' as (Hrec & _ & _ & Hcs).
  unfold find_slot. rewrite Hrec, (cells_eq_length _ _ Hcs).
  destruct (recurrent k2); [now apply find_slot_recurrent_eq|].
  now apply find_slot_transformer_eq.
Qed.

Lemma run_op_eq k1 k2 op :
  kv_eq k1 k2 → forget_result (run_op k1 op) = forget_result (run_op k2 op).
Proof.
  intros H. unfold forget_result.
  destruct op as [ub|seq p0 p1|s d p0 p1|seq|seq p0 p1 d|seq p0 p1 d|]; simpl.
  - pose proof (find_slot_eq _ _ ub H) as Hfs.
    destruct (find_slot k1 ub) as [[a sa]|], (find_slot k2 ub) as [[b sb]|];
      simpl in *; congruence.
  - destruct (seq_rm_eq _ _ seq p0 p1 H) as [-> ->]. reflexivity.
  - now rewrite (seq_cp_eq _ _ s d p0 p1 H).
  - now rewrite (seq_keep_eq _ _ seq H).
  - now rewrite (seq_add_eq _ _ seq p0 p1 d H).
  - pose proof (seq_div_eq _ _ seq p0 p1 d H) as Hd.
    destruct (seq_div k1 seq p0 p1 d), (seq_div k2 seq p0 p1 d);
      simpl in *; congruence.
  - rewrite !forget_clear_sweep. pose proof H as H'.
    apply forget_eq in H' as (-> & _ & _ & Hcs).
    unfold size. rewrite (cells_eq_length _ _ Hcs). unfold cells_eq in Hcs.
    now rewrite Hcs.
Qed.

(** C7 (as amended). For two states of pools of the same size, of at most
    2^31 - 1 cells, and of the same mode, [clear] followed by the same
    operation with the same arguments returns in both or in none, with the
    same value, and leaves states that agree on [pos], [src], [tail] and
    the seq-id set of every cell and on [head] and [used]: everything but
    the accumulators [delta] and the flags [has_shift], [n] and
    [do_defrag], which [clear] does not write. (The loop of [clear] is
    bounded by [(int32_t) size]: a larger pool is not reset at all.) *)
Theorem clear_then_op_forgets_history kv1 kv2 op :
  size kv1 = size kv2 → size kv1 <= INT32_MAX →
  recurrent kv1 = recurrent kv2 →
  forget_result (run_op (clear kv1) op) = forget_result (run_op (clear kv2) op).
Proof.
  intros Hsz Hmax Hrec. apply run_op_eq. unfold kv_eq.
  rewrite !forget_clear by lia.
  unfold size in Hsz. apply Nat2Z.inj in Hsz. now rewrite Hsz, Hrec.
Qed.

Lemma clear_then_op_forgets_history_witness :
  ∃ kv2, run_ops (init false 1) ops_shifted_once = Some kv2 ∧
         forget_result (run_op (clear (init false 1)) (Op_seq_keep 0)) =
         forget_result (run_op (clear kv2) (Op_seq_keep 0)).
Proof.
  eexists. split; [vm_compute; reflexivity|].
  apply clear_then_op_forgets_history;
    [reflexivity|vm_compute; discriminate|reflexivity].
Defined.

(** C7 (as stated) fails: the fresh one-cell pool and the one-cell pool
    whose cell was stamped and shifted have the same size, and after
    [clear] and one more [clear] the first has [has_shift = false] and
    [delta = 0] where the second has [has_shift = true] and [delta = 1]. *)
Lemma clear_keeps_shift_counterexample :
  ∃ kv2, run_ops (init false 1) ops_shifted_once = Some kv2 ∧
         size (init false 1) = size kv2 ∧
         run_op (clear (init false 1)) Op_clear ≠ run_op (clear kv2) Op_clear ∧
         has_shift (clear (clear (init false 1))) = false ∧
         has_shift (clear (clear kv2)) = true ∧
         map delta (cells (clear (clear (init false 1)))) = [0] ∧
         map delta (cells (clear (clear kv2))) = [1].
Proof.
  eexists. split; [vm_compute; reflexivity|]. split; [reflexivity|].
  split; [|repeat split].
  intros H. apply (f_equal (λ r, has_shift <$> (fst <$> r))) in H.
  vm_compute in H. discriminate H.
Qed.

(** ** find_slot on a transformer pool: the search *)

Lemma find_loop_wraps_fst fuel cs sz ntok hd nt w :
  find_loop fuel cs sz ntok hd nt =
  (λ r : bool * Z * nat, r.1) <$> find_loop_wraps fuel cs sz ntok hd nt w.
Proof.
  revert hd nt w. induction fuel as [|fuel IH]; intros hd nt w; simpl; [reflexivity|].
  destruct (_ <? _); [apply IH|].
  destruct (probe_run _ _ _ _); try reflexivity.
  destruct (_ <=? _); [reflexivity|apply IH].
Qed.

Lemma get_in_range cs k :
  0 <= k < Z.of_nat (length cs) → ∃ c, get cs k = Some c.
Proof.
  intros Hk. unfold get. destruct (Z.ltb_spec k 0); [lia|].
  apply lookup_lt_is_Some. lia.
Qed.

Lemma probe_run_spec cs hd k i :
  0 <= hd → 0 <= i →
  hd + i + Z.of_nat k <= Z.of_nat (length cs) →
  Z.of_nat (length cs) < UINT32_MOD →
  match probe_run cs hd k i with
  | AllFree => ∀ j, i <= j < i + Z.of_nat k → free_at cs (hd + j)
  | Occupied j =>
      i <= j < i + Z.of_nat k ∧ ¬ free_at cs (hd + j) ∧
      ∀ j', i <= j' < j → free_at cs (hd + j')
  | OutOfBounds => False
  end.
Proof.
  intros Hhd. revert i. induction k as [|k IH]; intros i Hi Hlen Hsz; simpl.
  - intros j Hj. lia.
  - rewrite wrap_u32_id by lia.
    destruct (get_in_range cs (hd + i)) as [c Hc]; [lia|]. rewrite Hc.
    destruct (Z.leb_spec 0 (pos c)) as [Hocc|Hfree].
    + split; [lia|]. split; [|intros j' Hj'; lia].
      intros (c' & Hc' & Hneg). rewrite Hc in Hc'. injection Hc' as <-. lia.
    + specialize (IH (i + 1)). 
      destruct (probe_run cs hd k (i + 1)) as [|j|].
      * intros j Hj. destruct (Z.eq_dec j i) as [->|Hne]; [now exists c|].
        apply IH; lia.
      * destruct IH as (Hj & Hocc & Hbefore); try lia.
        split; [lia|]. split; [assumption|]. intros j' Hj'.
        destruct (Z.eq_dec j' i) as [->|Hne]; [now exists c|]. apply Hbefore. lia.
      * apply IH; lia.
Qed.

Section scan.
Context (cs : list llama_kv_cell) (sz ntok h0 : Z).
Context (Hlen : sz = Z.of_nat (length cs)).
Context (Hsz : sz <= 1073741824) (Hntok : 0 <= ntok <= sz) (Hh0 : 0 <= h0 <= sz).

(** Past the last start that leaves room for [ntok] cells, no run. *)
Lemma no_run_beyond hd h : sz < hd + ntok → hd <= h → ¬ free_run cs ntok h.
Proof using Hlen. intros Hhd Hh (_ & Hfit & _). lia. Qed.

(** A mismatch at offset [i] rules out every start up to [hd + i]. *)
Lemma no_run_through_occupied hd i h :
  0 <= i < ntok → ¬ free_at cs (hd + i) → hd <= h <= hd + i →
  ¬ free_run cs ntok h.
Proof. intros Hi Hocc Hh (_ & _ & Hfree). apply Hocc, Hfree. lia. Qed.

Lemma scan_inv_bounds hd nt w :
  scan_inv cs ntok h0 hd nt w → 0 <= hd <= sz ∧ 0 <= nt <= 2 * sz.
Proof using Hlen Hh0.
  unfold scan_inv. rewrite <- Hlen.
  intros [(? & ? & _)|[(? & ? & _)|(? & ? & _)]]; lia.
Qed.

Lemma find_loop_wraps_spec fuel hd nt w :
  scan_inv cs ntok h0 hd nt w →
  scan_rank sz ntok hd nt < Z.of_nat fuel →
  ∃ ok h w',
    find_loop_wraps fuel cs sz ntok hd nt w = Some (ok, h, w') ∧
    0 <= h <= sz ∧
    if ok : bool then first_run_from cs ntok h0 h ∧ (w' <= 1)%nat
    else no_run cs ntok.
Proof using Hlen Hsz Hntok Hh0.
  revert hd nt w. induction fuel as [|fuel IH]; intros hd nt w Hinv Hrank.
  { destruct (scan_inv_bounds _ _ _ Hinv) as [_ Hnt]. unfold scan_rank in Hrank.
    destruct (_ <=? _); lia. }
  destruct (scan_inv_bounds _ _ _ Hinv) as [Hhd Hnt].
  simpl. rewrite (wrap_u32_id (hd + ntok)) by (unfold UINT32_MOD; lia).
  destruct (Z.ltb_spec sz (hd + ntok)) as [Hwrap|Hfit].
  - (* n_tested += size - head; head = 0; continue *)
    rewrite (wrap_u32_id (sz - hd)) by (unfold UINT32_MOD; lia).
    rewrite (wrap_u32_id (nt + (sz - hd))) by (unfold UINT32_MOD; lia).
    apply IH.
    + unfold scan_inv in *. rewrite <- Hlen in *.
      destruct Hinv as [(Hr & -> & -> & Hno)|[(Hr & -> & -> & Hno1 & Hno2)|(-> & _)]];
        [| |lia].
      * destruct (Z.eq_dec h0 0) as [->|Hne].
        -- right. right. repeat split; try lia. intros h Hf.
           destruct (Z.lt_ge_cases h hd) as [Hlt|Hge].
           ++ apply (Hno h); [|assumption]. destruct Hf. lia.
           ++ now apply (no_run_beyond hd h).
        -- right. left. repeat split; try lia.
           ++ intros h Hh Hf. destruct (Z.lt_ge_cases h hd) as [Hlt|Hge].
              ** apply (Hno h); [lia|assumption].
              ** now apply (no_run_beyond hd h).
           ++ intros h Hh. lia.
      * right. right. repeat split; try lia. intros h Hf.
        destruct (Z.lt_ge_cases h hd) as [Hlt|Hge].
        -- apply (Hno2 h); [|assumption]. destruct Hf. lia.
        -- now apply (no_run_beyond hd h).
    + unfold scan_rank in *.
      destruct (Z.leb_spec (0 + ntok) sz), (Z.leb_spec (hd + ntok) sz); lia.
  - (* the run at [hd] is probed *)
    pose proof (probe_run_spec cs hd (Z.to_nat ntok) 0) as Hprobe.
    rewrite Z2Nat.id in Hprobe by lia.
    specialize (Hprobe ltac:(lia) ltac:(lia) ltac:(lia)
                       ltac:(unfold UINT32_MOD; lia)).
    destruct (probe_run cs hd (Z.to_nat ntok) 0) as [|i|]; [| |contradiction].
    + (* found *)
      exists true, hd, w. split; [reflexivity|]. split; [lia|].
      assert (Hrun : free_run cs ntok hd).
      { split; [lia|]. split; [lia|]. intros k Hk.
        replace k with (hd + (k - hd)) by lia. apply Hprobe. lia. }
      unfold scan_inv in Hinv. rewrite <- Hlen in Hinv.
      destruct Hinv as [(Hr & _ & -> & Hno)|[(Hr & _ & -> & Hno1 & Hno2)|(_ & _ & _ & Hno)]].
      * split; [|lia]. split; [assumption|]. left. split; [lia|assumption].
      * split; [|lia]. split; [assumption|]. right. rewrite <- Hlen.
        split; [lia|]. split; assumption.
      * exfalso. exact (Hno hd Hrun).
    + (* mismatch at offset [i] *)
      destruct Hprobe as (Hi & Hocc & _).
      rewrite (wrap_u32_id (hd + (i + 1))) by (unfold UINT32_MOD; lia).
      rewrite (wrap_u32_id (nt + (i + 1))) by (unfold UINT32_MOD; lia).
      assert (Hskip : ∀ h, hd <= h <= hd + i → ¬ free_run cs ntok h)
        by (intros h Hh; apply (no_run_through_occupied hd i h); [lia|assumption|lia]).
      unfold scan_inv in Hinv. rewrite <- Hlen in Hinv.
      destruct (Z.leb_spec sz (nt + (i + 1))) as [Hfull|Hmore].
      * (* n_tested >= size: give up *)
        exists false, (hd + (i + 1)), w. split; [reflexivity|]. split; [lia|].
        intros h Hf. pose proof Hf as (Hf0 & Hf1 & _).
        destruct Hinv as [(Hr & -> & _ & Hno)|[(Hr & -> & _ & Hno1 & Hno2)|(_ & _ & _ & Hno)]].
        -- destruct (Z.lt_ge_cases h hd) as [Hlt|Hge];
             [apply (Hno h); [lia|assumption]|].
           apply (Hskip h); [lia|assumption].
        -- destruct (Z.lt_ge_cases h hd) as [Hlt|Hge];
             [apply (Hno2 h); [lia|assumption]|].
           destruct (Z.le_gt_cases h (hd + i)) as [Hle|Hgt];
             [apply (Hskip h); [lia|assumption]|].
           apply (Hno1 h); [lia|assumption].
        -- exact (Hno h Hf).
      * (* go on from [hd + i + 1] *)
        apply IH.
        -- unfold scan_inv. rewrite <- Hlen.
           destruct Hinv as [(Hr & -> & -> & Hno)|[(Hr & -> & -> & Hno1 & Hno2)|(_ & Hr & _)]];
             [| |lia].
           ++ left. repeat split; try lia. intros h Hh Hf.
              destruct (Z.lt_ge_cases h hd) as [Hlt|Hge];
                [apply (Hno h); [lia|assumption]|].
              apply (Hskip h); [lia|assumption].
           ++ right. left. repeat split; try lia; [assumption|]. intros h Hh Hf.
              destruct (Z.lt_ge_cases h hd) as [Hlt|Hge];
                [apply (Hno2 h); [lia|assumption]|].
              apply (Hskip h); [lia|assumption].
        -- unfold scan_rank in *.
           destruct (Z.leb_spec (hd + (i + 1) + ntok) sz), (Z.leb_spec (hd + ntok) sz); lia.
Qed.
End scan.

(** ** find_slot on a transformer pool: the stamping *)

Lemma upd_upd i f g cs : upd i f (upd i g cs) = upd i (f ∘ g) cs.
Proof.
  unfold upd. destruct (i <? 0); [reflexivity|]. apply list_alter_alter_eq.
Qed.

Lemma upd_ext i f g cs : (∀ c, f c = g c) → upd i f cs = upd i g cs.
Proof.
  intros H. unfold upd. destruct (i <? 0); [reflexivity|].
  apply list_alter_ext; [auto|reflexivity].
Qed.

Lemma upd_id i f cs : (∀ c, f c = c) → upd i f cs = cs.
Proof.
  intros H. unfold upd. destruct (i <? 0); [reflexivity|]. now apply list_alter_id.
Qed.

Lemma for_opt_S {T : Type} k i (body : Z → T → option T) s :
  for_opt (S k) i body s = body i s ≫= for_opt k (i + 1) body.
Proof. reflexivity. Qed.

(** The innermost loop inserts the ids [j0 .. j0 + m) of the group. *)
Lemma insert_ids_loop ub s ids idx m j0 cs :
  ub_seq_id ub !! Z.to_nat s = Some ids →
  0 <= j0 → (Z.to_nat j0 + m <= length ids)%nat →
  for_opt m j0
    (λ j cs', id ← batch_id ub s j; Some (upd idx (seq_insert id) cs')) cs
  = Some (upd idx
            (λ c, set_seq_id (list_to_set (take m (drop (Z.to_nat j0) ids)) ∪ seq_id c) c)
            cs).
Proof.
  intros Hids. revert j0 cs. induction m as [|m IH]; intros j0 cs Hj0 Hlen.
  - simpl. f_equal. symmetry. apply upd_id. intros c. destruct c. unfold set_seq_id.
    simpl. f_equal. apply (left_id_L ∅ (∪)).
  - destruct (lookup_lt_is_Some_2 ids (Z.to_nat j0)) as [id0 Hid0]; [lia|].
    assert (Hb : batch_id ub s j0 = Some id0)
      by (unfold batch_id; rewrite Hids; exact Hid0).
    rewrite for_opt_S, Hb. simpl. rewrite IH by lia. f_equal. rewrite upd_upd.
    apply upd_ext. intros c. unfold seq_insert, set_seq_id, compose. simpl. f_equal.
    rewrite (drop_S _ _ _ Hid0). replace (Z.to_nat (j0 + 1)) with (S (Z.to_nat j0)) by lia.
    change (take (S m) (id0 :: drop (S (Z.to_nat j0)) ids))
      with (id0 :: take m (drop (S (Z.to_nat j0)) ids)).
    rewrite list_to_set_cons. apply set_eq. intros x.
    rewrite !elem_of_union, elem_of_singleton. tauto.
Qed.

(** The stamped pool, cell by cell. *)
Lemma stamped_inside ub h done cs k c :
  0 <= h → 0 <= k < done → cs !! Z.to_nat (h + k) = Some c →
  stamped ub h done cs !! Z.to_nat (h + k) = Some (stamp_cell ub k c).
Proof.
  intros Hh Hk Hc. unfold stamped. rewrite list_lookup_imap, Hc. simpl.
  rewrite Z2Nat.id by lia. replace (h + k - h) with k by lia.
  destruct (Z.leb_spec 0 k); [|lia]. destruct (Z.ltb_spec k done); [|lia].
  reflexivity.
Qed.

Lemma stamped_outside ub h done cs (idx : nat) :
  ¬ (h <= Z.of_nat idx < h + done) →
  stamped ub h done cs !! idx = cs !! idx.
Proof.
  intros Hout. unfold stamped. rewrite list_lookup_imap.
  destruct (cs !! idx) as [c|]; [|reflexivity]. simpl.
  destruct (Z.leb_spec 0 (Z.of_nat idx - h)), (Z.ltb_spec (Z.of_nat idx - h) done);
    simpl; try reflexivity. lia.
Qed.

Lemma stamp_cell_fields ub k c :
  pos (stamp_cell ub k c) = nth (Z.to_nat k) (ub_pos ub) 0 ∧
  seq_id (stamp_cell ub k c)
    = list_to_set (group_ids ub (k / n_seq_tokens ub)) ∪ seq_id c ∧
  delta (stamp_cell ub k c) = delta c ∧ src (stamp_cell ub k c) = src c ∧
  tail (stamp_cell ub k c) = tail c.
Proof. repeat split. Qed.

Section stamping.
Context (ub : llama_ubatch) (cs : list llama_kv_cell) (h : Z).
Context (Hwf : ubatch_wf ub).
Context (Hh : 0 <= h) (Hfit : h + n_tokens ub <= Z.of_nat (length cs)).
Context (Hsz : Z.of_nat (length cs) <= 1073741824).

Lemma stamped_length done : length (stamped ub h done cs) = length cs.
Proof. apply length_imap. Qed.

Lemma stamped_0 : stamped ub h 0 cs = cs.
Proof.
  unfold stamped. apply list_eq. intros idx. rewrite list_lookup_imap.
  destruct (cs !! idx); [|reflexivity]. simpl.
  destruct (Z.leb_spec 0 (Z.of_nat idx - h)), (Z.ltb_spec (Z.of_nat idx - h) 0);
    simpl; try reflexivity; lia.
Qed.

Lemma stamp_token_stamped s i :
  0 <= s < n_seqs ub → 0 <= i < n_seq_tokens ub →
  stamp_token ub h s i (stamped ub h (s * n_seq_tokens ub + i) cs)
  = Some (stamped ub h (s * n_seq_tokens ub + i + 1) cs).
Proof using Hwf Hh Hfit Hsz.
  intros Hs Hi. destruct Hwf as (Hns & Hnst & Hnt & Hpos & Hgroups).
  set (k := s * n_seq_tokens ub + i).
  assert (Hk : 0 <= k < n_tokens ub) by (subst k; nia).
  unfold stamp_token. fold k.
  rewrite (wrap_u32_id k) by (unfold UINT32_MOD; lia).
  rewrite (wrap_u32_id (h + k)) by (unfold UINT32_MOD; lia).
  destruct (lookup_lt_is_Some_2 (ub_pos ub) (Z.to_nat k)) as [p Hp]; [lia|].
  rewrite Hp. simpl.
  destruct (get_in_range (stamped ub h k cs) (h + k)) as [c0 Hc0];
    [rewrite stamped_length; lia|].
  rewrite Hc0. simpl.
  destruct (Hgroups s Hs) as (cnt & ids & Hcnt & Hids & Hle).
  rewrite Hcnt. simpl.
  rewrite (insert_ids_loop ub s ids (h + k) (Z.to_nat cnt) 0 _ Hids
             ltac:(lia) ltac:(lia)).
  f_equal. rewrite upd_upd. simpl. rewrite drop_0.
  (* the altered cell is the one of token [k] *)
  unfold upd. destruct (Z.ltb_spec (h + k) 0); [lia|].
  unfold stamped. apply list_eq. intros idx.
  rewrite list_lookup_alter, !list_lookup_imap.
  destruct (decide (Z.to_nat (h + k) = idx)) as [<-|Hne];
    (destruct (cs !! _) as [c|] eqn:Hc; simpl; [|reflexivity]).
  - rewrite Z2Nat.id by lia. replace (h + k - h) with k by lia.
    destruct (Z.leb_spec 0 k); [|lia].
    destruct (Z.ltb_spec k k); [lia|]. destruct (Z.ltb_spec k (k + 1)); [|lia].
    simpl. unfold stamp_cell, compose.
    assert (Hdiv : k / n_seq_tokens ub = s).
    { subst k. symmetry. apply (Z.div_unique _ _ s i); lia. }
    rewrite Hdiv. unfold group_ids. rewrite Hcnt, Hids.
    rewrite (nth_lookup_Some _ _ 0 _ Hp). reflexivity.
  - f_equal.
    destruct (Z.leb_spec 0 (Z.of_nat idx - h)); simpl; [|reflexivity].
    destruct (Z.ltb_spec (Z.of_nat idx - h) k),
             (Z.ltb_spec (Z.of_nat idx - h) (k + 1)); try reflexivity; lia.
Qed.

Lemma stamp_group_stamped s m i0 :
  0 <= s < n_seqs ub → 0 <= i0 → i0 + Z.of_nat m <= n_seq_tokens ub →
  for_opt m i0 (stamp_token ub h s) (stamped ub h (s * n_seq_tokens ub + i0) cs)
  = Some (stamped ub h (s * n_seq_tokens ub + i0 + Z.of_nat m) cs).
Proof using Hwf Hh Hfit Hsz.
  intros Hs. revert i0. induction m as [|m IH]; intros i0 Hi0 Hm.
  - simpl. now rewrite Z.add_0_r.
  - rewrite for_opt_S, stamp_token_stamped by lia. simpl.
    replace (s * n_seq_tokens ub + i0 + 1) with (s * n_seq_tokens ub + (i0 + 1)) by lia.
    rewrite IH by lia. do 2 f_equal. lia.
Qed.

Lemma stamp_groups_stamped m s0 :
  0 <= s0 → s0 + Z.of_nat m <= n_seqs ub →
  for_opt m s0
    (λ s cs', for_opt (Z.to_nat (n_seq_tokens ub)) 0 (stamp_token ub h s) cs')
    (stamped ub h (s0 * n_seq_tokens ub) cs)
  = Some (stamped ub h ((s0 + Z.of_nat m) * n_seq_tokens ub) cs).
Proof using Hwf Hh Hfit Hsz.
  revert s0. induction m as [|m IH]; intros s0 Hs0 Hm.
  - simpl. now rewrite Z.add_0_r.
  - pose proof Hwf as (_ & Hnst & _).
    pose proof (stamp_group_stamped s0 (Z.to_nat (n_seq_tokens ub)) 0) as Hg.
    rewrite Z.add_0_r in Hg. rewrite for_opt_S, Hg by lia. simpl.
    rewrite Z2Nat.id by lia.
    replace (s0 * n_seq_tokens ub + n_seq_tokens ub)
      with ((s0 + 1) * n_seq_tokens ub) by lia.
    rewrite IH by lia. do 2 f_equal. lia.
Qed.

(** The stamping loops of the source do what the spec says. *)
Lemma stamp_stamped : stamp ub h cs = Some (stamped ub h (n_tokens ub) cs).
Proof using Hwf Hh Hfit Hsz.
  unfold stamp. pose proof Hwf as (Hns & _ & Hnt & _).
  pose proof (stamp_groups_stamped (Z.to_nat (n_seqs ub)) 0) as H.
  rewrite Z.mul_0_l, stamped_0, Z.add_0_l, Z2Nat.id in H by lia.
  rewrite H by lia. now rewrite Hnt.
Qed.
End stamping.

(** ** find_slot on a transformer pool: the whole call *)

Lemma find_loop_from_head cs ntok h0 :
  Z.of_nat (length cs) <= 1073741824 →
  0 <= ntok <= Z.of_nat (length cs) → 0 <= h0 <= Z.of_nat (length cs) →
  ∃ ok h w,
    find_loop_wraps (4 * length cs + 4) cs (Z.of_nat (length cs)) ntok h0 0 0
      = Some (ok, h, w) ∧
    find_loop (4 * length cs + 4) cs (Z.of_nat (length cs)) ntok h0 0 = Some (ok, h) ∧
    0 <= h <= Z.of_nat (length cs) ∧
    if ok : bool then first_run_from cs ntok h0 h ∧ (w <= 1)%nat
    else no_run cs ntok.
Proof.
  intros Hsz Hntok Hh0.
  destruct (find_loop_wraps_spec cs (Z.of_nat (length cs)) ntok h0 eq_refl Hsz Hntok Hh0
              (4 * length cs + 4) h0 0 0%nat) as (ok & h & w & Hloop & Hh & Hpost).
  - left. repeat split; try lia. intros h Hh. lia.
  - unfold scan_rank. destruct (_ <=? _); lia.
  - exists ok, h, w. split; [assumption|]. split; [|split; assumption].
    rewrite (find_loop_wraps_fst _ _ _ _ _ _ 0%nat), Hloop. reflexivity.
Qed.

(** The search returns whenever the pool has at most 2^30 cells and [head]
    lies within it. *)
Lemma find_loop_returns cs ntok h0 :
  Z.of_nat (length cs) <= 1073741824 →
  0 <= ntok <= Z.of_nat (length cs) → 0 <= h0 <= Z.of_nat (length cs) →
  is_Some (find_loop (4 * length cs + 4) cs (Z.of_nat (length cs)) ntok h0 0).
Proof.
  intros Hsz Hntok Hh0.
  destruct (find_loop_from_head cs ntok h0 Hsz Hntok Hh0) as (ok & h & w & _ & -> & _).
  eauto.
Qed.

(** A mismatch at offset [i] moves the cursor and the count of tested cells
    by [i + 1]. *)
Lemma find_loop_mismatch fuel cs sz ntok hd nt i :
  (sz <? wrap_u32 (hd + ntok)) = false →
  probe_run cs hd (Z.to_nat ntok) 0 = Occupied i →
  (sz <=? wrap_u32 (nt + (i + 1))) = false →
  find_loop (S fuel) cs sz ntok hd nt =
  find_loop fuel cs sz ntok (wrap_u32 (hd + (i + 1))) (wrap_u32 (nt + (i + 1))).
Proof. intros H1 H2 H3. simpl. now rewrite H1, H2, H3. Qed.

(** The loop of the source is the scan of the spec: whatever it returns
    is the outcome of the scan from its cursor. The count of tested cells
    is below [size] at every cursor but 0. *)
Lemma find_loop_scans cs sz ntok :
  sz = Z.of_nat (length cs) → sz <= 1073741824 → 0 <= ntok <= sz →
  ∀ fuel hd nt ok h,
    0 <= hd <= sz → 0 <= nt <= 2 * sz → (hd = 0 ∨ nt < sz) →
    find_loop fuel cs sz ntok hd nt = Some (ok, h) →
    scans cs sz ntok hd nt (ok, h).
Proof.
  intros Hlen Hsz Hntok. induction fuel as [|fuel IH]; intros hd nt ok h Hhd Hnt Hlow;
    [discriminate|].
  cbn [find_loop]. rewrite (wrap_u32_id (hd + ntok)) by (unfold UINT32_MOD; lia).
  destruct (Z.ltb_spec sz (hd + ntok)) as [Hwrap|Hfit].
  - (* n_tested += size - head; head = 0; continue *)
    rewrite (wrap_u32_id (sz - hd)) by (unfold UINT32_MOD; lia).
    rewrite (wrap_u32_id (nt + (sz - hd))) by (unfold UINT32_MOD; lia).
    intros Hrun. apply scans_wrap; [assumption|].
    apply IH; [lia|lia|now left|assumption].
  - pose proof (probe_run_spec cs hd (Z.to_nat ntok) 0) as Hprobe.
    rewrite Z2Nat.id in Hprobe by lia.
    specialize (Hprobe ltac:(lia) ltac:(lia) ltac:(lia)
                       ltac:(unfold UINT32_MOD; lia)).
    destruct (probe_run cs hd (Z.to_nat ntok) 0) as [|i|]; [| |contradiction].
    + (* break *)
      intros Hrun. injection Hrun as <- <-. apply scans_found; [assumption|].
      intros j Hj. apply Hprobe. lia.
    + (* head += i + 1; n_tested += i + 1 *)
      destruct Hprobe as (Hi & Hocc & Hfree).
      assert (Hfirst : first_mismatch cs hd ntok i).
      { split; [lia|]. split; [assumption|]. intros j Hj. apply Hfree. lia. }
      rewrite (wrap_u32_id (hd + (i + 1))) by (unfold UINT32_MOD; lia).
      rewrite (wrap_u32_id (nt + (i + 1))) by (unfold UINT32_MOD; lia).
      destruct (Z.leb_spec sz (nt + (i + 1))) as [Hfull|Hmore].
      * intros Hrun. injection Hrun as <- <-. now apply (scans_give_up _ _ _ _ _ i).
      * intros Hrun. apply (scans_skip _ _ _ _ _ i); [assumption..|].
        apply IH; [lia|lia|now right|assumption].
Qed.

Lemma first_mismatch_unique cs hd ntok i j :
  first_mismatch cs hd ntok i → first_mismatch cs hd ntok j → i = j.
Proof.
  intros (Hi & Hocc_i & Hfree_i) (Hj & Hocc_j & Hfree_j).
  destruct (Z.lt_trichotomy i j) as [Hlt|[Heq|Hgt]]; [|assumption|].
  - exfalso. apply Hocc_i, Hfree_j. lia.
  - exfalso. apply Hocc_j, Hfree_i. lia.
Qed.

(** The scan of the spec has one outcome. *)
Lemma scans_functional cs sz ntok hd nt r1 r2 :
  scans cs sz ntok hd nt r1 → scans cs sz ntok hd nt r2 → r1 = r2.
Proof.
  intros H1. revert r2.
  induction H1 as [hd nt r Hwrap _ IH|hd nt Hfit Hfree|hd nt i r Hfit Hfirst Hmore _ IH
                  |hd nt i Hfit Hfirst Hfull];
    intros r2 H2; inversion H2 as [? ? ? Hwrap2 Hrest2|? ? Hfit2 Hfree2
                                  |? ? i2 ? Hfit2 Hfirst2 Hmore2 Hrest2
                                  |? ? i2 Hfit2 Hfirst2 Hfull2]; subst;
    try lia.
  - now apply IH.
  - reflexivity.
  - exfalso. destruct Hfirst2 as (Hi & Hocc & _). apply Hocc, Hfree. lia.
  - exfalso. destruct Hfirst2 as (Hi & Hocc & _). apply Hocc, Hfree. lia.
  - exfalso. destruct Hfirst as (Hi & Hocc & _). apply Hocc, Hfree2. lia.
  - rewrite <- (first_mismatch_unique _ _ _ _ _ Hfirst Hfirst2) in Hrest2.
    now apply IH.
  - pose proof (first_mismatch_unique _ _ _ _ _ Hfirst Hfirst2). lia.
  - exfalso. destruct Hfirst as (Hi & Hocc & _). apply Hocc, Hfree2. lia.
  - pose proof (first_mismatch_unique _ _ _ _ _ Hfirst Hfirst2). lia.
  - now rewrite (first_mismatch_unique _ _ _ _ _ Hfirst Hfirst2).
Qed.

(** C2 (as amended). On a transformer pool of at most 2^30 cells with
    [head] within the pool, [find_slot] of a well-formed batch returns. It
    fails exactly when [n_tokens > size] or no run of [n_tokens] free cells
    exists. When [n_tokens <= size], the outcome (found or not) and the
    [head] it leaves are those of the scan of the spec, which advances the
    cursor by [i + 1] on a mismatch at offset [i] and gives up once it has
    covered [size] cells; the scan has no other outcome. When it succeeds
    at [h]: [h] starts the first such run in the order [head, head + 1,
    ..., 0, 1, ...], the search having wrapped at most once; every token
    [k] is stamped into cell [h + k] (position [ubatch.pos[k]], the ids of
    its group added to the set) and no other cell changes; [used] grows by
    [n_tokens]; the span is [(h, h + n_tokens)] and [head] is left at
    [h]. *)
Theorem find_slot_transformer_spec kv ub :
  recurrent kv = false →
  size kv <= 1073741824 →
  0 <= head kv <= size kv →
  ubatch_wf ub →
  ∃ kv' si,
    find_slot kv ub = Some (kv', si) ∧
    (found si = false ↔
       size kv < n_tokens ub ∨ no_run (cells kv) (n_tokens ub)) ∧
    (n_tokens ub <= size kv →
       scans (cells kv) (size kv) (n_tokens ub) (head kv) 0 (found si, head kv') ∧
       ∀ r, scans (cells kv) (size kv) (n_tokens ub) (head kv) 0 r →
            r = (found si, head kv')) ∧
    (found si = true →
       ∃ h w,
         first_run_from (cells kv) (n_tokens ub) (head kv) h ∧
         find_loop_wraps (4 * length (cells kv) + 4) (cells kv) (size kv)
           (n_tokens ub) (head kv) 0 0 = Some (true, h, w) ∧
         (w <= 1)%nat ∧
         boundaries si = (h, h + n_tokens ub) ∧
         head kv' = h ∧
         cells kv' = stamped ub h (n_tokens ub) (cells kv) ∧
         used kv' = wrap_u32 (used kv + n_tokens ub) ∧
         n kv' = n kv ∧ has_shift kv' = has_shift kv ∧
         do_defrag kv' = do_defrag kv ∧ recurrent kv' = recurrent kv).
Proof.
  intros Hrec Hsz Hhd Hwf.
  assert (Hnt : 0 <= n_tokens ub) by (destruct Hwf as (? & ? & -> & _); nia).
  unfold find_slot, find_slot_transformer. rewrite Hrec.
  destruct (Z.ltb_spec (size kv) (n_tokens ub)) as [Hbig|Hfit].
  - exists kv, llama_kv_cache_slot_info_failed. split; [reflexivity|].
    split; [split; auto|]. split; [lia|discriminate].
  - unfold size in *.
    destruct (find_loop_from_head (cells kv) (n_tokens ub) (head kv))
      as (ok & h & w & Hw & Hloop & Hh & Hpost); [lia|lia|lia|].
    assert (Hscan : scans (cells kv) (Z.of_nat (length (cells kv))) (n_tokens ub)
                      (head kv) 0 (ok, h)).
    { apply (find_loop_scans (cells kv) _ (n_tokens ub) eq_refl Hsz)
        with (fuel := (4 * length (cells kv) + 4)%nat); [lia|lia|lia|lia|].
      exact Hloop. }
    rewrite Hloop. destruct ok.
    + destruct Hpost as [Hfirst Hw1]. pose proof Hfirst as [(Hh0 & Hh1 & _) _].
      rewrite (stamp_stamped ub (cells kv) h Hwf Hh0 Hh1 Hsz). simpl.
      eexists _, _. split; [reflexivity|]. simpl. split; [|split].
      * split; [discriminate|]. intros [Hbig|Hno]; [lia|].
        exfalso. destruct Hfirst as [Hrun _]. exact (Hno h Hrun).
      * intros _. split; [exact Hscan|].
        intros r Hr. exact (scans_functional _ _ _ _ _ _ _ Hr Hscan).
      * intros _. exists h, w. rewrite wrap_u32_id by (unfold UINT32_MOD; lia).
        repeat split; auto; apply Hfirst.
    + eexists _, _. split; [reflexivity|]. simpl. split; [|split; [|discriminate]].
      * split; auto.
      * intros _. split; [exact Hscan|].
        intros r Hr. exact (scans_functional _ _ _ _ _ _ _ Hr Hscan).
Qed.

(** The theorem where the search wraps and skips: on the pool of eight
    cells with the cells 2, 5 and 6 free and [head = 8], the search for
    two tokens goes back to 0, advances by 1 past the cells 0 and 1, by 2
    from the cursor 2 (cell 2 is free, cell 3 is not), by 1 past the cell
    4, and finds the run at 5. *)
Lemma find_slot_transformer_spec_witness :
  ∃ kv,
    run_ops (init false 8) ops_holes = Some kv ∧ head kv = 8 ∧
    map pos (cells kv) = [0; 1; -1; 3; 4; -1; -1; 7] ∧
    ∃ kv' si,
      find_slot kv (ub_seq0 [8; 9]) = Some (kv', si) ∧
      (found si = false ↔
         size kv < n_tokens (ub_seq0 [8; 9]) ∨
         no_run (cells kv) (n_tokens (ub_seq0 [8; 9]))) ∧
      (n_tokens (ub_seq0 [8; 9]) <= size kv →
         scans (cells kv) (size kv) (n_tokens (ub_seq0 [8; 9])) (head kv) 0
           (found si, head kv') ∧
         ∀ r, scans (cells kv) (size kv) (n_tokens (ub_seq0 [8; 9])) (head kv) 0 r →
              r = (found si, head kv')) ∧
      (found si = true →
         ∃ h w,
           first_run_from (cells kv) (n_tokens (ub_seq0 [8; 9])) (head kv) h ∧
           find_loop_wraps (4 * length (cells kv) + 4) (cells kv) (size kv)
             (n_tokens (ub_seq0 [8; 9])) (head kv) 0 0 = Some (true, h, w) ∧
           (w <= 1)%nat ∧
           boundaries si = (h, h + n_tokens (ub_seq0 [8; 9])) ∧
           head kv' = h ∧
           cells kv' = stamped (ub_seq0 [8; 9]) h (n_tokens (ub_seq0 [8; 9]))
                         (cells kv) ∧
           used kv' = wrap_u32 (used kv + n_tokens (ub_seq0 [8; 9])) ∧
           n kv' = n kv ∧ has_shift kv' = has_shift kv ∧
           do_defrag kv' = do_defrag kv ∧ recurrent kv' = recurrent kv).
Proof.
  exists (default (init false 8) (run_ops (init false 8) ops_holes)).
  split; [vm_compute; reflexivity|]. split; [reflexivity|].
  split; [reflexivity|].
  apply (find_slot_transformer_spec _ (ub_seq0 [8; 9])).
  - reflexivity.
  - vm_compute. discriminate.
  - vm_compute. split; discriminate.
  - unfold ubatch_wf. simpl. repeat split; try lia.
    intros s Hs. assert (s = 0) as -> by lia. exists 1, [0]. simpl.
    repeat split. lia.
Defined.

(** On the same pool the search for two tokens succeeds at 5, and the
    search for three tokens from the cursor 0 fails and leaves [head]
    where the skips have taken the cursor: 1, 2, 4 (by 2 from the cursor
    2), 5 and 8 (by 3 from the cursor 5, the cell 7 being occupied),
    where 8 cells are covered. *)
Example find_slot_skips_past_the_mismatch :
  ∃ kv,
    run_ops (init false 8) ops_holes = Some kv ∧ head kv = 8 ∧
    find_slot kv (ub_seq0 [8; 9])
      = Some (set_used 7 (set_cells (stamped (ub_seq0 [8; 9]) 5 2 (cells kv))
                            (set_head 5 kv)),
              {| found := true; boundaries := (5, 7) |}) ∧
    find_slot (set_head 0 kv) (ub_seq0 [8; 9; 10])
      = Some (set_head 8 kv, llama_kv_cache_slot_info_failed).
Proof.
  exists (default (init false 8) (run_ops (init false 8) ops_holes)).
  split; [vm_compute; reflexivity|]. split; [reflexivity|].
  split; vm_compute; reflexivity.
Qed.

(** A search that succeeds after its one wrap: with the cells 0 and 1 free
    and [head = 3], two tokens are placed at 0. *)
Example find_slot_wraps_once :
  ∃ kv kv',
    run_ops (init false 8) ops_free_behind_head = Some kv ∧ head kv = 3 ∧
    find_loop_wraps (4 * length (cells kv) + 4) (cells kv) (size kv)
      (n_tokens (ub_seq0 [8; 9])) (head kv) 0 0 = Some (true, 0, 1%nat) ∧
    find_slot kv (ub_seq0 [8; 9])
      = Some (kv', {| found := true; boundaries := (0, 2) |}) ∧
    head kv' = 0 ∧ used kv' = 8.
Proof.
  eexists _, _. split; [vm_compute; reflexivity|]. split; [reflexivity|].
  split; [vm_compute; reflexivity|]. split; [vm_compute; reflexivity|].
  split; reflexivity.
Qed.

(** C2 (as stated) fails in "wrapping at most once": on the full pool of
    eight cells with [head = 7], the search for four tokens resets [head]
    to 0 twice (from 7, and again from 5, the cells 0 to 4 having been
    tested in between) before it gives up with [head = 1]. *)
Lemma find_slot_wraps_twice_counterexample :
  ∃ kv, run_ops (init false 8) ops_fill7_1 = Some kv ∧
        head kv = 7 ∧ used kv = 8 ∧
        find_loop_wraps (4 * length (cells kv) + 4) (cells kv) (size kv)
          (n_tokens (ub_seq0 [8; 9; 10; 11])) (head kv) 0 0
          = Some (false, 1, 2%nat) ∧
        find_slot kv (ub_seq0 [8; 9; 10; 11])
          = Some (set_head 1 kv, llama_kv_cache_slot_info_failed).
Proof.
  eexists. split; [vm_compute; reflexivity|].
  split; [reflexivity|]. split; [reflexivity|]. split; vm_compute; reflexivity.
Qed.

(** ** The counter of occupied cells *)

Lemma b2z_range b : 0 <= Z.b2z b <= 1.
Proof. destruct b; simpl; lia. Qed.

Lemma n_occupied_nil : n_occupied [] = 0.
Proof. reflexivity. Qed.

Lemma n_occupied_cons c cs :
  n_occupied (c :: cs) = Z.b2z (occupied c) + n_occupied cs.
Proof.
  unfold n_occupied. rewrite filter_cons.
  destruct (decide (occupied c = true)) as [->|Hn]; simpl length.
  - simpl. lia.
  - destruct (occupied c); [congruence|]. simpl. lia.
Qed.

Lemma n_occupied_bounds cs : 0 <= n_occupied cs <= Z.of_nat (length cs).
Proof.
  induction cs as [|c cs IH]; [rewrite n_occupied_nil; simpl; lia|].
  rewrite n_occupied_cons. simpl length. destruct (occupied c); simpl Z.b2z; lia.
Qed.

Lemma n_occupied_map (g : llama_kv_cell → llama_kv_cell) cs :
  (∀ c, occupied (g c) = occupied c) → n_occupied (map g cs) = n_occupied cs.
Proof.
  intros Hg. induction cs as [|c cs IH]; [reflexivity|].
  simpl. rewrite !n_occupied_cons, Hg, IH. reflexivity.
Qed.

(** A sweep whose body decrements the counter exactly when it frees an
    occupied cell, and occupies no cell, keeps the counter equal to the
    number of occupied cells. *)
Lemma for_cells_count {A : Type} (body : Z → llama_kv_cell → A → llama_kv_cell * A)
    (getu : A → Z) i cs a :
  (∀ j c b, Z.b2z (occupied c) <= getu b < UINT32_MOD →
     getu (body j c b).2 =
       getu b - Z.b2z (occupied c) + Z.b2z (occupied (body j c b).1) ∧
     Z.b2z (occupied (body j c b).1) <= Z.b2z (occupied c)) →
  n_occupied cs <= getu a < UINT32_MOD →
  getu (for_cells body i cs a).2 =
    getu a - n_occupied cs + n_occupied (for_cells body i cs a).1.
Proof.
  intros Hb. revert i a. induction cs as [|c cs IH]; intros i a Ha.
  - simpl. rewrite n_occupied_nil. lia.
  - rewrite n_occupied_cons in Ha.
    rewrite for_cells_cons_1, for_cells_cons_2, !n_occupied_cons.
    pose proof (n_occupied_bounds cs) as Hcs.
    pose proof (b2z_range (occupied c)) as Hc.
    pose proof (b2z_range (occupied (body i c a).1)) as Hc'.
    destruct (Hb i c a) as [Hu Hocc]; [lia|].
    rewrite IH by lia. lia.
Qed.

(** The index recorded in [new_head] is one of the sweep. *)
Lemma for_cells_acc_idx {A : Type} (body : Z → llama_kv_cell → A → llama_kv_cell * A)
    (P : A → Prop) i cs a :
  (∀ j c b, i <= j < i + Z.of_nat (length cs) → P b → P (body j c b).2) →
  P a → P (for_cells body i cs a).2.
Proof.
  revert i a. induction cs as [|c cs IH]; intros i a Hb Ha; [assumption|].
  rewrite for_cells_cons_2. simpl length in Hb. apply IH.
  - intros j c' b Hj. apply Hb. lia.
  - apply Hb; [lia|assumption].
Qed.

(** *** The bodies of the sweeps *)

Ltac occ_cases c :=
  cbn [fst snd] in *; unfold occupied in *; simpl pos in *;
  destruct (Z.leb_spec 0 (pos c)); simpl Z.b2z in *;
  rewrite ?wrap_u32_id by lia; try lia.

Lemma seq_rm_body_count sz seq p0 p1 j c b :
  Z.b2z (occupied c) <= b.1 < UINT32_MOD →
  (seq_rm_body sz seq p0 p1 j c b).2.1 =
    b.1 - Z.b2z (occupied c) + Z.b2z (occupied (seq_rm_body sz seq p0 p1 j c b).1) ∧
  Z.b2z (occupied (seq_rm_body sz seq p0 p1 j c b).1) <= Z.b2z (occupied c).
Proof.
  destruct b as [u nh]. intros Hu. unfold seq_rm_body.
  destruct (in_range p0 p1 c); [|occ_cases c].
  destruct (seq <? 0).
  - destruct (is_empty (seq_clear c)); occ_cases c.
  - destruct (has_seq_id c seq); [|occ_cases c].
    destruct (is_empty (seq_erase seq c)); occ_cases c.
Qed.

Lemma seq_keep_body_count sz seq j c b :
  Z.b2z (occupied c) <= b.1 < UINT32_MOD →
  (seq_keep_body false sz seq j c b).2.1 =
    b.1 - Z.b2z (occupied c) + Z.b2z (occupied (seq_keep_body false sz seq j c b).1) ∧
  Z.b2z (occupied (seq_keep_body false sz seq j c b).1) <= Z.b2z (occupied c).
Proof.
  destruct b as [u nh]. intros Hu. unfold seq_keep_body. simpl andb. cbv iota.
  destruct (has_seq_id c seq); simpl negb; cbv iota; occ_cases c.
Qed.

Lemma seq_add_body_count sz seq p0 p1 d j c b :
  0 <= p0 →
  Z.b2z (occupied c) <= b.1.2 < UINT32_MOD →
  (seq_add_body sz seq p0 p1 d j c b).2.1.2 =
    b.1.2 - Z.b2z (occupied c)
    + Z.b2z (occupied (seq_add_body sz seq p0 p1 d j c b).1) ∧
  Z.b2z (occupied (seq_add_body sz seq p0 p1 d j c b).1) <= Z.b2z (occupied c).
Proof.
  destruct b as [[hs u] nh]. intros Hp0 Hu.
  unfold seq_add_body, in_range, has_seq_id, is_empty.
  destruct (bool_decide (seq ∈ seq_id c)) eqn:Hs; simpl andb; cbv iota;
    [|occ_cases c].
  apply bool_decide_eq_true in Hs.
  destruct (Z.leb_spec p0 (pos c)); simpl andb; cbv iota; [|occ_cases c].
  destruct (Z.ltb_spec (pos c) p1); [|occ_cases c].
  simpl pos. simpl seq_id.
  rewrite bool_decide_eq_false_2
    by (intros He; rewrite He in Hs; exact (not_elem_of_empty _ Hs)).
  simpl negb. cbv iota.
  destruct (Z.ltb_spec (wrap_i32 (pos c + d)) 0); [occ_cases c|].
  cbn [fst snd] in *. unfold occupied in *. simpl pos.
  destruct (Z.leb_spec 0 (wrap_i32 (pos c + d))); [|lia].
  destruct (Z.leb_spec 0 (pos c)); simpl Z.b2z in *; lia.
Qed.

Lemma seq_rm_body_head sz seq p0 p1 j c b :
  0 <= j < sz → 0 <= b.2 <= sz → 0 <= (seq_rm_body sz seq p0 p1 j c b).2.2 <= sz.
Proof.
  destruct b as [u nh]. simpl. intros Hj Hnh. unfold seq_rm_body.
  destruct (in_range p0 p1 c); [|assumption].
  destruct (seq <? 0).
  - destruct (is_empty _); simpl; [destruct (nh =? sz); lia|assumption].
  - destruct (has_seq_id c seq); [|assumption].
    destruct (is_empty _); simpl; [destruct (nh =? sz); lia|assumption].
Qed.

Lemma seq_keep_body_head rec sz seq j c b :
  0 <= j < sz → 0 <= b.2 <= sz → 0 <= (seq_keep_body rec sz seq j c b).2.2 <= sz.
Proof.
  destruct b as [u nh]. simpl. intros Hj Hnh. unfold seq_keep_body.
  destruct (negb (has_seq_id _ seq)); simpl; [destruct (nh =? sz); lia|assumption].
Qed.

Lemma seq_add_body_head sz seq p0 p1 d j c b :
  0 <= j < sz → 0 <= b.2 <= sz → 0 <= (seq_add_body sz seq p0 p1 d j c b).2.2 <= sz.
Proof.
  destruct b as [[hs u] nh]. simpl. intros Hj Hnh. unfold seq_add_body.
  destruct (_ && _); [|assumption].
  destruct (_ <? 0); simpl; [destruct (nh =? sz); lia|assumption].
Qed.

(** *** Stamping occupies exactly the cells of the run *)

Lemma n_occupied_stamped_window ub ntok cs h :
  (∀ idx c, cs !! idx = Some c → 0 <= Z.of_nat idx - h < ntok → pos c < 0) →
  (∀ k, 0 <= k < ntok → 0 <= nth (Z.to_nat k) (ub_pos ub) 0) →
  n_occupied (stamped ub h ntok cs) =
    n_occupied cs
    + Z.max 0 (Z.min (Z.of_nat (length cs)) (h + ntok) - Z.max 0 h).
Proof.
  intros Hfree Hpos. revert h Hfree. unfold stamped.
  induction cs as [|c cs IH]; intros h Hfree.
  - simpl. rewrite n_occupied_nil. lia.
  - simpl imap. rewrite !n_occupied_cons.
    rewrite (imap_ext _ (λ idx c0,
               if (0 <=? Z.of_nat idx - (h - 1)) && (Z.of_nat idx - (h - 1) <? ntok)
               then stamp_cell ub (Z.of_nat idx - (h - 1)) c0 else c0))
      by (intros idx x _; unfold compose; cbv zeta;
          replace (Z.of_nat (S idx) - h) with (Z.of_nat idx - (h - 1)) by lia;
          reflexivity).
    rewrite (IH (h - 1))
      by (intros idx c0 Hc0 Hk; apply (Hfree (S idx) c0 Hc0); lia).
    simpl length. rewrite Nat2Z.inj_succ. change (Z.of_nat 0) with 0. cbv zeta.
    destruct (Z.leb_spec 0 (0 - h)), (Z.ltb_spec (0 - h) ntok); simpl andb; cbv iota.
    + assert (Hc : pos c < 0) by (apply (Hfree 0%nat c eq_refl); simpl; lia).
      unfold occupied at 1 2. unfold stamp_cell. simpl pos.
      pose proof (Hpos (0 - h) ltac:(lia)) as Hp.
      destruct (Z.leb_spec 0 (nth (Z.to_nat (0 - h)) (ub_pos ub) 0)); [|lia].
      destruct (Z.leb_spec 0 (pos c)); [lia|]. simpl Z.b2z. lia.
    + lia.
    + lia.
    + lia.
Qed.

Lemma n_occupied_stamped ub cs h :
  free_run cs (n_tokens ub) h → 0 <= n_tokens ub →
  Forall (λ p, 0 <= p) (ub_pos ub) →
  n_occupied (stamped ub h (n_tokens ub) cs) = n_occupied cs + n_tokens ub.
Proof.
  intros (Hh & Hfit & Hfree) Hnt Hpos.
  rewrite n_occupied_stamped_window.
  - lia.
  - intros idx c Hc Hk. destruct (Hfree (Z.of_nat idx)) as (c' & Hc' & Hneg); [lia|].
    unfold get in Hc'. destruct (Z.ltb_spec (Z.of_nat idx) 0); [lia|].
    rewrite Nat2Z.id, Hc in Hc'. now injection Hc' as <-.
  - intros k Hk. destruct (nth_lookup_or_length (ub_pos ub) (Z.to_nat k) 0) as [Hl|Hl].
    + rewrite Forall_forall in Hpos. apply Hpos.
      apply list_elem_of_lookup. eauto.
    + rewrite nth_overflow by lia. lia.
Qed.

(** *** Every operation keeps the invariant *)

Lemma init_inv kv_size :
  Z.of_nat kv_size <= 1073741824 → kv_inv (init false kv_size).
Proof.
  intros Hsz. unfold kv_inv, init, size. simpl. rewrite length_replicate.
  repeat split; try lia.
  induction kv_size as [|k IH]; [reflexivity|].
  simpl replicate. rewrite n_occupied_cons. simpl. apply IH. lia.
Qed.

Lemma clear_inv kv : kv_inv kv → kv_inv (clear kv).
Proof.
  intros (Hrec & Hsz & Hhd & Hu).
  rewrite clear_unfold by (unfold INT32_MAX; lia).
  unfold kv_inv, size in *. simpl. rewrite length_map.
  repeat split; try assumption; try lia.
  clear. induction (cells kv) as [|c cs IH]; [reflexivity|].
  simpl map. rewrite n_occupied_cons. simpl. exact IH.
Qed.

Lemma seq_rm_inv kv seq p0 p1 : kv_inv kv → kv_inv (seq_rm kv seq p0 p1).1.
Proof.
  intros (Hrec & Hsz & Hhd & Hu). unfold seq_rm. rewrite Hrec.
  set (body := seq_rm_body (size kv) seq (norm_p0 p0) (norm_p1 p1)).
  pose proof (n_occupied_bounds (cells kv)) as Hocc.
  pose proof (for_cells_length body 0 (cells kv) (used kv, size kv)) as Hlen.
  pose proof (for_cells_count body fst 0 (cells kv) (used kv, size kv)) as Hcount.
  pose proof (for_cells_acc_idx body (λ b, 0 <= b.2 <= size kv) 0 (cells kv)
                (used kv, size kv)) as Hnh.
  destruct (for_cells body 0 (cells kv) (used kv, size kv)) as [cs [u nh]].
  simpl in Hlen, Hcount, Hnh.
  assert (Hu' : u = n_occupied cs).
  { rewrite Hcount; [lia| |unfold size, UINT32_MOD in *; lia].
    intros j c b. apply seq_rm_body_count. }
  assert (Hnh' : 0 <= nh <= size kv).
  { apply Hnh; [|unfold size; lia]. intros j c b Hj. apply seq_rm_body_head.
    unfold size. lia. }
  unfold kv_inv, size in *.
  destruct (_ && _); simpl; rewrite Hlen; repeat split; try assumption; lia.
Qed.

Lemma seq_keep_inv kv seq : kv_inv kv → kv_inv (seq_keep kv seq).
Proof.
  intros (Hrec & Hsz & Hhd & Hu). unfold seq_keep. rewrite Hrec.
  set (body := seq_keep_body false (size kv) seq).
  pose proof (n_occupied_bounds (cells kv)) as Hocc.
  pose proof (for_cells_length body 0 (cells kv) (used kv, size kv)) as Hlen.
  pose proof (for_cells_count body fst 0 (cells kv) (used kv, size kv)) as Hcount.
  pose proof (for_cells_acc_idx body (λ b, 0 <= b.2 <= size kv) 0 (cells kv)
                (used kv, size kv)) as Hnh.
  destruct (for_cells body 0 (cells kv) (used kv, size kv)) as [cs [u nh]].
  simpl in Hlen, Hcount, Hnh.
  assert (Hu' : u = n_occupied cs).
  { rewrite Hcount; [lia| |unfold size, UINT32_MOD in *; lia].
    intros j c b. apply seq_keep_body_count. }
  assert (Hnh' : 0 <= nh <= size kv).
  { apply Hnh; [|unfold size; lia]. intros j c b Hj. apply seq_keep_body_head.
    unfold size. lia. }
  unfold kv_inv, size in *.
  destruct (_ && _); simpl; rewrite Hlen; repeat split; try assumption; lia.
Qed.

Lemma seq_add_inv kv seq p0 p1 d : kv_inv kv → kv_inv (seq_add kv seq p0 p1 d).
Proof.
  intros Hinv. pose proof Hinv as (Hrec & Hsz & Hhd & Hu). unfold seq_add.
  destruct (d =? 0); [assumption|]. destruct (_ =? _); [assumption|]. rewrite Hrec.
  set (body := seq_add_body (size kv) seq (norm_p0 p0) (norm_p1 p1) d).
  pose proof (n_occupied_bounds (cells kv)) as Hocc.
  pose proof (for_cells_length body 0 (cells kv) (has_shift kv, used kv, size kv)) as Hlen.
  pose proof (for_cells_count body (λ b, b.1.2) 0 (cells kv)
                (has_shift kv, used kv, size kv)) as Hcount.
  pose proof (for_cells_acc_idx body (λ b, 0 <= b.2 <= size kv) 0 (cells kv)
                (has_shift kv, used kv, size kv)) as Hnh.
  destruct (for_cells body 0 (cells kv) _) as [cs [[hs u] nh]].
  simpl in Hlen, Hcount, Hnh.
  assert (Hu' : u = n_occupied cs).
  { rewrite Hcount; [lia| |unfold size, UINT32_MOD in *; lia].
    intros j c b. apply seq_add_body_count, norm_p0_nonneg. }
  assert (Hnh' : 0 <= nh <= size kv).
  { apply Hnh; [|unfold size; lia]. intros j c b Hj. apply seq_add_body_head.
    unfold size. lia. }
  unfold kv_inv, size in *. simpl. rewrite Hlen.
  repeat split; try assumption; destruct (negb _); lia.
Qed.

Lemma seq_cp_inv kv s d p0 p1 : kv_inv kv → kv_inv (seq_cp kv s d p0 p1).
Proof.
  intros Hinv. pose proof Hinv as (Hrec & Hsz & Hhd & Hu). unfold seq_cp.
  destruct (s =? d); [assumption|]. rewrite Hrec.
  set (body := seq_cp_body s d (norm_p0 p0) (norm_p1 p1)).
  pose proof (for_cells_map body (λ c, (body 0 c tt).1) 0 (cells kv) tt) as Hmap.
  destruct (for_cells body 0 (cells kv) tt) as [cs []]. simpl in Hmap.
  rewrite Hmap by (intros j c []; reflexivity).
  unfold kv_inv, size in *. simpl. rewrite length_map.
  repeat split; try assumption; try lia.
  rewrite n_occupied_map; [assumption|].
  intros c. unfold body, seq_cp_body. now destruct (_ && _).
Qed.

Lemma seq_div_inv kv seq p0 p1 d kv' :
  0 < d → kv_inv kv → seq_div kv seq p0 p1 d = Some kv' → kv_inv kv'.
Proof.
  intros Hd Hinv Hdiv. pose proof Hinv as (Hrec & Hsz & Hhd & Hu).
  destruct (seq_div_transformer _ _ _ _ _ _ Hrec Hdiv) as [->|(hs & _ & ->)];
    [assumption|].
  unfold kv_inv, size in *. simpl. rewrite length_map.
  repeat split; try assumption; try lia.
  rewrite n_occupied_map; [assumption|].
  intros c. unfold seq_div_cell, seq_div_body, in_range.
  destruct (has_seq_id c seq); simpl andb; cbv iota; [|reflexivity].
  pose proof (norm_p0_nonneg p0).
  destruct (Z.leb_spec (norm_p0 p0) (pos c)); simpl andb; cbv iota; [|reflexivity].
  destruct (_ <? _); [|reflexivity]. unfold occupied. simpl.
  rewrite !(proj2 (Z.leb_le _ _)); [reflexivity|lia|].
  apply Z.quot_pos; lia.
Qed.

Lemma find_slot_inv kv ub kv' si :
  ubatch_wf ub → Forall (λ p, 0 <= p) (ub_pos ub) →
  kv_inv kv → find_slot kv ub = Some (kv', si) → kv_inv kv'.
Proof.
  intros Hwf Hpos Hinv. pose proof Hinv as (Hrec & Hsz & Hhd & Hu).
  assert (Hnt : 0 <= n_tokens ub) by (destruct Hwf as (? & ? & -> & _); nia).
  unfold find_slot, find_slot_transformer. rewrite Hrec.
  destruct (Z.ltb_spec (size kv) (n_tokens ub)) as [Hbig|Hfit].
  - intros H. injection H as <- <-. assumption.
  - unfold size in *.
    destruct (find_loop_from_head (cells kv) (n_tokens ub) (head kv))
      as (ok & h & w & _ & Hloop & Hh & Hpost); [lia|lia|lia|].
    rewrite Hloop. destruct ok.
    + destruct Hpost as [[Hrun _] _]. pose proof Hrun as (Hh0 & Hh1 & _).
      rewrite (stamp_stamped ub (cells kv) h Hwf Hh0 Hh1 Hsz). simpl.
      intros H. injection H as <- <-.
      pose proof (n_occupied_stamped ub (cells kv) h Hrun Hnt Hpos) as Hocc.
      pose proof (n_occupied_bounds (stamped ub h (n_tokens ub) (cells kv))) as Hb.
      rewrite stamped_length in Hb.
      unfold kv_inv, size. simpl. rewrite stamped_length.
      repeat split; try assumption; try lia.
      rewrite wrap_u32_id by (unfold UINT32_MOD; lia). lia.
    + intros H. injection H as <- <-. unfold kv_inv, size. simpl.
      repeat split; try assumption; lia.
Qed.

Lemma run_op_inv kv op kv' r :
  op_wf op → kv_inv kv → run_op kv op = Some (kv', r) → kv_inv kv'.
Proof.
  intros Hwf Hinv.
  destruct op as [ub|seq p0 p1|s d p0 p1|seq|seq p0 p1 d|seq p0 p1 d|]; simpl.
  - destruct Hwf as [Hwf Hpos].
    destruct (find_slot kv ub) as [[k' si]|] eqn:Hfs; [|discriminate]. simpl.
    intros H. injection H as <- _. eapply find_slot_inv; eauto.
  - intros H. injection H as <- _. now apply seq_rm_inv.
  - intros H. injection H as <- _. now apply seq_cp_inv.
  - intros H. injection H as <- _. now apply seq_keep_inv.
  - intros H. injection H as <- _. now apply seq_add_inv.
  - destruct (seq_div kv seq p0 p1 d) as [k'|] eqn:Hdiv; [|discriminate]. simpl.
    intros H. injection H as <- _. eapply seq_div_inv; eauto.
  - intros H. injection H as <- _. now apply clear_inv.
Qed.

Lemma run_ops_inv kv ops kv' :
  Forall op_wf ops → kv_inv kv → run_ops kv ops = Some kv' → kv_inv kv'.
Proof.
  revert kv. induction ops as [|op ops IH]; intros kv Hwf Hinv; simpl.
  - intros H. now injection H as <-.
  - apply Forall_cons in Hwf as [Hop Hwf].
    destruct (run_op kv op) as [[k1 r]|] eqn:Hrun; [|discriminate]. simpl.
    apply IH; [assumption|]. eapply run_op_inv; eauto.
Qed.

(** C1 (as amended). On a transformer pool of at most 2^30 cells, after
    every sequence of returning calls of [find_slot] (on well-formed
    batches whose positions are not negative), [seq_rm], [seq_cp],
    [seq_keep], [seq_add], [seq_div] (by a positive divisor) and [clear]
    from the initial state, [used] is the number of cells with
    [pos >= 0]. *)
Theorem used_counts_occupied kv_size ops kv :
  Z.of_nat kv_size <= 1073741824 →
  Forall op_wf ops →
  run_ops (init false kv_size) ops = Some kv →
  used kv = n_occupied (cells kv).
Proof.
  intros Hsz Hwf Hrun.
  apply (run_ops_inv _ _ _ Hwf (init_inv kv_size Hsz) Hrun).
Qed.

Lemma used_counts_occupied_witness :
  ∃ kv, run_ops (init false 8) ops_S2_div = Some kv ∧
        used kv = n_occupied (cells kv).
Proof.
  eexists. split; [vm_compute; reflexivity|].
  apply (used_counts_occupied 8 ops_S2_div).
  - simpl. lia.
  - unfold ops_S2_div.
    assert (Hwf : ∀ ps, ubatch_wf (ub_seq0 ps)).
    { intros ps. unfold ubatch_wf, ub_seq0. simpl. repeat split; try lia.
      intros s Hs. assert (s = 0) as -> by lia. exists 1, [0]. simpl.
      repeat split. lia. }
    repeat constructor; try apply Hwf; simpl; lia.
  - vm_compute. reflexivity.
Defined.

(** C1 (as stated) fails. On a recurrent pool, after the batch of S6 and
    [seq_add(0, 0, -1, -10)], the tail of sequence 0 is at position -4:
    [used] is 1 and no cell has [pos >= 0]. On a transformer pool of eight
    cells holding the positions 0 to 7, after [seq_div(0, 0, -1, -1)],
    [used] is 8 and one cell has [pos >= 0]. On a transformer pool, after
    a batch of one token at position -1, [used] is 1 and no cell has
    [pos >= 0]. *)
Lemma used_counts_occupied_counterexample :
  (∃ kv, run_ops (init true 4) ops_shifted_tail = Some kv ∧
         used kv = 1 ∧ n_occupied (cells kv) = 0) ∧
  (∃ kv, run_ops (init false 8) ops_div_negative = Some kv ∧
         used kv = 8 ∧ n_occupied (cells kv) = 1) ∧
  (∃ kv, run_ops (init false 8) ops_negative_pos = Some kv ∧
         used kv = 1 ∧ n_occupied (cells kv) = 0).
Proof.
  repeat split; eexists; (split; [vm_compute; reflexivity|]);
    split; vm_compute; reflexivity.
Qed.

(** ** The boundary scenarios of the spec, evaluated *)

(** S1, simple fill: [ok], span [(0, 3)], [used = 3], cells 0 to 2 hold
    sequence 0 at the positions 0, 1, 2. *)
Example scenario_S1 :
  ∃ kv, find_slot (init false 8) (ub_seq0 [0; 1; 2])
          = Some (kv, {| found := true; boundaries := (0, 3) |}) ∧
        used kv = 3 ∧
        map pos (take 3 (cells kv)) = [0; 1; 2] ∧
        Forall (λ c, seq_id c = {[0]}) (take 3 (cells kv)) ∧
        Forall (λ c, pos c = -1 ∧ seq_id c = ∅) (drop 3 (cells kv)).
Proof.
  eexists. split; [vm_compute; reflexivity|]. repeat split; compute_done.
Qed.

(** S2, fragmentation fill: after S1 and [seq_rm(0, 1, 2)], [used = 2] and
    cell 1 is empty; the batch of two tokens gets the span [(3, 5)] and
    [used = 4]. *)
Example scenario_S2 :
  ∃ kv1 kv2 kv3,
    find_slot (init false 8) (ub_seq0 [0; 1; 2])
      = Some (kv1, {| found := true; boundaries := (0, 3) |}) ∧
    seq_rm kv1 0 1 2 = (kv2, true) ∧ used kv2 = 2 ∧
    is_empty (cell_at (cells kv2) 1) = true ∧
    find_slot kv2 (ub_seq0 [3; 4])
      = Some (kv3, {| found := true; boundaries := (3, 5) |}) ∧
    used kv3 = 4.
Proof.
  eexists _, _, _. split; [vm_compute; reflexivity|].
  split; [vm_compute; reflexivity|]. repeat split; vm_compute; reflexivity.
Qed.

(** S3, full cache: [find_slot] of one token fails and [used] stays 8. *)
Example scenario_S3 :
  ∃ kv kv',
    run_ops (init false 8) ops_fill8 = Some kv ∧ used kv = 8 ∧
    find_slot kv (ub_seq0 [8]) = Some (kv', llama_kv_cache_slot_info_failed) ∧
    used kv' = 8.
Proof.
  eexists _, _. split; [vm_compute; reflexivity|].
  repeat split; vm_compute; reflexivity.
Qed.

(** S4, copy on fork: after [seq_cp(0, 1, 0, 3)] the cells 0 to 2 contain
    the sequences 0 and 1, and [used] is still 3. *)
Example scenario_S4 :
  ∃ kv,
    run_ops (init false 8) [Op_find_slot (ub_seq0 [0; 1; 2]); Op_seq_cp 0 1 0 3]
      = Some kv ∧
    used kv = 3 ∧
    Forall (λ c, seq_id c = {[0; 1]}) (take 3 (cells kv)).
Proof.
  eexists. split; [vm_compute; reflexivity|]. split; compute_done.
Qed.

(** S5, shift with eviction: [seq_add(0, 0, 1, -1)] on the cell at position
    0 evicts it, decrements [used] and sets [has_shift]. *)
Example scenario_S5 :
  ∃ kv kv',
    run_ops (init false 1) ops_S5 = Some kv ∧ used kv = 1 ∧
    seq_add kv 0 0 1 (-1) = kv' ∧
    used kv' = 0 ∧ has_shift kv' = true ∧
    Forall (λ c, pos c = -1 ∧ seq_id c = ∅) (cells kv').
Proof.
  eexists _, _. split; [vm_compute; reflexivity|]. split; [reflexivity|].
  split; [reflexivity|]. repeat split; compute_done.
Qed.

(** S6, recurrent tail: the batch of sequence 0 claims an empty cell, which
    becomes its tail at position 6; [n = 1]. *)
Example scenario_S6 :
  ∃ kv si,
    find_slot (init true 4) ub_S6 = Some (kv, si) ∧ found si = true ∧
    tail (cell_at (cells kv) 0) = head kv ∧
    pos (tail_cell kv 0) = 6 ∧ seq_id (tail_cell kv 0) = {[0]} ∧
    n kv = 1 ∧ used kv = 1.
Proof.
  eexists _, _. split; [vm_compute; reflexivity|]. repeat split; compute_done.
Qed.

(** * Further properties *)

(** ** The queries: n_tokens, max_pos, cell_max *)

Lemma n_memberships_nonneg cs : 0 <= n_memberships cs.
Proof. induction cs as [|c cs IH]; simpl; lia. Qed.

Lemma n_tokens_loop i cs r :
  0 <= r → r + n_memberships cs <= INT32_MAX →
  (for_cells n_tokens_body i cs r).2 = r + n_memberships cs.
Proof.
  revert i r. induction cs as [|c cs IH]; intros i r Hr Hmax.
  - simpl. lia.
  - rewrite for_cells_cons_2. unfold n_tokens_body at 2. cbn [snd].
    pose proof (n_memberships_nonneg cs). simpl n_memberships in *.
    rewrite wrap_i32_id by (unfold is_i32, INT32_MIN, INT32_MAX in *; lia).
    rewrite IH by lia. lia.
Qed.

Lemma count_non_empty_cons c cs :
  count_non_empty (c :: cs) =
  (if is_empty c then 0 else 1) + count_non_empty cs.
Proof.
  unfold count_non_empty. rewrite filter_cons.
  destruct (is_empty c); destruct (decide _) as [H|H]; try congruence;
    simpl length; lia.
Qed.

Lemma is_empty_size c :
  if is_empty c then base.size (seq_id c) = 0%nat
  else (0 < base.size (seq_id c))%nat.
Proof.
  unfold is_empty. case_bool_decide as H.
  - rewrite H. apply size_empty.
  - destruct (decide (base.size (seq_id c) = 0%nat)) as [H0|H0]; [|lia].
    apply size_empty_iff, leibniz_equiv in H0. contradiction.
Qed.

Lemma count_non_empty_le cs : 0 <= count_non_empty cs <= n_memberships cs.
Proof.
  induction cs as [|c cs IH]; [unfold count_non_empty; simpl; lia|].
  rewrite count_non_empty_cons. simpl n_memberships.
  pose proof (is_empty_size c). destruct (is_empty c); lia.
Qed.

Lemma n_memberships_zero cs :
  n_memberships cs = 0 ↔ Forall (λ c, seq_id c = ∅) cs.
Proof.
  induction cs as [|c cs IH]; simpl; [split; [constructor|reflexivity]|].
  pose proof (n_memberships_nonneg cs). split.
  - intros H0. constructor; [|apply IH; lia].
    apply leibniz_equiv, size_empty_iff. lia.
  - intros Hall. inversion Hall as [|? ? Hc Hcs]; subst.
    rewrite Hc, size_empty. apply IH in Hcs. lia.
Qed.

(** X1. As long as the total fits an [int32_t], [n_tokens] counts the
    pairs (cell, seq-id): a cell shared by several sequences counts once
    for each. It is therefore at least the number of cells that hold a
    seq-id, and it is 0 exactly when no cell holds one. *)
Theorem n_tokens_counts_memberships kv :
  n_memberships (cells kv) <= INT32_MAX →
  llama_kv_cache_n_tokens kv = n_memberships (cells kv) ∧
  count_non_empty (cells kv) <= llama_kv_cache_n_tokens kv ∧
  (llama_kv_cache_n_tokens kv = 0 ↔ Forall (λ c, seq_id c = ∅) (cells kv)).
Proof.
  intros Hmax. unfold llama_kv_cache_n_tokens.
  rewrite n_tokens_loop by lia. rewrite Z.add_0_l.
  split; [reflexivity|]. split; [apply count_non_empty_le|apply n_memberships_zero].
Qed.

Lemma n_tokens_counts_memberships_witness :
  ∃ kv, run_ops (init false 4) ops_S2_div = Some kv ∧
        llama_kv_cache_n_tokens kv = n_memberships (cells kv) ∧
        count_non_empty (cells kv) <= llama_kv_cache_n_tokens kv ∧
        (llama_kv_cache_n_tokens kv = 0 ↔ Forall (λ c, seq_id c = ∅) (cells kv)).
Proof.
  eexists. split; [vm_compute; reflexivity|].
  apply n_tokens_counts_memberships. vm_compute. discriminate.
Defined.

Lemma max_pos_loop cs m :
  m <= foldl (λ m cell, Z.max m (pos cell)) m cs ∧
  Forall (λ c, pos c <= foldl (λ m cell, Z.max m (pos cell)) m cs) cs ∧
  (foldl (λ m cell, Z.max m (pos cell)) m cs = m ∨
   Exists (λ c, pos c = foldl (λ m cell, Z.max m (pos cell)) m cs) cs).
Proof.
  revert m. induction cs as [|c cs IH]; intros m; simpl.
  - split; [lia|]. split; [constructor|now left].
  - destruct (IH (Z.max m (pos c))) as (H1 & H2 & H3).
    set (r := foldl _ _ cs) in *.
    split; [lia|]. split; [constructor; [lia|assumption]|].
    destruct H3 as [H3|H3]; [|right; now apply Exists_cons_tl].
    destruct (Z.max_spec m (pos c)) as [[? Hm]|[? Hm]]; rewrite Hm in H3.
    + right. apply Exists_cons_hd. lia.
    + now left.
Qed.

(** X2. [max_pos] is the greatest position held by a cell, and -1 for a
    pool without cells or with none at a position above -1. It bounds what
    [seq_pos_max] reports for any sequence, apart from the floor of 0 of
    the latter. *)
Theorem max_pos_is_max kv :
  -1 <= max_pos kv ∧
  Forall (λ c, pos c <= max_pos kv) (cells kv) ∧
  (max_pos kv = -1 ∨ Exists (λ c, pos c = max_pos kv) (cells kv)) ∧
  ∀ seq, seq_pos_max kv seq <= Z.max 0 (max_pos kv).
Proof.
  unfold max_pos. destruct (max_pos_loop (cells kv) (-1)) as (H1 & H2 & H3).
  set (r := foldl _ _ _) in *.
  repeat split; try assumption. intros seq. unfold seq_pos_max.
  destruct (seq_pos_max_loop seq 0 (cells kv) 0 _ eq_refl) as (_ & _ & [-> |Hex]);
    [lia|].
  destruct Hex as (c & Hin & _ & <-). rewrite Forall_forall in H2.
  specialize (H2 c Hin). lia.
Qed.

Lemma cell_at_get cs k c : get cs k = Some c → cell_at cs k = c.
Proof. unfold cell_at. now intros ->. Qed.

Lemma active_dec c :
  (0 <=? pos c) && negb (is_empty c) = true ↔ active c.
Proof.
  unfold active, is_empty. rewrite andb_true_iff, negb_true_iff, Z.leb_le.
  rewrite bool_decide_eq_false. reflexivity.
Qed.

Lemma cell_max_from_spec cs (i : nat) :
  (i <= length cs)%nat →
  0 <= cell_max_from cs i <= Z.of_nat i ∧
  (∀ k c, cell_max_from cs i <= k < Z.of_nat i → get cs k = Some c → ¬ active c) ∧
  (0 < cell_max_from cs i →
   ∃ c, get cs (cell_max_from cs i - 1) = Some c ∧ active c).
Proof.
  induction i as [|i IH]; intros Hi.
  - simpl. split; [lia|]. split; [intros; lia|lia].
  - cbn [cell_max_from].
    destruct (get_in_range cs (Z.of_nat i)) as [c Hc]; [lia|].
    rewrite (cell_at_get _ _ _ Hc).
    destruct ((0 <=? pos c) && negb (is_empty c)) eqn:Hact.
    + split; [lia|]. split; [intros; lia|]. intros _. exists c.
      replace (Z.of_nat (S i) - 1) with (Z.of_nat i) by lia.
      split; [assumption|now apply active_dec].
    + destruct IH as (H1 & H2 & H3); [lia|].
      split; [lia|]. split; [|assumption].
      intros k c' Hk Hc'. destruct (Z.eq_dec k (Z.of_nat i)) as [-> |Hne].
      * rewrite Hc in Hc'. injection Hc' as <-. rewrite <- active_dec, Hact.
        discriminate.
      * apply (H2 k); [lia|assumption].
Qed.

(** X3. [cell_max] is one more than the index of the last cell that holds
    a token ([pos >= 0] and a seq-id), and 0 when no cell does: it never
    exceeds [size], no cell at or beyond it holds a token, and the cell
    just before it does. *)
Theorem cell_max_is_last_active kv :
  0 <= cell_max kv <= size kv ∧
  (∀ k c, cell_max kv <= k → get (cells kv) k = Some c → ¬ active c) ∧
  (0 < cell_max kv → ∃ c, get (cells kv) (cell_max kv - 1) = Some c ∧ active c).
Proof.
  unfold cell_max, size.
  destruct (cell_max_from_spec (cells kv) (length (cells kv)) (le_n _))
    as (H1 & H2 & H3).
  split; [assumption|]. split; [|assumption].
  intros k c Hk Hc. apply (H2 k); [|assumption].
  split; [assumption|]. unfold get in Hc. destruct (k <? 0) eqn:Hneg; [discriminate|].
  apply lookup_lt_Some in Hc. apply Z.ltb_ge in Hneg. lia.
Qed.

(** ** clear *)

Lemma n_memberships_cleared cs : n_memberships (map clear_cell cs) = 0.
Proof. induction cs as [|c cs IH]; simpl; [reflexivity|]. rewrite IH. reflexivity. Qed.

Lemma max_pos_cleared cs :
  foldl (λ m cell, Z.max m (pos cell)) (-1) (map clear_cell cs) = -1.
Proof. induction cs as [|c cs IH]; simpl; [reflexivity|]. exact IH. Qed.

Lemma cell_max_inactive cs (i : nat) :
  Forall (λ c, ¬ active c) cs → cell_max_from cs i = 0.
Proof.
  intros Hall. induction i as [|i IH]; [reflexivity|]. cbn [cell_max_from].
  destruct ((0 <=? pos _) && negb (is_empty _)) eqn:Hact; [|exact IH].
  exfalso. apply active_dec in Hact. unfold cell_at, get in Hact.
  destruct (_ <? 0); [destruct Hact as [Hp _]; simpl in Hp; lia|].
  destruct (cs !! _) as [c|] eqn:Hc; [|destruct Hact as [Hp _]; simpl in Hp; lia].
  rewrite Forall_forall in Hall. apply (Hall c); [|exact Hact].
  apply list_elem_of_lookup. eauto.
Qed.

(** X4. After [clear] a pool of at most 2^31 - 1 cells reports itself
    empty through every query: [used], [head], [n_tokens] and [cell_max]
    are 0, [max_pos] is -1 and [seq_pos_max] is 0 for every sequence; the
    number of cells is as before; and a second [clear] changes nothing.
    (The loop of [clear] is bounded by [(int32_t) size]: the cells of a
    larger pool are not reset.) *)
Theorem clear_empties_the_pool kv :
  size kv <= INT32_MAX →
  used (clear kv) = 0 ∧ head (clear kv) = 0 ∧
  llama_kv_cache_n_tokens (clear kv) = 0 ∧
  cell_max (clear kv) = 0 ∧ max_pos (clear kv) = -1 ∧
  (∀ seq, seq_pos_max (clear kv) seq = 0) ∧
  size (clear kv) = size kv ∧
  clear (clear kv) = clear kv.
Proof.
  intros Hsz.
  assert (Hcells : cells (clear kv) = map clear_cell (cells kv))
    by now apply clear_cells.
  assert (Hnone : Forall (λ c, ¬ active c) (cells (clear kv))).
  { rewrite Hcells, Forall_forall. intros c Hc.
    apply list_elem_of_fmap in Hc as (c0 & -> & _). intros [Hp _]. simpl in Hp. lia. }
  destruct (clear_scalars kv) as (Hhd & Hu & _).
  split; [assumption|]. split; [assumption|].
  split.
  { unfold llama_kv_cache_n_tokens.
    assert (Hm : n_memberships (cells (clear kv)) = 0)
      by (rewrite Hcells; apply n_memberships_cleared).
    rewrite n_tokens_loop; rewrite ?Hm; unfold INT32_MAX; lia. }
  split; [now apply cell_max_inactive|].
  split; [unfold max_pos; rewrite Hcells; apply max_pos_cleared|].
  split.
  { intros seq. unfold seq_pos_max.
    destruct (seq_pos_max_loop seq 0 (cells (clear kv)) 0 _ eq_refl)
      as (_ & _ & [-> |(c & Hc & Hs & _)]); [reflexivity|].
    rewrite Hcells in Hc. apply list_elem_of_fmap in Hc as (c0 & -> & _).
    simpl in Hs. set_solver. }
  assert (Hsame : size (clear kv) = size kv)
    by (unfold size; now rewrite clear_length).
  split; [assumption|].
  rewrite (clear_unfold (clear kv)) by lia. rewrite Hcells, (clear_unfold kv Hsz).
  unfold set_used, set_head, set_cells. simpl. f_equal.
  rewrite <- list_fmap_compose. apply list_fmap_ext. intros _ c _. reflexivity.
Qed.

Lemma clear_empties_the_pool_witness :
  ∃ kv, run_ops (init false 4) ops_S2_div = Some kv ∧
        llama_kv_cache_n_tokens kv = 2 ∧
        used (clear kv) = 0 ∧ head (clear kv) = 0 ∧
        llama_kv_cache_n_tokens (clear kv) = 0 ∧
        cell_max (clear kv) = 0 ∧ max_pos (clear kv) = -1 ∧
        (∀ seq, seq_pos_max (clear kv) seq = 0) ∧
        size (clear kv) = size kv ∧
        clear (clear kv) = clear kv.
Proof.
  exists (default (init false 4) (run_ops (init false 4) ops_S2_div)).
  split; [vm_compute; reflexivity|]. split; [vm_compute; reflexivity|].
  apply clear_empties_the_pool. vm_compute. discriminate.
Defined.

(** ** The view: the buffers *)

Lemma store_spec buf k v :
  0 <= k < Z.of_nat (length buf) →
  store buf k v = Some (<[Z.to_nat k := Some v]> buf).
Proof.
  intros Hk. unfold store.
  destruct (Z.leb_spec 0 k); [|lia]. destruct (Z.ltb_spec k (Z.of_nat (length buf))); [|lia].
  reflexivity.
Qed.

Lemma store_inv buf k v buf' :
  store buf k v = Some buf' →
  0 <= k < Z.of_nat (length buf) ∧ buf' = <[Z.to_nat k := Some v]> buf.
Proof.
  unfold store. destruct (Z.leb_spec 0 k); [|discriminate].
  destruct (Z.ltb_spec k (Z.of_nat (length buf))); [|discriminate].
  intros H'. injection H' as <-. split; [lia|reflexivity].
Qed.

Lemma view_ids_spec nsm base ids :
  ∀ k seqs,
    0 <= base → 0 <= k <= nsm → base + nsm <= Z.of_nat (length seqs) →
    ∃ seqs',
      view_ids nsm base ids k seqs
        = Some (Z.min nsm (k + Z.of_nat (length ids)), seqs') ∧
      length seqs' = length seqs ∧
      ∀ m : nat,
        seqs' !! m =
        if decide (base + k <= Z.of_nat m < base + Z.min nsm (k + Z.of_nat (length ids)))
        then Some (Some (nth (Z.to_nat (Z.of_nat m - base - k)) ids 0))
        else seqs !! m.
Proof.
  induction ids as [|it rest IH]; intros k seqs Hbase Hk Hlen.
  - exists seqs. cbn [view_ids length]. rewrite Z.add_0_r, Z.min_r by lia.
    split; [reflexivity|]. split; [reflexivity|].
    intros m. destruct (decide _) as [H|H]; [lia|reflexivity].
  - cbn [view_ids]. destruct (Z.leb_spec nsm k) as [Hfull|Hroom].
    + exists seqs. rewrite Z.min_l by (cbn [length]; lia).
      assert (k = nsm) as -> by lia.
      split; [reflexivity|]. split; [reflexivity|].
      intros m. destruct (decide _) as [H|H]; [lia|reflexivity].
    + rewrite store_spec by lia. cbn [mbind option_bind].
      destruct (IH (k + 1) (<[Z.to_nat (base + k) := Some it]> seqs))
        as (seqs' & Hrun & Hl & Hlook); [lia|lia|rewrite length_insert; lia|].
      exists seqs'. rewrite Hrun.
      replace (k + 1 + Z.of_nat (length rest))
        with (k + Z.of_nat (length (it :: rest))) in * by (cbn [length]; lia).
      split; [reflexivity|]. split; [now rewrite Hl, length_insert|].
      intros m. rewrite Hlook.
      set (hi := Z.min nsm (k + Z.of_nat (length (it :: rest)))).
      assert (Hhi : k + 1 <= hi) by (subst hi; cbn [length]; lia).
      destruct (decide (base + (k + 1) <= Z.of_nat m < base + hi)) as [Hin|Hout].
      * destruct (decide (base + k <= Z.of_nat m < base + hi)) as [_|Hn]; [|lia].
        do 2 f_equal.
        replace (Z.to_nat (Z.of_nat m - base - k))
          with (S (Z.to_nat (Z.of_nat m - base - (k + 1)))) by lia.
        reflexivity.
      * destruct (decide (Z.of_nat m = base + k)) as [Heq|Hne].
        -- destruct (decide (base + k <= Z.of_nat m < base + hi)) as [_|Hn]; [|lia].
           replace (Z.to_nat (base + k)) with m by lia.
           rewrite list_lookup_insert_eq by lia.
           replace (Z.to_nat (Z.of_nat m - base - k)) with 0%nat by lia.
           reflexivity.
        -- destruct (decide (base + k <= Z.of_nat m < base + hi)) as [Hn|_]; [lia|].
           apply list_lookup_insert_ne. lia.
Qed.

Lemma view_pad_spec base :
  ∀ (cnt : nat) j0 seqs,
    0 <= base → 0 <= j0 → base + j0 + Z.of_nat cnt <= Z.of_nat (length seqs) →
    ∃ seqs',
      for_opt cnt j0 (λ j s, store s (base + j) (-1)) seqs = Some seqs' ∧
      length seqs' = length seqs ∧
      ∀ m : nat,
        seqs' !! m =
        if decide (base + j0 <= Z.of_nat m < base + j0 + Z.of_nat cnt)
        then Some (Some (-1)) else seqs !! m.
Proof.
  induction cnt as [|cnt IH]; intros j0 seqs Hbase Hj0 Hlen.
  - exists seqs. split; [reflexivity|]. split; [reflexivity|].
    intros m. destruct (decide _); [lia|reflexivity].
  - cbn [for_opt]. rewrite store_spec by lia. cbn [mbind option_bind].
    destruct (IH (j0 + 1) (<[Z.to_nat (base + j0) := Some (-1)]> seqs))
      as (seqs' & Hrun & Hl & Hlook); [lia|lia|rewrite length_insert; lia|].
    exists seqs'. split; [exact Hrun|]. split; [now rewrite Hl, length_insert|].
    intros m. rewrite Hlook.
    destruct (decide (base + (j0 + 1) <= Z.of_nat m < base + (j0 + 1) + Z.of_nat cnt))
      as [Hin|Hout].
    + destruct (decide _) as [_|Hn]; [reflexivity|lia].
    + destruct (decide (Z.of_nat m = base + j0)) as [Heq|Hne].
      * destruct (decide _) as [_|Hn]; [|lia].
        replace (Z.to_nat (base + j0)) with m by lia.
        apply list_lookup_insert_eq. lia.
      * destruct (decide _) as [Hn|_]; [lia|].
        apply list_lookup_insert_ne. lia.
Qed.

(** The ids of a cell in the order of [std::set]. *)
Lemma sorted_ids_in_order c :
  ids_in_order c (merge_sort Z.le (elements (seq_id c))).
Proof.
  assert (Hperm := merge_sort_Permutation Z.le (elements (seq_id c))).
  split.
  - assert (Hnd : NoDup (merge_sort Z.le (elements (seq_id c))))
      by (rewrite Hperm; apply NoDup_elements).
    assert (Hss : StronglySorted Z.le (merge_sort Z.le (elements (seq_id c))))
      by (apply StronglySorted_merge_sort; [intros x y z; lia|intros x y; lia]).
    revert Hnd Hss. generalize (merge_sort Z.le (elements (seq_id c))).
    clear. intros l Hnd Hss. apply StronglySorted_Sorted.
    induction Hss as [|x l Hl IH Hx]; [constructor|].
    apply NoDup_cons in Hnd as [Hnotin Hnd]. constructor; [now apply IH|].
    rewrite List.Forall_forall in *. intros y Hy.
    specialize (Hx y Hy). apply list_elem_of_In in Hy.
    assert (x ≠ y) by (intros ->; contradiction). lia.
  - intros x. rewrite Hperm. apply elem_of_elements.
Qed.

Lemma sorted_ids_length c :
  length (merge_sort Z.le (elements (seq_id c))) = base.size (seq_id c).
Proof. now rewrite (merge_sort_Permutation Z.le (elements (seq_id c))). Qed.

(** One iteration of the loop of the update: it runs when the cell [i] and
    the row [i] lie within the buffers, and this is what it leaves. *)
Lemma view_cell_spec nsm i c st :
  0 <= nsm → 0 <= i < Z.of_nat (length (l_cells st)) →
  (i + 1) * nsm <= Z.of_nat (length (l_seqs st)) →
  ∃ st',
    view_cell nsm i c st = Some st' ∧
    length (l_cells st') = length (l_cells st) ∧
    length (l_seqs st') = length (l_seqs st) ∧
    l_cells st' = <[Z.to_nat i := Some (wrap_i32 (pos c + delta c))]> (l_cells st) ∧
    (∀ m : nat,
       l_seqs st' !! m =
       if decide (i * nsm <= Z.of_nat m < (i + 1) * nsm)
       then Some (Some (nth (Z.to_nat (Z.of_nat m - i * nsm))
                            (merge_sort Z.le (elements (seq_id c))) (-1)))
       else l_seqs st !! m).
Proof.
  intros Hnsm Hi Hrow. unfold view_cell.
  rewrite store_spec by lia. cbn [mbind option_bind].
  set (ids := merge_sort Z.le (elements (seq_id c))).
  destruct (view_ids_spec nsm (i * nsm) ids 0 (l_seqs st))
    as (s1 & Hids & Hl1 & Hlook1); [nia|lia|nia|].
  rewrite Hids. cbn [mbind option_bind]. rewrite Z.add_0_l in *.
  set (k := Z.min nsm (Z.of_nat (length ids))) in *.
  destruct (view_pad_spec (i * nsm) (Z.to_nat (nsm - k)) k s1)
    as (s2 & Hpad & Hl2 & Hlook2); [nia|lia|rewrite Hl1; nia|].
  rewrite Hpad. cbn [mbind option_bind].
  destruct (if 0 <? Z.of_nat (base.size (seq_id c)) then _ else _) as [[cci mc] mci].
  eexists. split; [reflexivity|]. cbn [l_cells l_seqs].
  split; [now rewrite length_insert|]. split; [congruence|]. split; [reflexivity|].
  intros m. rewrite Hlook2, Hlook1.
  destruct (decide (i * nsm <= Z.of_nat m < (i + 1) * nsm)) as [Hin|Hout].
  - destruct (decide (i * nsm + k <= Z.of_nat m < i * nsm + k + Z.of_nat (Z.to_nat (nsm - k))))
      as [Hpadded|Hid].
    + rewrite nth_overflow by lia. reflexivity.
    + destruct (decide (i * nsm + 0 <= Z.of_nat m < i * nsm + k)) as [_|Hn]; [|lia].
      rewrite Z.sub_0_r. do 2 f_equal. apply nth_indep. lia.
  - destruct (decide (i * nsm + k <= Z.of_nat m < i * nsm + k + Z.of_nat (Z.to_nat (nsm - k))))
      as [Hn|_]; [lia|].
    destruct (decide (i * nsm + 0 <= Z.of_nat m < i * nsm + k)) as [Hn|_]; [lia|].
    reflexivity.
Qed.

Lemma view_ids_idx nsm base ids :
  ∀ z s k s', view_ids nsm base ids z s = Some (k, s') →
              z <= k ∧ (ids ≠ [] → z < nsm → z < k) ∧
              (ids = [] ∨ nsm <= z → k = z).
Proof.
  induction ids as [|it rest IH]; intros z s k s'; cbn [view_ids].
  - intros H. injection H as <- <-. split; [lia|]. split; [congruence|reflexivity].
  - destruct (Z.leb_spec nsm z).
    + intros H'. injection H' as <- <-. split; [lia|]. split; [lia|reflexivity].
    + destruct (store s _ it) as [s1|]; [|discriminate]. cbn [mbind option_bind].
      intros H'. apply IH in H' as [H' _]. split; [lia|]. split; [lia|].
      intros [Hnil|Hle]; [discriminate|lia].
Qed.

Lemma nonempty_size c :
  (0 <? Z.of_nat (base.size (seq_id c))) = negb (is_empty c).
Proof.
  pose proof (is_empty_size c) as H. destruct (is_empty c); simpl.
  - rewrite H. reflexivity.
  - apply Z.ltb_lt. lia.
Qed.

(** The scalars after one iteration, whatever the buffers. *)
Lemma view_cell_scalars nsm i c st st' :
  view_cell nsm i c st = Some st' →
  l_token_count st' = wrap_i32 (l_token_count st + Z.of_nat (base.size (seq_id c))) ∧
  l_used_cells st' =
    (if (0 <? nsm) && negb (is_empty c) then wrap_i32 (l_used_cells st + 1)
     else l_used_cells st) ∧
  (l_curr_contig_idx st', l_max_contig st', l_max_contig_idx st') =
    (if negb (is_empty c) then
       if (0 <=? l_curr_contig_idx st)
          && (l_max_contig st <? wrap_u32 (i - l_curr_contig_idx st))
       then (-1, wrap_u32 (i - l_curr_contig_idx st), l_curr_contig_idx st)
       else (-1, l_max_contig st, l_max_contig_idx st)
     else if l_curr_contig_idx st <? 0
       then (i, l_max_contig st, l_max_contig_idx st)
       else (l_curr_contig_idx st, l_max_contig st, l_max_contig_idx st)).
Proof.
  unfold view_cell.
  destruct (store (l_cells st) i _) as [c1|]; [|discriminate]. cbn [mbind option_bind].
  rewrite nonempty_size.
  destruct (if negb (is_empty c) then _ else _) as [[cci mc] mci].
  destruct (view_ids _ _ _ _ _) as [[k s1]|] eqn:Hids; [|discriminate].
  cbn [mbind option_bind].
  destruct (for_opt _ _ _ _) as [s2|]; [|discriminate]. cbn [mbind option_bind].
  intros H. injection H as <-. cbn [l_token_count l_used_cells l_curr_contig_idx
                                     l_max_contig l_max_contig_idx].
  split; [reflexivity|]. split; [|reflexivity].
  replace ((0 <? nsm) && negb (is_empty c)) with (negb (k =? 0)); [reflexivity|].
  apply view_ids_idx in Hids as (Hk0 & Hk1 & Hk2).
  pose proof (is_empty_size c) as Hsz. rewrite <- (sorted_ids_length c) in Hsz.
  destruct (Z.ltb_spec 0 nsm) as [Hpos|Hneg]; cbn [andb].
  - destruct (is_empty c); cbn [negb].
    + rewrite Hk2; [reflexivity|]. left. now apply length_zero_iff_nil.
    + apply negb_true_iff, Z.eqb_neq.
      enough (0 < k) by lia. apply Hk1; [|assumption].
      intros Hnil. rewrite Hnil in Hsz. simpl in Hsz. lia.
  - rewrite Hk2 by (right; lia). reflexivity.
Qed.

(** ** The view: the loop *)

Lemma view_loop_runs nsm cs :
  ∀ i st,
    0 <= nsm → 0 <= i →
    i + Z.of_nat (length cs) <= Z.of_nat (length (l_cells st)) →
    (i + Z.of_nat (length cs)) * nsm <= Z.of_nat (length (l_seqs st)) →
    ∃ st',
      view_cells_loop nsm i cs st = Some st' ∧
      length (l_cells st') = length (l_cells st) ∧
      length (l_seqs st') = length (l_seqs st) ∧
      (∀ r c, i <= r → cs !! Z.to_nat (r - i) = Some c →
              l_cells st' !! Z.to_nat r = Some (Some (wrap_i32 (pos c + delta c)))) ∧
      (∀ m : nat, Z.of_nat m < i ∨ i + Z.of_nat (length cs) <= Z.of_nat m →
                  l_cells st' !! m = l_cells st !! m) ∧
      (∀ r c j, i <= r → cs !! Z.to_nat (r - i) = Some c → 0 <= j < nsm →
                l_seqs st' !! Z.to_nat (r * nsm + j) =
                Some (Some (nth (Z.to_nat j) (merge_sort Z.le (elements (seq_id c))) (-1)))) ∧
      (∀ m : nat, Z.of_nat m < i * nsm ∨ (i + Z.of_nat (length cs)) * nsm <= Z.of_nat m →
                  l_seqs st' !! m = l_seqs st !! m).
Proof.
  induction cs as [|c cs IH]; intros i st Hnsm Hi Hc Hs.
  - exists st. cbn [view_cells_loop]. repeat split; try reflexivity.
    + intros r c' _ Hl. rewrite lookup_nil in Hl. discriminate.
    + intros r c' j _ Hl. rewrite lookup_nil in Hl. discriminate.
  - cbn [length] in *. cbn [view_cells_loop].
    destruct (view_cell_spec nsm i c st) as (st1 & Hrun1 & Hlc1 & Hls1 & Hc1 & Hs1);
      [lia|lia|nia|].
    rewrite Hrun1. cbn [mbind option_bind].
    destruct (IH (i + 1) st1) as (st' & Hrun & Hlc & Hls & Hcin & Hcout & Hsin & Hsout);
      [lia|lia|rewrite Hlc1; lia|rewrite Hls1; nia|].
    exists st'. split; [exact Hrun|]. split; [congruence|]. split; [congruence|].
    split; [|split; [|split]].
    + intros r c' Hr Hl. destruct (Z.eq_dec r i) as [-> |Hne].
      * rewrite Z.sub_diag in Hl. cbn in Hl. injection Hl as <-.
        rewrite Hcout by lia. rewrite Hc1. apply list_lookup_insert_eq. lia.
      * apply Hcin; [lia|].
        replace (Z.to_nat (r - i)) with (S (Z.to_nat (r - (i + 1)))) in Hl by lia.
        exact Hl.
    + intros m Hm. rewrite Hcout by lia. rewrite Hc1.
      apply list_lookup_insert_ne. lia.
    + intros r c' j Hr Hl Hj. destruct (Z.eq_dec r i) as [-> |Hne].
      * rewrite Z.sub_diag in Hl. cbn in Hl. injection Hl as <-.
        rewrite Hsout by (left; nia). rewrite Hs1.
        destruct (decide _) as [_|Hn]; [|nia].
        do 3 f_equal. lia.
      * apply Hsin; [lia| |lia].
        replace (Z.to_nat (r - i)) with (S (Z.to_nat (r - (i + 1)))) in Hl by lia.
        exact Hl.
    + intros m Hm. rewrite Hsout by nia. rewrite Hs1.
      destruct (decide _) as [Hn|_]; [nia|reflexivity].
Qed.

Lemma view_loop_token_count nsm cs :
  ∀ i st st', view_cells_loop nsm i cs st = Some st' →
              l_token_count st' = (for_cells n_tokens_body i cs (l_token_count st)).2.
Proof.
  induction cs as [|c cs IH]; intros i st st'; cbn [view_cells_loop].
  - intros H. now injection H as <-.
  - destruct (view_cell nsm i c st) as [st1|] eqn:H1; [|discriminate].
    cbn [mbind option_bind]. intros H. apply IH in H.
    apply view_cell_scalars in H1 as (Htc & _).
    rewrite for_cells_cons_2. unfold n_tokens_body at 2. cbn [snd].
    now rewrite H, Htc.
Qed.

Lemma count_non_empty_nonneg cs : 0 <= count_non_empty cs.
Proof. unfold count_non_empty. lia. Qed.

Lemma view_loop_used nsm cs :
  ∀ i st st',
    view_cells_loop nsm i cs st = Some st' →
    0 <= l_used_cells st → l_used_cells st + count_non_empty cs <= INT32_MAX →
    l_used_cells st' =
    l_used_cells st + (if 0 <? nsm then count_non_empty cs else 0).
Proof.
  induction cs as [|c cs IH]; intros i st st'; cbn [view_cells_loop].
  - intros H _ _. injection H as <-. unfold count_non_empty. simpl.
    destruct (_ <? _); lia.
  - destruct (view_cell nsm i c st) as [st1|] eqn:H1; [|discriminate].
    cbn [mbind option_bind]. intros H Hu Hmax.
    apply view_cell_scalars in H1 as (_ & Hu1 & _).
    rewrite count_non_empty_cons in *. pose proof (count_non_empty_nonneg cs).
    assert (Hstep : l_used_cells st1 =
              l_used_cells st + (if 0 <? nsm then if is_empty c then 0 else 1 else 0)).
    { rewrite Hu1. destruct (0 <? nsm), (is_empty c); cbn [andb negb]; try lia.
      apply wrap_i32_id. unfold is_i32, INT32_MIN, INT32_MAX in *. lia. }
    apply IH in H.
    + rewrite H, Hstep. destruct (0 <? nsm); lia.
    + rewrite Hstep. destruct (0 <? nsm), (is_empty c); lia.
    + rewrite Hstep. destruct (0 <? nsm), (is_empty c); lia.
Qed.

(** *** The longest run of cells without seq-id *)

Lemma empty_at_get cs k c : get cs k = Some c → empty_at cs k ↔ seq_id c = ∅.
Proof.
  intros Hc. split.
  - intros (c' & Hc' & He). congruence.
  - intros He. now exists c.
Qed.

Lemma empty_run_inside cs a l k :
  empty_run cs a l → a <= k < a + l → empty_at cs k.
Proof. intros (_ & _ & _ & H) Hk. now apply H. Qed.

(** A run that ends at or before [b] lies on one side of a cell with a
    seq-id. *)
Lemma empty_run_split cs a l k :
  empty_run cs a l → ¬ empty_at cs k → l = 0 ∨ a + l <= k ∨ k < a.
Proof.
  intros Hrun Hk.
  destruct (Z.eq_dec l 0); [now left|].
  destruct (Z_le_gt_dec (a + l) k); [right; now left|].
  destruct (Z_lt_ge_dec k a); [right; now right|].
  exfalso. apply Hk. apply (empty_run_inside cs a l); [assumption|lia].
Qed.

Lemma contig_step cs i c cci mc mci :
  get cs i = Some c → Z.of_nat (length cs) < UINT32_MOD →
  contig_inv cs i cci mc mci →
  let '(cci', mc', mci') :=
    (if negb (is_empty c) then
       if (0 <=? cci) && (mc <? wrap_u32 (i - cci))
       then (-1, wrap_u32 (i - cci), cci)
       else (-1, mc, mci)
     else if cci <? 0 then (i, mc, mci) else (cci, mc, mci)) in
  contig_inv cs (i + 1) cci' mc' mci'.
Proof.
  intros Hc Hsz Hinv.
  assert (Hi : 0 <= i < Z.of_nat (length cs)).
  { unfold get in Hc. destruct (Z.ltb_spec i 0); [discriminate|].
    apply lookup_lt_Some in Hc. lia. }
  pose proof (empty_at_get cs i c Hc) as Hemp.
  unfold is_empty. case_bool_decide as He; cbn [negb].
  - (* the cell has no seq-id: a run opens or goes on *)
    assert (Hie : empty_at cs i) by now apply Hemp.
    destruct Hinv as [(-> & Hprev & Hbest)|(Hcci & Hrun & Hprev & Hbest)].
    + cbn. right. replace (i + 1 - 1) with i in * by lia.
      split; [lia|]. split; [intros k Hk; now replace k with i by lia|].
      split; [|assumption].
      destruct Hprev as [-> |Hprev]; [now left|now right].
    + destruct (Z.ltb_spec cci 0); [lia|]. right.
      split; [lia|]. split; [|split; assumption].
      intros k Hk. destruct (Z.eq_dec k i) as [-> |Hne]; [assumption|].
      apply Hrun. lia.
  - (* the cell has a seq-id: the open run, if any, is closed *)
    assert (Hine : ¬ empty_at cs i) by now rewrite Hemp.
    assert (Hnew : ∀ a l, empty_run cs a l → a + l <= i + 1 → l = 0 ∨ a + l <= i).
    { intros a l Hr Hb. destruct (empty_run_split cs a l i Hr Hine) as [?|[?|?]]; try lia.
      destruct Hr as (? & ? & ? & _). lia. }
    destruct Hinv as [(-> & Hprev & Hbest)|(Hcci & Hrun & Hprev & Hbest)].
    + cbn. left. replace (i + 1 - 1) with i by lia.
      split; [reflexivity|]. split; [now right|].
      destruct Hbest as (H0 & Hmax & Hnone & Hsome).
      split; [assumption|]. split; [|split; [assumption|]].
      * intros a l Hr Hb. destruct (Hnew a l Hr Hb); [lia|]. now apply (Hmax a).
      * intros Hpos. destruct (Hsome Hpos) as (Hr & Hb & Hfirst).
        split; [assumption|]. split; [lia|].
        intros a Hr' Hb'. destruct (Hnew a mc Hr' Hb'); [lia|]. now apply Hfirst.
    + destruct (Z.leb_spec 0 cci); [|lia]. cbn [andb].
      rewrite wrap_u32_id by lia.
      assert (Hside : ∀ a l, empty_run cs a l → a + l <= i →
                             l = 0 ∨ a + l <= cci ∨ (cci <= a ∧ l <= i - cci)).
      { intros a l Hr Hb. destruct Hprev as [-> |Hprev].
        - right. right. destruct Hr as (? & ? & ? & _). lia.
        - destruct (empty_run_split cs a l (cci - 1) Hr Hprev) as [?|[?|?]]; lia. }
      assert (Hopen : empty_run cs cci (i - cci)).
      { split; [lia|]. split; [lia|]. split; [lia|]. intros k Hk. apply Hrun. lia. }
      destruct Hbest as (H0 & Hmax & Hnone & Hsome).
      destruct (Z.ltb_spec mc (i - cci)) as [Hlonger|Hshorter];
        (left; replace (i + 1 - 1) with i by lia;
         split; [reflexivity|]; split; [now right|]).
      * split; [lia|]. split; [|split; [lia|]].
        -- intros a l Hr Hb. destruct (Hnew a l Hr Hb) as [?|Hb']; [lia|].
           destruct (Hside a l Hr Hb') as [?|[Hl|?]]; try lia.
           specialize (Hmax a l Hr Hl). lia.
        -- intros _. split; [assumption|]. split; [lia|].
           intros a Hr Hb. destruct (Hnew a _ Hr Hb) as [?|Hb']; [lia|].
           destruct (Hside a _ Hr Hb') as [?|[Hl|?]]; try lia.
           specialize (Hmax a _ Hr Hl). lia.
      * split; [assumption|]. split; [|split; [assumption|]].
        -- intros a l Hr Hb. destruct (Hnew a l Hr Hb) as [?|Hb']; [lia|].
           destruct (Hside a l Hr Hb') as [?|[Hl|?]]; try lia.
           now apply (Hmax a).
        -- intros Hpos. destruct (Hsome Hpos) as (Hr & Hb & Hfirst).
           split; [assumption|]. split; [lia|].
           intros a Hr' Hb'. destruct (Hnew a _ Hr' Hb') as [?|Hb'']; [lia|].
           destruct (Hside a _ Hr' Hb'') as [?|[Hl|?]]; try lia.
           now apply Hfirst.
Qed.

Lemma contig_final cs cci mc mci :
  Z.of_nat (length cs) < UINT32_MOD →
  contig_inv cs (Z.of_nat (length cs)) cci mc mci →
  let '(mc', mci') :=
    if (0 <=? cci) && (mc <? Z.of_nat (length cs) - cci)
    then (wrap_u32 (Z.of_nat (length cs) - cci), cci) else (mc, mci) in
  longest_empty_run cs (Z.of_nat (length cs)) mc' mci'.
Proof.
  intros Hsz Hinv. set (sz := Z.of_nat (length cs)) in *.
  destruct Hinv as [(-> & _ & Hbest)|(Hcci & Hrun & Hprev & Hbest)].
  - cbn. exact Hbest.
  - destruct (Z.leb_spec 0 cci); [|lia]. cbn [andb].
    rewrite wrap_u32_id by lia.
    assert (Hside : ∀ a l, empty_run cs a l → a + l <= sz →
                           l = 0 ∨ a + l <= cci ∨ (cci <= a ∧ l <= sz - cci)).
    { intros a l Hr Hb. destruct Hprev as [-> |Hprev].
      - right. right. destruct Hr as (? & ? & ? & _). lia.
      - destruct (empty_run_split cs a l (cci - 1) Hr Hprev) as [?|[?|?]]; lia. }
    assert (Hopen : empty_run cs cci (sz - cci)).
    { split; [lia|]. split; [lia|]. split; [lia|]. intros k Hk. apply Hrun. lia. }
    destruct Hbest as (H0 & Hmax & Hnone & Hsome).
    destruct (Z.ltb_spec mc (sz - cci)) as [Hlonger|Hshorter].
    + split; [lia|]. split; [|split; [lia|]].
      * intros a l Hr Hb.
        destruct (Hside a l Hr Hb) as [?|[Hl|?]]; try lia.
        specialize (Hmax a l Hr Hl). lia.
      * intros _. split; [assumption|]. split; [lia|].
        intros a Hr Hb.
        destruct (Hside a _ Hr Hb) as [?|[Hl|?]]; try lia.
        specialize (Hmax a _ Hr Hl). lia.
    + split; [assumption|]. split; [|split; [assumption|]].
      * intros a l Hr Hb.
        destruct (Hside a l Hr Hb) as [?|[Hl|?]]; try lia.
        now apply (Hmax a).
      * intros Hpos. destruct (Hsome Hpos) as (Hr & Hb & Hfirst).
        split; [assumption|]. split; [lia|].
        intros a Hr' Hb'.
        destruct (Hside a _ Hr' Hb') as [?|[Hl|?]]; try lia.
        now apply Hfirst.
Qed.

Lemma view_loop_contig nsm all :
  Z.of_nat (length all) < UINT32_MOD →
  ∀ cs i st st',
    0 <= i <= Z.of_nat (length all) → drop (Z.to_nat i) all = cs →
    view_cells_loop nsm i cs st = Some st' →
    contig_inv all i (l_curr_contig_idx st) (l_max_contig st) (l_max_contig_idx st) →
    contig_inv all (Z.of_nat (length all))
      (l_curr_contig_idx st') (l_max_contig st') (l_max_contig_idx st').
Proof.
  intros Hsz. induction cs as [|c cs IH]; intros i st st' Hi Hdrop; cbn [view_cells_loop].
  - intros H Hinv. injection H as <-.
    apply (f_equal length) in Hdrop. rewrite length_drop in Hdrop. simpl in Hdrop.
    now replace (Z.of_nat (length all)) with i by lia.
  - destruct (view_cell nsm i c st) as [st1|] eqn:H1; [|discriminate].
    cbn [mbind option_bind]. intros H Hinv.
    assert (Hc : all !! Z.to_nat i = Some c).
    { rewrite <- (Nat.add_0_r (Z.to_nat i)), <- lookup_drop, Hdrop. reflexivity. }
    assert (Hget : get all i = Some c).
    { unfold get. destruct (Z.ltb_spec i 0); [lia|assumption]. }
    apply view_cell_scalars in H1 as (_ & _ & Htriple).
    pose proof (contig_step all i c _ _ _ Hget Hsz Hinv) as Hstep.
    rewrite <- Htriple in Hstep.
    rewrite (drop_S _ _ _ Hc) in Hdrop. injection Hdrop as Hdrop.
    apply lookup_lt_Some in Hc.
    apply (IH (i + 1) st1 st'); [lia| |assumption|assumption].
    now replace (Z.to_nat (i + 1)) with (S (Z.to_nat i)) by lia.
Qed.

(** ** The view: the whole update *)

Lemma alloc_len_id c : 0 <= c < 4611686018427387904 → alloc_len c = Z.to_nat c.
Proof.
  intros Hc. unfold alloc_len. rewrite Z.mod_small by lia.
  now rewrite Z.mul_comm, Z.div_mul by lia.
Qed.

Lemma length_realloc old len : length (realloc old len) = len.
Proof. unfold realloc. rewrite length_app, length_take, length_replicate. lia. Qed.

Lemma contig_inv_start cs : contig_inv cs 0 (-1) 0 (-1).
Proof.
  left. split; [reflexivity|]. split; [now left|].
  split; [lia|]. split; [|split; [reflexivity|lia]].
  intros a l (? & ? & _) ?. lia.
Qed.

(** What an update makes of a view whose buffers are consistent, on a pool
    of at most 2^31 - 1 cells, when [realloc] grants what it is asked. *)
Lemma view_update_spec view kv :
  view_wf view → size kv <= INT32_MAX →
  ∃ view' log c s,
    llama_kv_cache_view_update true view kv = Some (view', log) ∧
    view_wf view' ∧ n_seq_max view' = n_seq_max view ∧ size kv <= n_cells view' ∧
    token_count view' = llama_kv_cache_n_tokens kv ∧
    used_cells view' = (if 0 <? n_seq_max view then count_non_empty (cells kv) else 0) ∧
    log = negb (used_cells view' =? used kv) ∧
    longest_empty_run (cells kv) (size kv)
      (max_contiguous view') (max_contiguous_idx view') ∧
    view_cells view' = Some c ∧ cells_sequences view' = Some s ∧
    (∀ i cell, get (cells kv) i = Some cell →
       c !! Z.to_nat i = Some (Some (wrap_i32 (pos cell + delta cell))) ∧
       ∀ j, 0 <= j < n_seq_max view →
         s !! Z.to_nat (i * n_seq_max view + j) =
         Some (Some (nth (Z.to_nat j) (merge_sort Z.le (elements (seq_id cell))) (-1)))) ∧
    (∀ c0 s0, view_cells view = Some c0 → cells_sequences view = Some s0 →
       size kv <= n_cells view →
       n_cells view' = n_cells view ∧
       (∀ m : nat, size kv <= Z.of_nat m → c !! m = c0 !! m) ∧
       (∀ m : nat, size kv * n_seq_max view <= Z.of_nat m → s !! m = s0 !! m)).
Proof.
  intros (Hnsm & Hnc & Hbufs) Hsz.
  assert (Hsz0 : 0 <= size kv) by (unfold size; lia).
  unfold INT32_MAX in *.
  (* the buffers the loop starts from *)
  assert (Hstart : ∃ nc c0 s0 (cs_null : bool),
    (if (wrap_u32 (n_cells view) <? size kv)
        || (if view_cells view is None then true else false)
     then
       if true then
         let nc := wrap_i32 (size kv) in
         Some (nc, realloc (view_cells view) (alloc_len nc),
               realloc (cells_sequences view) (alloc_len (n_seq_max view * nc)))
       else None
     else Some (n_cells view, default [] (view_cells view),
                default [] (cells_sequences view))) = Some (nc, c0, s0) ∧
    negb (wrap_u32 (n_cells view) <? size kv)
      && (if view_cells view is None then false else true)
      && (if cells_sequences view is None then true else false) = false ∧
    size kv <= nc <= 2147483647 ∧
    Z.of_nat (length c0) = nc ∧ Z.of_nat (length s0) = n_seq_max view * nc ∧
    (∀ c1 s1, view_cells view = Some c1 → cells_sequences view = Some s1 →
       size kv <= n_cells view → nc = n_cells view ∧ c0 = c1 ∧ s0 = s1)).
  { rewrite (wrap_u32_id (n_cells view)) by (unfold UINT32_MOD; lia).
    destruct (Z.ltb_spec (n_cells view) (size kv)) as [Hgrow|Hfits]; cbn [orb negb andb].
    - exists (size kv), (realloc (view_cells view) (Z.to_nat (size kv))),
        (realloc (cells_sequences view) (Z.to_nat (n_seq_max view * size kv))), false.
      rewrite wrap_i32_id by (unfold is_i32, INT32_MIN, INT32_MAX; lia).
      rewrite !alloc_len_id by nia.
      split; [reflexivity|]. split; [reflexivity|]. split; [lia|].
      rewrite !length_realloc. split; [lia|]. split; [nia|]. intros; lia.
    - destruct (view_cells view) as [c1|] eqn:Hc1, (cells_sequences view) as [s1|] eqn:Hs1;
        try contradiction.
      + exists (n_cells view), c1, s1, false. cbn.
        split; [reflexivity|]. split; [reflexivity|]. split; [lia|].
        destruct Hbufs as [? ?]. split; [assumption|]. split; [assumption|].
        intros c2 s2 Hc2 Hs2 _. split; [reflexivity|]. split; congruence.
      + exists (size kv), (realloc None (Z.to_nat (size kv))),
          (realloc None (Z.to_nat (n_seq_max view * size kv))), false.
        rewrite wrap_i32_id by (unfold is_i32, INT32_MIN, INT32_MAX; lia).
        rewrite !alloc_len_id by nia.
        split; [reflexivity|]. split; [reflexivity|]. split; [lia|].
        rewrite !length_realloc. split; [lia|]. split; [nia|]. intros; discriminate. }
  destruct Hstart as (nc & c0 & s0 & cs_null & Hbufs0 & Hnull & Hncb & Hlc0 & Hls0 & Hkeep).
  unfold llama_kv_cache_view_update. cbv iota zeta in Hbufs0 |- *.
  rewrite Hbufs0. cbn [mbind option_bind].
  rewrite Hnull.
  rewrite wrap_i32_id by (unfold is_i32, INT32_MIN, INT32_MAX; lia).
  assert (Htake : take (Z.to_nat (size kv)) (cells kv) = cells kv)
    by (apply take_ge; unfold size; lia).
  rewrite Htake.
  set (st0 := {| l_cells := c0; l_seqs := s0; l_used_cells := 0; l_token_count := 0;
                 l_curr_contig_idx := -1; l_max_contig := 0; l_max_contig_idx := -1 |}).
  destruct (view_loop_runs (n_seq_max view) (cells kv) 0 st0)
    as (st & Hrun & Hlc & Hls & Hcin & Hcout & Hsin & Hsout);
    [lia|lia|subst st0; cbn [l_cells]; unfold size in *; lia
    |subst st0; cbn [l_seqs]; unfold size in *; nia|].
  rewrite Hrun. cbn [mbind option_bind].
  pose proof (view_loop_token_count _ _ _ _ _ Hrun) as Htc.
  pose proof (count_non_empty_le (cells kv)) as Hcnt0.
  assert (Hcnt : 0 <= count_non_empty (cells kv) <= size kv).
  { split; [lia|]. unfold count_non_empty, size.
    pose proof (length_filter (λ c, is_empty c = false) (cells kv)). lia. }
  pose proof (view_loop_used _ _ _ _ _ Hrun) as Hused.
  cbn [l_used_cells st0] in Hused. rewrite Z.add_0_l in Hused.
  specialize (Hused ltac:(lia) ltac:(unfold INT32_MAX; lia)).
  pose proof (view_loop_contig (n_seq_max view) (cells kv)
                ltac:(unfold UINT32_MOD, size in *; lia)
                (cells kv) 0 st0 st ltac:(lia) eq_refl Hrun (contig_inv_start _)) as Hcontig.
  apply contig_final in Hcontig; [|unfold UINT32_MOD, size in *; lia].
  fold (size kv) in Hcontig.
  destruct (if (0 <=? l_curr_contig_idx st) && _ then _ else _) as [mc mci].
  assert (Hmc : 0 <= mc <= size kv).
  { destruct Hcontig as (H0 & _ & _ & Hsome). split; [assumption|].
    destruct (Z.eq_dec mc 0); [lia|].
    destruct Hsome as ((? & ? & ? & _) & _); unfold size in *; lia. }
  eexists _, _, (l_cells st), (l_seqs st). split; [reflexivity|].
  cbn [n_cells n_seq_max token_count used_cells max_contiguous max_contiguous_idx
       view_cells cells_sequences].
  rewrite (wrap_i32_id mc) by (unfold is_i32, INT32_MIN, INT32_MAX; lia).
  split.
  { unfold view_wf, INT32_MAX. cbn. split; [lia|]. split; [lia|].
    rewrite Hlc, Hls. subst st0. cbn. split; assumption. }
  split; [reflexivity|]. split; [lia|].
  split; [exact Htc|]. split; [now rewrite Hused, Z.add_0_l|].
  split.
  { rewrite wrap_u32_id; [reflexivity|].
    rewrite Hused. unfold UINT32_MOD. destruct (0 <? n_seq_max view); lia. }
  split; [exact Hcontig|]. split; [reflexivity|]. split; [reflexivity|].
  split.
  - intros i cell Hget. unfold get in Hget.
    destruct (Z.ltb_spec i 0); [discriminate|].
    split.
    + apply Hcin; [lia|]. now rewrite Z.sub_0_r.
    + intros j Hj. apply Hsin; [lia| |assumption]. now rewrite Z.sub_0_r.
  - intros c1 s1 Hc1 Hs1 Hfit. destruct (Hkeep c1 s1 Hc1 Hs1 Hfit) as (-> & -> & ->).
    split; [reflexivity|]. split.
    + intros m Hm. rewrite Hcout; [reflexivity|]. unfold size in *. lia.
    + intros m Hm. rewrite Hsout; [reflexivity|]. unfold size in *. lia.
Qed.

(** ** What no operation changes *)

Lemma upd_length i f cs : length (upd i f cs) = length cs.
Proof. unfold upd. destruct (_ <? _); [reflexivity|apply length_alter]. Qed.

Lemma for_opt_inv {T : Type} (P : T → Prop) k :
  ∀ i (body : Z → T → option T) s s',
    (∀ j x y, P x → body j x = Some y → P y) →
    P s → for_opt k i body s = Some s' → P s'.
Proof.
  induction k as [|k IH]; intros i body s s' Hb Hs; cbn [for_opt].
  - intros H. now injection H as <-.
  - destruct (body i s) as [s1|] eqn:H1; [|discriminate]. cbn [mbind option_bind].
    apply IH; [assumption|]. now apply (Hb i s).
Qed.

Lemma for_ret_inv {T R : Type} (P : T → Prop) (Q : R → Prop) k :
  ∀ i (body : Z → T → option (T + R)) s r,
    (∀ j x r, P x → body j x = Some r →
              match r with inl y => P y | inr z => Q z end) →
    P s → for_ret k i body s = Some r →
    match r with inl y => P y | inr z => Q z end.
Proof.
  induction k as [|k IH]; intros i body s r Hb Hs; cbn [for_ret].
  - intros H. now injection H as <-.
  - destruct (body i s) as [r1|] eqn:H1; [|discriminate]. cbn [mbind option_bind].
    pose proof (Hb i s r1 Hs H1) as Hr1. destruct r1 as [s1|z].
    + now apply IH.
    + intros H. now injection H as <-.
Qed.

Lemma same_shape_refl kv : same_shape kv kv.
Proof. now repeat split. Qed.

Lemma same_shape_trans k1 k2 k3 :
  same_shape k1 k2 → same_shape k2 k3 → same_shape k1 k3.
Proof. unfold same_shape. intros (? & ? & ?) (? & ? & ?). repeat split; congruence. Qed.

(** A state that differs from [kv] in the scalars [head], [used], [n] and
    [has_shift] and in cells, as many as before, has the shape of [kv]. *)
Lemma same_shape_cells kv cs hs hd u n' :
  length cs = length (cells kv) →
  same_shape kv {| has_shift := hs; do_defrag := do_defrag kv;
                   recurrent := recurrent kv; head := hd; used := u; n := n';
                   cells := cs |}.
Proof. intros H. unfold same_shape, size. simpl. now rewrite H. Qed.

Ltac shape :=
  match goal with
  | |- same_shape ?kv _ =>
      unfold set_used, set_head, set_cells, set_n, set_has_shift; cbn [has_shift do_defrag recurrent head used n cells];
      first [apply same_shape_refl
            |apply same_shape_cells; rewrite ?upd_length, ?for_cells_length,
               ?length_map; try reflexivity; try assumption]
  end.

Lemma clear_shape kv : same_shape kv (clear kv).
Proof.
  unfold same_shape, size. rewrite clear_length.
  destruct (clear_scalars kv) as (_ & _ & _ & _ & Hd & Hr). auto.
Qed.

Lemma seq_rm_recurrent_length cs sz seq p0 p1 cs0 :
  seq_rm_recurrent cs sz seq p0 p1 = Some cs0 → length cs0 = length cs.
Proof.
  unfold seq_rm_recurrent. repeat case_match; intros Hcs; try discriminate;
    injection Hcs as <-; rewrite ?upd_length; reflexivity.
Qed.

Lemma seq_rm_shape kv seq p0 p1 : same_shape kv (seq_rm kv seq p0 p1).1.
Proof.
  unfold seq_rm.
  destruct (if recurrent kv then _ else _) as [cs0|] eqn:Hpre; [|apply same_shape_refl].
  assert (Hlen : length cs0 = length (cells kv)).
  { destruct (recurrent kv); [now apply seq_rm_recurrent_length in Hpre|].
    now injection Hpre as <-. }
  pose proof (for_cells_length (seq_rm_body (size kv) seq (norm_p0 p0) (norm_p1 p1)) 0 cs0
                (used kv, size kv)) as Hl.
  destruct (for_cells _ _ _ _) as [cs [u nh]]. cbn [fst] in *.
  destruct (_ && _); cbn [fst]; shape; congruence.
Qed.

Lemma seq_cp_clear_dst_shape kv d : same_shape kv (seq_cp_clear_dst kv d).
Proof. unfold seq_cp_clear_dst. repeat case_match; shape. Qed.

Lemma seq_cp_shape kv s d p0 p1 : same_shape kv (seq_cp kv s d p0 p1).
Proof.
  unfold seq_cp. destruct (_ =? _); [apply same_shape_refl|].
  destruct (recurrent kv) eqn:Hrec.
  - unfold seq_cp_recurrent. destruct (_ && _); [|apply same_shape_refl].
    pose proof (seq_cp_clear_dst_shape kv d) as H1.
    destruct (0 <=? _); [|assumption].
    eapply same_shape_trans; [exact H1|]. shape.
  - pose proof (for_cells_length (seq_cp_body s d (norm_p0 p0) (norm_p1 p1)) 0 (cells kv) tt)
      as Hl.
    destruct (for_cells _ _ _ _) as [cs []]. cbn [fst] in *. shape.
Qed.

Lemma seq_keep_shape kv seq : same_shape kv (seq_keep kv seq).
Proof.
  unfold seq_keep.
  pose proof (for_cells_length (seq_keep_body (recurrent kv) (size kv) seq) 0 (cells kv)
                (used kv, size kv)) as Hl.
  destruct (for_cells _ _ _ _) as [cs [u nh]]. cbn [fst] in *.
  destruct (_ && _); shape.
Qed.

Lemma seq_add_shape kv seq p0 p1 d : same_shape kv (seq_add kv seq p0 p1 d).
Proof.
  unfold seq_add. destruct (_ =? _); [apply same_shape_refl|].
  destruct (_ =? _); [apply same_shape_refl|].
  destruct (recurrent kv).
  - unfold seq_add_recurrent. repeat case_match; shape.
  - pose proof (for_cells_length (seq_add_body (size kv) seq (norm_p0 p0) (norm_p1 p1) d) 0
                  (cells kv) (has_shift kv, used kv, size kv)) as Hl.
    destruct (for_cells _ _ _ _) as [cs [[hs u] nh]]. cbn [fst] in *. shape.
Qed.

Lemma seq_div_shape kv seq p0 p1 d kv' :
  seq_div kv seq p0 p1 d = Some kv' → same_shape kv kv'.
Proof.
  unfold seq_div. destruct (_ =? _); [intros H; injection H as <-; apply same_shape_refl|].
  destruct (_ =? _); [intros H; injection H as <-; apply same_shape_refl|].
  destruct (recurrent kv).
  - unfold seq_div_recurrent. repeat case_match; intros Hkv; try discriminate;
      injection Hkv as <-; shape.
  - destruct (_ && _); [discriminate|].
    pose proof (for_cells_length (seq_div_body seq (norm_p0 p0) (norm_p1 p1) d) 0
                  (cells kv) (has_shift kv)) as Hl.
    destruct (for_cells _ _ _ _) as [cs hs]. cbn [fst] in *.
    intros H. injection H as <-. shape.
Qed.

Lemma stamp_token_length ub hd s i cs cs' :
  stamp_token ub hd s i cs = Some cs' → length cs' = length cs.
Proof.
  unfold stamp_token.
  destruct (ub_pos ub !! _) as [p|]; [|discriminate]. cbn [mbind option_bind].
  destruct (get cs _) as [c|]; [|discriminate]. cbn [mbind option_bind].
  destruct (ub_n_seq_id ub !! _) as [cnt|]; [|discriminate]. cbn [mbind option_bind].
  intros H.
  apply (for_opt_inv (λ l, length l = length cs)) in H; [assumption| |apply upd_length].
  intros j x y Hx Hy. destruct (batch_id ub s j) as [id|]; [|discriminate].
  cbn [mbind option_bind] in Hy. injection Hy as <-. now rewrite upd_length.
Qed.

Lemma stamp_length ub hd cs cs' : stamp ub hd cs = Some cs' → length cs' = length cs.
Proof.
  unfold stamp. intros H.
  apply (for_opt_inv (λ l, length l = length cs)) in H; [assumption| |reflexivity].
  intros s x y Hx Hy.
  apply (for_opt_inv (λ l, length l = length cs)) in Hy; [assumption| |assumption].
  intros i x' y' Hx' Hy'. apply stamp_token_length in Hy'. congruence.
Qed.

Lemma find_slot_transformer_shape fuel kv ub kv' si :
  find_slot_transformer fuel kv ub = Some (kv', si) → same_shape kv kv'.
Proof.
  unfold find_slot_transformer. destruct (_ <? _).
  - intros H. injection H as <- <-. apply same_shape_refl.
  - destruct (find_loop _ _ _ _ _ _) as [[[] hd]|]; [| |discriminate].
    + destruct (stamp ub hd (cells kv)) as [cs|] eqn:Hst; [|discriminate].
      cbn [mbind option_bind]. intros H. injection H as <- <-.
      apply stamp_length in Hst. shape.
    + intros H. injection H as <- <-. shape.
Qed.

Lemma fs_check_id_shape ub s j kv r :
  fs_check_id ub s j kv = Some r →
  match r with inl kv' => same_shape kv kv' | inr kv' => same_shape kv kv' end.
Proof.
  unfold fs_check_id.
  destruct (batch_id ub s j) as [seq|]; [|discriminate]. cbn [mbind option_bind].
  destruct (_ || _); [intros H; injection H as <-; apply same_shape_refl|].
  destruct (0 <? j); [|intros H; injection H as <-; apply same_shape_refl].
  destruct (get (cells kv) seq) as [seq_c|]; [|discriminate]. cbn [mbind option_bind].
  destruct (0 <=? tail seq_c); [|intros H; injection H as <-; apply same_shape_refl].
  destruct (get (cells kv) (tail seq_c)) as [cell|]; [|discriminate].
  cbn [mbind option_bind].
  destruct (is_empty _); intros H; injection H as <-; shape.
Qed.

Lemma fs_check_shape ub kv r :
  fs_check ub kv = Some r →
  match r with inl kv' => same_shape kv kv' | inr kv' => same_shape kv kv' end.
Proof.
  unfold fs_check. intros H.
  apply (for_ret_inv (same_shape kv) (same_shape kv)) in H;
    [assumption| |apply same_shape_refl].
  intros s x r1 Hx Hr1.
  destruct (ub_n_seq_id ub !! _) as [cnt|]; [|discriminate]. cbn [mbind option_bind] in Hr1.
  apply (for_ret_inv (same_shape kv) (same_shape kv)) in Hr1; [assumption| |assumption].
  intros j y r2 Hy Hr2. apply fs_check_id_shape in Hr2.
  destruct r2; eapply same_shape_trans; eassumption.
Qed.

Lemma fs_claim_length ub sz s st st' :
  fs_claim ub sz s st = Some st' → length st'.1.1.1 = length st.1.1.1.
Proof.
  destruct st as [[[cs nxt] mn] mx]. unfold fs_claim.
  destruct (batch_id ub s 0) as [seq|]; [|discriminate]. cbn [mbind option_bind].
  destruct (get cs seq) as [seq_meta|]; [|discriminate]. cbn [mbind option_bind].
  destruct (if 0 <=? tail seq_meta then _ else Some false) as [has_cell|]; [|discriminate].
  cbn [mbind option_bind].
  destruct (if has_cell then _ else _) as [[cs' nxt']|] eqn:Hr; [|discriminate].
  cbn [mbind option_bind].
  destruct (get cs' seq) as [seq_meta'|]; [|discriminate]. cbn [mbind option_bind].
  intros H. injection H as <-. cbn [fst].
  destruct has_cell; [now injection Hr as <- <-|].
  destruct (get cs nxt) as [empty_cell|]; [|discriminate]. cbn [mbind option_bind] in Hr.
  destruct (is_empty empty_cell); [|discriminate].
  destruct (if 0 <=? tail seq_meta then _ else _) as [cs1|] eqn:Hcs1; [|discriminate].
  cbn [mbind option_bind] in Hr.
  destruct (if wrap_u32 (s + 1) <? n_seqs ub then _ else _) as [nxt1|]; [|discriminate].
  cbn [mbind option_bind] in Hr. injection Hr as <- <-.
  rewrite upd_length.
  destruct (0 <=? tail seq_meta); [|now injection Hcs1 as <-].
  destruct (get cs (tail seq_meta)) as [orig|]; [|discriminate].
  cbn [mbind option_bind] in Hcs1. injection Hcs1 as <-. now rewrite !upd_length.
Qed.

Lemma set_tails_length ids v cs cs' :
  set_tails ids v cs = Some cs' → length cs' = length cs.
Proof.
  unfold set_tails. generalize (elements ids). intros l. revert cs.
  induction l as [|id l IH]; intros cs; cbn [foldl].
  - intros H. now injection H as <-.
  - cbn [mbind option_bind]. destruct (get cs id) as [c|]; cbn [mbind option_bind].
    + intros H. apply IH in H. now rewrite upd_length in H.
    + intros H. exfalso. clear -H. induction l as [|x l IHl]; [discriminate|].
      cbn [foldl mbind option_bind] in H. now apply IHl.
Qed.

Lemma fs_gather_length ub mn s cs cs' :
  fs_gather ub mn s cs = Some cs' → length cs' = length cs.
Proof.
  unfold fs_gather.
  destruct (batch_id ub s 0) as [seq|]; [|discriminate]. cbn [mbind option_bind].
  destruct (get cs seq) as [seq_c|]; [|discriminate]. cbn [mbind option_bind].
  destruct (_ =? _); [intros H; now injection H as <-|].
  destruct (get cs (wrap_i32 (s + mn))) as [dst_cell|]; [|discriminate].
  cbn [mbind option_bind].
  destruct (get cs (tail seq_c)) as [src_cell|]; [|discriminate]. cbn [mbind option_bind].
  destruct (set_tails (seq_id dst_cell) _ _) as [cs2|] eqn:H2; [|discriminate].
  cbn [mbind option_bind]. intros H3.
  apply set_tails_length in H2, H3. rewrite !upd_length in H2. congruence.
Qed.

Lemma fs_stamp_length ub mn s cs cs' :
  fs_stamp ub mn s cs = Some cs' → length cs' = length cs.
Proof.
  unfold fs_stamp.
  destruct (ub_pos ub !! _) as [p|]; [|discriminate]. cbn [mbind option_bind].
  destruct (get cs _) as [c|]; [|discriminate]. cbn [mbind option_bind].
  destruct (ub_n_seq_id ub !! _) as [cnt|]; [|discriminate]. cbn [mbind option_bind].
  intros H.
  apply (for_opt_inv (λ l, length l = length cs)) in H; [assumption| |apply upd_length].
  intros j x y Hx Hy. destruct (batch_id ub s j) as [id|]; [|discriminate].
  cbn [mbind option_bind] in Hy. destruct (get x id); [|discriminate].
  cbn [mbind option_bind] in Hy. injection Hy as <-. now rewrite !upd_length.
Qed.

(** The path of the recurrent [find_slot] past the range check of the
    ids: the cells it ends with are as many as before, and [used] is the
    number of those with a seq-id. *)
Lemma find_slot_recurrent_main kv ub kv' si :
  find_slot_recurrent kv ub = Some (kv', si) →
  same_shape kv kv' ∧
  (found si = true → used kv' = wrap_u32 (count_non_empty (cells kv'))).
Proof.
  unfold find_slot_recurrent. destruct (negb _); [discriminate|].
  destruct (fs_check ub kv) as [[kv1|kvf]|] eqn:Hchk; [| |discriminate];
    cbn [mbind option_bind]; apply fs_check_shape in Hchk.
  - destruct (next_empty _ _ _ _) as [nxt|]; [|discriminate]. cbn [mbind option_bind].
    destruct (for_opt _ 0 (fs_claim ub (size kv)) _) as [[[[cs1 nx] mn] mx]|] eqn:Hclaim;
      [|discriminate].
    cbn [mbind option_bind].
    destruct (for_opt _ 0 (fs_gather ub mn) cs1) as [cs2|] eqn:Hgather; [|discriminate].
    cbn [mbind option_bind].
    destruct (for_opt _ 0 (fs_stamp ub mn) cs2) as [cs3|] eqn:Hstamp; [|discriminate].
    cbn [mbind option_bind]. intros H. injection H as <- <-.
    split; [|reflexivity].
    apply (for_opt_inv (λ st, length st.1.1.1 = length (cells kv1))) in Hclaim;
      [|intros j x y Hx Hy; apply fs_claim_length in Hy; congruence|reflexivity].
    apply (for_opt_inv (λ l, length l = length cs1)) in Hgather;
      [|intros j x y Hx Hy; apply fs_gather_length in Hy; congruence|reflexivity].
    apply (for_opt_inv (λ l, length l = length cs2)) in Hstamp;
      [|intros j x y Hx Hy; apply fs_stamp_length in Hy; congruence|reflexivity].
    cbn [fst] in Hclaim.
    eapply same_shape_trans; [exact Hchk|]. shape. congruence.
  - intros H. injection H as <- <-. split; [assumption|discriminate].
Qed.

Lemma find_slot_shape kv ub kv' si :
  find_slot kv ub = Some (kv', si) → same_shape kv kv'.
Proof.
  unfold find_slot. destruct (recurrent kv).
  - intros H. now apply find_slot_recurrent_main in H.
  - apply find_slot_transformer_shape.
Qed.

Lemma run_op_shape kv op kv' r :
  run_op kv op = Some (kv', r) → same_shape kv kv'.
Proof.
  destruct op as [ub|seq p0 p1|s d p0 p1|seq|seq p0 p1 d|seq p0 p1 d|]; cbn [run_op].
  - destruct (find_slot kv ub) as [[kv1 si]|] eqn:Hfs; [|discriminate].
    cbn [mbind option_bind fst]. intros H. injection H as <- _.
    now apply find_slot_shape in Hfs.
  - intros H. injection H as <- _. apply seq_rm_shape.
  - intros H. injection H as <- _. apply seq_cp_shape.
  - intros H. injection H as <- _. apply seq_keep_shape.
  - intros H. injection H as <- _. apply seq_add_shape.
  - destruct (seq_div kv seq p0 p1 d) as [kv1|] eqn:Hdiv; [|discriminate].
    cbn [mbind option_bind]. intros H. injection H as <- _.
    now apply seq_div_shape in Hdiv.
  - intros H. injection H as <- _. apply clear_shape.
Qed.

Lemma run_ops_shape ops :
  ∀ kv kv', run_ops kv ops = Some kv' → same_shape kv kv'.
Proof.
  induction ops as [|op ops IH]; intros kv kv'; cbn [run_ops].
  - intros H. injection H as <-. apply same_shape_refl.
  - destruct (run_op kv op) as [[kv1 r]|] eqn:Hop; [|discriminate].
    cbn [mbind option_bind fst]. intros H.
    eapply same_shape_trans; [eapply run_op_shape; eassumption|now apply IH].
Qed.

(** X5. No sequence of operations changes the number of cells, the
    discipline of the pool (recurrent or not) or the request for a
    defragmentation: [do_defrag] is raised by [defrag] alone, which raises
    it on a transformer pool only and writes nothing else. *)
Theorem operations_keep_the_shape kv ops kv' :
  run_ops kv ops = Some kv' →
  size kv' = size kv ∧ recurrent kv' = recurrent kv ∧
  do_defrag kv' = do_defrag kv ∧
  defrag kv' = set_do_defrag (negb (recurrent kv) || do_defrag kv) kv'.
Proof.
  intros H. apply run_ops_shape in H as (Hsz & Hrec & Hdf).
  repeat split; try assumption.
  unfold defrag. rewrite Hrec. destruct (recurrent kv); cbn [negb orb]; [|reflexivity].
  rewrite <- Hdf. now destruct kv'.
Qed.

Lemma operations_keep_the_shape_witness :
  ∃ kv', run_ops (init true 4) ops_rm_all = Some kv' ∧
         size kv' = size (init true 4) ∧ recurrent kv' = recurrent (init true 4) ∧
         do_defrag kv' = do_defrag (init true 4) ∧
         defrag kv' =
         set_do_defrag (negb (recurrent (init true 4)) || do_defrag (init true 4)) kv'.
Proof.
  eexists. split; [vm_compute; reflexivity|].
  apply (operations_keep_the_shape (init true 4) ops_rm_all). vm_compute. reflexivity.
Defined.

(** ** The view: what an update reports *)

Lemma view_init_wf kv nsm :
  0 <= nsm <= INT32_MAX → view_wf (llama_kv_cache_view_init kv nsm).
Proof. intros H. unfold view_wf, INT32_MAX in *. cbn. repeat split; lia. Qed.

Lemma view_free_wf view : view_wf view → view_wf (llama_kv_cache_view_free view).
Proof. intros (H1 & H2 & _). unfold view_wf. cbn. repeat split; lia. Qed.

(** X6. On a pool of at most 2^31 - 1 cells, the update of a view whose
    buffers are consistent (both null, as [view_init] and [view_free]
    leave them, or of [n_cells] and [n_seq_max * n_cells] elements)
    returns when [realloc] grants its requests; the view is consistent
    again, with room for every cell of the pool, and its [token_count] is
    what [n_tokens] reports for the pool. *)
Theorem view_token_count_is_n_tokens view kv :
  view_wf view → size kv <= INT32_MAX →
  ∃ view' log,
    llama_kv_cache_view_update true view kv = Some (view', log) ∧
    view_wf view' ∧ n_seq_max view' = n_seq_max view ∧ size kv <= n_cells view' ∧
    token_count view' = llama_kv_cache_n_tokens kv.
Proof.
  intros Hwf Hsz.
  destruct (view_update_spec view kv Hwf Hsz)
    as (view' & log & c & s & Hrun & Hwf' & Hnsm & Hnc & Htc & _).
  exists view', log. split; [assumption|]. split; [assumption|].
  split; [assumption|]. split; assumption.
Qed.

Lemma view_token_count_is_n_tokens_witness :
  ∃ kv, run_ops (init false 4) ops_S2_div = Some kv ∧
  ∃ view' log,
    llama_kv_cache_view_update true (llama_kv_cache_view_init kv 2) kv
      = Some (view', log) ∧
    view_wf view' ∧ n_seq_max view' = n_seq_max (llama_kv_cache_view_init kv 2) ∧
    size kv <= n_cells view' ∧
    token_count view' = llama_kv_cache_n_tokens kv.
Proof.
  eexists. split; [vm_compute; reflexivity|].
  apply view_token_count_is_n_tokens.
  - apply view_init_wf. unfold INT32_MAX. lia.
  - vm_compute. discriminate.
Defined.

(** X7. The [used_cells] of an updated view is the number of cells with a
    seq-id, unless [n_seq_max] is 0: no id is then copied, and the count
    stays 0 whatever the pool holds. The mismatch with the counter [used]
    of the pool is logged exactly when the two differ. *)
Theorem view_used_cells_counts_non_empty view kv :
  view_wf view → size kv <= INT32_MAX →
  ∃ view' log,
    llama_kv_cache_view_update true view kv = Some (view', log) ∧
    used_cells view' =
      (if n_seq_max view =? 0 then 0 else count_non_empty (cells kv)) ∧
    (log = true ↔ used_cells view' ≠ used kv).
Proof.
  intros Hwf Hsz.
  destruct (view_update_spec view kv Hwf Hsz)
    as (view' & log & c & s & Hrun & _ & _ & _ & _ & Hused & Hlog & _).
  exists view', log. split; [assumption|]. split.
  - rewrite Hused. destruct Hwf as (Hnsm & _).
    destruct (Z.ltb_spec 0 (n_seq_max view)), (Z.eqb_spec (n_seq_max view) 0);
      try reflexivity; lia.
  - rewrite Hlog, negb_true_iff, Z.eqb_neq. reflexivity.
Qed.

Lemma view_used_cells_counts_non_empty_witness :
  ∃ kv, run_ops (init false 4) ops_S2_div = Some kv ∧
  ∃ view' log,
    llama_kv_cache_view_update true (llama_kv_cache_view_init kv 0) kv
      = Some (view', log) ∧
    used_cells view' =
      (if n_seq_max (llama_kv_cache_view_init kv 0) =? 0 then 0
       else count_non_empty (cells kv)) ∧
    (log = true ↔ used_cells view' ≠ used kv).
Proof.
  eexists. split; [vm_compute; reflexivity|].
  apply view_used_cells_counts_non_empty.
  - apply view_init_wf. unfold INT32_MAX. lia.
  - vm_compute. discriminate.
Defined.

(** X8. The [max_contiguous] of an updated view is the length of the
    longest run of consecutive cells without seq-id, and
    [max_contiguous_idx] is where the first run of that length starts; it
    is -1 when every cell has a seq-id. *)
Theorem view_max_contiguous_is_longest_empty_run view kv :
  view_wf view → size kv <= INT32_MAX →
  ∃ view' log,
    llama_kv_cache_view_update true view kv = Some (view', log) ∧
    (∀ a l, empty_run (cells kv) a l → l <= max_contiguous view') ∧
    (max_contiguous view' = 0 → max_contiguous_idx view' = -1) ∧
    (0 < max_contiguous view' →
     empty_run (cells kv) (max_contiguous_idx view') (max_contiguous view') ∧
     ∀ a, empty_run (cells kv) a (max_contiguous view') →
          max_contiguous_idx view' <= a).
Proof.
  intros Hwf Hsz.
  destruct (view_update_spec view kv Hwf Hsz)
    as (view' & log & c & s & Hrun & _ & _ & _ & _ & _ & _ & Hbest & _).
  exists view', log. split; [assumption|].
  destruct Hbest as (H0 & Hmax & Hnone & Hsome).
  assert (Hin : ∀ a l, empty_run (cells kv) a l → a + l <= size kv).
  { intros a l (_ & _ & H & _). exact H. }
  split; [|split; [assumption|]].
  - intros a l Hr. apply (Hmax a l Hr). now apply Hin.
  - intros Hpos. destruct (Hsome Hpos) as (Hr & _ & Hfirst).
    split; [assumption|]. intros a Hr'. apply Hfirst; [assumption|now apply Hin].
Qed.

Lemma view_max_contiguous_is_longest_empty_run_witness :
  ∃ kv, run_ops (init false 4) ops_S2_div = Some kv ∧
  ∃ view' log,
    llama_kv_cache_view_update true (llama_kv_cache_view_init kv 2) kv
      = Some (view', log) ∧
    (∀ a l, empty_run (cells kv) a l → l <= max_contiguous view') ∧
    (max_contiguous view' = 0 → max_contiguous_idx view' = -1) ∧
    (0 < max_contiguous view' →
     empty_run (cells kv) (max_contiguous_idx view') (max_contiguous view') ∧
     ∀ a, empty_run (cells kv) a (max_contiguous view') →
          max_contiguous_idx view' <= a).
Proof.
  eexists. split; [vm_compute; reflexivity|].
  apply view_max_contiguous_is_longest_empty_run.
  - apply view_init_wf. unfold INT32_MAX. lia.
  - vm_compute. discriminate.
Defined.

(** X9. After an update the element [i] of [cells] is [pos + delta] of
    the cell [i] of the pool, and the row [i] of [cells_sequences] lists
    the ids of that cell in increasing order, cut at [n_seq_max] and
    filled up with -1. When the buffers were large enough already, their
    elements beyond the cells of the pool are left as they were. *)
Theorem view_rows_list_the_ids view kv :
  view_wf view → size kv <= INT32_MAX →
  ∃ view' log c s,
    llama_kv_cache_view_update true view kv = Some (view', log) ∧
    view_cells view' = Some c ∧ cells_sequences view' = Some s ∧
    (∀ i cell, get (cells kv) i = Some cell →
       c !! Z.to_nat i = Some (Some (wrap_i32 (pos cell + delta cell))) ∧
       ∃ ids, ids_in_order cell ids ∧
         ∀ j, 0 <= j < n_seq_max view →
           s !! Z.to_nat (i * n_seq_max view + j)
             = Some (Some (nth (Z.to_nat j) ids (-1)))) ∧
    (∀ c0 s0, view_cells view = Some c0 → cells_sequences view = Some s0 →
       size kv <= n_cells view →
       n_cells view' = n_cells view ∧
       (∀ m : nat, size kv <= Z.of_nat m → c !! m = c0 !! m) ∧
       (∀ m : nat, size kv * n_seq_max view <= Z.of_nat m → s !! m = s0 !! m)).
Proof.
  intros Hwf Hsz.
  destruct (view_update_spec view kv Hwf Hsz)
    as (view' & log & c & s & Hrun & _ & _ & _ & _ & _ & _ & _ & Hc & Hs & Hrows & Hkeep).
  exists view', log, c, s. split; [assumption|]. split; [assumption|].
  split; [assumption|]. split; [|exact Hkeep].
  intros i cell Hget. destruct (Hrows i cell Hget) as [Hcell Hrow].
  split; [assumption|]. exists (merge_sort Z.le (elements (seq_id cell))).
  split; [apply sorted_ids_in_order|exact Hrow].
Qed.

Lemma view_rows_list_the_ids_witness :
  ∃ kv, run_ops (init false 4) ops_S2_div = Some kv ∧
  ∃ view' log c s,
    llama_kv_cache_view_update true (llama_kv_cache_view_init kv 2) kv
      = Some (view', log) ∧
    view_cells view' = Some c ∧ cells_sequences view' = Some s ∧
    (∀ i cell, get (cells kv) i = Some cell →
       c !! Z.to_nat i = Some (Some (wrap_i32 (pos cell + delta cell))) ∧
       ∃ ids, ids_in_order cell ids ∧
         ∀ j, 0 <= j < n_seq_max (llama_kv_cache_view_init kv 2) →
           s !! Z.to_nat (i * n_seq_max (llama_kv_cache_view_init kv 2) + j)
             = Some (Some (nth (Z.to_nat j) ids (-1)))) ∧
    (∀ c0 s0, view_cells (llama_kv_cache_view_init kv 2) = Some c0 →
       cells_sequences (llama_kv_cache_view_init kv 2) = Some s0 →
       size kv <= n_cells (llama_kv_cache_view_init kv 2) →
       n_cells view' = n_cells (llama_kv_cache_view_init kv 2) ∧
       (∀ m : nat, size kv <= Z.of_nat m → c !! m = c0 !! m) ∧
       (∀ m : nat,
          size kv * n_seq_max (llama_kv_cache_view_init kv 2) <= Z.of_nat m →
          s !! m = s0 !! m)).
Proof.
  eexists. split; [vm_compute; reflexivity|].
  apply view_rows_list_the_ids.
  - apply view_init_wf. unfold INT32_MAX. lia.
  - vm_compute. discriminate.
Defined.

(** X10. On a recurrent pool of at most 2^31 - 1 cells, after a
    [find_slot] that found a slot, the counter [used] is the number of
    cells with a seq-id: the update of a view with room for at least one
    id per cell counts the same and logs no mismatch. *)
Theorem view_agrees_after_recurrent_find_slot kv ub kv' si view :
  recurrent kv = true → size kv <= INT32_MAX →
  find_slot kv ub = Some (kv', si) → found si = true →
  view_wf view → 0 < n_seq_max view →
  used kv' = count_non_empty (cells kv') ∧
  ∃ view',
    llama_kv_cache_view_update true view kv' = Some (view', false) ∧
    used_cells view' = used kv'.
Proof.
  intros Hrec Hsz Hfs Hfound Hwf Hnsm. unfold find_slot in Hfs. rewrite Hrec in Hfs.
  apply find_slot_recurrent_main in Hfs as ((Hsz' & _) & Hused).
  specialize (Hused Hfound).
  assert (Hcnt : 0 <= count_non_empty (cells kv') <= size kv').
  { split; [apply count_non_empty_nonneg|]. unfold count_non_empty, size.
    pose proof (length_filter (λ c, is_empty c = false) (cells kv')). lia. }
  rewrite wrap_u32_id in Hused by (unfold UINT32_MOD, INT32_MAX in *; lia).
  split; [assumption|].
  destruct (view_update_spec view kv' Hwf ltac:(lia))
    as (view' & log & c & s & Hrun & _ & _ & _ & _ & Hu & Hlog & _).
  destruct (Z.ltb_spec 0 (n_seq_max view)); [|lia].
  exists view'. rewrite Hu, Hused. split; [|reflexivity].
  rewrite Hrun. do 2 f_equal. rewrite Hlog, Hu, Hused, Z.eqb_refl. reflexivity.
Qed.

Lemma view_agrees_after_recurrent_find_slot_witness :
  ∃ kv' si,
    find_slot (init true 4) ub_S6 = Some (kv', si) ∧
    used kv' = count_non_empty (cells kv') ∧
    ∃ view',
      llama_kv_cache_view_update true (llama_kv_cache_view_init (init true 4) 1) kv'
        = Some (view', false) ∧
      used_cells view' = used kv'.
Proof.
  eexists _, _. split; [vm_compute; reflexivity|].
  eapply (view_agrees_after_recurrent_find_slot (init true 4) ub_S6).
  - reflexivity.
  - vm_compute. discriminate.
  - vm_compute. reflexivity.
  - reflexivity.
  - apply view_init_wf. unfold INT32_MAX. lia.
  - simpl. lia.
Defined.

(** ** seq_rm: what is removed and what is kept *)

Lemma seq_rm_body_cell sz seq p0 p1 j c b :
  (seq_rm_body sz seq p0 p1 j c b).1 = seq_rm_cell seq p0 p1 c.
Proof.
  unfold seq_rm_cell, seq_rm_body. destruct b as [u nh].
  destruct (in_range p0 p1 c); [|reflexivity].
  destruct (seq <? 0); [now destruct (is_empty _)|].
  destruct (has_seq_id c seq); [now destruct (is_empty _)|reflexivity].
Qed.

Lemma upd_Forall2 (R : llama_kv_cell → llama_kv_cell → Prop) i f cs :
  (∀ c, R c c) → (∀ c, R c (f c)) → Forall2 R cs (upd i f cs).
Proof.
  intros Hrefl Hf. unfold upd. destruct (_ <? _).
  - now apply Forall_Forall2_diag, Forall_forall.
  - generalize (Z.to_nat i). intros k. revert k.
    induction cs as [|c cs IH]; intros [|k]; try constructor.
    + apply Hf.
    + now apply Forall_Forall2_diag, Forall_forall.
    + apply Hrefl.
    + apply IH.
Qed.

(** The recurrent prologue of [seq_rm] writes tails only. *)
Lemma seq_rm_recurrent_cells cs sz seq p0 p1 cs0 :
  seq_rm_recurrent cs sz seq p0 p1 = Some cs0 →
  Forall2 (λ c c0, pos c0 = pos c ∧ seq_id c0 = seq_id c) cs cs0.
Proof.
  assert (Hsame : Forall2 (λ c c0, pos c0 = pos c ∧ seq_id c0 = seq_id c) cs cs)
    by now apply Forall_Forall2_diag, Forall_forall.
  unfold seq_rm_recurrent. repeat case_match; intros Hcs; try discriminate;
    injection Hcs as <-; try assumption.
  apply upd_Forall2; intros c; now split.
Qed.

Lemma seq_rm_cells kv seq p0 p1 :
  (seq_rm kv seq p0 p1).2 = true →
  ∃ cs0, Forall2 (λ c c0, pos c0 = pos c ∧ seq_id c0 = seq_id c) (cells kv) cs0 ∧
         cells (seq_rm kv seq p0 p1).1
           = map (seq_rm_cell seq (norm_p0 p0) (norm_p1 p1)) cs0.
Proof.
  unfold seq_rm.
  destruct (if recurrent kv then _ else _) as [cs0|] eqn:Hpre; [|discriminate].
  intros _. exists cs0. split.
  - destruct (recurrent kv); [now apply seq_rm_recurrent_cells in Hpre|].
    injection Hpre as <-. now apply Forall_Forall2_diag, Forall_forall.
  - pose proof (for_cells_map (seq_rm_body (size kv) seq (norm_p0 p0) (norm_p1 p1))
                  (seq_rm_cell seq (norm_p0 p0) (norm_p1 p1)) 0 cs0
                  (used kv, size kv) (seq_rm_body_cell _ _ _ _)) as Hcs.
    destruct (for_cells _ _ _ _) as [cs [u nh]]. cbn [fst] in *. subst cs.
    now destruct (_ && _).
Qed.

Lemma seq_rm_cell_spec seq p0 p1 c :
  0 <= p0 →
  (p0 <= pos (seq_rm_cell seq p0 p1 c) < p1 →
   0 <= seq ∧ seq ∉ seq_id (seq_rm_cell seq p0 p1 c)) ∧
  seq_id (seq_rm_cell seq p0 p1 c) ⊆ seq_id c ∧
  (0 <= seq → ∀ id, id ≠ seq → id ∈ seq_id c → id ∈ seq_id (seq_rm_cell seq p0 p1 c)) ∧
  (seq_id (seq_rm_cell seq p0 p1 c) ≠ ∅ → pos (seq_rm_cell seq p0 p1 c) = pos c) ∧
  (¬ (p0 <= pos c < p1) → seq_rm_cell seq p0 p1 c = c).
Proof.
  intros Hp0. unfold seq_rm_cell, seq_rm_body, in_range.
  destruct (Z.leb_spec p0 (pos c)) as [Hlo|Hlo]; cbn [andb].
  2:{ cbn [fst]. split; [lia|]. split; [reflexivity|]. now repeat split. }
  destruct (Z.ltb_spec (pos c) p1) as [Hhi|Hhi].
  2:{ cbn [fst]. split; [lia|]. split; [reflexivity|]. now repeat split. }
  destruct (Z.ltb_spec seq 0) as [Hneg|Hnn].
  - (* every sequence: the cell is cleared, and so freed *)
    unfold is_empty. rewrite bool_decide_eq_true_2 by reflexivity.
    cbn [fst pos seq_id set_src set_pos set_seq_id seq_clear].
    split; [lia|]. split; [apply empty_subseteq|]. split; [lia|].
    split; [congruence|lia].
  - unfold has_seq_id. case_bool_decide as Hhas.
    + unfold is_empty. cbn [seq_erase set_seq_id seq_id].
      case_bool_decide as Hemp;
        cbn [fst pos seq_id set_src set_pos set_seq_id seq_erase].
      * split; [lia|]. split; [intros x; rewrite elem_of_difference; tauto|].
        split; [|split; [intros Hne; contradiction|lia]].
        intros _ id Hne Hid. apply elem_of_difference. split; [assumption|].
        now rewrite elem_of_singleton.
      * split.
        { intros _. split; [assumption|]. rewrite elem_of_difference, elem_of_singleton.
          tauto. }
        split; [intros x; rewrite elem_of_difference; tauto|].
        split; [|split; [reflexivity|lia]].
        intros _ id Hne Hid. apply elem_of_difference. split; [assumption|].
        now rewrite elem_of_singleton.
    + cbn [fst]. split; [intros _; split; assumption|]. split; [reflexivity|].
      now repeat split.
Qed.

(** X11. When [seq_rm(seq, p0, p1)] returns [true], on either kind of
    pool: afterwards no cell at a position of the range holds [seq] (for
    [seq < 0]: no cell is left at a position of the range). A cell gains
    no id; for [seq >= 0] it loses none but [seq]; it keeps its position
    unless it lost its last id; and a cell outside the range keeps its
    position and its ids. *)
Theorem seq_rm_removes_the_range kv seq p0 p1 :
  (seq_rm kv seq p0 p1).2 = true →
  Forall (λ c', norm_p0 p0 <= pos c' < norm_p1 p1 → 0 <= seq ∧ seq ∉ seq_id c')
    (cells (seq_rm kv seq p0 p1).1) ∧
  Forall2 (λ c c',
      seq_id c' ⊆ seq_id c ∧
      (0 <= seq → ∀ id, id ≠ seq → id ∈ seq_id c → id ∈ seq_id c') ∧
      (seq_id c' ≠ ∅ → pos c' = pos c) ∧
      (¬ (norm_p0 p0 <= pos c < norm_p1 p1) →
       pos c' = pos c ∧ seq_id c' = seq_id c))
    (cells kv) (cells (seq_rm kv seq p0 p1).1).
Proof.
  intros Hret. destruct (seq_rm_cells kv seq p0 p1 Hret) as (cs0 & Hcs0 & ->).
  pose proof (norm_p0_nonneg p0) as Hp0. split.
  - apply Forall_fmap, Forall_forall. intros c _. cbn.
    apply (seq_rm_cell_spec seq _ _ c Hp0).
  - apply Forall2_fmap_r. eapply Forall2_impl; [exact Hcs0|].
    intros c c0 [Hpos Hids]. cbn.
    destruct (seq_rm_cell_spec seq (norm_p0 p0) (norm_p1 p1) c0 Hp0)
      as (_ & H2 & H3 & H4 & H5).
    rewrite Hpos, Hids in *.
    split; [assumption|]. split; [assumption|]. split; [assumption|].
    intros Hout. rewrite (H5 Hout). now split.
Qed.

Lemma seq_rm_removes_the_range_witness :
  ∃ kv, run_ops (init false 4) [Op_find_slot (ub_seq0 [0; 1; 2])] = Some kv ∧
    Forall (λ c', norm_p0 1 <= pos c' < norm_p1 2 → 0 <= 0 ∧ 0 ∉ seq_id c')
      (cells (seq_rm kv 0 1 2).1) ∧
    Forall2 (λ c c',
        seq_id c' ⊆ seq_id c ∧
        (0 <= 0 → ∀ id, id ≠ 0 → id ∈ seq_id c → id ∈ seq_id c') ∧
        (seq_id c' ≠ ∅ → pos c' = pos c) ∧
        (¬ (norm_p0 1 <= pos c < norm_p1 2) →
         pos c' = pos c ∧ seq_id c' = seq_id c))
      (cells kv) (cells (seq_rm kv 0 1 2).1).
Proof.
  eexists. split; [vm_compute; reflexivity|].
  apply seq_rm_removes_the_range. vm_compute. reflexivity.
Defined.

(** ** seq_keep: one sequence is left, and a second call changes nothing *)

Lemma seq_keep_body_cell rec sz seq j c b :
  (seq_keep_body rec sz seq j c b).1 = seq_keep_cell rec seq j c.
Proof.
  unfold seq_keep_cell, seq_keep_body. destruct b as [u nh].
  now destruct (negb (has_seq_id _ seq)).
Qed.

Lemma seq_keep_cell_spec rec seq j c :
  if decide (seq ∈ seq_id c)
  then seq_id (seq_keep_cell rec seq j c) = {[seq]} ∧
       pos (seq_keep_cell rec seq j c) = pos c ∧
       src (seq_keep_cell rec seq j c) = src c
  else seq_id (seq_keep_cell rec seq j c) = ∅ ∧
       pos (seq_keep_cell rec seq j c) = -1 ∧
       src (seq_keep_cell rec seq j c) = -1.
Proof.
  unfold seq_keep_cell, seq_keep_body.
  assert (Hhas : has_seq_id (if rec && negb (wrap_i32 j =? seq) then set_tail (-1) c else c)
                   seq = has_seq_id c seq) by now destruct (_ && _).
  rewrite Hhas. unfold has_seq_id.
  destruct (decide (seq ∈ seq_id c)) as [Hin|Hout].
  - rewrite bool_decide_eq_true_2 by assumption. cbn [negb fst].
    destruct (_ && _); cbn; (split; [apply union_empty_r_L|now split]).
  - rewrite bool_decide_eq_false_2 by assumption. cbn [negb fst].
    destruct (_ && _); cbn; now repeat split.
Qed.

Lemma seq_keep_body_unfold rec sz seq i c u nh :
  seq_keep_body rec sz seq i c (u, nh) =
  (seq_keep_cell rec seq i c,
   if has_seq_id c seq then (u, nh)
   else (if 0 <=? pos c then wrap_u32 (u - 1) else u, if nh =? sz then i else nh)).
Proof.
  unfold seq_keep_cell, seq_keep_body.
  destruct (rec && negb (wrap_i32 i =? seq)).
  - change (has_seq_id (set_tail (-1) c) seq) with (has_seq_id c seq).
    now destruct (has_seq_id c seq).
  - now destruct (has_seq_id c seq).
Qed.

Lemma seq_keep_cell_has rec seq i c :
  has_seq_id (seq_keep_cell rec seq i c) seq = has_seq_id c seq.
Proof.
  pose proof (seq_keep_cell_spec rec seq i c) as H. unfold has_seq_id.
  destruct (decide (seq ∈ seq_id c)) as [Hin|Hout].
  - destruct H as (-> & _). rewrite !bool_decide_eq_true_2; [reflexivity|assumption|].
    now apply elem_of_singleton.
  - destruct H as (-> & _). rewrite !bool_decide_eq_false_2; [reflexivity|assumption|].
    apply not_elem_of_empty.
Qed.

Lemma seq_keep_cell_idem rec seq i c :
  seq_keep_cell rec seq i (seq_keep_cell rec seq i c) = seq_keep_cell rec seq i c.
Proof.
  pose proof (seq_keep_cell_has rec seq i c) as Hhas. revert Hhas.
  unfold seq_keep_cell, seq_keep_body.
  destruct (rec && negb (wrap_i32 i =? seq)).
  - change (has_seq_id (set_tail (-1) c) seq) with (has_seq_id c seq).
    destruct (has_seq_id c seq); cbn [negb fst]; intros Hhas.
    + change (has_seq_id (set_tail (-1) (seq_insert seq (seq_clear (set_tail (-1) c)))) seq)
        with (has_seq_id (seq_insert seq (seq_clear (set_tail (-1) c))) seq).
      now rewrite Hhas.
    + change (has_seq_id (set_tail (-1)
                (seq_clear (set_src (-1) (set_pos (-1) (set_tail (-1) c))))) seq)
        with (has_seq_id (seq_clear (set_src (-1) (set_pos (-1) (set_tail (-1) c)))) seq).
      now rewrite Hhas.
  - destruct (has_seq_id c seq); cbn [negb fst]; intros Hhas; now rewrite Hhas.
Qed.

Lemma seq_keep_cell_freed rec seq i c :
  has_seq_id c seq = false → pos (seq_keep_cell rec seq i c) = -1.
Proof.
  intros Hc. pose proof (seq_keep_cell_spec rec seq i c) as H.
  unfold has_seq_id in Hc. apply bool_decide_eq_false in Hc.
  destruct (decide _); [contradiction|]. apply H.
Qed.

(** The sweep of [seq_keep] over cells it has swept already: the cells
    stay, [used] stays, and [new_head] is set as the first sweep set it. *)
Lemma seq_keep_sweep_twice rec sz seq cs :
  ∀ i u nh u2 nh2,
    i + Z.of_nat (length cs) <= sz → 0 <= i →
    (for_cells (seq_keep_body rec sz seq) i cs (u, nh)).2.2
      = (if nh =? sz then first_lacking seq sz i cs else nh) ∧
    for_cells (seq_keep_body rec sz seq) i
      (for_cells (seq_keep_body rec sz seq) i cs (u, nh)).1 (u2, nh2)
      = ((for_cells (seq_keep_body rec sz seq) i cs (u, nh)).1,
         (u2, if nh2 =? sz then first_lacking seq sz i cs else nh2)).
Proof.
  induction cs as [|c cs IH]; intros i u nh u2 nh2 Hlen Hi.
  - cbn [for_cells first_lacking fst snd]. split.
    + now destruct (Z.eqb_spec nh sz) as [-> |].
    + now destruct (Z.eqb_spec nh2 sz) as [-> |].
  - cbn [length] in Hlen. rewrite for_cells_cons_1, for_cells_cons_2.
    rewrite !seq_keep_body_unfold. cbn [first_lacking fst snd].
    assert (Hisz : (i =? sz) = false) by (apply Z.eqb_neq; lia).
    cbn [for_cells]. rewrite seq_keep_body_unfold, seq_keep_cell_has, seq_keep_cell_idem.
    destruct (has_seq_id c seq) eqn:Hc.
    + destruct (IH (i + 1) u nh u2 nh2 ltac:(lia) ltac:(lia)) as [IH1 IH2].
      split; [exact IH1|]. now rewrite IH2.
    + rewrite (seq_keep_cell_freed _ _ _ _ Hc). change (0 <=? -1) with false. cbv iota.
      destruct (IH (i + 1) (if 0 <=? pos c then wrap_u32 (u - 1) else u)
                  (if nh =? sz then i else nh) u2
                  (if nh2 =? sz then i else nh2) ltac:(lia) ltac:(lia)) as [IH1 IH2].
      split.
      * rewrite IH1. destruct (nh =? sz) eqn:Hnh; [now rewrite Hisz|now rewrite Hnh].
      * rewrite IH2. do 3 f_equal.
        destruct (nh2 =? sz) eqn:Hnh2; [now rewrite Hisz|now rewrite Hnh2].
Qed.

(** X12. After [seq_keep(seq)] a cell that held [seq] holds [seq] alone,
    at its position; any other cell is freed ([pos = -1], [src = -1], no
    id). A second [seq_keep(seq)] leaves the whole state as the first
    left it. *)
Theorem seq_keep_keeps_one_sequence kv seq :
  Forall2 (λ c c',
      if decide (seq ∈ seq_id c)
      then seq_id c' = {[seq]} ∧ pos c' = pos c ∧ src c' = src c
      else seq_id c' = ∅ ∧ pos c' = -1 ∧ src c' = -1)
    (cells kv) (cells (seq_keep kv seq)) ∧
  seq_keep (seq_keep kv seq) seq = seq_keep kv seq.
Proof.
  pose proof (seq_keep_sweep_twice (recurrent kv) (size kv) seq (cells kv) 0
                (used kv) (size kv)) as Htwice.
  pose proof (for_cells_imap (seq_keep_body (recurrent kv) (size kv) seq)
                (seq_keep_cell (recurrent kv) seq) 0 (cells kv) (used kv, size kv)
                (seq_keep_body_cell _ _ _)) as Hcs.
  pose proof (for_cells_length (seq_keep_body (recurrent kv) (size kv) seq) 0 (cells kv)
                (used kv, size kv)) as Hlen.
  unfold seq_keep at 1 3 4.
  destruct (for_cells _ 0 (cells kv) _) as [cs [u nh]] eqn:Hsweep. cbn [fst snd] in *.
  split.
  - assert (Hcells : cells (if negb (nh =? size kv) && (nh <? head kv)
                            then set_head nh (set_used u (set_cells cs kv))
                            else set_used u (set_cells cs kv)) = cs)
      by now destruct (_ && _).
    rewrite Hcells, Hcs. apply Forall2_same_length_lookup_2; [now rewrite length_imap|].
    intros k c c' Hc Hc'. rewrite list_lookup_imap, Hc in Hc'. cbn in Hc'.
    injection Hc' as <-. apply seq_keep_cell_spec.
  - set (f := first_lacking seq (size kv) 0 (cells kv)) in *.
    destruct (Htwice u (size kv) ltac:(unfold size; lia) ltac:(lia)) as [Hnh Hsecond].
    rewrite Z.eqb_refl in Hnh, Hsecond. subst nh.
    set (kv1 := if negb (f =? size kv) && (f <? head kv)
                then set_head f (set_used u (set_cells cs kv))
                else set_used u (set_cells cs kv)).
    assert (H1 : recurrent kv1 = recurrent kv ∧ size kv1 = size kv ∧ cells kv1 = cs ∧
                 used kv1 = u ∧
                 head kv1 = (if negb (f =? size kv) && (f <? head kv) then f else head kv)).
    { subst kv1. unfold size. destruct (_ && _); cbn; now rewrite Hlen. }
    destruct H1 as (Hrec & Hsz & Hc1 & Hu1 & Hh1).
    unfold seq_keep. rewrite Hrec, Hsz, Hc1, Hu1, Hsecond.
    assert (Hskip : negb (f =? size kv) && (f <? head kv1) = false).
    { rewrite Hh1. destruct (Z.eqb_spec f (size kv)); cbn [negb andb]; [reflexivity|].
      destruct (Z.ltb_spec f (head kv)); apply Z.ltb_ge; lia. }
    rewrite Hskip. subst kv1.
    destruct (_ && _); reflexivity.
Qed.

(** ** seq_cp on a transformer pool, undone by seq_rm *)

Lemma seq_cp_body_cell s d p0 p1 j c b :
  (seq_cp_body s d p0 p1 j c b).1 = seq_cp_cell s d p0 p1 c.
Proof. unfold seq_cp_cell, seq_cp_body. now destruct (_ && _). Qed.

Lemma seq_cp_transformer kv s d p0 p1 :
  recurrent kv = false → s ≠ d →
  seq_cp kv s d p0 p1 =
  set_cells (map (seq_cp_cell s d (norm_p0 p0) (norm_p1 p1)) (cells kv)) (set_head 0 kv).
Proof.
  intros Hrec Hne. unfold seq_cp. rewrite Hrec.
  destruct (Z.eqb_spec s d); [contradiction|].
  pose proof (for_cells_map (seq_cp_body s d (norm_p0 p0) (norm_p1 p1))
                (seq_cp_cell s d (norm_p0 p0) (norm_p1 p1)) 0 (cells kv) tt
                (seq_cp_body_cell _ _ _ _)) as Hcs.
  destruct (for_cells _ _ _ _) as [cs []]. cbn [fst] in Hcs. now subst cs.
Qed.

(** A sweep whose body gives back the cell [c] for [g c], and leaves the
    scalars, undoes the map of [g]. *)
Lemma for_cells_undo {A : Type} (body : Z → llama_kv_cell → A → llama_kv_cell * A)
    (g : llama_kv_cell → llama_kv_cell) cs :
  ∀ i a,
    Forall (λ c, ∀ j b, body j (g c) b = (c, b)) cs →
    for_cells body i (map g cs) a = (cs, a).
Proof.
  induction cs as [|c cs IH]; intros i a Hall; [reflexivity|].
  inversion Hall as [|? ? Hc Hcs]; subst. cbn [map for_cells].
  rewrite Hc, IH by assumption. reflexivity.
Qed.

Lemma erase_inserted (d : Z) (S : gset Z) : d ∉ S → ({[d]} ∪ S) ∖ {[d]} = S.
Proof.
  intros Hd. apply set_eq. intros x.
  rewrite elem_of_difference, elem_of_union, elem_of_singleton. split.
  - intros [[-> |Hx] Hne]; [contradiction|assumption].
  - intros Hx. split; [now right|]. intros ->. contradiction.
Qed.

Lemma seq_rm_undoes_cp_cell sz s d p0 p1 q0 q1 c :
  0 <= d → d ∉ seq_id c → q0 <= p0 → p1 <= q1 →
  ∀ j b, seq_rm_body sz d q0 q1 j (seq_cp_cell s d p0 p1 c) b = (c, b).
Proof.
  intros Hd Hfresh Hq0 Hq1 j [u nh]. unfold seq_cp_cell, seq_cp_body.
  destruct (has_seq_id c s) eqn:Hs; cbn [andb].
  - unfold in_range at 1.
    destruct (Z.leb_spec p0 (pos c)) as [Hlo|Hlo]; cbn [andb].
    + destruct (Z.ltb_spec (pos c) p1) as [Hhi|Hhi]; cbn [fst].
      * unfold seq_rm_body, in_range.
        change (pos (seq_insert d c)) with (pos c).
        destruct (Z.leb_spec q0 (pos c)); [|lia].
        destruct (Z.ltb_spec (pos c) q1); [|lia]. cbn [andb].
        destruct (Z.ltb_spec d 0); [lia|].
        assert (Hhas : has_seq_id (seq_insert d c) d = true).
        { apply bool_decide_eq_true_2. cbn.
          apply elem_of_union_l. now apply elem_of_singleton. }
        rewrite Hhas.
        assert (Hback : seq_erase d (seq_insert d c) = c).
        { unfold seq_erase, seq_insert, set_seq_id. cbn.
          rewrite erase_inserted by assumption. now destruct c. }
        rewrite Hback. unfold is_empty. rewrite bool_decide_eq_false_2; [reflexivity|].
        unfold has_seq_id in Hs. apply bool_decide_eq_true in Hs.
        intros Hemp. rewrite Hemp in Hs. now apply not_elem_of_empty in Hs.
      * unfold seq_rm_body. destruct (in_range q0 q1 c); [|reflexivity].
        destruct (Z.ltb_spec d 0); [lia|].
        unfold has_seq_id. now rewrite bool_decide_eq_false_2.
    + cbn [fst]. unfold seq_rm_body. destruct (in_range q0 q1 c); [|reflexivity].
      destruct (Z.ltb_spec d 0); [lia|].
      unfold has_seq_id. now rewrite bool_decide_eq_false_2.
  - cbn [fst]. unfold seq_rm_body. destruct (in_range q0 q1 c); [|reflexivity].
    destruct (Z.ltb_spec d 0); [lia|].
    unfold has_seq_id. now rewrite bool_decide_eq_false_2.
Qed.

(** X13. On a transformer pool, copying a range of a sequence to an id
    [dst >= 0] that no cell holds, and then removing [dst] over a range
    that covers the copied one (the whole range, for instance), gives back
    the pool as it was, but for [head], which the copy has reset to 0. *)
Theorem seq_cp_then_seq_rm_restores kv src dst p0 p1 q0 q1 :
  recurrent kv = false → src ≠ dst → 0 <= dst →
  Forall (λ c, dst ∉ seq_id c) (cells kv) →
  norm_p0 q0 <= norm_p0 p0 → norm_p1 p1 <= norm_p1 q1 →
  seq_rm (seq_cp kv src dst p0 p1) dst q0 q1 = (set_head 0 kv, true).
Proof.
  intros Hrec Hne Hd Hfresh Hq0 Hq1. rewrite seq_cp_transformer by assumption.
  unfold seq_rm. cbn [recurrent set_cells set_head cells used head]. rewrite Hrec.
  assert (Hsz : size (set_cells (map (seq_cp_cell src dst (norm_p0 p0) (norm_p1 p1))
                                  (cells kv)) (set_head 0 kv)) = size kv)
    by (unfold size; cbn [cells set_cells set_head]; now rewrite length_map).
  rewrite !Hsz.
  rewrite (for_cells_undo _ (seq_cp_cell src dst (norm_p0 p0) (norm_p1 p1))).
  - rewrite Z.eqb_refl. cbn [negb andb]. now destruct kv.
  - eapply Forall_impl; [exact Hfresh|]. intros c Hc. cbn.
    now apply seq_rm_undoes_cp_cell.
Qed.

Lemma seq_cp_then_seq_rm_restores_witness :
  ∃ kv, run_ops (init false 4) [Op_find_slot (ub_seq0 [0; 1; 2])] = Some kv ∧
        seq_rm (seq_cp kv 0 1 1 3) 1 (-1) (-1) = (set_head 0 kv, true).
Proof.
  eexists. split; [vm_compute; reflexivity|].
  apply seq_cp_then_seq_rm_restores.
  - reflexivity.
  - lia.
  - lia.
  - compute_done.
  - vm_compute. discriminate.
  - vm_compute. discriminate.
Defined.

(** ** seq_add and seq_div on a transformer pool: the pending shift *)

Lemma wrap_i32_add_l a b : wrap_i32 (wrap_i32 a + b) = wrap_i32 (a + b).
Proof.
  unfold wrap_i32, UINT32_MOD. f_equal.
  rewrite (Z.mod_eq (a + 2147483648) 4294967296) by lia.
  replace (a + 2147483648 - 4294967296 * ((a + 2147483648) / 4294967296)
             - 2147483648 + b + 2147483648)
    with (a + b + 2147483648 + (- ((a + 2147483648) / 4294967296)) * 4294967296) by lia.
  apply Z_mod_plus_full.
Qed.

Lemma wrap_i32_sub_r a b : wrap_i32 (a - wrap_i32 b) = wrap_i32 (a - b).
Proof.
  unfold wrap_i32, UINT32_MOD. f_equal.
  rewrite (Z.mod_eq (b + 2147483648) 4294967296) by lia.
  replace (a - (b + 2147483648 - 4294967296 * ((b + 2147483648) / 4294967296)
                - 2147483648) + 2147483648)
    with (a - b + 2147483648 + ((b + 2147483648) / 4294967296) * 4294967296) by lia.
  apply Z_mod_plus_full.
Qed.

Lemma wrap_i32_sub_l a b : wrap_i32 (wrap_i32 a - b) = wrap_i32 (a - b).
Proof. unfold Z.sub. apply wrap_i32_add_l. Qed.

Lemma seq_add_cell_delta seq p0 p1 d c :
  wrap_i32 (pos (seq_add_cell seq p0 p1 d c) - delta (seq_add_cell seq p0 p1 d c))
    = wrap_i32 (pos c - delta c)
  ∨ (matches seq p0 p1 c = true ∧ wrap_i32 (pos c + d) < 0 ∧
     pos (seq_add_cell seq p0 p1 d c) = -1 ∧ seq_id (seq_add_cell seq p0 p1 d c) = ∅).
Proof.
  unfold seq_add_cell, seq_add_body, matches.
  destruct (has_seq_id c seq && in_range p0 p1 c); [|now left].
  cbn [set_delta set_pos pos].
  destruct (Z.ltb_spec (wrap_i32 (pos c + d)) 0) as [Hneg|Hpos]; cbn [fst].
  - right. now repeat split.
  - left. cbn [pos delta set_delta set_pos].
    rewrite wrap_i32_sub_l, wrap_i32_sub_r. f_equal. lia.
Qed.

Lemma seq_div_cell_delta seq p0 p1 d c :
  wrap_i32 (pos (seq_div_cell seq p0 p1 d c) - delta (seq_div_cell seq p0 p1 d c))
    = wrap_i32 (pos c - delta c).
Proof.
  unfold seq_div_cell, seq_div_body.
  destruct (has_seq_id c seq && in_range p0 p1 c); [|reflexivity].
  cbn [fst pos delta set_delta set_pos].
  rewrite wrap_i32_sub_r.
  replace (pos c ÷ d - (delta c + wrap_i32 (pos c ÷ d - pos c)))
    with (pos c ÷ d - delta c - wrap_i32 (pos c ÷ d - pos c)) by lia.
  rewrite wrap_i32_sub_r. f_equal. lia.
Qed.

(** A sweep that raises its flag at every cell it changes ends with the
    flag up or with the cells as they were. *)
Lemma for_cells_flag {A : Type} (body : Z → llama_kv_cell → A → llama_kv_cell * A)
    (flag : A → bool) cs :
  (∀ j c a, ((body j c a).1 = c ∧ flag (body j c a).2 = flag a)
            ∨ flag (body j c a).2 = true) →
  (∀ j c a, flag a = true → flag (body j c a).2 = true) →
  ∀ i a, ((for_cells body i cs a).1 = cs ∧ flag (for_cells body i cs a).2 = flag a)
         ∨ flag (for_cells body i cs a).2 = true.
Proof.
  intros Hstep Hmono. induction cs as [|c cs IH]; intros i a; [now left|].
  rewrite for_cells_cons_1, for_cells_cons_2.
  destruct (Hstep i c a) as [[Hc Hf]|Hup].
  - destruct (IH (i + 1) (body i c a).2) as [[Hcs Hf']|Hup'].
    + left. rewrite Hc, Hcs. split; [reflexivity|congruence].
    + now right.
  - right. apply (for_cells_acc body (λ b, flag b = true)); [|assumption].
    intros j c0 b. apply Hmono.
Qed.

Lemma seq_add_flag kv seq p0 p1 d :
  recurrent kv = false →
  cells (seq_add kv seq p0 p1 d) = cells kv ∨ has_shift (seq_add kv seq p0 p1 d) = true.
Proof.
  intros Hrec. unfold seq_add. rewrite Hrec.
  destruct (d =? 0); [now left|]. destruct (_ =? _); [now left|].
  pose proof (for_cells_flag (seq_add_body (size kv) seq (norm_p0 p0) (norm_p1 p1) d)
                (λ a, a.1.1) (cells kv)) as Hflag.
  destruct (Hflag) with (i := 0) (a := (has_shift kv, used kv, size kv)) as [[Hcs _]|Hup].
  - intros j c [[hs u] nh]. unfold seq_add_body.
    destruct (_ && _); [|now left]. right. now destruct (_ <? 0).
  - intros j c [[hs u] nh] Hhs. cbn in Hhs. subst hs. unfold seq_add_body.
    destruct (_ && _); [|reflexivity]. now destruct (_ <? 0).
  - left. destruct (for_cells _ _ _ _) as [cs [[hs u] nh]]. exact Hcs.
  - right. destruct (for_cells _ _ _ _) as [cs [[hs u] nh]]. exact Hup.
Qed.

Lemma seq_div_flag kv seq p0 p1 d kv' :
  recurrent kv = false → seq_div kv seq p0 p1 d = Some kv' →
  cells kv' = cells kv ∨ has_shift kv' = true.
Proof.
  intros Hrec. unfold seq_div. rewrite Hrec.
  destruct (d =? 1); [intros H; injection H as <-; now left|].
  destruct (_ =? _); [intros H; injection H as <-; now left|].
  destruct (_ && _); [discriminate|].
  pose proof (for_cells_flag (seq_div_body seq (norm_p0 p0) (norm_p1 p1) d)
                (λ a, a) (cells kv)) as Hflag.
  destruct (Hflag) with (i := 0) (a := has_shift kv) as [[Hcs _]|Hup].
  - intros j c hs. unfold seq_div_body. destruct (_ && _); [now right|now left].
  - intros j c hs ->. unfold seq_div_body. now destruct (_ && _).
  - destruct (for_cells _ _ _ _) as [cs hs]. intros H. injection H as <-. now left.
  - destruct (for_cells _ _ _ _) as [cs hs]. intros H. injection H as <-. now right.
Qed.

(** X14. On a transformer pool [seq_add] and [seq_div] record in [delta]
    what they change in [pos]: for every cell, [pos - delta] (as an
    [int32_t]) is after the call what it was before, except for the cells
    that [seq_add] evicts because their shifted position is negative. And
    if the call changed any cell, [has_shift] is set. *)
Theorem shifts_are_recorded_in_delta kv seq p0 p1 d :
  recurrent kv = false →
  (Forall2 (λ c c',
       wrap_i32 (pos c' - delta c') = wrap_i32 (pos c - delta c)
       ∨ (matches seq (norm_p0 p0) (norm_p1 p1) c = true ∧
          wrap_i32 (pos c + d) < 0 ∧ pos c' = -1 ∧ seq_id c' = ∅))
     (cells kv) (cells (seq_add kv seq p0 p1 d)) ∧
   (cells (seq_add kv seq p0 p1 d) = cells kv
    ∨ has_shift (seq_add kv seq p0 p1 d) = true)) ∧
  (∀ kv', seq_div kv seq p0 p1 d = Some kv' →
     Forall2 (λ c c', wrap_i32 (pos c' - delta c') = wrap_i32 (pos c - delta c))
       (cells kv) (cells kv') ∧
     (cells kv' = cells kv ∨ has_shift kv' = true)).
Proof.
  intros Hrec. split; [split|].
  - rewrite seq_add_cells by assumption.
    destruct (_ || _).
    + apply Forall_Forall2_diag, Forall_forall. intros c _. now left.
    + apply Forall2_fmap_r, Forall_Forall2_diag, Forall_forall. intros c _.
      apply seq_add_cell_delta.
  - now apply seq_add_flag.
  - intros kv' Hdiv. split; [|now apply (seq_div_flag kv seq p0 p1 d)].
    destruct (seq_div_transformer _ _ _ _ _ _ Hrec Hdiv) as [-> |(hs & _ & ->)].
    + apply Forall_Forall2_diag, Forall_forall. intros c _. reflexivity.
    + cbn [cells set_has_shift set_cells].
      apply Forall2_fmap_r, Forall_Forall2_diag, Forall_forall. intros c _.
      apply seq_div_cell_delta.
Qed.

Lemma shifts_are_recorded_in_delta_witness :
  ∃ kv, run_ops (init false 4) [Op_find_slot (ub_seq0 [0; 1; 2])] = Some kv ∧
  (Forall2 (λ c c',
       wrap_i32 (pos c' - delta c') = wrap_i32 (pos c - delta c)
       ∨ (matches 0 (norm_p0 1) (norm_p1 (-1)) c = true ∧
          wrap_i32 (pos c + -2) < 0 ∧ pos c' = -1 ∧ seq_id c' = ∅))
     (cells kv) (cells (seq_add kv 0 1 (-1) (-2))) ∧
   (cells (seq_add kv 0 1 (-1) (-2)) = cells kv
    ∨ has_shift (seq_add kv 0 1 (-1) (-2)) = true)) ∧
  (∀ kv', seq_div kv 0 1 (-1) (-2) = Some kv' →
     Forall2 (λ c c', wrap_i32 (pos c' - delta c') = wrap_i32 (pos c - delta c))
       (cells kv) (cells kv') ∧
     (cells kv' = cells kv ∨ has_shift kv' = true)).
Proof.
  eexists. split; [vm_compute; reflexivity|].
  apply shifts_are_recorded_in_delta. reflexivity.
Defined.

(** ** Where the operations that free cells leave head *)

Lemma for_cells_head_kept {A : Type} (body : Z → llama_kv_cell → A → llama_kv_cell * A)
    (nhof : A → Z) sz cs :
  (∀ j c a, nhof (body j c a).2 = (if nhof a =? sz then j else nhof a)
            ∨ (¬ (0 <= pos c ∧ pos (body j c a).1 < 0) ∧
               nhof (body j c a).2 = nhof a)) →
  ∀ i a, nhof a ≠ sz → nhof (for_cells body i cs a).2 = nhof a.
Proof.
  intros Hstep i a Ha.
  apply (for_cells_acc body (λ b, nhof b = nhof a)); [|reflexivity].
  intros j c b Hb. destruct (Hstep j c b) as [H|[_ H]]; rewrite H; [|assumption].
  rewrite Hb. destruct (Z.eqb_spec (nhof a) sz); [contradiction|reflexivity].
Qed.

(** A sweep that records in [new_head] the first cell it frees: when a
    cell of the sweep went from a position to none, [new_head] is set, at
    or before that cell. *)
Lemma for_cells_first_freed {A : Type}
    (body : Z → llama_kv_cell → A → llama_kv_cell * A) (nhof : A → Z) sz cs :
  (∀ j c a, nhof (body j c a).2 = (if nhof a =? sz then j else nhof a)
            ∨ (¬ (0 <= pos c ∧ pos (body j c a).1 < 0) ∧
               nhof (body j c a).2 = nhof a)) →
  ∀ i a (k : nat) c c',
    0 <= i → i + Z.of_nat (length cs) <= sz → nhof a = sz →
    cs !! k = Some c → (for_cells body i cs a).1 !! k = Some c' →
    0 <= pos c → pos c' < 0 →
    nhof (for_cells body i cs a).2 ≠ sz ∧
    nhof (for_cells body i cs a).2 <= i + Z.of_nat k.
Proof.
  intros Hstep. induction cs as [|c0 cs IH]; intros i a k c c' Hi Hlen Ha Hc Hc' Hp Hp'.
  - rewrite lookup_nil in Hc. discriminate.
  - cbn [length] in Hlen. rewrite for_cells_cons_1 in Hc'. rewrite for_cells_cons_2.
    destruct (Hstep i c0 a) as [Hset|[Hnot Hsame]].
    + rewrite Ha, Z.eqb_refl in Hset.
      rewrite (for_cells_head_kept body nhof sz cs Hstep) by (rewrite Hset; lia).
      rewrite Hset. split; lia.
    + destruct k as [|k].
      * cbn in Hc, Hc'. injection Hc as <-. injection Hc' as <-. exfalso. now apply Hnot.
      * cbn in Hc, Hc'.
        destruct (IH (i + 1) (body i c0 a).2 k c c') as [H1 H2];
          try assumption; lia.
Qed.

Lemma seq_rm_body_step sz seq p0 p1 j c a :
  (seq_rm_body sz seq p0 p1 j c a).2.2 = (if a.2 =? sz then j else a.2)
  ∨ (¬ (0 <= pos c ∧ pos (seq_rm_body sz seq p0 p1 j c a).1 < 0) ∧
     (seq_rm_body sz seq p0 p1 j c a).2.2 = a.2).
Proof.
  destruct a as [u nh]. unfold seq_rm_body.
  destruct (in_range p0 p1 c); [|right; cbn; split; [lia|reflexivity]].
  destruct (seq <? 0).
  - destruct (is_empty _); [now left|right; cbn; split; [lia|reflexivity]].
  - destruct (has_seq_id c seq); [|right; cbn; split; [lia|reflexivity]].
    destruct (is_empty _); [now left|right; cbn; split; [lia|reflexivity]].
Qed.

Lemma seq_keep_body_step rec sz seq j c a :
  (seq_keep_body rec sz seq j c a).2.2 = (if a.2 =? sz then j else a.2)
  ∨ (¬ (0 <= pos c ∧ pos (seq_keep_body rec sz seq j c a).1 < 0) ∧
     (seq_keep_body rec sz seq j c a).2.2 = a.2).
Proof.
  destruct a as [u nh]. rewrite seq_keep_body_unfold.
  pose proof (seq_keep_cell_spec rec seq j c) as Hcell. unfold has_seq_id.
  destruct (decide (seq ∈ seq_id c)) as [Hin|Hout].
  - rewrite bool_decide_eq_true_2 by assumption. right. cbn [fst snd].
    destruct Hcell as (_ & -> & _). split; [lia|reflexivity].
  - rewrite bool_decide_eq_false_2 by assumption. now left.
Qed.

Lemma seq_add_body_step sz seq p0 p1 d j c a :
  (seq_add_body sz seq p0 p1 d j c a).2.2 = (if a.2 =? sz then j else a.2)
  ∨ (¬ (0 <= pos c ∧ pos (seq_add_body sz seq p0 p1 d j c a).1 < 0) ∧
     (seq_add_body sz seq p0 p1 d j c a).2.2 = a.2).
Proof.
  destruct a as [[hs u] nh]. unfold seq_add_body.
  destruct (_ && _); [|right; cbn; split; [lia|reflexivity]].
  cbn [pos set_delta set_pos].
  destruct (Z.ltb_spec (wrap_i32 (pos c + d)) 0); [now left|].
  right. cbn. split; [lia|reflexivity].
Qed.

Lemma get_lookup cs i c : get cs i = Some c → 0 <= i ∧ cs !! Z.to_nat i = Some c.
Proof.
  unfold get. destruct (Z.ltb_spec i 0); [discriminate|]. intros Hc. split; [lia|exact Hc].
Qed.

(** X15. On a transformer pool, every operation other than [find_slot]
    (with a positive divisor for [seq_div]) leaves [head] at or before each
    cell that it has freed, that is, each cell that had a position before
    the call and has none after it: the next search starts no later than
    the freed cells. *)
Theorem head_is_left_before_freed_cells kv op kv' r i c c' :
  recurrent kv = false → op_wf op → (∀ ub, op ≠ Op_find_slot ub) →
  run_op kv op = Some (kv', r) →
  get (cells kv) i = Some c → get (cells kv') i = Some c' →
  0 <= pos c → pos c' < 0 →
  head kv' <= i.
Proof.
  intros Hrec Hwf Hnf Hrun Hc Hc' Hp Hp'.
  apply get_lookup in Hc as [Hi Hc]. apply get_lookup in Hc' as [_ Hc'].
  destruct op as [ub|seq p0 p1|s d p0 p1|seq|seq p0 p1 d|seq p0 p1 d|];
    cbn [run_op] in Hrun.
  - exfalso. now apply (Hnf ub).
  - (* seq_rm *)
    injection Hrun as <- _. revert Hc'. unfold seq_rm. rewrite Hrec.
    pose proof (for_cells_first_freed
                  (seq_rm_body (size kv) seq (norm_p0 p0) (norm_p1 p1)) snd (size kv)
                  (cells kv) (seq_rm_body_step _ _ _ _) 0 (used kv, size kv)
                  (Z.to_nat i) c c' ltac:(lia) ltac:(unfold size; lia) eq_refl Hc)
      as Hfreed.
    destruct (for_cells _ _ _ _) as [cs [u nh]]. cbn [fst snd] in *.
    intros Hc'.
    assert (Hcs : cs !! Z.to_nat i = Some c') by (now destruct (_ && _)).
    destruct (Hfreed Hcs Hp Hp') as [Hne Hle].
    destruct (Z.eqb_spec nh (size kv)); [contradiction|]. cbn [negb andb].
    destruct (Z.ltb_spec nh (head kv)); cbn; lia.
  - (* seq_cp *)
    injection Hrun as <- _. revert Hc'. unfold seq_cp. rewrite Hrec.
    destruct (_ =? _).
    + intros Hc'. rewrite Hc in Hc'. injection Hc' as <-. lia.
    + destruct (for_cells _ _ _ _) as [cs []]. intros _. cbn. lia.
  - (* seq_keep *)
    injection Hrun as <- _. revert Hc'. unfold seq_keep.
    pose proof (for_cells_first_freed
                  (seq_keep_body (recurrent kv) (size kv) seq) snd (size kv)
                  (cells kv) (seq_keep_body_step _ _ _) 0 (used kv, size kv)
                  (Z.to_nat i) c c' ltac:(lia) ltac:(unfold size; lia) eq_refl Hc)
      as Hfreed.
    destruct (for_cells _ _ _ _) as [cs [u nh]]. cbn [fst snd] in *.
    intros Hc'.
    assert (Hcs : cs !! Z.to_nat i = Some c') by (now destruct (_ && _)).
    destruct (Hfreed Hcs Hp Hp') as [Hne Hle].
    destruct (Z.eqb_spec nh (size kv)); [contradiction|]. cbn [negb andb].
    destruct (Z.ltb_spec nh (head kv)); cbn; lia.
  - (* seq_add *)
    injection Hrun as <- _. revert Hc'. unfold seq_add. rewrite Hrec.
    destruct (d =? 0); [intros Hc'; rewrite Hc in Hc'; injection Hc' as <-; lia|].
    destruct (_ =? _); [intros Hc'; rewrite Hc in Hc'; injection Hc' as <-; lia|].
    pose proof (for_cells_first_freed
                  (seq_add_body (size kv) seq (norm_p0 p0) (norm_p1 p1) d) snd (size kv)
                  (cells kv) (seq_add_body_step _ _ _ _ _) 0
                  (has_shift kv, used kv, size kv)
                  (Z.to_nat i) c c' ltac:(lia) ltac:(unfold size; lia) eq_refl Hc)
      as Hfreed.
    destruct (for_cells _ _ _ _) as [cs [[hs u] nh]]. cbn [fst snd] in *.
    intros Hc'. destruct (Hfreed Hc' Hp Hp') as [Hne Hle].
    destruct (Z.eqb_spec nh (size kv)); [contradiction|]. cbn. lia.
  - (* seq_div: a positive divisor frees no cell *)
    destruct (seq_div kv seq p0 p1 d) as [kv1|] eqn:Hdiv; [|discriminate].
    cbn [mbind option_bind] in Hrun. injection Hrun as <- _. exfalso.
    destruct (seq_div_transformer _ _ _ _ _ _ Hrec Hdiv) as [-> |(hs & _ & ->)].
    + rewrite Hc in Hc'. injection Hc' as <-. lia.
    + cbn [cells set_has_shift set_cells] in Hc'.
      rewrite list_lookup_fmap, Hc in Hc'. cbn in Hc'. injection Hc' as <-.
      revert Hp'. unfold seq_div_cell, seq_div_body.
      destruct (_ && _); cbn [fst pos set_delta set_pos]; [|lia].
      cbn [op_wf] in Hwf. pose proof (Z.quot_pos (pos c) d). lia.
  - (* clear *)
    injection Hrun as <- _. destruct (clear_scalars kv) as [-> _]. lia.
Qed.

Lemma head_is_left_before_freed_cells_witness :
  ∃ kv kv' r c c',
    run_ops (init false 8) ops_fill7_1 = Some kv ∧
    run_op kv (Op_seq_rm 0 2 4) = Some (kv', r) ∧
    get (cells kv) 3 = Some c ∧ get (cells kv') 3 = Some c' ∧
    0 <= pos c ∧ pos c' < 0 ∧ head kv = 7 ∧ head kv' <= 3.
Proof.
  exists (default (init false 8) (run_ops (init false 8) ops_fill7_1)).
  eexists _, _, _, _.
  split; [vm_compute; reflexivity|].
  split; [vm_compute; reflexivity|].
  split; [vm_compute; reflexivity|].
  split; [vm_compute; reflexivity|].
  split; [vm_compute; discriminate|].
  split; [vm_compute; reflexivity|].
  split; [reflexivity|].
  eapply (head_is_left_before_freed_cells
            (default (init false 8) (run_ops (init false 8) ops_fill7_1))
            (Op_seq_rm 0 2 4)).
  - reflexivity.
  - exact I.
  - intros ub. discriminate.
  - vm_compute. reflexivity.
  - vm_compute. reflexivity.
  - vm_compute. reflexivity.
  - vm_compute. discriminate.
  - vm_compute. reflexivity.
Defined.

(** ** find_slot on a transformer pool, followed by the queries *)

(** The successful search, in one piece. *)
Lemma find_slot_success kv ub kv' si :
  recurrent kv = false → size kv <= 1073741824 → 0 <= head kv <= size kv →
  ubatch_wf ub →
  find_slot kv ub = Some (kv', si) → found si = true →
  ∃ h, first_run_from (cells kv) (n_tokens ub) (head kv) h ∧
       si = {| found := true; boundaries := (h, h + n_tokens ub) |} ∧
       kv' = set_used (wrap_u32 (used kv + n_tokens ub))
               (set_cells (stamped ub h (n_tokens ub) (cells kv)) (set_head h kv)).
Proof.
  intros Hrec Hsz Hhd Hwf.
  assert (Hnt : 0 <= n_tokens ub) by (destruct Hwf as (? & ? & -> & _); nia).
  unfold find_slot, find_slot_transformer. rewrite Hrec.
  destruct (Z.ltb_spec (size kv) (n_tokens ub)) as [Hbig|Hfit].
  - intros H. injection H as <- <-. discriminate.
  - unfold size in *.
    destruct (find_loop_from_head (cells kv) (n_tokens ub) (head kv))
      as (ok & h & w & _ & Hloop & Hh & Hpost); [lia|lia|lia|].
    rewrite Hloop. destruct ok.
    + destruct Hpost as [Hfirst _]. pose proof Hfirst as [(Hh0 & Hh1 & _) _].
      rewrite (stamp_stamped ub (cells kv) h Hwf Hh0 Hh1 Hsz). cbn [mbind option_bind].
      intros H _. injection H as <- <-. exists h.
      split; [assumption|]. split; [|reflexivity].
      rewrite wrap_u32_id by (unfold UINT32_MOD; lia). reflexivity.
    + intros H. injection H as <- <-. discriminate.
Qed.

Lemma all_free_run cs ntok :
  Forall (λ c, pos c < 0) cs → 0 <= ntok <= Z.of_nat (length cs) →
  free_run cs ntok 0.
Proof.
  intros Hall Hnt. split; [lia|]. split; [lia|].
  intros k Hk. destruct (get_in_range cs k) as [c Hc]; [lia|].
  exists c. split; [assumption|]. rewrite Forall_forall in Hall. apply Hall.
  apply get_lookup in Hc as [_ Hc]. apply list_elem_of_lookup. eauto.
Qed.

(** X16. After [clear], on a transformer pool of at most 2^30 cells, any
    well-formed batch that fits the pool is given the cells from 0 on:
    [find_slot] returns the span [(0, n_tokens)], [used] becomes
    [n_tokens], [head] stays 0, and the cells are the cleared ones stamped
    with the batch. *)
Theorem find_slot_after_clear_takes_the_front kv ub :
  recurrent kv = false → size kv <= 1073741824 →
  ubatch_wf ub → n_tokens ub <= size kv →
  ∃ kv',
    find_slot (clear kv) ub
      = Some (kv', {| found := true; boundaries := (0, n_tokens ub) |}) ∧
    head kv' = 0 ∧ used kv' = n_tokens ub ∧
    cells kv' = stamped ub 0 (n_tokens ub) (map clear_cell (cells kv)).
Proof.
  intros Hrec Hsz Hwf Hfit.
  assert (Hnt : 0 <= n_tokens ub) by (destruct Hwf as (? & ? & -> & _); nia).
  assert (Hlen : length (map clear_cell (cells kv)) = length (cells kv))
    by apply length_map.
  assert (Hrun : free_run (map clear_cell (cells kv)) (n_tokens ub) 0).
  { apply all_free_run; [|unfold size in *; lia].
    apply Forall_fmap, Forall_forall. intros c _. cbn. lia. }
  rewrite clear_unfold by (unfold INT32_MAX; lia).
  unfold find_slot, find_slot_transformer, size. cbn [recurrent cells head used set_used
    set_head set_cells]. rewrite Hrec, Hlen.
  destruct (Z.ltb_spec (Z.of_nat (length (cells kv))) (n_tokens ub));
    [unfold size in *; lia|].
  destruct (find_loop_from_head (map clear_cell (cells kv)) (n_tokens ub) 0)
    as (ok & h & w & _ & Hloop & Hh & Hpost);
    [unfold size in *; lia|unfold size in *; lia|lia|].
  rewrite Hlen in Hloop. rewrite Hloop. destruct ok.
  - destruct Hpost as [[Hfree Hfirst] _].
    assert (h = 0) as ->.
    { destruct Hfirst as [[Hge Hno]|[Hlt _]]; [|destruct Hfree; lia].
      destruct (Z.eq_dec h 0); [assumption|]. exfalso. apply (Hno 0); [lia|assumption]. }
    rewrite (stamp_stamped ub _ 0 Hwf (Z.le_refl 0))
      by (rewrite ?Hlen; unfold size in *; lia).
    cbn [mbind option_bind]. rewrite !Z.add_0_l.
    rewrite (wrap_u32_id (n_tokens ub)) by (unfold UINT32_MOD, size in *; lia).
    eexists. split; [reflexivity|]. cbn. now repeat split.
  - exfalso. exact (Hpost 0 Hrun).
Qed.

Lemma find_slot_after_clear_takes_the_front_witness :
  ∃ kv, run_ops (init false 8) ops_fill7_1 = Some kv ∧
  ∃ kv',
    find_slot (clear kv) (ub_seq0 [3; 4])
      = Some (kv', {| found := true; boundaries := (0, n_tokens (ub_seq0 [3; 4])) |}) ∧
    head kv' = 0 ∧ used kv' = n_tokens (ub_seq0 [3; 4]) ∧
    cells kv' = stamped (ub_seq0 [3; 4]) 0 (n_tokens (ub_seq0 [3; 4]))
                  (map clear_cell (cells kv)).
Proof.
  eexists. split; [vm_compute; reflexivity|].
  apply find_slot_after_clear_takes_the_front.
  - reflexivity.
  - vm_compute. discriminate.
  - unfold ubatch_wf, ub_seq0. simpl. repeat split; try lia.
    intros s Hs. assert (s = 0) as -> by lia. exists 1, [0]. simpl.
    repeat split. lia.
  - vm_compute. discriminate.
Defined.

(** X17. What a successful [find_slot] stores on a transformer pool is
    seen by the queries: the cell of each token of the batch lies in the
    returned span, has the position of the token and the ids of its group;
    [seq_pos_max] of each of these ids and [max_pos] are at least that
    position; and when the token has an id and a position that is not
    negative, [cell_max] lies beyond its cell. *)
Theorem find_slot_is_seen_by_the_queries kv ub kv' si k :
  recurrent kv = false → size kv <= 1073741824 → 0 <= head kv <= size kv →
  ubatch_wf ub →
  find_slot kv ub = Some (kv', si) → found si = true →
  0 <= k < n_tokens ub →
  ∃ c', get (cells kv') ((boundaries si).1 + k) = Some c' ∧
        (boundaries si).1 + k < (boundaries si).2 <= size kv ∧
        pos c' = nth (Z.to_nat k) (ub_pos ub) 0 ∧
        pos c' <= max_pos kv' ∧
        (∀ id, id ∈ group_ids ub (k / n_seq_tokens ub) →
               id ∈ seq_id c' ∧ pos c' <= seq_pos_max kv' id) ∧
        (0 <= pos c' → group_ids ub (k / n_seq_tokens ub) ≠ [] →
         (boundaries si).1 + k < cell_max kv').
Proof.
  intros Hrec Hsz Hhd Hwf Hfs Hfound Hk.
  destruct (find_slot_success kv ub kv' si Hrec Hsz Hhd Hwf Hfs Hfound)
    as (h & [(Hh0 & Hh1 & Hfree) _] & -> & ->).
  cbn [boundaries fst snd cells set_used set_cells set_head].
  destruct (Hfree (h + k)) as (c & Hc & _); [lia|].
  apply get_lookup in Hc as [_ Hc].
  pose proof (stamped_inside ub h (n_tokens ub) (cells kv) k c Hh0 Hk Hc) as Hc'.
  set (kv' := set_used _ _).
  assert (Hcells : cells kv' = stamped ub h (n_tokens ub) (cells kv)) by reflexivity.
  assert (Hget : get (cells kv') (h + k) = Some (stamp_cell ub k c)).
  { unfold get. destruct (Z.ltb_spec (h + k) 0); [lia|]. now rewrite Hcells. }
  assert (Hin : stamp_cell ub k c ∈ cells kv').
  { rewrite Hcells. apply list_elem_of_lookup. eauto. }
  exists (stamp_cell ub k c). split; [exact Hget|].
  split; [unfold size; lia|]. split; [reflexivity|]. split; [|split].
  - destruct (max_pos_loop (cells kv') (-1)) as (_ & Hall & _).
    rewrite Forall_forall in Hall. apply (Hall _ Hin).
  - intros id Hid.
    assert (Hmem : id ∈ seq_id (stamp_cell ub k c)).
    { cbn. apply elem_of_union_l. now apply elem_of_list_to_set. }
    split; [assumption|]. unfold seq_pos_max.
    destruct (seq_pos_max_loop id 0 (cells kv') 0 _ eq_refl) as (_ & Hub & _).
    now apply Hub.
  - intros Hpos Hne.
    destruct (Z_lt_le_dec (h + k) (cell_max kv')) as [|Hle]; [assumption|]. exfalso.
    destruct (cell_max_from_spec (cells kv') (length (cells kv')) (le_n _))
      as (_ & Hnone & _).
    apply (Hnone (h + k) (stamp_cell ub k c)); [|assumption|].
    + fold (cell_max kv'). rewrite Hcells, stamped_length. lia.
    + split; [assumption|]. cbn. destruct (group_ids ub _) as [|id ids]; [congruence|].
      intros Hemp. assert (Hid : id ∈ (list_to_set (id :: ids) ∪ seq_id c : gset Z)).
      { apply elem_of_union_l, elem_of_list_to_set. now left. }
      rewrite Hemp in Hid. now apply not_elem_of_empty in Hid.
Qed.

Lemma find_slot_is_seen_by_the_queries_witness :
  ∃ kv' si,
    find_slot (init false 4) (ub_seq0 [5; 6]) = Some (kv', si) ∧
    ∃ c', get (cells kv') ((boundaries si).1 + 1) = Some c' ∧
          (boundaries si).1 + 1 < (boundaries si).2 <= size (init false 4) ∧
          pos c' = nth (Z.to_nat 1) (ub_pos (ub_seq0 [5; 6])) 0 ∧
          pos c' <= max_pos kv' ∧
          (∀ id, id ∈ group_ids (ub_seq0 [5; 6]) (1 / n_seq_tokens (ub_seq0 [5; 6])) →
                 id ∈ seq_id c' ∧ pos c' <= seq_pos_max kv' id) ∧
          (0 <= pos c' →
           group_ids (ub_seq0 [5; 6]) (1 / n_seq_tokens (ub_seq0 [5; 6])) ≠ [] →
           (boundaries si).1 + 1 < cell_max kv').
Proof.
  eexists _, _. split; [vm_compute; reflexivity|].
  eapply (find_slot_is_seen_by_the_queries (init false 4) (ub_seq0 [5; 6])).
  - reflexivity.
  - vm_compute. discriminate.
  - vm_compute. split; discriminate.
  - unfold ubatch_wf, ub_seq0. simpl. repeat split; try lia.
    intros s Hs. assert (s = 0) as -> by lia. exists 1, [0]. simpl.
    repeat split. lia.
  - vm_compute. reflexivity.
  - reflexivity.
  - simpl. lia.
Defined.

(** ** Transformer pools: a cell has a position exactly when it has an id *)

Lemma pos_iff_ids_map (g : llama_kv_cell → llama_kv_cell) cs :
  (∀ c, (0 <= pos c ↔ seq_id c ≠ ∅) → (0 <= pos (g c) ↔ seq_id (g c) ≠ ∅)) →
  pos_iff_ids cs → pos_iff_ids (map g cs).
Proof.
  intros Hg Hcs. unfold pos_iff_ids in *. apply Forall_fmap.
  eapply Forall_impl; [exact Hcs|]. intros c Hc. now apply Hg.
Qed.

Lemma has_seq_id_nonempty c seq : has_seq_id c seq = true → seq_id c ≠ ∅.
Proof.
  unfold has_seq_id. intros H. apply bool_decide_eq_true in H.
  intros Hemp. rewrite Hemp in H. now apply not_elem_of_empty in H.
Qed.

Lemma insert_nonempty (d : Z) (S : gset Z) : {[d]} ∪ S ≠ ∅.
Proof.
  intros Hemp. assert (Hd : d ∈ ({[d]} ∪ S : gset Z))
    by (apply elem_of_union_l; now apply elem_of_singleton).
  rewrite Hemp in Hd. now apply not_elem_of_empty in Hd.
Qed.

Lemma freed_iff : 0 <= -1 ↔ (∅ : gset Z) ≠ ∅.
Proof. split; [lia|congruence]. Qed.

Lemma seq_rm_cell_ids seq p0 p1 c :
  0 <= p0 → (0 <= pos c ↔ seq_id c ≠ ∅) →
  0 <= pos (seq_rm_cell seq p0 p1 c) ↔ seq_id (seq_rm_cell seq p0 p1 c) ≠ ∅.
Proof.
  intros Hp0 Hc. unfold seq_rm_cell, seq_rm_body, in_range.
  destruct (Z.leb_spec p0 (pos c)); cbn [andb]; [|exact Hc].
  destruct (_ <? p1); [|exact Hc].
  destruct (seq <? 0).
  - unfold is_empty. rewrite bool_decide_eq_true_2 by reflexivity. exact freed_iff.
  - destruct (has_seq_id c seq); [|exact Hc].
    unfold is_empty. case_bool_decide as Hemp; cbn [fst].
    + cbn [pos seq_id set_src set_pos]. rewrite Hemp. exact freed_iff.
    + cbn [pos seq_id seq_erase set_seq_id] in *. split; [intros _; assumption|lia].
Qed.

Lemma seq_cp_cell_ids s d p0 p1 c :
  (0 <= pos c ↔ seq_id c ≠ ∅) →
  0 <= pos (seq_cp_cell s d p0 p1 c) ↔ seq_id (seq_cp_cell s d p0 p1 c) ≠ ∅.
Proof.
  intros Hc. unfold seq_cp_cell, seq_cp_body.
  destruct (has_seq_id c s) eqn:Hs; cbn [andb]; [|exact Hc].
  destruct (in_range p0 p1 c); [|exact Hc]. cbn.
  split; [intros _; apply insert_nonempty|].
  intros _. apply Hc. now apply (has_seq_id_nonempty c s).
Qed.

Lemma seq_keep_cell_ids rec seq j c :
  (0 <= pos c ↔ seq_id c ≠ ∅) →
  0 <= pos (seq_keep_cell rec seq j c) ↔ seq_id (seq_keep_cell rec seq j c) ≠ ∅.
Proof.
  intros Hc. pose proof (seq_keep_cell_spec rec seq j c) as H.
  destruct (decide (seq ∈ seq_id c)) as [Hin|Hout].
  - destruct H as (-> & -> & _). split.
    + intros _ Hemp. assert (Hs : seq ∈ ({[seq]} : gset Z)) by now apply elem_of_singleton.
      rewrite Hemp in Hs. now apply not_elem_of_empty in Hs.
    + intros _. apply Hc. intros Hemp. rewrite Hemp in Hin.
      now apply not_elem_of_empty in Hin.
  - destruct H as (-> & -> & _). exact freed_iff.
Qed.

Lemma seq_add_cell_ids seq p0 p1 d c :
  (0 <= pos c ↔ seq_id c ≠ ∅) →
  0 <= pos (seq_add_cell seq p0 p1 d c) ↔ seq_id (seq_add_cell seq p0 p1 d c) ≠ ∅.
Proof.
  intros Hc. unfold seq_add_cell, seq_add_body.
  destruct (has_seq_id c seq) eqn:Hs; cbn [andb]; [|exact Hc].
  destruct (in_range p0 p1 c); [|exact Hc].
  cbn [pos set_delta set_pos].
  destruct (Z.ltb_spec (wrap_i32 (pos c + d)) 0); cbn [fst].
  - exact freed_iff.
  - cbn. split; [intros _; now apply (has_seq_id_nonempty c seq)|lia].
Qed.

Lemma seq_div_cell_ids seq p0 p1 d c :
  0 <= p0 → 0 < d → (0 <= pos c ↔ seq_id c ≠ ∅) →
  0 <= pos (seq_div_cell seq p0 p1 d c) ↔ seq_id (seq_div_cell seq p0 p1 d c) ≠ ∅.
Proof.
  intros Hp0 Hd Hc. unfold seq_div_cell, seq_div_body, in_range.
  destruct (has_seq_id c seq) eqn:Hs; cbn [andb]; [|exact Hc].
  destruct (Z.leb_spec p0 (pos c)); cbn [andb]; [|exact Hc].
  destruct (_ <? p1); [|exact Hc]. cbn.
  split; [intros _; now apply (has_seq_id_nonempty c seq)|].
  intros _. apply Z.quot_pos; lia.
Qed.

Lemma stamped_ids ub h cs :
  ubatch_wf ub → groups_named ub → Forall (λ p, 0 <= p) (ub_pos ub) →
  pos_iff_ids cs → pos_iff_ids (stamped ub h (n_tokens ub) cs).
Proof.
  intros Hwf Hnamed Hpos Hcs. unfold pos_iff_ids in *.
  rewrite Forall_lookup in *. intros idx c'. unfold stamped.
  rewrite list_lookup_imap. destruct (cs !! idx) as [c|] eqn:Hc; [|discriminate].
  cbn. intros Hc'. injection Hc' as <-.
  destruct (Z.leb_spec 0 (Z.of_nat idx - h)); cbn [andb]; [|now apply (Hcs idx)].
  destruct (Z.ltb_spec (Z.of_nat idx - h) (n_tokens ub)); [|now apply (Hcs idx)].
  set (k := Z.of_nat idx - h) in *. cbn.
  destruct Hwf as (Hns & Hnst & Hnt & Hlen & _).
  assert (Hgroup : 0 <= k / n_seq_tokens ub < n_seqs ub).
  { assert (0 < n_seq_tokens ub) by nia.
    split; [apply Z.div_pos; lia|apply Z.div_lt_upper_bound; nia]. }
  split.
  - intros _. specialize (Hnamed _ Hgroup).
    destruct (group_ids ub _) as [|id ids]; [congruence|].
    intros Hemp. assert (Hid : id ∈ (list_to_set (id :: ids) ∪ seq_id c : gset Z)).
    { apply elem_of_union_l, elem_of_list_to_set. now left. }
    rewrite Hemp in Hid. now apply not_elem_of_empty in Hid.
  - intros _. destruct (nth_lookup_or_length (ub_pos ub) (Z.to_nat k) 0) as [Hl|Hl].
    + rewrite Forall_forall in Hpos. apply Hpos. apply list_elem_of_lookup. eauto.
    + lia.
Qed.

Lemma run_op_ids kv op kv' r :
  op_wf op → op_named op → kv_inv kv → pos_iff_ids (cells kv) →
  run_op kv op = Some (kv', r) → pos_iff_ids (cells kv').
Proof.
  intros Hwf Hnamed Hinv Hids. pose proof Hinv as (Hrec & Hsz & Hhd & _).
  destruct op as [ub|seq p0 p1|s d p0 p1|seq|seq p0 p1 d|seq p0 p1 d|]; cbn [run_op].
  - destruct (find_slot kv ub) as [[kv1 si]|] eqn:Hfs; [|discriminate].
    cbn [mbind option_bind fst]. intros H. injection H as <- _.
    destruct Hwf as [Hwf Hpos]. destruct (found si) eqn:Hfound.
    + destruct (find_slot_success kv ub kv1 si Hrec Hsz Hhd Hwf Hfs Hfound)
        as (h & _ & _ & ->).
      cbn [cells set_used set_cells]. now apply stamped_ids.
    + enough (cells kv1 = cells kv) as -> by assumption.
      revert Hfs. unfold find_slot, find_slot_transformer. rewrite Hrec.
      destruct (_ <? _); [intros H; now injection H as <- _|].
      destruct (find_loop _ _ _ _ _ _) as [[[] hd]|]; [| |discriminate].
      * destruct (stamp _ _ _); [|discriminate]. cbn [mbind option_bind].
        intros H. injection H as <- <-. discriminate.
      * intros H. now injection H as <- _.
  - intros H. injection H as <- _.
    destruct (seq_rm_cells kv seq p0 p1) as (cs0 & Hcs0 & ->).
    { rewrite seq_rm_ret, Hrec. reflexivity. }
    apply pos_iff_ids_map; [intros c; apply seq_rm_cell_ids, norm_p0_nonneg|].
    unfold pos_iff_ids in *. rewrite Forall_lookup in *. intros k c0 Hc0.
    destruct (Forall2_lookup_r _ _ _ _ _ Hcs0 Hc0) as (c & Hc & Hp & Hs).
    rewrite Hp, Hs. now apply (Hids k).
  - intros H. injection H as <- _.
    destruct (Z.eq_dec s d) as [-> |Hne].
    + unfold seq_cp. now rewrite Z.eqb_refl.
    + rewrite seq_cp_transformer by assumption. cbn [cells set_cells].
      apply pos_iff_ids_map; [intros c; apply seq_cp_cell_ids|assumption].
  - intros H. injection H as <- _.
    pose proof (for_cells_imap (seq_keep_body (recurrent kv) (size kv) seq)
                  (seq_keep_cell (recurrent kv) seq) 0 (cells kv) (used kv, size kv)
                  (seq_keep_body_cell _ _ _)) as Hcs.
    unfold seq_keep. destruct (for_cells _ _ _ _) as [cs [u nh]]. cbn [fst] in Hcs.
    assert (Hcells : cells (if negb (nh =? size kv) && (nh <? head kv)
                            then set_head nh (set_used u (set_cells cs kv))
                            else set_used u (set_cells cs kv)) = cs)
      by now destruct (_ && _).
    rewrite Hcells, Hcs. unfold pos_iff_ids in *. rewrite Forall_lookup in *.
    intros k c'. rewrite list_lookup_imap.
    destruct (cells kv !! k) as [c|] eqn:Hc; [|discriminate]. cbn.
    intros Hc'. injection Hc' as <-. apply seq_keep_cell_ids. now apply (Hids k).
  - intros H. injection H as <- _. rewrite seq_add_cells by assumption.
    destruct (_ || _); [assumption|].
    apply pos_iff_ids_map; [intros c; apply seq_add_cell_ids|assumption].
  - destruct (seq_div kv seq p0 p1 d) as [kv1|] eqn:Hdiv; [|discriminate].
    cbn [mbind option_bind]. intros H. injection H as <- _.
    destruct (seq_div_transformer _ _ _ _ _ _ Hrec Hdiv) as [-> |(hs & _ & ->)];
      [assumption|].
    cbn [cells set_has_shift set_cells].
    apply pos_iff_ids_map; [|assumption].
    intros c. apply seq_div_cell_ids; [apply norm_p0_nonneg|exact Hwf].
  - intros H. injection H as <- _.
    rewrite clear_cells by (unfold INT32_MAX; lia).
    unfold pos_iff_ids. apply Forall_fmap, Forall_forall. intros c _. exact freed_iff.
Qed.

Lemma run_ops_ids ops :
  ∀ kv kv',
    Forall (λ op, op_wf op ∧ op_named op) ops → kv_inv kv → pos_iff_ids (cells kv) →
    run_ops kv ops = Some kv' → kv_inv kv' ∧ pos_iff_ids (cells kv').
Proof.
  induction ops as [|op ops IH]; intros kv kv' Hall Hinv Hids; cbn [run_ops].
  - intros H. injection H as <-. now split.
  - apply Forall_cons in Hall as [[Hwf Hnamed] Hall].
    destruct (run_op kv op) as [[kv1 r]|] eqn:Hrun; [|discriminate].
    cbn [mbind option_bind fst]. apply IH; [assumption| |].
    + eapply run_op_inv; eassumption.
    + eapply run_op_ids; eassumption.
Qed.

Lemma n_occupied_non_empty cs : pos_iff_ids cs → n_occupied cs = count_non_empty cs.
Proof.
  unfold pos_iff_ids. induction cs as [|c cs IH]; intros Hall; [reflexivity|].
  apply Forall_cons in Hall as [Hc Hall].
  rewrite n_occupied_cons, count_non_empty_cons, IH by assumption. f_equal.
  unfold occupied, is_empty. destruct (Z.leb_spec 0 (pos c)) as [Hp|Hp].
  - rewrite bool_decide_eq_false_2 by now apply Hc. reflexivity.
  - rewrite bool_decide_eq_true_2; [reflexivity|].
    destruct (decide (seq_id c = ∅)) as [|Hne]; [assumption|]. apply Hc in Hne. lia.
Qed.

(** X18. On a transformer pool of at most 2^30 cells, after any sequence
    of returning operations from the initial state ([find_slot] on
    well-formed batches whose positions are not negative and whose groups
    all name a sequence, [seq_div] by positive divisors), a cell has a
    position exactly when it has a seq-id. The counter [used] is then also
    the number of cells with a seq-id, which is what the view counts: the
    update of a view that copies at least one id per cell logs no
    mismatch. *)
Theorem transformer_cells_hold_tokens kv_size ops kv view :
  Z.of_nat kv_size <= 1073741824 →
  Forall (λ op, op_wf op ∧ op_named op) ops →
  run_ops (init false kv_size) ops = Some kv →
  view_wf view → 0 < n_seq_max view →
  Forall (λ c, 0 <= pos c ↔ seq_id c ≠ ∅) (cells kv) ∧
  used kv = count_non_empty (cells kv) ∧
  ∃ view',
    llama_kv_cache_view_update true view kv = Some (view', false) ∧
    used_cells view' = used kv.
Proof.
  intros Hsz Hall Hrun Hwf Hnsm.
  destruct (run_ops_ids ops (init false kv_size) kv Hall (init_inv kv_size Hsz))
    as [Hinv Hids]; [|assumption|].
  { unfold pos_iff_ids, init. cbn [cells]. apply Forall_replicate. exact freed_iff. }
  pose proof Hinv as (_ & Hsz' & _ & Hused).
  rewrite (n_occupied_non_empty _ Hids) in Hused.
  split; [exact Hids|]. split; [exact Hused|].
  destruct (view_update_spec view kv Hwf ltac:(unfold INT32_MAX; lia))
    as (view' & log & c & s & Hupd & _ & _ & _ & _ & Hu & Hlog & _).
  destruct (Z.ltb_spec 0 (n_seq_max view)); [|lia].
  exists view'. rewrite Hu, Hused. split; [|reflexivity].
  rewrite Hupd. do 2 f_equal. rewrite Hlog, Hu, Hused, Z.eqb_refl. reflexivity.
Qed.

Lemma transformer_cells_hold_tokens_witness :
  ∃ kv, run_ops (init false 8) ops_S2_div = Some kv ∧
        Forall (λ c, 0 <= pos c ↔ seq_id c ≠ ∅) (cells kv) ∧
        used kv = count_non_empty (cells kv) ∧
        ∃ view',
          llama_kv_cache_view_update true (llama_kv_cache_view_init (init false 8) 1) kv
            = Some (view', false) ∧
          used_cells view' = used kv.
Proof.
  eexists. split; [vm_compute; reflexivity|].
  apply (transformer_cells_hold_tokens 8 ops_S2_div).
  - simpl. lia.
  - unfold ops_S2_div.
    assert (Hwf : ∀ ps, ubatch_wf (ub_seq0 ps)).
    { intros ps. unfold ubatch_wf, ub_seq0. simpl. repeat split; try lia.
      intros s Hs. assert (s = 0) as -> by lia. exists 1, [0]. simpl.
      repeat split. lia. }
    assert (Hnamed : ∀ ps, groups_named (ub_seq0 ps)).
    { intros ps s Hs. cbn in Hs. assert (s = 0) as -> by lia. discriminate. }
    repeat constructor; try apply Hwf; try apply Hnamed; simpl; lia.
  - vm_compute. reflexivity.
  - apply view_init_wf. unfold INT32_MAX. lia.
  - simpl. lia.
Defined.

(** ** Recurrent pools: the tails stay in order *)

Lemma cell_at_default cs j :
  ¬ (0 <= j < Z.of_nat (length cs)) → cell_at cs j = cell_new.
Proof.
  intros Hj. unfold cell_at, get. destruct (Z.ltb_spec j 0); [reflexivity|].
  rewrite lookup_ge_None_2; [reflexivity|lia].
Qed.

Lemma cell_at_inside cs j id :
  id ∈ seq_id (cell_at cs j) → 0 <= j < Z.of_nat (length cs).
Proof.
  intros Hid. destruct (decide (0 <= j < Z.of_nat (length cs))) as [|Hout]; [assumption|].
  rewrite (cell_at_default cs j Hout) in Hid. now apply not_elem_of_empty in Hid.
Qed.

Lemma cell_at_upd i f cs j :
  cell_at (upd i f cs) j =
  if decide (i = j ∧ 0 <= j < Z.of_nat (length cs)) then f (cell_at cs j)
  else cell_at cs j.
Proof.
  unfold cell_at, upd, get.
  destruct (Z.ltb_spec i 0) as [Hi|Hi], (Z.ltb_spec j 0) as [Hj|Hj];
    try (destruct (decide _) as [[? ?]|]; [lia|reflexivity]).
  destruct (decide (i = j ∧ 0 <= j < Z.of_nat (length cs))) as [[-> Hin]|Hout].
  - rewrite list_lookup_alter_eq.
    destruct (lookup_lt_is_Some_2 cs (Z.to_nat j) ltac:(lia)) as [c ->]. reflexivity.
  - destruct (decide (i = j)) as [-> |Hne].
    + rewrite !lookup_ge_None_2; [reflexivity|lia|rewrite length_alter; lia].
    + rewrite list_lookup_alter_ne by lia. reflexivity.
Qed.

Lemma cell_at_map g cs j :
  0 <= j < Z.of_nat (length cs) → cell_at (map g cs) j = g (cell_at cs j).
Proof.
  intros Hj. unfold cell_at, get. destruct (Z.ltb_spec j 0); [lia|].
  rewrite list_lookup_fmap.
  destruct (lookup_lt_is_Some_2 cs (Z.to_nat j) ltac:(lia)) as [c ->]. reflexivity.
Qed.

Lemma cell_at_imap g cs j :
  0 <= j < Z.of_nat (length cs) →
  cell_at (imap (λ k, g (0 + Z.of_nat k)) cs) j = g j (cell_at cs j).
Proof.
  intros Hj. unfold cell_at, get. destruct (Z.ltb_spec j 0); [lia|].
  rewrite list_lookup_imap.
  destruct (lookup_lt_is_Some_2 cs (Z.to_nat j) ltac:(lia)) as [c ->]. cbn.
  do 2 f_equal. lia.
Qed.

Lemma tails_ok_home kv : tails_point_home kv ↔ tails_ok (cells kv).
Proof. reflexivity. Qed.

(** It is enough that every tail that is left is an old one, whose cell
    still holds the sequence, or points to a cell that holds it. *)
Lemma tails_ok_step cs cs' :
  length cs' = length cs → tails_ok cs →
  (∀ s, 0 <= s < Z.of_nat (length cs) → 0 <= tail (cell_at cs' s) →
     (tail (cell_at cs' s) = tail (cell_at cs s) ∧
      (s ∈ seq_id (cell_at cs (tail (cell_at cs s))) →
       s ∈ seq_id (cell_at cs' (tail (cell_at cs s)))))
     ∨ s ∈ seq_id (cell_at cs' (tail (cell_at cs' s)))) →
  tails_ok cs'.
Proof.
  intros Hlen Hok Hstep s Hs Ht. rewrite Hlen in Hs.
  destruct (Hstep s Hs Ht) as [[Heq Hkeep]|Hnew]; [|assumption].
  rewrite Heq in *. apply Hkeep. now apply Hok.
Qed.

Lemma clear_tails kv : size kv <= INT32_MAX → tails_ok (cells (clear kv)).
Proof.
  intros Hsz. rewrite clear_cells by assumption. intros s Hs Ht. rewrite length_map in Hs.
  rewrite cell_at_map in Ht by assumption. cbn in Ht. lia.
Qed.

Lemma seq_rm_cell_tail seq p0 p1 c : tail (seq_rm_cell seq p0 p1 c) = tail c.
Proof.
  unfold seq_rm_cell, seq_rm_body. destruct (in_range p0 p1 c); [|reflexivity].
  destruct (seq <? 0); [now destruct (is_empty _)|].
  destruct (has_seq_id c seq); [now destruct (is_empty _)|reflexivity].
Qed.

Lemma seq_rm_recurrent_inv cs sz seq p0 p1 cs0 :
  seq_rm_recurrent cs sz seq p0 p1 = Some cs0 → 0 <= seq →
  cs0 = upd seq (set_tail (-1)) cs
  ∨ (cs0 = cs ∧
     (0 <= tail (cell_at cs seq) →
      ¬ (p0 <= pos (cell_at cs (tail (cell_at cs seq))) < p1))).
Proof.
  unfold seq_rm_recurrent. intros H Hseq. destruct (sz <=? seq); [discriminate|].
  destruct (Z.leb_spec 0 seq); [|lia].
  destruct (Z.leb_spec 0 (tail (cell_at cs seq))) as [Ht|Ht].
  - destruct (_ || _); [discriminate|].
    destruct (Z.leb_spec p0 (pos (cell_at cs (tail (cell_at cs seq))))) as [Hlo|Hlo];
      cbn [andb] in H.
    + destruct (Z.ltb_spec (pos (cell_at cs (tail (cell_at cs seq)))) p1) as [Hhi|Hhi];
        injection H as <-; [now left|right].
      split; [reflexivity|]. lia.
    + injection H as <-. right. split; [reflexivity|]. lia.
  - injection H as <-. right. split; [reflexivity|]. lia.
Qed.

Lemma seq_rm_tails kv seq p0 p1 :
  recurrent kv = true → 0 <= seq →
  tails_ok (cells kv) → tails_ok (cells (seq_rm kv seq p0 p1).1).
Proof.
  intros Hrec Hseq Hok. unfold seq_rm. rewrite Hrec.
  destruct (seq_rm_recurrent _ _ _ _ _) as [cs0|] eqn:Hpre; [|assumption].
  pose proof (for_cells_map (seq_rm_body (size kv) seq (norm_p0 p0) (norm_p1 p1))
                (seq_rm_cell seq (norm_p0 p0) (norm_p1 p1)) 0 cs0
                (used kv, size kv) (seq_rm_body_cell _ _ _ _)) as Hcs.
  destruct (for_cells _ _ _ _) as [cs [u nh]]. cbn [fst] in *.
  assert (Hcells : cells (if negb (nh =? size kv) && (nh <? head kv)
                          then set_head nh (set_used u (set_cells cs kv))
                          else set_used u (set_cells cs kv)) = cs)
    by now destruct (_ && _).
  rewrite Hcells, Hcs. clear Hcells Hcs cs u nh.
  pose proof (seq_rm_recurrent_length _ _ _ _ _ _ Hpre) as Hlen0.
  pose proof (norm_p0_nonneg p0) as Hp0.
  apply (tails_ok_step (cells kv)); [now rewrite length_map|assumption|].
  intros s Hs. rewrite cell_at_map, seq_rm_cell_tail by lia. intros Ht.
  destruct (seq_rm_recurrent_inv _ _ _ _ _ _ Hpre Hseq) as [-> |[-> Hout]].
  - (* the tail of [seq] was invalidated *)
    rewrite cell_at_upd in Ht. rewrite cell_at_upd.
    destruct (decide (seq = s ∧ _)) as [_|Hne]; [cbn in Ht; lia|].
    left. split; [reflexivity|]. intros Hin.
    pose proof (cell_at_inside _ _ _ Hin) as Hrange.
    rewrite cell_at_map by (rewrite upd_length; lia).
    apply (seq_rm_cell_spec seq _ _ _ Hp0); [assumption|lia|].
    rewrite cell_at_upd. now destruct (decide _).
  - left. split; [reflexivity|]. intros Hin.
    pose proof (cell_at_inside _ _ _ Hin) as Hrange.
    rewrite cell_at_map by lia.
    destruct (Z.eq_dec s seq) as [-> |Hne].
    + destruct (seq_rm_cell_spec seq (norm_p0 p0) (norm_p1 p1)
                  (cell_at (cells kv) (tail (cell_at (cells kv) seq))) Hp0)
        as (_ & _ & _ & _ & Hsame).
      rewrite Hsame; [assumption|]. apply Hout. lia.
    + apply (seq_rm_cell_spec seq _ _ _ Hp0); [assumption|lia|assumption].
Qed.

Lemma seq_keep_cell_tail rec seq j c :
  tail (seq_keep_cell rec seq j c) =
  if rec && negb (wrap_i32 j =? seq) then -1 else tail c.
Proof.
  unfold seq_keep_cell, seq_keep_body.
  destruct (rec && negb (wrap_i32 j =? seq)).
  - change (has_seq_id (set_tail (-1) c) seq) with (has_seq_id c seq).
    now destruct (has_seq_id c seq).
  - now destruct (has_seq_id c seq).
Qed.

Lemma seq_keep_tails kv seq :
  recurrent kv = true → size kv <= INT32_MAX →
  tails_ok (cells kv) → tails_ok (cells (seq_keep kv seq)).
Proof.
  intros Hrec Hsz Hok.
  pose proof (for_cells_imap (seq_keep_body (recurrent kv) (size kv) seq)
                (seq_keep_cell (recurrent kv) seq) 0 (cells kv) (used kv, size kv)
                (seq_keep_body_cell _ _ _)) as Hcs.
  unfold seq_keep. destruct (for_cells _ _ _ _) as [cs [u nh]]. cbn [fst] in Hcs.
  assert (Hcells : cells (if negb (nh =? size kv) && (nh <? head kv)
                          then set_head nh (set_used u (set_cells cs kv))
                          else set_used u (set_cells cs kv)) = cs)
    by now destruct (_ && _).
  rewrite Hcells, Hcs, Hrec. clear Hcells Hcs cs u nh.
  apply (tails_ok_step (cells kv)); [now rewrite length_imap|assumption|].
  intros s Hs. rewrite cell_at_imap, seq_keep_cell_tail by lia. cbn [andb].
  rewrite wrap_i32_id by (unfold is_i32, INT32_MIN, INT32_MAX, size in *; lia).
  destruct (Z.eqb_spec s seq) as [-> |Hne]; cbn [negb]; [|lia].
  intros Ht. left. split; [reflexivity|]. intros Hin.
  pose proof (cell_at_inside _ _ _ Hin) as Hrange.
  rewrite cell_at_imap by lia.
  pose proof (seq_keep_cell_spec true seq (tail (cell_at (cells kv) seq))
                (cell_at (cells kv) (tail (cell_at (cells kv) seq)))) as Hcell.
  destruct (decide _); [|contradiction]. destruct Hcell as (-> & _).
  now apply elem_of_singleton.
Qed.

(** A write that keeps the tail of the cell and takes no id from it keeps
    the tails in order. *)
Lemma tails_ok_upd i f cs :
  (∀ c, tail (f c) = tail c ∧ seq_id c ⊆ seq_id (f c)) →
  tails_ok cs → tails_ok (upd i f cs).
Proof.
  intros Hf Hok. apply (tails_ok_step cs); [apply upd_length|assumption|].
  intros s Hs Ht. left.
  assert (Htail : ∀ j, tail (cell_at (upd i f cs) j) = tail (cell_at cs j)).
  { intros j. rewrite cell_at_upd. destruct (decide _); [apply Hf|reflexivity]. }
  split; [apply Htail|]. intros Hin. rewrite cell_at_upd.
  destruct (decide _); [now apply Hf|assumption].
Qed.

Lemma seq_cp_clear_dst_tails kv d :
  tails_ok (cells kv) → tails_ok (cells (seq_cp_clear_dst kv d)).
Proof.
  intros Hok. unfold seq_cp_clear_dst.
  set (t := tail (cell_at (cells kv) d)).
  destruct (0 <=? t); [|assumption].
  assert (H2 : tails_ok (upd d (set_tail (-1)) (upd t (seq_erase d) (cells kv)))).
  { apply (tails_ok_step (cells kv)); [now rewrite !upd_length|assumption|].
    intros s Hs. rewrite !cell_at_upd, upd_length.
    destruct (decide (d = s ∧ _)) as [_|Hne]; [cbn; lia|].
    intros Ht. left. split.
    - destruct (decide _); reflexivity.
    - intros Hin. pose proof (cell_at_inside _ _ _ Hin) as Hrange.
      assert (Hsd : s ≠ d) by (intros ->; apply Hne; split; [reflexivity|lia]).
      rewrite ?upd_length.
      assert (Herased : s ∈ seq_id (seq_erase d (cell_at (cells kv)
                                      (tail (cell_at (cells kv) s))))).
      { cbn. apply elem_of_difference. split; [assumption|].
        now rewrite elem_of_singleton. }
      destruct (decide (d = _ ∧ _)),
        (decide (t = tail (cell_at (cells kv) s) ∧ _)); cbn [seq_id set_tail];
        assumption. }
  destruct (is_empty _); [|exact H2].
  cbn [cells set_used set_cells]. apply tails_ok_upd; [|exact H2].
  intros c. split; reflexivity.
Qed.

Lemma seq_cp_tails kv s d p0 p1 :
  recurrent kv = true →
  tails_ok (cells kv) → tails_ok (cells (seq_cp kv s d p0 p1)).
Proof.
  intros Hrec Hok. unfold seq_cp. destruct (_ =? _); [assumption|]. rewrite Hrec.
  unfold seq_cp_recurrent. destruct (_ && _); [|assumption].
  pose proof (seq_cp_clear_dst_tails kv d Hok) as H1.
  set (cs1 := cells (seq_cp_clear_dst kv d)) in *.
  set (t := tail (cell_at cs1 s)).
  destruct (Z.leb_spec 0 t) as [Ht|Ht]; [|assumption].
  cbn [cells set_cells].
  assert (Hs : 0 <= s < Z.of_nat (length cs1)).
  { destruct (decide (0 <= s < Z.of_nat (length cs1))) as [|Hout]; [assumption|].
    subst t. rewrite (cell_at_default cs1 s Hout) in Ht. cbn in Ht. lia. }
  pose proof (cell_at_inside _ _ _ (H1 s Hs Ht)) as Hrange. fold t in Hrange.
  assert (HA : tails_ok (upd t (seq_insert d) cs1)).
  { apply tails_ok_upd; [|assumption]. intros c. split; [reflexivity|].
    cbn. apply union_subseteq_r. }
  apply (tails_ok_step (upd t (seq_insert d) cs1)); [apply upd_length|assumption|].
  rewrite upd_length. intros s' Hs'. rewrite (cell_at_upd d).
  destruct (decide (d = s' ∧ _)) as [[-> _]|Hne].
  - intros _. right. cbn [tail set_tail].
    rewrite !cell_at_upd, upd_length.
    destruct (decide (t = t ∧ _)) as [_|Hn]; [|exfalso; apply Hn; split; [reflexivity|lia]].
    assert (Hd : s' ∈ seq_id (seq_insert s' (cell_at cs1 t))).
    { cbn. apply elem_of_union_l. now apply elem_of_singleton. }
    destruct (decide _); cbn [seq_id set_tail]; assumption.
  - intros Ht'. left. split; [reflexivity|]. intros Hin.
    rewrite (cell_at_upd d). destruct (decide _); cbn [seq_id set_tail]; assumption.
Qed.

Lemma seq_add_tails kv seq p0 p1 d :
  recurrent kv = true →
  tails_ok (cells kv) → tails_ok (cells (seq_add kv seq p0 p1 d)).
Proof.
  intros Hrec Hok. unfold seq_add. destruct (_ =? _); [assumption|].
  destruct (_ =? _); [assumption|]. rewrite Hrec. unfold seq_add_recurrent.
  repeat case_match; try assumption.
  cbn [cells set_cells]. apply tails_ok_upd; [|assumption].
  intros c. split; reflexivity.
Qed.

Lemma seq_div_tails kv seq p0 p1 d kv' :
  recurrent kv = true → seq_div kv seq p0 p1 d = Some kv' →
  tails_ok (cells kv) → tails_ok (cells kv').
Proof.
  intros Hrec Hdiv Hok. revert Hdiv. unfold seq_div.
  destruct (_ =? _); [intros Hkv; now injection Hkv as <-|].
  destruct (_ =? _); [intros Hkv; now injection Hkv as <-|].
  rewrite Hrec. unfold seq_div_recurrent.
  repeat case_match; intros Hkv; try discriminate; injection Hkv as <-;
    try assumption.
  cbn [cells set_cells]. apply tails_ok_upd; [|assumption].
  intros c. split; reflexivity.
Qed.

(** X19. On a recurrent pool of at most 2^31 - 1 cells, every operation on
    the sequences other than the removal of all of them keeps the tails in
    order: if, before [seq_rm] with [seq >= 0], [seq_cp], [seq_keep],
    [seq_add], [seq_div] or [clear], the tail of every sequence points to
    a cell that holds the sequence, then so it does after the call. *)
Theorem recurrent_tails_stay_in_order kv op kv' r :
  recurrent kv = true → size kv <= INT32_MAX → op_keeps_tails op →
  tails_point_home kv → run_op kv op = Some (kv', r) → tails_point_home kv'.
Proof.
  intros Hrec Hsz Hop Hok. rewrite tails_ok_home in *.
  destruct op as [ub|seq p0 p1|s d p0 p1|seq|seq p0 p1 d|seq p0 p1 d|]; cbn [run_op].
  - contradiction.
  - intros H. injection H as <- _. now apply seq_rm_tails.
  - intros H. injection H as <- _. now apply seq_cp_tails.
  - intros H. injection H as <- _. now apply seq_keep_tails.
  - intros H. injection H as <- _. now apply seq_add_tails.
  - destruct (seq_div kv seq p0 p1 d) as [kv1|] eqn:Hdiv; [|discriminate].
    cbn [mbind option_bind]. intros H. injection H as <- _.
    now apply (seq_div_tails kv seq p0 p1 d).
  - intros H. injection H as <- _. now apply clear_tails.
Qed.

Lemma recurrent_tails_stay_in_order_witness :
  ∃ kv kv' r,
    run_ops (init true 4) [Op_find_slot ub_S6] = Some kv ∧
    tails_point_home kv ∧
    run_op kv (Op_seq_cp 0 1 (-1) (-1)) = Some (kv', r) ∧
    tails_point_home kv'.
Proof.
  exists (default (init true 4) (run_ops (init true 4) [Op_find_slot ub_S6])).
  eexists _, _.
  assert (Hhome : tails_point_home
            (default (init true 4) (run_ops (init true 4) [Op_find_slot ub_S6]))).
  { intros s Hs. change (size _) with 4 in Hs.
    assert (Hcases : s = 0 ∨ s = 1 ∨ s = 2 ∨ s = 3) by lia.
    destruct Hcases as [-> |[-> |[-> | ->]]]; vm_compute; intros Ht;
      try (exfalso; apply Ht; reflexivity).
    compute_done. }
  split; [vm_compute; reflexivity|]. split; [exact Hhome|].
  split; [vm_compute; reflexivity|].
  eapply (recurrent_tails_stay_in_order
            (default (init true 4) (run_ops (init true 4) [Op_find_slot ub_S6]))
            (Op_seq_cp 0 1 (-1) (-1))).
  - reflexivity.
  - vm_compute. discriminate.
  - exact I.
  - exact Hhome.
  - vm_compute. reflexivity.
Defined.

(** ** seq_cp on a recurrent pool: the state is shared *)

(** What "clear destination seq_id if it wasn't empty" leaves of the cell
    [j]: its tail unless it is the cell of [d], and, when it holds an id
    other than [d], that id and its position. *)
Lemma seq_cp_clear_dst_cell kv d j :
  length (cells (seq_cp_clear_dst kv d)) = length (cells kv) ∧
  (j ≠ d → tail (cell_at (cells (seq_cp_clear_dst kv d)) j)
           = tail (cell_at (cells kv) j)) ∧
  (∀ id, id ≠ d → id ∈ seq_id (cell_at (cells kv) j) →
         id ∈ seq_id (cell_at (cells (seq_cp_clear_dst kv d)) j) ∧
         pos (cell_at (cells (seq_cp_clear_dst kv d)) j) = pos (cell_at (cells kv) j)).
Proof.
  unfold seq_cp_clear_dst. set (t := tail (cell_at (cells kv) d)).
  destruct (0 <=? t); [|split; [reflexivity|split; [reflexivity|now split]]].
  set (cs2 := upd d (set_tail (-1)) (upd t (seq_erase d) (cells kv))).
  assert (Hlen2 : length cs2 = length (cells kv)) by (subst cs2; now rewrite !upd_length).
  assert (Hcell2 : ∀ i,
            (i ≠ d → tail (cell_at cs2 i) = tail (cell_at (cells kv) i)) ∧
            pos (cell_at cs2 i) = pos (cell_at (cells kv) i) ∧
            (∀ id, id ≠ d → id ∈ seq_id (cell_at (cells kv) i) →
                   id ∈ seq_id (cell_at cs2 i))).
  { intros i. subst cs2. rewrite !cell_at_upd, upd_length.
    assert (Herased : ∀ id, id ≠ d → id ∈ seq_id (cell_at (cells kv) i) →
                            id ∈ seq_id (seq_erase d (cell_at (cells kv) i))).
    { intros id Hne Hin. cbn. apply elem_of_difference. split; [assumption|].
      now rewrite elem_of_singleton. }
    destruct (decide (d = i ∧ _)) as [[Hd _]|_],
             (decide (t = i ∧ _)) as [_|_]; cbn [tail pos seq_id set_tail];
      (split; [intros Hne; congruence || reflexivity|]);
      (split; [reflexivity|]); assumption || (intros id _ Hin; exact Hin). }
  destruct (is_empty (cell_at cs2 t)) eqn:Hemp; cbn [cells set_used set_cells].
  - rewrite upd_length. split; [assumption|]. rewrite cell_at_upd.
    destruct (decide (t = j ∧ _)) as [[-> _]|_].
    + cbn [tail set_src set_delta set_pos]. split; [apply Hcell2|].
      intros id Hne Hin. exfalso.
      destruct (Hcell2 j) as (_ & _ & Hkeep). specialize (Hkeep id Hne Hin).
      unfold is_empty in Hemp. apply bool_decide_eq_true in Hemp.
      rewrite Hemp in Hkeep. now apply not_elem_of_empty in Hkeep.
    + split; [apply Hcell2|]. intros id Hne Hin. split; [now apply Hcell2|apply Hcell2].
  - split; [assumption|]. split; [apply Hcell2|].
    intros id Hne Hin. split; [now apply Hcell2|apply Hcell2].
Qed.

(** X20. On a recurrent pool, [seq_cp(src, dst)] of a sequence [src] with
    a tail makes [dst] share the state of [src], whatever the range
    [p0, p1]: afterwards the tails of both are the old tail of [src], and
    the cell it points to holds [src] and [dst] at the position it had. *)
Theorem recurrent_seq_cp_shares_the_state kv src dst p0 p1 :
  recurrent kv = true → size kv <= INT32_MAX → src ≠ dst →
  0 <= src < size kv → 0 <= dst < size kv →
  tails_point_home kv → 0 <= tail (cell_at (cells kv) src) →
  tail (cell_at (cells (seq_cp kv src dst p0 p1)) src) = tail (cell_at (cells kv) src) ∧
  tail (cell_at (cells (seq_cp kv src dst p0 p1)) dst) = tail (cell_at (cells kv) src) ∧
  src ∈ seq_id (tail_cell (seq_cp kv src dst p0 p1) dst) ∧
  dst ∈ seq_id (tail_cell (seq_cp kv src dst p0 p1) dst) ∧
  pos (tail_cell (seq_cp kv src dst p0 p1) dst) = pos (tail_cell kv src).
Proof.
  intros Hrec Hsz Hne Hsrc Hdst Hhome Htail.
  pose proof (Hhome src Hsrc Htail) as Hin. unfold tail_cell in Hin.
  pose proof (cell_at_inside _ _ _ Hin) as Hrange.
  set (t := tail (cell_at (cells kv) src)) in *.
  unfold tail_cell, seq_cp. destruct (Z.eqb_spec src dst); [contradiction|].
  rewrite Hrec. unfold seq_cp_recurrent.
  rewrite !wrap_u32_id by (unfold UINT32_MOD, INT32_MAX in *; lia).
  destruct (Z.ltb_spec dst (size kv)); [|lia].
  destruct (Z.ltb_spec src (size kv)); [|lia]. cbn [andb].
  destruct (seq_cp_clear_dst_cell kv dst src) as (Hlen & Ht1 & _).
  destruct (seq_cp_clear_dst_cell kv dst t) as (_ & _ & Hkeep).
  destruct (Hkeep src Hne Hin) as [Hin1 Hpos1].
  set (cs1 := cells (seq_cp_clear_dst kv dst)) in *.
  rewrite (Ht1 Hne). fold t. destruct (Z.leb_spec 0 t); [|lia].
  cbn [cells set_cells]. unfold size in *.
  assert (Hs : tail (cell_at (upd dst (set_tail t) (upd t (seq_insert dst) cs1)) src) = t).
  { rewrite !cell_at_upd, upd_length.
    destruct (decide (dst = src ∧ _)) as [[? _]|_]; [congruence|].
    destruct (decide (t = src ∧ _)); cbn [tail seq_insert set_seq_id]; now apply Ht1. }
  assert (Hd : tail (cell_at (upd dst (set_tail t) (upd t (seq_insert dst) cs1)) dst) = t).
  { rewrite cell_at_upd, upd_length.
    destruct (decide (dst = dst ∧ _)) as [_|Hn]; [reflexivity|].
    exfalso. apply Hn. split; [reflexivity|lia]. }
  rewrite Hs, Hd. split; [reflexivity|]. split; [reflexivity|].
  rewrite !cell_at_upd, upd_length.
  destruct (decide (t = t ∧ _)) as [_|Hn]; [|exfalso; apply Hn; split; [reflexivity|lia]].
  assert (Hboth : src ∈ seq_id (seq_insert dst (cell_at cs1 t)) ∧
                  dst ∈ seq_id (seq_insert dst (cell_at cs1 t)) ∧
                  pos (seq_insert dst (cell_at cs1 t)) = pos (cell_at (cells kv) t)).
  { cbn. split; [now apply elem_of_union_r|].
    split; [apply elem_of_union_l; now apply elem_of_singleton|assumption]. }
  destruct (decide (dst = t ∧ _)); cbn [seq_id pos set_tail]; exact Hboth.
Qed.

Lemma recurrent_seq_cp_shares_the_state_witness :
  ∃ kv,
    run_ops (init true 4) [Op_find_slot ub_S6] = Some kv ∧
    tail (cell_at (cells (seq_cp kv 0 1 (-1) (-1))) 0) = tail (cell_at (cells kv) 0) ∧
    tail (cell_at (cells (seq_cp kv 0 1 (-1) (-1))) 1) = tail (cell_at (cells kv) 0) ∧
    0 ∈ seq_id (tail_cell (seq_cp kv 0 1 (-1) (-1)) 1) ∧
    1 ∈ seq_id (tail_cell (seq_cp kv 0 1 (-1) (-1)) 1) ∧
    pos (tail_cell (seq_cp kv 0 1 (-1) (-1)) 1) = pos (tail_cell kv 0).
Proof.
  exists (default (init true 4) (run_ops (init true 4) [Op_find_slot ub_S6])).
  split; [vm_compute; reflexivity|].
  apply recurrent_seq_cp_shares_the_state.
  - reflexivity.
  - vm_compute. discriminate.
  - lia.
  - change (size _) with 4. lia.
  - change (size _) with 4. lia.
  - intros s Hs. change (size _) with 4 in Hs.
    assert (Hcases : s = 0 ∨ s = 1 ∨ s = 2 ∨ s = 3) by lia.
    destruct Hcases as [-> |[-> |[-> | ->]]]; vm_compute; intros Ht;
      try (exfalso; apply Ht; reflexivity).
    compute_done.
  - vm_compute. discriminate.
Defined.

(** ** find_slot on a recurrent pool: ids out of range *)

Lemma for_ret_hits {T R : Type} (P : T → Prop) k :
  ∀ i (body : Z → T → option (T + R)) s r m,
    (∀ j x y, P x → body j x = Some (inl y) → P y) →
    P s → i <= m < i + Z.of_nat k →
    (∀ x y, P x → body m x ≠ Some (inl y)) →
    for_ret k i body s = Some r → ∃ z, r = inr z.
Proof.
  induction k as [|k IH]; intros i body s r m Hb Hs Hm Hhit; [lia|].
  cbn [for_ret]. destruct (body i s) as [r1|] eqn:H1; [|discriminate].
  cbn [mbind option_bind]. destruct r1 as [s1|z].
  - destruct (Z.eq_dec i m) as [-> |Hne].
    + exfalso. exact (Hhit s s1 Hs H1).
    + apply (IH (i + 1) body s1 r m); [assumption|now apply (Hb i s)|lia|assumption].
  - intros H. injection H as <-. now exists z.
Qed.

(** The range check of the ids writes the cells and [used] only, and
    returns the state as it is when an id fails it. *)
Lemma fs_check_id_scalars ub s j kv r :
  fs_check_id ub s j kv = Some r →
  match r with
  | inl kv' => size kv' = size kv ∧ head kv' = head kv ∧ n kv' = n kv
  | inr kv' => kv' = kv
  end.
Proof.
  unfold fs_check_id.
  destruct (batch_id ub s j) as [seq|]; [|discriminate]. cbn [mbind option_bind].
  destruct (_ || _); [intros H; now injection H as <-|].
  destruct (0 <? j); [|intros H; now injection H as <-].
  destruct (get (cells kv) seq) as [seq_c|]; [|discriminate]. cbn [mbind option_bind].
  destruct (0 <=? tail seq_c); [|intros H; now injection H as <-].
  destruct (get (cells kv) (tail seq_c)) as [cell|]; [|discriminate].
  cbn [mbind option_bind].
  destruct (is_empty _); intros H; injection H as <-; unfold size; cbn;
    rewrite ?upd_length; auto.
Qed.

Lemma fs_check_scalars ub kv r :
  fs_check ub kv = Some r →
  match r with
  | inl kv' | inr kv' => size kv' = size kv ∧ head kv' = head kv ∧ n kv' = n kv
  end.
Proof.
  set (P := λ x : llama_kv_cache,
              size x = size kv ∧ head x = head kv ∧ n x = n kv).
  assert (Hgoal : fs_check ub kv = Some r →
                  match r with inl y => P y | inr z => P z end).
  { unfold fs_check. intros H.
    apply (for_ret_inv P P) in H; [assumption| |now unfold P].
    intros s x r1 Hx Hr1.
    destruct (ub_n_seq_id ub !! _) as [cnt|]; [|discriminate].
    cbn [mbind option_bind] in Hr1.
    apply (for_ret_inv P P) in Hr1; [assumption| |assumption].
    intros j y r2 Hy Hr2. apply fs_check_id_scalars in Hr2.
    destruct r2 as [y'|y']; [|now subst y'].
    unfold P in *. destruct Hy as (? & ? & ?), Hr2 as (? & ? & ?).
    repeat split; congruence. }
  intros H. specialize (Hgoal H). now destruct r.
Qed.

Lemma fs_check_rejects ub kv r s cnt j id :
  0 <= s < n_seqs ub → ub_n_seq_id ub !! Z.to_nat s = Some cnt →
  0 <= j < wrap_u32 cnt → batch_id ub s j = Some id →
  id <= INT32_MAX → id < 0 ∨ size kv <= id →
  fs_check ub kv = Some r → ∃ kv', r = inr kv'.
Proof.
  intros Hs Hcnt Hj Hid Hmax Hout. unfold fs_check.
  apply (for_ret_hits (λ x, size x = size kv) _ _ _ _ _ s); [|reflexivity|lia|].
  - intros s0 x y Hx Hy.
    destruct (ub_n_seq_id ub !! Z.to_nat s0) as [cnt0|]; [|discriminate].
    cbn [mbind option_bind] in Hy.
    apply (for_ret_inv (λ z, size z = size kv) (λ _, True)) in Hy;
      [assumption| |assumption].
    intros j0 z r2 Hz Hr2. apply fs_check_id_scalars in Hr2.
    destruct r2 as [z'|z']; [|exact I]. destruct Hr2 as (Hsz & _). congruence.
  - intros x y Hx. rewrite Hcnt. cbn [mbind option_bind]. intros Hy.
    apply (for_ret_hits (λ z, size z = size kv) _ _ _ _ _ j) in Hy;
      [now destruct Hy| |assumption|lia|].
    + intros j0 z z' Hz Hr2. apply fs_check_id_scalars in Hr2.
      destruct Hr2 as (Hsz & _). congruence.
    + intros z z' Hz. unfold fs_check_id. rewrite Hid. cbn [mbind option_bind].
      rewrite Hz.
      assert (Hbad : (id <? 0) || (size kv <=? wrap_u32 id) = true).
      { apply orb_true_iff. destruct Hout as [Hneg|Hbig]; [left; lia|right].
        rewrite wrap_u32_id; [lia|]. unfold size, INT32_MAX, UINT32_MOD in *. lia. }
      rewrite Hbad. discriminate.
Qed.

(** X21. On a recurrent pool, a batch that lists a sequence id outside
    [[0, size)] is refused: if [find_slot] returns at all, it returns the
    failure, and [head], [n] and the number of cells are as before. When
    the id is the first of the first group the whole state is as before. *)
Theorem recurrent_find_slot_rejects_ids_out_of_range kv ub kv' si s cnt j id :
  recurrent kv = true →
  0 <= s < n_seqs ub → ub_n_seq_id ub !! Z.to_nat s = Some cnt →
  0 <= j < wrap_u32 cnt → batch_id ub s j = Some id →
  id <= INT32_MAX → id < 0 ∨ size kv <= id →
  find_slot kv ub = Some (kv', si) →
  si = llama_kv_cache_slot_info_failed ∧
  size kv' = size kv ∧ head kv' = head kv ∧ n kv' = n kv ∧
  (s = 0 → j = 0 → kv' = kv).
Proof.
  intros Hrec Hs Hcnt Hj Hid Hmax Hout. unfold find_slot. rewrite Hrec.
  unfold find_slot_recurrent. destruct (negb _); [discriminate|].
  destruct (fs_check ub kv) as [r|] eqn:Hchk; [|discriminate].
  destruct (fs_check_rejects ub kv r s cnt j id Hs Hcnt Hj Hid Hmax Hout Hchk)
    as [kvf ->].
  cbn [mbind option_bind]. intros H. injection H as <- <-.
  split; [reflexivity|].
  pose proof (fs_check_scalars ub kv _ Hchk) as (Hsz & Hhd & Hn).
  split; [assumption|]. split; [assumption|]. split; [assumption|].
  intros -> ->. unfold fs_check in Hchk.
  destruct (Z.to_nat (n_seqs ub)) as [|k] eqn:Hk; [lia|].
  cbn [for_ret] in Hchk.
  rewrite Hcnt in Hchk. cbn [mbind option_bind] in Hchk.
  destruct (Z.to_nat (wrap_u32 cnt)) as [|k'] eqn:Hk'; [lia|].
  cbn [for_ret] in Hchk.
  assert (Hfirst : fs_check_id ub 0 0 kv = Some (inr kv)).
  { unfold fs_check_id. rewrite Hid. cbn [mbind option_bind].
    assert (Hbad : (id <? 0) || (size kv <=? wrap_u32 id) = true).
    { apply orb_true_iff. destruct Hout as [Hneg|Hbig]; [left; lia|right].
      rewrite wrap_u32_id; [lia|]. unfold size, INT32_MAX, UINT32_MOD in *. lia. }
    now rewrite Hbad. }
  rewrite Hfirst in Hchk. cbn [mbind option_bind] in Hchk. now injection Hchk as <-.
Qed.

Lemma recurrent_find_slot_rejects_ids_out_of_range_witness :
  ∃ kv kv' si,
    run_ops (init true 4) [Op_find_slot ub_S6] = Some kv ∧
    find_slot kv (ub_seq 4 [7]) = Some (kv', si) ∧
    si = llama_kv_cache_slot_info_failed ∧
    size kv' = size kv ∧ head kv' = head kv ∧ n kv' = n kv ∧
    (0 = 0 → 0 = 0 → kv' = kv).
Proof.
  exists (default (init true 4) (run_ops (init true 4) [Op_find_slot ub_S6])).
  eexists _, _.
  split; [vm_compute; reflexivity|]. split; [vm_compute; reflexivity|].
  eapply (recurrent_find_slot_rejects_ids_out_of_range
            (default (init true 4) (run_ops (init true 4) [Op_find_slot ub_S6]))
            (ub_seq 4 [7]) _ _ 0 1 0 4).
  - reflexivity.
  - simpl. lia.
  - reflexivity.
  - vm_compute. split; [discriminate|reflexivity].
  - reflexivity.
  - vm_compute. discriminate.
  - right. vm_compute. discriminate.
  - vm_compute. reflexivity.
Defined.

(** ** find_slot on a recurrent pool: a batch of one sequence *)

Lemma get_cell_at cs i :
  0 <= i < Z.of_nat (length cs) → get cs i = Some (cell_at cs i).
Proof.
  intros H. destruct (get_in_range cs i H) as [c Hc]. unfold cell_at. now rewrite Hc.
Qed.

Lemma next_empty_some cs sz k :
  sz = Z.of_nat (length cs) → 0 < sz <= INT32_MAX →
  ∀ next, 0 <= next <= sz →
    ∃ e, next_empty k cs sz next = Some e ∧ 0 <= e <= sz.
Proof.
  intros Hsz Hpos. induction k as [|k IH]; intros next Hn; cbn [next_empty].
  - exists next. split; [reflexivity|lia].
  - set (nx := if sz <=? next then wrap_u32 (next - sz) else next).
    assert (Hnx : 0 <= nx < sz).
    { unfold nx. destruct (Z.leb_spec sz next); [|lia].
      rewrite wrap_u32_id; unfold UINT32_MOD, INT32_MAX in *; lia. }
    destruct (get_in_range cs nx) as [c Hc]; [lia|]. rewrite Hc.
    cbn [mbind option_bind]. destruct (is_empty c).
    + exists nx. split; [reflexivity|lia].
    + apply IH. rewrite wrap_u32_id; unfold UINT32_MOD, INT32_MAX in *; lia.
Qed.

Lemma next_empty_finds cs sz k :
  sz = Z.of_nat (length cs) → 0 < sz <= INT32_MAX →
  ∀ next, 0 <= next <= sz →
    (∃ d c, 0 <= d < Z.of_nat k ∧ get cs ((next + d) mod sz) = Some c ∧
            is_empty c = true) →
    ∃ e c, next_empty k cs sz next = Some e ∧ get cs e = Some c ∧
           is_empty c = true.
Proof.
  intros Hsz Hpos. induction k as [|k IH]; intros next Hn (d & c & Hd & Hc & He);
    [lia|].
  cbn [next_empty].
  set (nx := if sz <=? next then wrap_u32 (next - sz) else next).
  assert (Hnx : 0 <= nx < sz ∧ nx = next mod sz).
  { unfold nx. destruct (Z.leb_spec sz next).
    - rewrite wrap_u32_id by (unfold UINT32_MOD, INT32_MAX in *; lia).
      split; [lia|]. assert (next = sz) as -> by lia.
      rewrite Z.sub_diag, Z_mod_same_full. reflexivity.
    - split; [lia|]. symmetry. apply Z.mod_small. lia. }
  destruct Hnx as [Hnx Hmod].
  destruct (get_in_range cs nx) as [c0 Hc0]; [lia|]. rewrite Hc0.
  cbn [mbind option_bind]. destruct (is_empty c0) eqn:He0.
  - exists nx, c0. auto.
  - assert (Hw : wrap_u32 (nx + 1) = nx + 1)
      by (rewrite wrap_u32_id; unfold UINT32_MOD, INT32_MAX in *; lia).
    rewrite Hw. apply IH; [lia|].
    assert (Hd0 : d ≠ 0).
    { intros ->. rewrite Z.add_0_r, <- Hmod, Hc0 in Hc. injection Hc as ->.
      congruence. }
    exists (d - 1), c. split; [lia|]. split; [|assumption].
    replace (nx + 1 + (d - 1)) with (nx + d) by lia.
    rewrite Hmod, Zplus_mod_idemp_l. assumption.
Qed.

Lemma next_empty_exists cs sz next :
  sz = Z.of_nat (length cs) → sz <= INT32_MAX → 0 <= next <= sz →
  Exists (λ c, seq_id c = ∅) cs →
  ∃ e c, next_empty (length cs) cs sz next = Some e ∧ get cs e = Some c ∧
         is_empty c = true.
Proof.
  intros Hsz Hmax Hn Hex. apply Exists_exists in Hex as (c & Hin & Hc).
  apply list_elem_of_lookup in Hin as [i Hi].
  pose proof (lookup_lt_Some _ _ _ Hi) as Hlt.
  apply next_empty_finds; [assumption|lia|assumption|].
  exists ((Z.of_nat i - next) mod sz), c.
  split; [pose proof (Z.mod_pos_bound (Z.of_nat i - next) sz); lia|].
  rewrite Zplus_mod_idemp_r.
  replace (next + (Z.of_nat i - next)) with (Z.of_nat i) by lia.
  rewrite Z.mod_small by lia.
  split; [|unfold is_empty; now apply bool_decide_eq_true].
  unfold get. destruct (Z.ltb_spec (Z.of_nat i) 0); [lia|]. now rewrite Nat2Z.id.
Qed.

Lemma owns_alone (X : gset Z) seq :
  seq ∈ X → (base.size X = 1%nat ↔ X = {[seq]}).
Proof.
  intros Hin. split.
  - intros H1. apply size_1_elem_of in H1 as [x Hx]. apply leibniz_equiv in Hx.
    subst X. apply elem_of_singleton in Hin. now subst x.
  - intros ->. apply size_singleton.
Qed.

Lemma min_max_one e len :
  0 <= e < len → len <= INT32_MAX →
  (if e <? wrap_i32 (len - 1) then e else wrap_i32 (len - 1)) = e ∧
  (if 0 <? e then e else 0) = e.
Proof.
  intros He Hlen. rewrite wrap_i32_id by (unfold is_i32, INT32_MIN, INT32_MAX in *; lia).
  split.
  - destruct (Z.ltb_spec e (len - 1)); lia.
  - destruct (Z.ltb_spec 0 e); lia.
Qed.

Lemma owns_tail_inside cs seq :
  owns_tail cs seq = true →
  0 <= tail (cell_at cs seq) < Z.of_nat (length cs).
Proof.
  unfold owns_tail. intros H. apply bool_decide_eq_true in H.
  apply (cell_at_inside cs _ seq). rewrite H. now apply elem_of_singleton.
Qed.

(** "find usable cell range" for the only group of a batch. *)
Lemma fs_claim_one ub cs nxt seq :
  Z.of_nat (length cs) <= INT32_MAX → n_seqs ub = 1 →
  batch_id ub 0 0 = Some seq → 0 <= seq < Z.of_nat (length cs) → tails_ok cs →
  (owns_tail cs seq = false →
   0 <= nxt < Z.of_nat (length cs) ∧ seq_id (cell_at cs nxt) = ∅) →
  0 <= slot_one cs seq nxt < Z.of_nat (length cs) ∧
  tail (cell_at (claim_one cs seq nxt) seq) = slot_one cs seq nxt ∧
  length (claim_one cs seq nxt) = length cs ∧
  fs_claim ub (Z.of_nat (length cs)) 0
    (cs, nxt, wrap_i32 (Z.of_nat (length cs) - 1), 0)
  = Some (claim_one cs seq nxt, nxt, slot_one cs seq nxt, slot_one cs seq nxt).
Proof.
  intros Hmax Hn Hbatch Hseq Hok Hnxt.
  assert (Hslot : 0 <= slot_one cs seq nxt < Z.of_nat (length cs)).
  { unfold slot_one. destruct (owns_tail cs seq) eqn:Hown.
    - now apply owns_tail_inside.
    - now apply Hnxt. }
  assert (Hlen : length (claim_one cs seq nxt) = length cs).
  { unfold claim_one. destruct (owns_tail cs seq); [reflexivity|].
    destruct (0 <=? _); now rewrite ?upd_length. }
  assert (Htail : tail (cell_at (claim_one cs seq nxt) seq) = slot_one cs seq nxt).
  { unfold claim_one, slot_one. destruct (owns_tail cs seq); [reflexivity|].
    rewrite cell_at_upd. destruct (decide _) as [_|Hno]; [reflexivity|].
    exfalso. apply Hno. split; [reflexivity|].
    destruct (0 <=? _); now rewrite ?upd_length. }
  split; [assumption|]. split; [assumption|]. split; [assumption|].
  destruct (min_max_one _ _ Hslot Hmax) as [Hmn Hmx].
  unfold fs_claim. rewrite Hbatch. cbn [mbind option_bind].
  rewrite (get_cell_at cs seq Hseq). cbn [mbind option_bind].
  assert (Hfin : ∀ cs' nx,
            cs' = claim_one cs seq nxt → nx = nxt →
            (get cs' seq ≫= λ seq_meta',
               Some (cs', nx,
                     if tail seq_meta' <? wrap_i32 (Z.of_nat (length cs) - 1)
                     then tail seq_meta' else wrap_i32 (Z.of_nat (length cs) - 1),
                     if 0 <? tail seq_meta' then tail seq_meta' else 0))
            = Some (claim_one cs seq nxt, nxt, slot_one cs seq nxt,
                    slot_one cs seq nxt)).
  { intros cs' nx -> ->. rewrite get_cell_at by (rewrite Hlen; lia).
    cbn [mbind option_bind]. rewrite Htail, Hmn, Hmx. reflexivity. }
  destruct (Z.leb_spec 0 (tail (cell_at cs seq))) as [Ht|Ht].
  - pose proof (Hok seq Hseq Ht) as Hin.
    pose proof (cell_at_inside _ _ _ Hin) as Htin.
    rewrite (get_cell_at cs _ Htin). cbn [mbind option_bind].
    unfold has_seq_id. rewrite (bool_decide_eq_true_2 _ Hin).
    cbn [mbind option_bind].
    destruct (owns_tail cs seq) eqn:Hown.
    + rewrite bool_decide_eq_true_2
        by (apply (owns_alone _ seq Hin); now apply bool_decide_eq_true in Hown).
      cbn [mbind option_bind]. apply Hfin; [|reflexivity].
      unfold claim_one. now rewrite Hown.
    + rewrite bool_decide_eq_false_2
        by (rewrite (owns_alone _ seq Hin); now apply bool_decide_eq_false in Hown).
      cbn [mbind option_bind]. destruct (Hnxt eq_refl) as [Hnin Hnempty].
      rewrite (get_cell_at cs nxt Hnin). cbn [mbind option_bind].
      unfold is_empty. rewrite (bool_decide_eq_true_2 _ Hnempty).
      cbn [mbind option_bind].
      rewrite Hn. change (wrap_u32 (0 + 1) <? 1) with false.
      cbn [mbind option_bind].
      rewrite (wrap_i32_id nxt) by (unfold is_i32, INT32_MIN, INT32_MAX in *; lia).
      apply Hfin; [|reflexivity].
      unfold claim_one. rewrite Hown.
      destruct (Z.leb_spec 0 (tail (cell_at cs seq))); [reflexivity|lia].
  - assert (Hown : owns_tail cs seq = false).
    { destruct (owns_tail cs seq) eqn:Hown; [|reflexivity].
      apply owns_tail_inside in Hown. lia. }
    cbn [mbind option_bind]. destruct (Hnxt Hown) as [Hnin Hnempty].
    rewrite (get_cell_at cs nxt Hnin). cbn [mbind option_bind].
    unfold is_empty. rewrite (bool_decide_eq_true_2 _ Hnempty).
    cbn [mbind option_bind].
    rewrite Hn. change (wrap_u32 (0 + 1) <? 1) with false.
    cbn [mbind option_bind].
    rewrite (wrap_i32_id nxt) by (unfold is_i32, INT32_MIN, INT32_MAX in *; lia).
    apply Hfin; [|reflexivity].
    unfold claim_one. rewrite Hown.
    destruct (Z.leb_spec 0 (tail (cell_at cs seq))); [lia|reflexivity].
Qed.

Lemma stamp_one_length cs seq e last_pos :
  length (stamp_one cs seq e last_pos) = length cs.
Proof. unfold stamp_one. now rewrite !upd_length. Qed.

(** The whole of [find_slot] for a batch of one sequence. *)
Lemma find_slot_recurrent_one kv ub seq last_pos nxt :
  recurrent kv = true → size kv <= INT32_MAX →
  equal_seqs ub = true → n_seqs ub = 1 → 0 < n_seq_tokens ub < UINT32_MOD →
  ub_n_seq_id ub !! 0%nat = Some 1 → batch_id ub 0 0 = Some seq →
  ub_pos ub !! Z.to_nat (n_seq_tokens ub - 1) = Some last_pos →
  0 <= seq < size kv → tails_point_home kv →
  next_empty (length (cells kv)) (cells kv) (size kv) (head kv) = Some nxt →
  (owns_tail (cells kv) seq = false →
   0 <= nxt < size kv ∧ seq_id (cell_at (cells kv) nxt) = ∅) →
  find_slot kv ub =
  Some (set_used
          (wrap_u32 (count_non_empty
             (stamp_one (claim_one (cells kv) seq nxt) seq
                (slot_one (cells kv) seq nxt) last_pos)))
          (set_n 1
             (set_head (slot_one (cells kv) seq nxt)
                (set_cells
                   (stamp_one (claim_one (cells kv) seq nxt) seq
                      (slot_one (cells kv) seq nxt) last_pos) kv))),
        {| found := true; boundaries := (0, 0) |}).
Proof.
  intros Hrec Hmax Heq Hn Hnst Hcnt Hbatch Hpos Hseq Hhome Hnext Hnxt.
  unfold size in *.
  destruct (fs_claim_one ub (cells kv) nxt seq Hmax Hn Hbatch Hseq Hhome Hnxt)
    as (Hslot & Htail & Hlen & Hclaim).
  set (e := slot_one (cells kv) seq nxt) in *.
  set (claimed := claim_one (cells kv) seq nxt) in *.
  unfold find_slot. rewrite Hrec. unfold find_slot_recurrent. rewrite Heq.
  cbn [negb].
  assert (Hchk : fs_check ub kv = Some (inl kv)).
  { unfold fs_check. rewrite Hn. change (Z.to_nat 1) with 1%nat. cbn [for_ret].
    change (Z.to_nat 0) with 0%nat. rewrite Hcnt. cbn [mbind option_bind].
    change (Z.to_nat (wrap_u32 1)) with 1%nat. cbn [for_ret].
    unfold fs_check_id. rewrite Hbatch. cbn [mbind option_bind].
    assert (Hin : (seq <? 0) || (size kv <=? wrap_u32 seq) = false).
    { apply orb_false_iff. unfold size.
      rewrite wrap_u32_id by (unfold UINT32_MOD, INT32_MAX in *; lia). lia. }
    rewrite Hin. reflexivity. }
  rewrite Hchk. cbn [mbind option_bind]. unfold size. rewrite Hnext.
  cbn [mbind option_bind]. rewrite Hn. change (Z.to_nat 1) with 1%nat.
  cbn [for_opt]. rewrite Hclaim. cbn [mbind option_bind].
  assert (Hwe : wrap_i32 (0 + e) = e)
    by (rewrite Z.add_0_l, wrap_i32_id;
        [reflexivity|unfold is_i32, INT32_MIN, INT32_MAX in *; lia]).
  assert (Hgather : fs_gather ub e 0 claimed = Some claimed).
  { unfold fs_gather. cbv zeta. rewrite Hbatch. cbn [mbind option_bind].
    rewrite (get_cell_at claimed seq) by (rewrite Hlen; lia).
    cbn [mbind option_bind]. rewrite Hwe, Htail, Z.eqb_refl. reflexivity. }
  rewrite Hgather. cbn [mbind option_bind].
  assert (Hstamp : fs_stamp ub e 0 claimed = Some (stamp_one claimed seq e last_pos)).
  { unfold fs_stamp. cbv zeta.
    replace (wrap_u32 (n_seq_tokens ub * 0 + n_seq_tokens ub - 1))
      with (n_seq_tokens ub - 1)
      by (rewrite Z.mul_0_r, Z.add_0_l, wrap_u32_id; lia).
    rewrite Hpos. cbn [mbind option_bind].
    rewrite Hwe. rewrite (get_cell_at claimed e) by (rewrite Hlen; lia).
    cbn [mbind option_bind]. change (Z.to_nat 0) with 0%nat. rewrite Hcnt.
    cbn [mbind option_bind]. change (Z.to_nat 1) with 1%nat. cbn [for_opt].
    rewrite Hbatch. cbn [mbind option_bind].
    rewrite (get_cell_at _ seq) by (rewrite !upd_length, Hlen; lia).
    reflexivity. }
  rewrite Hstamp. cbn [mbind option_bind].
  replace (e - e + 1) with 1 by lia.
  rewrite (wrap_u32_id e) by (unfold UINT32_MOD, INT32_MAX in *; lia).
  reflexivity.
Qed.

Lemma cell_at_upd_keep {A : Type} (g : llama_kv_cell → A) i f cs j :
  (∀ c, g (f c) = g c) → g (cell_at (upd i f cs) j) = g (cell_at cs j).
Proof.
  intros Hf. rewrite cell_at_upd. destruct (decide _); [apply Hf|reflexivity].
Qed.

Lemma cell_at_upd_ne i f cs j : i ≠ j → cell_at (upd i f cs) j = cell_at cs j.
Proof.
  intros Hne. rewrite cell_at_upd.
  destruct (decide _) as [[? _]|]; [contradiction|reflexivity].
Qed.

Lemma cell_at_upd_eq i f cs :
  0 <= i < Z.of_nat (length cs) → cell_at (upd i f cs) i = f (cell_at cs i).
Proof.
  intros Hi. rewrite cell_at_upd.
  destruct (decide _) as [|Hno]; [reflexivity|]. exfalso. apply Hno. now split.
Qed.

(** The cells after the stamp of the slot [e], against those before. *)
Lemma stamp_one_cells cs seq e last_pos :
  0 <= e < Z.of_nat (length cs) → 0 <= seq < Z.of_nat (length cs) →
  tail (cell_at (stamp_one cs seq e last_pos) seq) = e ∧
  (∀ s, s ≠ seq →
     tail (cell_at (stamp_one cs seq e last_pos) s) = tail (cell_at cs s)) ∧
  seq_id (cell_at (stamp_one cs seq e last_pos) e) = {[seq]} ∧
  pos (cell_at (stamp_one cs seq e last_pos) e) = last_pos ∧
  src (cell_at (stamp_one cs seq e last_pos) e) = src (cell_at cs e) ∧
  (∀ i, i ≠ e →
     pos (cell_at (stamp_one cs seq e last_pos) i) = pos (cell_at cs i) ∧
     src (cell_at (stamp_one cs seq e last_pos) i) = src (cell_at cs i) ∧
     seq_id (cell_at (stamp_one cs seq e last_pos) i) = seq_id (cell_at cs i)).
Proof.
  intros He Hseq. unfold stamp_one.
  split; [rewrite cell_at_upd_eq by (now rewrite !upd_length); reflexivity|].
  split.
  { intros s Hs. rewrite cell_at_upd_ne by congruence.
    rewrite !(cell_at_upd_keep tail) by reflexivity. reflexivity. }
  split.
  { rewrite (cell_at_upd_keep seq_id) by reflexivity.
    rewrite cell_at_upd_eq by (now rewrite upd_length).
    rewrite cell_at_upd_eq by assumption. cbn.
    apply set_eq. intros x. rewrite elem_of_union, elem_of_singleton.
    split; [intros [Hx|Hx]; [assumption|now apply not_elem_of_empty in Hx]|now left]. }
  split.
  { rewrite (cell_at_upd_keep pos) by reflexivity.
    rewrite (cell_at_upd_keep pos) by reflexivity.
    rewrite cell_at_upd_eq by assumption. reflexivity. }
  split.
  { rewrite !(cell_at_upd_keep src) by reflexivity. reflexivity. }
  intros i Hi.
  rewrite !(cell_at_upd_keep pos _ (set_tail e)) by reflexivity.
  rewrite !(cell_at_upd_keep src _ (set_tail e)) by reflexivity.
  rewrite !(cell_at_upd_keep seq_id _ (set_tail e)) by reflexivity.
  rewrite !(cell_at_upd_ne e) by congruence. auto.
Qed.

(** The cells once the slot is claimed, against those before. *)
Lemma claim_one_cells cs seq nxt :
  tails_ok cs → 0 <= seq < Z.of_nat (length cs) →
  (owns_tail cs seq = false →
   0 <= nxt < Z.of_nat (length cs) ∧ seq_id (cell_at cs nxt) = ∅) →
  (∀ s, s ≠ seq →
     tail (cell_at (claim_one cs seq nxt) s) = tail (cell_at cs s)) ∧
  src (cell_at (claim_one cs seq nxt) (slot_one cs seq nxt)) =
    (if owns_tail cs seq then src (cell_at cs (slot_one cs seq nxt))
     else if 0 <=? tail (cell_at cs seq)
          then src (cell_at cs (tail (cell_at cs seq)))
          else src (cell_at cs (slot_one cs seq nxt))) ∧
  (∀ i, i ≠ slot_one cs seq nxt →
     pos (cell_at (claim_one cs seq nxt) i) = pos (cell_at cs i) ∧
     src (cell_at (claim_one cs seq nxt) i) = src (cell_at cs i) ∧
     seq_id (cell_at (claim_one cs seq nxt) i) =
       if decide (i = tail (cell_at cs seq))
       then seq_id (cell_at cs i) ∖ {[seq]} else seq_id (cell_at cs i)).
Proof.
  intros Hok Hseq Hnxt. unfold claim_one, slot_one.
  destruct (owns_tail cs seq) eqn:Hown.
  { split; [reflexivity|]. split; [reflexivity|]. intros i Hi.
    destruct (decide _); [contradiction|auto]. }
  destruct (Hnxt eq_refl) as [Hnin Hnempty].
  destruct (Z.leb_spec 0 (tail (cell_at cs seq))) as [Ht|Ht].
  - pose proof (Hok seq Hseq Ht) as Hin.
    pose proof (cell_at_inside _ _ _ Hin) as Htin.
    split.
    { intros s Hs. rewrite cell_at_upd_ne by congruence.
      rewrite !(cell_at_upd_keep tail) by reflexivity. reflexivity. }
    split.
    { rewrite (cell_at_upd_keep src) by reflexivity.
      rewrite (cell_at_upd_keep src) by reflexivity.
      rewrite (cell_at_upd_keep src) by reflexivity.
      rewrite cell_at_upd_eq by assumption. reflexivity. }
    intros i Hi.
    rewrite (cell_at_upd_keep pos _ (set_tail nxt)) by reflexivity.
    rewrite (cell_at_upd_keep src _ (set_tail nxt)) by reflexivity.
    rewrite (cell_at_upd_keep seq_id _ (set_tail nxt)) by reflexivity.
    rewrite (cell_at_upd_ne nxt _ _ i) by congruence.
    rewrite (cell_at_upd_keep pos _ (seq_erase seq)) by reflexivity.
    rewrite (cell_at_upd_keep src _ (seq_erase seq)) by reflexivity.
    rewrite (cell_at_upd_ne nxt _ _ i) by congruence.
    split; [reflexivity|]. split; [reflexivity|].
    rewrite cell_at_upd, upd_length.
    destruct (decide (i = tail (cell_at cs seq))) as [-> |Hne].
    + destruct (decide _) as [_|Hno]; [|exfalso; apply Hno; now split].
      rewrite (cell_at_upd_ne nxt _ _ _) by congruence. reflexivity.
    + destruct (decide _) as [[Heq _]|_]; [congruence|].
      rewrite (cell_at_upd_ne nxt _ _ i) by congruence. reflexivity.
  - split.
    { intros s Hs. now rewrite cell_at_upd_ne by congruence. }
    split; [now rewrite (cell_at_upd_keep src) by reflexivity|].
    intros i Hi.
    rewrite (cell_at_upd_keep pos) by reflexivity.
    rewrite (cell_at_upd_keep src) by reflexivity.
    rewrite (cell_at_upd_keep seq_id) by reflexivity.
    split; [reflexivity|]. split; [reflexivity|].
    destruct (decide _) as [-> |_]; [|reflexivity].
    rewrite cell_at_default by lia. cbn.
    apply set_eq. intros x. rewrite elem_of_difference.
    split; [intros Hx; now apply not_elem_of_empty in Hx|now intros [? _]].
Qed.

(** X22. On a recurrent pool of at most 2^31 - 1 cells whose tails are in
    order, a batch of one sequence [seq] is given one cell [e]: the tail
    of [seq] when [seq] holds that cell alone, else an empty cell, which
    inherits [src] from the old tail, while the old tail loses [seq].
    [find_slot] succeeds; [e] becomes the tail of [seq], holds [seq]
    alone at the position of the last token of the batch, and is the
    window [head, head + n) of the pool; no other cell changes otherwise,
    no other tail moves, and the tails are in order again. *)
Theorem recurrent_find_slot_one_sequence kv ub seq last_pos :
  recurrent kv = true → size kv <= INT32_MAX → 0 <= head kv <= size kv →
  equal_seqs ub = true → n_seqs ub = 1 → 0 < n_seq_tokens ub < UINT32_MOD →
  ub_n_seq_id ub !! 0%nat = Some 1 → batch_id ub 0 0 = Some seq →
  ub_pos ub !! Z.to_nat (n_seq_tokens ub - 1) = Some last_pos →
  0 <= seq < size kv → tails_point_home kv →
  seq_id (tail_cell kv seq) = {[seq]} ∨ Exists (λ c, seq_id c = ∅) (cells kv) →
  ∃ kv' e,
    find_slot kv ub = Some (kv', {| found := true; boundaries := (0, 0) |}) ∧
    0 <= e < size kv ∧ size kv' = size kv ∧
    tail (cell_at (cells kv') seq) = e ∧ head kv' = e ∧ n kv' = 1 ∧
    used kv' = count_non_empty (cells kv') ∧
    seq_id (cell_at (cells kv') e) = {[seq]} ∧
    pos (cell_at (cells kv') e) = last_pos ∧
    (if decide (seq_id (tail_cell kv seq) = {[seq]})
     then e = tail (cell_at (cells kv) seq) ∧
          src (cell_at (cells kv') e) = src (cell_at (cells kv) e)
     else seq_id (cell_at (cells kv) e) = ∅ ∧
          src (cell_at (cells kv') e) =
            if 0 <=? tail (cell_at (cells kv) seq) then src (tail_cell kv seq)
            else src (cell_at (cells kv) e)) ∧
    (∀ i, i ≠ e →
       pos (cell_at (cells kv') i) = pos (cell_at (cells kv) i) ∧
       src (cell_at (cells kv') i) = src (cell_at (cells kv) i) ∧
       seq_id (cell_at (cells kv') i) =
         if decide (i = tail (cell_at (cells kv) seq))
         then seq_id (cell_at (cells kv) i) ∖ {[seq]}
         else seq_id (cell_at (cells kv) i)) ∧
    (∀ s, s ≠ seq → tail (cell_at (cells kv') s) = tail (cell_at (cells kv) s)) ∧
    tails_point_home kv'.
Proof.
  intros Hrec Hmax Hhead Heq Hn Hnst Hcnt Hbatch Hpos Hseq Hhome Hroom.
  assert (Hsz : 0 < size kv <= INT32_MAX) by lia.
  (* the next empty cell *)
  assert (Hnext : ∃ nxt,
            next_empty (length (cells kv)) (cells kv) (size kv) (head kv) = Some nxt ∧
            (owns_tail (cells kv) seq = false →
             0 <= nxt < size kv ∧ seq_id (cell_at (cells kv) nxt) = ∅)).
  { destruct (owns_tail (cells kv) seq) eqn:Hown.
    - destruct (next_empty_some (cells kv) (size kv) (length (cells kv)) eq_refl Hsz
                  (head kv) Hhead) as (nxt & Hnx & _).
      exists nxt. split; [assumption|discriminate].
    - destruct Hroom as [Hone|Hex].
      { apply bool_decide_eq_false in Hown. contradiction. }
      destruct (next_empty_exists (cells kv) (size kv) (head kv) eq_refl Hmax
                  Hhead Hex) as (nxt & c & Hnx & Hc & Hempty).
      exists nxt. split; [assumption|]. intros _.
      pose proof (get_lookup _ _ _ Hc) as [Hge Hlk].
      apply lookup_lt_Some in Hlk. split; [unfold size; lia|].
      rewrite (cell_at_get _ _ _ Hc). now apply bool_decide_eq_true in Hempty. }
  destruct Hnext as (nxt & Hnext & Hnxt).
  pose proof (find_slot_recurrent_one kv ub seq last_pos nxt Hrec Hmax Heq Hn Hnst
                Hcnt Hbatch Hpos Hseq Hhome Hnext Hnxt) as Hrun.
  unfold size in Hmax, Hseq, Hnxt.
  destruct (fs_claim_one ub (cells kv) nxt seq Hmax Hn Hbatch Hseq Hhome Hnxt)
    as (Hslot & _ & Hlen & _).
  destruct (claim_one_cells (cells kv) seq nxt Hhome Hseq Hnxt)
    as (Hc_tail & Hc_src & Hc_other).
  set (e := slot_one (cells kv) seq nxt) in *.
  set (claimed := claim_one (cells kv) seq nxt) in *.
  destruct (stamp_one_cells claimed seq e last_pos
              ltac:(rewrite Hlen; exact Hslot) ltac:(rewrite Hlen; exact Hseq))
    as (Hs_tail & Hs_tails & Hs_ids & Hs_pos & Hs_src & Hs_other).
  set (final := stamp_one claimed seq e last_pos) in *.
  assert (Hflen : length final = length (cells kv))
    by (unfold final; now rewrite stamp_one_length).
  assert (Hown_iff : owns_tail (cells kv) seq = true ↔
                     seq_id (tail_cell kv seq) = {[seq]})
    by (unfold owns_tail, tail_cell; apply bool_decide_eq_true).
  (* the cells that are not the slot *)
  assert (Hother : ∀ i, i ≠ e →
            pos (cell_at final i) = pos (cell_at (cells kv) i) ∧
            src (cell_at final i) = src (cell_at (cells kv) i) ∧
            seq_id (cell_at final i) =
              if decide (i = tail (cell_at (cells kv) seq))
              then seq_id (cell_at (cells kv) i) ∖ {[seq]}
              else seq_id (cell_at (cells kv) i)).
  { intros i Hi. destruct (Hs_other i Hi) as (-> & -> & ->). now apply Hc_other. }
  assert (Htails : ∀ s, s ≠ seq →
            tail (cell_at final s) = tail (cell_at (cells kv) s)).
  { intros s Hs. rewrite Hs_tails by assumption. now apply Hc_tail. }
  (* the slot was the tail of [seq] alone, or empty *)
  assert (Hwas : seq_id (cell_at (cells kv) e) = {[seq]} ∨
                 seq_id (cell_at (cells kv) e) = ∅).
  { unfold e, slot_one. destruct (owns_tail (cells kv) seq) eqn:Hown.
    - left. now apply Hown_iff.
    - right. now apply Hnxt. }
  exists (set_used (wrap_u32 (count_non_empty final))
            (set_n 1 (set_head e (set_cells final kv)))), e.
  split; [exact Hrun|]. cbn [cells head n used set_used set_n set_head set_cells].
  split; [unfold size; exact Hslot|].
  split; [unfold size; cbn; now rewrite Hflen|].
  split; [assumption|]. split; [reflexivity|]. split; [reflexivity|].
  split.
  { apply wrap_u32_id. split; [apply count_non_empty_nonneg|].
    unfold count_non_empty.
    pose proof (length_filter (λ c, is_empty c = false) final).
    unfold UINT32_MOD, INT32_MAX in *. lia. }
  split; [assumption|]. split; [assumption|].
  split.
  { rewrite Hs_src, Hc_src. fold e. destruct (decide _) as [Hone|Hnone].
    - apply Hown_iff in Hone. rewrite Hone. split; [|reflexivity].
      unfold e, slot_one. now rewrite Hone.
    - assert (Hown : owns_tail (cells kv) seq = false).
      { destruct (owns_tail (cells kv) seq) eqn:Hown; [|reflexivity].
        exfalso. apply Hnone. now apply Hown_iff. }
      rewrite Hown. split; [|reflexivity].
      unfold e, slot_one. rewrite Hown. now apply Hnxt. }
  split; [assumption|]. split; [assumption|].
  (* the tails are in order *)
  intros s Hs Ht. unfold tail_cell, size in *.
  cbn [cells set_used set_n set_head set_cells] in *. rewrite Hflen in Hs.
  destruct (decide (s = seq)) as [-> |Hne].
  { rewrite Hs_tail, Hs_ids. now apply elem_of_singleton. }
  rewrite (Htails s Hne) in Ht |- *.
  pose proof (Hhome s Hs Ht) as Hin. unfold tail_cell in Hin.
  destruct (decide (tail (cell_at (cells kv) s) = e)) as [Hte|Hte].
  { exfalso. rewrite Hte in Hin. destruct Hwas as [Hw|Hw]; rewrite Hw in Hin.
    - apply elem_of_singleton in Hin. contradiction.
    - now apply not_elem_of_empty in Hin. }
  destruct (Hother _ Hte) as (_ & _ & ->).
  destruct (decide _); [|assumption].
  apply elem_of_difference. split; [assumption|].
  intros Hx. apply elem_of_singleton in Hx. contradiction.
Qed.

Lemma recurrent_find_slot_one_sequence_witness :
  ∃ kv, run_ops (init true 4) ops_shared_tail = Some kv ∧
  ∃ kv' e,
    find_slot kv (ub_seq 1 [7; 8])
      = Some (kv', {| found := true; boundaries := (0, 0) |}) ∧
    0 <= e < size kv ∧ size kv' = size kv ∧
    tail (cell_at (cells kv') 1) = e ∧ head kv' = e ∧ n kv' = 1 ∧
    used kv' = count_non_empty (cells kv') ∧
    seq_id (cell_at (cells kv') e) = {[1]} ∧
    pos (cell_at (cells kv') e) = 8 ∧
    (if decide (seq_id (tail_cell kv 1) = {[1]})
     then e = tail (cell_at (cells kv) 1) ∧
          src (cell_at (cells kv') e) = src (cell_at (cells kv) e)
     else seq_id (cell_at (cells kv) e) = ∅ ∧
          src (cell_at (cells kv') e) =
            if 0 <=? tail (cell_at (cells kv) 1) then src (tail_cell kv 1)
            else src (cell_at (cells kv) e)) ∧
    (∀ i, i ≠ e →
       pos (cell_at (cells kv') i) = pos (cell_at (cells kv) i) ∧
       src (cell_at (cells kv') i) = src (cell_at (cells kv) i) ∧
       seq_id (cell_at (cells kv') i) =
         if decide (i = tail (cell_at (cells kv) 1))
         then seq_id (cell_at (cells kv) i) ∖ {[1]}
         else seq_id (cell_at (cells kv) i)) ∧
    (∀ s, s ≠ 1 → tail (cell_at (cells kv') s) = tail (cell_at (cells kv) s)) ∧
    tails_point_home kv'.
Proof.
  exists (default (init true 4) (run_ops (init true 4) ops_shared_tail)).
  split; [vm_compute; reflexivity|].
  apply recurrent_find_slot_one_sequence.
  - reflexivity.
  - vm_compute. discriminate.
  - vm_compute. split; discriminate.
  - reflexivity.
  - reflexivity.
  - vm_compute. split; reflexivity.
  - reflexivity.
  - reflexivity.
  - reflexivity.
  - change (size _) with 4. lia.
  - intros s Hs. change (size _) with 4 in Hs.
    assert (Hcases : s = 0 ∨ s = 1 ∨ s = 2 ∨ s = 3) by lia.
    destruct Hcases as [-> |[-> |[-> | ->]]]; vm_compute; intros Ht;
      try (exfalso; apply Ht; reflexivity); compute_done.
  - right. apply Exists_exists. exists cell_new. split; [|reflexivity].
    apply list_elem_of_lookup. exists 3%nat. vm_compute. reflexivity.
Defined.

(** ** seq_cp on a transformer pool: what is copied *)

Lemma seq_cp_cell_spec s d p0 p1 c :
  pos (seq_cp_cell s d p0 p1 c) = pos c ∧
  delta (seq_cp_cell s d p0 p1 c) = delta c ∧
  src (seq_cp_cell s d p0 p1 c) = src c ∧
  tail (seq_cp_cell s d p0 p1 c) = tail c ∧
  seq_id (seq_cp_cell s d p0 p1 c) =
    if decide (s ∈ seq_id c ∧ p0 <= pos c < p1) then {[d]} ∪ seq_id c
    else seq_id c.
Proof.
  unfold seq_cp_cell, seq_cp_body, has_seq_id, in_range.
  destruct (decide (s ∈ seq_id c ∧ p0 <= pos c < p1)) as [[Hs Hr]|Hno].
  - rewrite (bool_decide_eq_true_2 _ Hs).
    destruct (Z.leb_spec p0 (pos c)); [|lia].
    destruct (Z.ltb_spec (pos c) p1); [|lia]. cbn. auto.
  - assert (Hcond : bool_decide (s ∈ seq_id c) && ((p0 <=? pos c) && (pos c <? p1))
                    = false).
    { case_bool_decide as Hs; [|reflexivity]. cbn [andb].
      destruct (Z.leb_spec p0 (pos c)); [|reflexivity].
      destruct (Z.ltb_spec (pos c) p1); [|reflexivity].
      exfalso. apply Hno. split; [assumption|lia]. }
    rewrite Hcond. cbn. auto.
Qed.

Lemma seq_cp_cell_idem s d p0 p1 c :
  seq_cp_cell s d p0 p1 (seq_cp_cell s d p0 p1 c) = seq_cp_cell s d p0 p1 c.
Proof.
  destruct (seq_cp_cell_spec s d p0 p1 (seq_cp_cell s d p0 p1 c))
    as (H1 & H2 & H3 & H4 & H5).
  destruct (seq_cp_cell_spec s d p0 p1 c) as (G1 & G2 & G3 & G4 & G5).
  assert (Hids : seq_id (seq_cp_cell s d p0 p1 (seq_cp_cell s d p0 p1 c))
                 = seq_id (seq_cp_cell s d p0 p1 c)).
  { rewrite H5, G1, G5.
    destruct (decide (s ∈ seq_id c ∧ p0 <= pos c < p1)) as [[Hs Hr]|Hno].
    - destruct (decide (s ∈ {[d]} ∪ seq_id c ∧ p0 <= pos c < p1)) as [_|_];
        [|reflexivity].
      apply set_eq. intros x. rewrite !elem_of_union. tauto.
    - destruct (decide (s ∈ seq_id c ∧ p0 <= pos c < p1)) as [[Hs Hr]|_];
        [|reflexivity].
      exfalso. apply Hno. now split. }
  clear H5 G5.
  destruct (seq_cp_cell s d p0 p1 (seq_cp_cell s d p0 p1 c)) as [a1 a2 a3 a4 a5],
           (seq_cp_cell s d p0 p1 c) as [b1 b2 b3 b4 b5].
  cbn in *. congruence.
Qed.

(** X23. On a transformer pool [seq_cp(src, dst, p0, p1)] adds [dst] to
    the cells that hold [src] at a position of the range, and to no
    other; it changes no position and frees or occupies no cell ([used]
    is as before), and resets [head] to 0. Afterwards [seq_pos_max(dst)]
    is at least every copied position, and the same copy again changes
    nothing. *)
Theorem seq_cp_copies_the_range kv s d p0 p1 :
  recurrent kv = false → s ≠ d →
  Forall2 (λ c c',
      pos c' = pos c ∧ delta c' = delta c ∧ src c' = src c ∧ tail c' = tail c ∧
      seq_id c' = if decide (s ∈ seq_id c ∧ norm_p0 p0 <= pos c < norm_p1 p1)
                  then {[d]} ∪ seq_id c else seq_id c)
    (cells kv) (cells (seq_cp kv s d p0 p1)) ∧
  used (seq_cp kv s d p0 p1) = used kv ∧ head (seq_cp kv s d p0 p1) = 0 ∧
  (∀ c, c ∈ cells kv → s ∈ seq_id c → norm_p0 p0 <= pos c < norm_p1 p1 →
        pos c <= seq_pos_max (seq_cp kv s d p0 p1) d) ∧
  seq_cp (seq_cp kv s d p0 p1) s d p0 p1 = seq_cp kv s d p0 p1.
Proof.
  intros Hrec Hne.
  assert (Hrec' : recurrent (seq_cp kv s d p0 p1) = false)
    by now rewrite seq_cp_transformer.
  rewrite (seq_cp_transformer (seq_cp kv s d p0 p1)) by assumption.
  rewrite !seq_cp_transformer by assumption.
  cbn [cells used head set_cells set_head].
  split.
  { apply Forall2_fmap_r, Forall_Forall2_diag, Forall_forall. intros c _.
    apply seq_cp_cell_spec. }
  split; [reflexivity|]. split; [reflexivity|]. split.
  - intros c Hc Hs Hr. unfold seq_pos_max. cbn [cells set_cells set_head].
    destruct (seq_pos_max_loop d 0
                (map (seq_cp_cell s d (norm_p0 p0) (norm_p1 p1)) (cells kv)) 0 _
                eq_refl) as (_ & Hub & _).
    destruct (seq_cp_cell_spec s d (norm_p0 p0) (norm_p1 p1) c)
      as (Hpos & _ & _ & _ & Hids).
    rewrite <- Hpos. apply Hub.
    + apply list_elem_of_fmap. now exists c.
    + rewrite Hids. destruct (decide _) as [_|Hno].
      * apply elem_of_union_l. now apply elem_of_singleton.
      * exfalso. apply Hno. now split.
  - unfold set_cells, set_head. cbn. f_equal.
    rewrite <- list_fmap_compose. apply list_fmap_ext. intros _ c _. cbn.
    apply seq_cp_cell_idem.
Qed.

Lemma seq_cp_copies_the_range_witness :
  ∃ kv, run_ops (init false 4) ops_S2_div = Some kv ∧
  Forall2 (λ c c',
      pos c' = pos c ∧ delta c' = delta c ∧ src c' = src c ∧ tail c' = tail c ∧
      seq_id c' = if decide (0 ∈ seq_id c ∧ norm_p0 1 <= pos c < norm_p1 (-1))
                  then {[1]} ∪ seq_id c else seq_id c)
    (cells kv) (cells (seq_cp kv 0 1 1 (-1))) ∧
  used (seq_cp kv 0 1 1 (-1)) = used kv ∧ head (seq_cp kv 0 1 1 (-1)) = 0 ∧
  (∀ c, c ∈ cells kv → 0 ∈ seq_id c → norm_p0 1 <= pos c < norm_p1 (-1) →
        pos c <= seq_pos_max (seq_cp kv 0 1 1 (-1)) 1) ∧
  seq_cp (seq_cp kv 0 1 1 (-1)) 0 1 1 (-1) = seq_cp kv 0 1 1 (-1).
Proof.
  exists (default (init false 4) (run_ops (init false 4) ops_S2_div)).
  split; [vm_compute; reflexivity|].
  apply seq_cp_copies_the_range; [reflexivity|lia].
Defined.

(** ** seq_add and seq_div on a recurrent pool *)

Lemma wrote_pos_only_refl kv t : wrote_pos_only kv kv t.
Proof.
  unfold wrote_pos_only. repeat (split; [reflexivity|]).
  split; [|reflexivity]. apply Forall_Forall2_diag, Forall_forall. auto.
Qed.

Lemma wrote_pos_only_upd kv t f :
  (∀ c, seq_id (f c) = seq_id c ∧ delta (f c) = delta c ∧
        src (f c) = src c ∧ tail (f c) = tail c) →
  wrote_pos_only kv (set_cells (upd t f (cells kv)) kv) t.
Proof.
  intros Hf. unfold wrote_pos_only. cbn.
  repeat (split; [reflexivity|]). split.
  - apply upd_Forall2; [auto|apply Hf].
  - intros i Hi. apply cell_at_upd_ne. congruence.
Qed.

(** X24. On a recurrent pool [seq_add] and [seq_div] write nothing but
    the position of the tail cell of [seq]: no flag ([has_shift] stays as
    it is), no counter, no [delta], no seq-id set; so no cell is ever
    freed, even when its position becomes negative. The position itself
    is either left, or the cell holds [seq] at a position of the range
    and is moved by [d], resp. divided by [d]. *)
Theorem recurrent_shifts_write_one_position kv seq p0 p1 d :
  recurrent kv = true →
  (wrote_pos_only kv (seq_add kv seq p0 p1 d) (tail (cell_at (cells kv) seq)) ∧
   (pos (tail_cell (seq_add kv seq p0 p1 d) seq) = pos (tail_cell kv seq) ∨
    seq ∈ seq_id (tail_cell kv seq) ∧
    norm_p0 p0 <= pos (tail_cell kv seq) < norm_p1 p1 ∧
    pos (tail_cell (seq_add kv seq p0 p1 d) seq)
      = wrap_i32 (pos (tail_cell kv seq) + d))) ∧
  (∀ kv', seq_div kv seq p0 p1 d = Some kv' →
     wrote_pos_only kv kv' (tail (cell_at (cells kv) seq)) ∧
     (pos (tail_cell kv' seq) = pos (tail_cell kv seq) ∨
      seq ∈ seq_id (tail_cell kv seq) ∧
      norm_p0 p0 <= pos (tail_cell kv seq) < norm_p1 p1 ∧
      pos (tail_cell kv' seq) = Z.quot (pos (tail_cell kv seq)) d)).
Proof.
  intros Hrec. unfold tail_cell. split.
  - unfold seq_add. destruct (d =? 0); [split; [apply wrote_pos_only_refl|now left]|].
    destruct (norm_p0 p0 =? norm_p1 p1);
      [split; [apply wrote_pos_only_refl|now left]|].
    rewrite Hrec. unfold seq_add_recurrent.
    destruct ((0 <=? seq) && (seq <? size kv)) eqn:Hseq;
      [|split; [apply wrote_pos_only_refl|now left]].
    destruct (Z.leb_spec 0 (tail (cell_at (cells kv) seq))) as [Ht|Ht];
      [|split; [apply wrote_pos_only_refl|now left]].
    destruct (has_seq_id (cell_at (cells kv) (tail (cell_at (cells kv) seq))) seq
              && in_range (norm_p0 p0) (norm_p1 p1)
                   (cell_at (cells kv) (tail (cell_at (cells kv) seq)))) eqn:Hc;
      [|split; [apply wrote_pos_only_refl|now left]].
    split; [apply wrote_pos_only_upd; auto|]. right.
    apply andb_true_iff in Hc as [Hhas Hin]. apply bool_decide_eq_true in Hhas.
    unfold in_range in Hin. apply andb_true_iff in Hin as [Hlo Hhi].
    split; [assumption|]. split; [lia|]. cbn [cells set_cells].
    rewrite (cell_at_upd_keep tail) by reflexivity.
    rewrite cell_at_upd_eq by (now apply (cell_at_inside _ _ seq)). reflexivity.
  - intros kv'. unfold seq_div.
    destruct (d =? 1);
      [intros H; injection H as <-; split; [apply wrote_pos_only_refl|now left]|].
    destruct (norm_p0 p0 =? norm_p1 p1);
      [intros H; injection H as <-; split; [apply wrote_pos_only_refl|now left]|].
    rewrite Hrec. unfold seq_div_recurrent.
    destruct ((0 <=? seq) && (seq <? size kv)) eqn:Hseq;
      [|intros H; injection H as <-; split; [apply wrote_pos_only_refl|now left]].
    destruct (Z.leb_spec 0 (tail (cell_at (cells kv) seq))) as [Ht|Ht];
      [|intros H; injection H as <-; split; [apply wrote_pos_only_refl|now left]].
    destruct (has_seq_id (cell_at (cells kv) (tail (cell_at (cells kv) seq))) seq
              && in_range (norm_p0 p0) (norm_p1 p1)
                   (cell_at (cells kv) (tail (cell_at (cells kv) seq)))) eqn:Hc;
      [|intros H; injection H as <-; split; [apply wrote_pos_only_refl|now left]].
    destruct (d =? 0); [discriminate|]. intros H. injection H as <-.
    split; [apply wrote_pos_only_upd; auto|]. right.
    apply andb_true_iff in Hc as [Hhas Hin]. apply bool_decide_eq_true in Hhas.
    unfold in_range in Hin. apply andb_true_iff in Hin as [Hlo Hhi].
    split; [assumption|]. split; [lia|]. cbn [cells set_cells].
    rewrite (cell_at_upd_keep tail) by reflexivity.
    rewrite cell_at_upd_eq by (now apply (cell_at_inside _ _ seq)). reflexivity.
Qed.

Lemma recurrent_shifts_write_one_position_witness :
  ∃ kv, run_ops (init true 4) ops_shared_tail = Some kv ∧
  (wrote_pos_only kv (seq_add kv 1 (-1) (-1) (-10)) (tail (cell_at (cells kv) 1)) ∧
   (pos (tail_cell (seq_add kv 1 (-1) (-1) (-10)) 1) = pos (tail_cell kv 1) ∨
    1 ∈ seq_id (tail_cell kv 1) ∧
    norm_p0 (-1) <= pos (tail_cell kv 1) < norm_p1 (-1) ∧
    pos (tail_cell (seq_add kv 1 (-1) (-1) (-10)) 1)
      = wrap_i32 (pos (tail_cell kv 1) + -10))) ∧
  (∀ kv', seq_div kv 1 (-1) (-1) (-10) = Some kv' →
     wrote_pos_only kv kv' (tail (cell_at (cells kv) 1)) ∧
     (pos (tail_cell kv' 1) = pos (tail_cell kv 1) ∨
      1 ∈ seq_id (tail_cell kv 1) ∧
      norm_p0 (-1) <= pos (tail_cell kv 1) < norm_p1 (-1) ∧
      pos (tail_cell kv' 1) = Z.quot (pos (tail_cell kv 1)) (-10))).
Proof.
  exists (default (init true 4) (run_ops (init true 4) ops_shared_tail)).
  split; [vm_compute; reflexivity|].
  apply recurrent_shifts_write_one_position. reflexivity.
Defined.

Lemma upd_id_at i f cs : f (cell_at cs i) = cell_at cs i → upd i f cs = cs.
Proof.
  intros Hf. unfold upd. destruct (Z.ltb_spec i 0) as [Hi|Hi]; [reflexivity|].
  apply list_eq. intros k. destruct (decide (k = Z.to_nat i)) as [-> |Hne].
  - rewrite list_lookup_alter_eq. unfold cell_at, get in Hf.
    destruct (Z.ltb_spec i 0); [lia|].
    destruct (cs !! Z.to_nat i) as [c|]; [|reflexivity]. cbn in *. now rewrite Hf.
  - now rewrite list_lookup_alter_ne by congruence.
Qed.

Lemma set_cells_same kv : set_cells (cells kv) kv = kv.
Proof. now destruct kv. Qed.

(** X25. On a recurrent pool, a shift of the tail of [seq] by [d] is
    undone by the shift by [-d] over a range that holds the shifted
    position: the state is exactly what it was. *)
Theorem recurrent_seq_add_round_trip kv seq p0 p1 q0 q1 d :
  recurrent kv = true → p1 <= INT32_MAX →
  norm_p0 p0 <= pos (tail_cell kv seq) < norm_p1 p1 →
  norm_p0 q0 <= wrap_i32 (pos (tail_cell kv seq) + d) < norm_p1 q1 →
  seq_add (seq_add kv seq p0 p1 d) seq q0 q1 (- d) = kv.
Proof.
  intros Hrec Hp1 Hp Hq. unfold tail_cell in *.
  pose proof (norm_p0_nonneg p0) as Hp0.
  assert (Hi32 : is_i32 (pos (cell_at (cells kv) (tail (cell_at (cells kv) seq))))).
  { unfold is_i32, INT32_MIN, INT32_MAX in *. unfold norm_p1 in Hp.
    destruct (p1 <? 0); unfold INT32_MAX in *; lia. }
  unfold seq_add at 2. destruct (Z.eqb_spec d 0) as [-> |Hd]; [reflexivity|].
  destruct (Z.eqb_spec (norm_p0 p0) (norm_p1 p1)) as [Heq|_]; [lia|].
  rewrite Hrec. unfold seq_add_recurrent at 1.
  assert (Hsecond : ∀ kv1, kv1 = kv → seq_add kv1 seq q0 q1 (- d) = kv →
                    seq_add kv seq q0 q1 (- d) = kv) by (intros ? ->; auto).
  unfold seq_add.
  destruct (Z.eqb_spec (- d) 0) as [Hd'|_]; [lia|].
  destruct (Z.eqb_spec (norm_p0 q0) (norm_p1 q1)) as [Heq|_]; [lia|].
  destruct ((0 <=? seq) && (seq <? size kv)) eqn:Hseq.
  2:{ rewrite Hrec. unfold seq_add_recurrent. now rewrite Hseq. }
  destruct (Z.leb_spec 0 (tail (cell_at (cells kv) seq))) as [Ht|Ht].
  2:{ rewrite Hrec. unfold seq_add_recurrent. rewrite Hseq.
      destruct (Z.leb_spec 0 (tail (cell_at (cells kv) seq))); [lia|reflexivity]. }
  destruct (has_seq_id (cell_at (cells kv) (tail (cell_at (cells kv) seq))) seq)
    eqn:Hhas.
  2:{ cbn [andb]. rewrite Hrec. unfold seq_add_recurrent. rewrite Hseq.
      destruct (Z.leb_spec 0 (tail (cell_at (cells kv) seq))); [|lia].
      now rewrite Hhas. }
  assert (Hin : in_range (norm_p0 p0) (norm_p1 p1)
                  (cell_at (cells kv) (tail (cell_at (cells kv) seq))) = true).
  { unfold in_range. apply andb_true_iff. lia. }
  rewrite Hin. cbn [andb recurrent set_cells]. rewrite Hrec.
  unfold seq_add_recurrent.
  assert (Htin : 0 <= tail (cell_at (cells kv) seq) < Z.of_nat (length (cells kv))).
  { apply (cell_at_inside _ _ seq). now apply bool_decide_eq_true in Hhas. }
  assert (Hsz : size (set_cells
                  (upd (tail (cell_at (cells kv) seq))
                     (λ c, set_pos (wrap_i32 (pos c + d)) c) (cells kv)) kv)
                = size kv) by (unfold size; cbn; now rewrite upd_length).
  rewrite Hsz, Hseq. cbn [cells set_cells].
  rewrite (cell_at_upd_keep tail) by reflexivity.
  destruct (Z.leb_spec 0 (tail (cell_at (cells kv) seq))); [|lia].
  rewrite cell_at_upd_eq by assumption.
  change (has_seq_id (set_pos ?p ?c) seq) with (has_seq_id c seq). rewrite Hhas.
  assert (Hin2 : in_range (norm_p0 q0) (norm_p1 q1)
                   (set_pos (wrap_i32 (pos (cell_at (cells kv)
                                              (tail (cell_at (cells kv) seq))) + d))
                      (cell_at (cells kv) (tail (cell_at (cells kv) seq)))) = true).
  { unfold in_range. cbn [pos set_pos]. apply andb_true_iff. lia. }
  rewrite Hin2. cbn [andb]. rewrite upd_upd.
  rewrite upd_id_at; [now destruct kv|].
  unfold compose. cbn.
  assert (Hback : wrap_i32 (wrap_i32 (pos (cell_at (cells kv)
                                             (tail (cell_at (cells kv) seq))) + d) + - d)
                  = pos (cell_at (cells kv) (tail (cell_at (cells kv) seq)))).
  { rewrite wrap_i32_add_l.
    replace (pos (cell_at (cells kv) (tail (cell_at (cells kv) seq))) + d + - d)
      with (pos (cell_at (cells kv) (tail (cell_at (cells kv) seq)))) by lia.
    now apply wrap_i32_id. }
  rewrite Hback. now destruct (cell_at (cells kv) (tail (cell_at (cells kv) seq))).
Qed.

Lemma recurrent_seq_add_round_trip_witness :
  ∃ kv, run_ops (init true 4) ops_shared_tail = Some kv ∧
        seq_add (seq_add kv 1 (-1) (-1) 10) 1 (-1) (-1) (- 10) = kv.
Proof.
  exists (default (init true 4) (run_ops (init true 4) ops_shared_tail)).
  split; [vm_compute; reflexivity|].
  apply recurrent_seq_add_round_trip.
  - reflexivity.
  - unfold INT32_MAX. lia.
  - vm_compute. split; [discriminate|reflexivity].
  - vm_compute. split; [discriminate|reflexivity].
Defined.

(** ** seq_rm on a recurrent pool: the state of a sequence is released *)

Lemma alone_iff (X : gset Z) seq : seq ∈ X → (X ∖ {[seq]} = ∅ ↔ X = {[seq]}).
Proof.
  intros Hin. split.
  - intros Hemp. apply set_eq. intros x. rewrite elem_of_singleton. split.
    + intros Hx. destruct (decide (x = seq)) as [|Hne]; [assumption|].
      exfalso. apply (not_elem_of_empty (C := gset Z) x). rewrite <- Hemp.
      apply elem_of_difference. split; [assumption|].
      now rewrite elem_of_singleton.
    + now intros ->.
  - intros ->. apply set_eq. intros x.
    rewrite elem_of_difference, elem_of_singleton. split; [tauto|].
    intros Hx. now apply not_elem_of_empty in Hx.
Qed.

Lemma seq_rm_cell_hit seq p0 p1 c :
  0 <= seq → seq ∈ seq_id c → p0 <= pos c < p1 →
  seq_id (seq_rm_cell seq p0 p1 c) = seq_id c ∖ {[seq]} ∧
  (seq_id c = {[seq]} →
   pos (seq_rm_cell seq p0 p1 c) = -1 ∧ src (seq_rm_cell seq p0 p1 c) = -1) ∧
  (seq_id c ≠ {[seq]} →
   pos (seq_rm_cell seq p0 p1 c) = pos c ∧ src (seq_rm_cell seq p0 p1 c) = src c).
Proof.
  intros Hseq Hin Hr. unfold seq_rm_cell, seq_rm_body, in_range.
  destruct (Z.leb_spec p0 (pos c)); [|lia].
  destruct (Z.ltb_spec (pos c) p1); [|lia]. cbn [andb].
  destruct (Z.ltb_spec seq 0); [lia|].
  unfold has_seq_id. rewrite (bool_decide_eq_true_2 _ Hin).
  unfold is_empty. cbn [seq_id seq_erase set_seq_id].
  case_bool_decide as Hemp; cbn [fst].
  - split; [reflexivity|]. split; [now cbn|].
    intros Hne. exfalso. apply Hne. now apply alone_iff.
  - split; [reflexivity|]. split; [|now cbn].
    intros Hone. exfalso. apply Hemp. now apply alone_iff.
Qed.

(** X26. On a recurrent pool whose tails are in order, [seq_rm(seq, p0,
    p1)] with [p0 <= 0] over a range that holds the position of the tail
    cell of [seq] returns [true] and releases the state of [seq]: the
    tail of [seq] is reset to -1 and its cell loses [seq]; the cell is
    freed ([pos = -1], [src = -1], no id) when [seq] held it alone, and
    keeps its position for the sequences that share it otherwise. The
    tails are in order again. *)
Theorem recurrent_seq_rm_releases_the_state kv seq p0 p1 :
  recurrent kv = true → 0 <= seq < size kv → tails_point_home kv →
  0 <= tail (cell_at (cells kv) seq) → p0 <= 0 →
  0 <= pos (tail_cell kv seq) < norm_p1 p1 →
  (seq_rm kv seq p0 p1).2 = true ∧
  tail (cell_at (cells (seq_rm kv seq p0 p1).1) seq) = -1 ∧
  seq_id (cell_at (cells (seq_rm kv seq p0 p1).1) (tail (cell_at (cells kv) seq)))
    = seq_id (tail_cell kv seq) ∖ {[seq]} ∧
  (seq_id (tail_cell kv seq) = {[seq]} →
   pos (cell_at (cells (seq_rm kv seq p0 p1).1) (tail (cell_at (cells kv) seq))) = -1 ∧
   src (cell_at (cells (seq_rm kv seq p0 p1).1) (tail (cell_at (cells kv) seq))) = -1) ∧
  (seq_id (tail_cell kv seq) ≠ {[seq]} →
   pos (cell_at (cells (seq_rm kv seq p0 p1).1) (tail (cell_at (cells kv) seq)))
     = pos (tail_cell kv seq) ∧
   src (cell_at (cells (seq_rm kv seq p0 p1).1) (tail (cell_at (cells kv) seq)))
     = src (tail_cell kv seq)) ∧
  tails_point_home (seq_rm kv seq p0 p1).1.
Proof.
  intros Hrec Hseq Hhome Ht Hp0 Hpos.
  pose proof (seq_rm_tails kv seq p0 p1 Hrec ltac:(lia) Hhome) as Hhome'.
  pose proof (Hhome seq Hseq Ht) as Hin. unfold tail_cell in *.
  pose proof (cell_at_inside _ _ _ Hin) as Htin.
  assert (HP0 : norm_p0 p0 = 0).
  { unfold norm_p0. destruct (Z.ltb_spec p0 0); lia. }
  set (t := tail (cell_at (cells kv) seq)) in *.
  assert (Hpre : seq_rm_recurrent (cells kv) (size kv) seq (norm_p0 p0) (norm_p1 p1)
                 = Some (upd seq (set_tail (-1)) (cells kv))).
  { unfold seq_rm_recurrent. rewrite HP0. fold t.
    destruct (Z.leb_spec (size kv) seq); [lia|].
    destruct (Z.leb_spec 0 seq); [|lia].
    destruct (Z.leb_spec 0 t); [|lia].
    change (0 <? 0) with false. cbn [andb orb].
    destruct (Z.leb_spec (norm_p1 p1) (pos (cell_at (cells kv) t))); [lia|].
    rewrite andb_false_r.
    destruct (Z.leb_spec 0 (pos (cell_at (cells kv) t))); [|lia].
    destruct (Z.ltb_spec (pos (cell_at (cells kv) t)) (norm_p1 p1)); [|lia].
    reflexivity. }
  revert Hhome'. unfold seq_rm. rewrite Hrec, Hpre.
  pose proof (for_cells_map (seq_rm_body (size kv) seq (norm_p0 p0) (norm_p1 p1))
                (seq_rm_cell seq (norm_p0 p0) (norm_p1 p1)) 0
                (upd seq (set_tail (-1)) (cells kv))
                (used kv, size kv) (seq_rm_body_cell _ _ _ _)) as Hcs.
  destruct (for_cells _ _ _ _) as [cs [u nh]]. cbn [fst snd] in *.
  assert (Hcells : cells (if negb (nh =? size kv) && (nh <? head kv)
                          then set_head nh (set_used u (set_cells cs kv))
                          else set_used u (set_cells cs kv)) = cs)
    by now destruct (_ && _).
  subst cs. rewrite Hcells. intros Hhome'.
  split; [reflexivity|].
  split.
  { rewrite cell_at_map by (rewrite upd_length; unfold size in Hseq; lia).
    rewrite seq_rm_cell_tail, cell_at_upd_eq by (unfold size in Hseq; lia).
    reflexivity. }
  rewrite cell_at_map by (rewrite upd_length; lia).
  assert (Hcell : ∃ c0, cell_at (upd seq (set_tail (-1)) (cells kv)) t = c0 ∧
                        pos c0 = pos (cell_at (cells kv) t) ∧
                        src c0 = src (cell_at (cells kv) t) ∧
                        seq_id c0 = seq_id (cell_at (cells kv) t)).
  { eexists. split; [reflexivity|].
    rewrite (cell_at_upd_keep pos), (cell_at_upd_keep src),
      (cell_at_upd_keep seq_id) by reflexivity. auto. }
  destruct Hcell as (c0 & -> & Hc0p & Hc0s & Hc0i).
  destruct (seq_rm_cell_hit seq (norm_p0 p0) (norm_p1 p1) c0)
    as (Hids & Hone & Hmore); [lia|now rewrite Hc0i|rewrite Hc0p, HP0; lia|].
  rewrite Hc0i, Hc0p, Hc0s in *.
  split; [assumption|]. split; [assumption|]. split; [assumption|].
  apply tails_ok_home. rewrite Hcells. exact Hhome'.
Qed.

Lemma recurrent_seq_rm_releases_the_state_witness :
  ∃ kv, run_ops (init true 4) ops_shared_tail = Some kv ∧
  (seq_rm kv 1 (-1) (-1)).2 = true ∧
  tail (cell_at (cells (seq_rm kv 1 (-1) (-1)).1) 1) = -1 ∧
  seq_id (cell_at (cells (seq_rm kv 1 (-1) (-1)).1) (tail (cell_at (cells kv) 1)))
    = seq_id (tail_cell kv 1) ∖ {[1]} ∧
  (seq_id (tail_cell kv 1) = {[1]} →
   pos (cell_at (cells (seq_rm kv 1 (-1) (-1)).1) (tail (cell_at (cells kv) 1))) = -1 ∧
   src (cell_at (cells (seq_rm kv 1 (-1) (-1)).1) (tail (cell_at (cells kv) 1))) = -1) ∧
  (seq_id (tail_cell kv 1) ≠ {[1]} →
   pos (cell_at (cells (seq_rm kv 1 (-1) (-1)).1) (tail (cell_at (cells kv) 1)))
     = pos (tail_cell kv 1) ∧
   src (cell_at (cells (seq_rm kv 1 (-1) (-1)).1) (tail (cell_at (cells kv) 1)))
     = src (tail_cell kv 1)) ∧
  tails_point_home (seq_rm kv 1 (-1) (-1)).1.
Proof.
  exists (default (init true 4) (run_ops (init true 4) ops_shared_tail)).
  split; [vm_compute; reflexivity|].
  apply recurrent_seq_rm_releases_the_state.
  - reflexivity.
  - change (size _) with 4. lia.
  - intros s Hs. change (size _) with 4 in Hs.
    assert (Hcases : s = 0 ∨ s = 1 ∨ s = 2 ∨ s = 3) by lia.
    destruct Hcases as [-> |[-> |[-> | ->]]]; vm_compute; intros Ht;
      try (exfalso; apply Ht; reflexivity); compute_done.
  - vm_compute. discriminate.
  - lia.
  - vm_compute. split; [discriminate|reflexivity].
Defined.

(** ** Transformer pools: a slot is given back by seq_rm *)

Lemma tidy_seq_rm seq p0 p1 c : tidy c → tidy (seq_rm_cell seq p0 p1 c).
Proof.
  intros Hc. unfold seq_rm_cell, seq_rm_body.
  destruct (in_range p0 p1 c); [|exact Hc].
  destruct (seq <? 0).
  - unfold is_empty. rewrite bool_decide_eq_true_2 by reflexivity.
    split; [reflexivity|]. now cbn.
  - destruct (has_seq_id c seq); [|exact Hc].
    destruct (is_empty _); cbn [fst]; [split; [reflexivity|now cbn]|exact Hc].
Qed.

Lemma tidy_seq_cp s d p0 p1 c : tidy c → tidy (seq_cp_cell s d p0 p1 c).
Proof.
  intros Hc. unfold seq_cp_cell, seq_cp_body. destruct (_ && _); exact Hc.
Qed.

Lemma tidy_seq_keep rec seq j c : tidy c → tidy (seq_keep_cell rec seq j c).
Proof.
  intros [Hs Hp]. pose proof (seq_keep_cell_spec rec seq j c) as H.
  unfold tidy. destruct (decide (seq ∈ seq_id c)).
  - destruct H as (_ & -> & ->). now split.
  - destruct H as (_ & -> & ->). now split.
Qed.

Lemma tidy_seq_add seq p0 p1 d c : tidy c → tidy (seq_add_cell seq p0 p1 d c).
Proof.
  intros [Hs Hp]. unfold seq_add_cell, seq_add_body.
  destruct (_ && _); [|now split].
  cbn [pos set_delta set_pos].
  destruct (Z.ltb_spec (wrap_i32 (pos c + d)) 0); cbn [fst].
  - split; [exact Hs|]. now cbn.
  - split; [exact Hs|]. cbn. lia.
Qed.

Lemma tidy_seq_div seq p0 p1 d c :
  0 <= p0 → 0 < d → tidy c → tidy (seq_div_cell seq p0 p1 d c).
Proof.
  intros Hp0 Hd [Hs Hp]. unfold seq_div_cell, seq_div_body, in_range.
  destruct (has_seq_id c seq); cbn [andb]; [|now split].
  destruct (Z.leb_spec p0 (pos c)); cbn [andb]; [|now split].
  destruct (_ <? p1); [|now split]. cbn [fst].
  split; [exact Hs|]. cbn. intros Hneg.
  assert (0 <= Z.quot (pos c) d) by (apply Z.quot_pos; lia). lia.
Qed.

Lemma tidy_stamped ub h cs :
  Forall (λ p, 0 <= p) (ub_pos ub) →
  Forall tidy cs → Forall tidy (stamped ub h (n_tokens ub) cs).
Proof.
  intros Hpos Hcs. rewrite Forall_lookup in Hcs. apply Forall_lookup.
  intros idx c'. unfold stamped.
  rewrite list_lookup_imap. destruct (cs !! idx) as [c|] eqn:Hc; [|discriminate].
  cbn. intros Hc'. injection Hc' as <-.
  destruct ((0 <=? _) && (_ <? _)); [|now apply (Hcs idx)].
  destruct (Hcs idx c Hc) as [Hs _]. split; [exact Hs|]. cbn.
  intros Hneg. exfalso.
  destruct (nth_lookup_or_length (ub_pos ub) (Z.to_nat (Z.of_nat idx - h)) 0)
    as [Hl|Hl].
  - apply (proj1 (Forall_lookup _ _) Hpos) in Hl. lia.
  - rewrite nth_overflow in Hneg by lia. lia.
Qed.

Lemma run_op_tidy kv op kv' r :
  op_wf op → kv_inv kv → Forall tidy (cells kv) →
  run_op kv op = Some (kv', r) → Forall tidy (cells kv').
Proof.
  intros Hwf Hinv Htidy. pose proof Hinv as (Hrec & Hsz & Hhd & _).
  destruct op as [ub|seq p0 p1|s d p0 p1|seq|seq p0 p1 d|seq p0 p1 d|]; cbn [run_op].
  - destruct (find_slot kv ub) as [[kv1 si]|] eqn:Hfs; [|discriminate].
    cbn [mbind option_bind fst]. intros H. injection H as <- _.
    destruct Hwf as [Hwf Hpos]. destruct (found si) eqn:Hfound.
    + destruct (find_slot_success kv ub kv1 si Hrec Hsz Hhd Hwf Hfs Hfound)
        as (h & _ & _ & ->).
      cbn [cells set_used set_cells]. now apply tidy_stamped.
    + enough (cells kv1 = cells kv) as -> by assumption.
      revert Hfs. unfold find_slot, find_slot_transformer. rewrite Hrec.
      destruct (_ <? _); [intros H; now injection H as <- _|].
      destruct (find_loop _ _ _ _ _ _) as [[[] hd]|]; [| |discriminate].
      * destruct (stamp _ _ _); [|discriminate]. cbn [mbind option_bind].
        intros H. injection H as <- <-. discriminate.
      * intros H. now injection H as <- _.
  - intros H. injection H as <- _. unfold seq_rm. rewrite Hrec.
    pose proof (for_cells_map (seq_rm_body (size kv) seq (norm_p0 p0) (norm_p1 p1))
                  (seq_rm_cell seq (norm_p0 p0) (norm_p1 p1)) 0 (cells kv)
                  (used kv, size kv) (seq_rm_body_cell _ _ _ _)) as Hcs.
    destruct (for_cells _ _ _ _) as [cs [u nh]]. cbn [fst] in Hcs.
    assert (Hcells : cells (if negb (nh =? size kv) && (nh <? head kv)
                            then set_head nh (set_used u (set_cells cs kv))
                            else set_used u (set_cells cs kv)) = cs)
      by now destruct (_ && _).
    cbn [fst]. rewrite Hcells, Hcs. apply Forall_fmap.
    eapply Forall_impl; [exact Htidy|]. intros c. apply tidy_seq_rm.
  - intros H. injection H as <- _.
    destruct (Z.eq_dec s d) as [-> |Hne].
    + unfold seq_cp. now rewrite Z.eqb_refl.
    + rewrite seq_cp_transformer by assumption. cbn [cells set_cells].
      apply Forall_fmap. eapply Forall_impl; [exact Htidy|].
      intros c. apply tidy_seq_cp.
  - intros H. injection H as <- _.
    pose proof (for_cells_imap (seq_keep_body (recurrent kv) (size kv) seq)
                  (seq_keep_cell (recurrent kv) seq) 0 (cells kv) (used kv, size kv)
                  (seq_keep_body_cell _ _ _)) as Hcs.
    unfold seq_keep. destruct (for_cells _ _ _ _) as [cs [u nh]]. cbn [fst] in Hcs.
    assert (Hcells : cells (if negb (nh =? size kv) && (nh <? head kv)
                            then set_head nh (set_used u (set_cells cs kv))
                            else set_used u (set_cells cs kv)) = cs)
      by now destruct (_ && _).
    rewrite Hcells, Hcs. rewrite Forall_lookup in *.
    intros k c'. rewrite list_lookup_imap.
    destruct (cells kv !! k) as [c|] eqn:Hc; [|discriminate]. cbn.
    intros Hc'. injection Hc' as <-. apply tidy_seq_keep. now apply (Htidy k).
  - intros H. injection H as <- _. rewrite seq_add_cells by assumption.
    destruct (_ || _); [assumption|].
    apply Forall_fmap. eapply Forall_impl; [exact Htidy|].
    intros c. apply tidy_seq_add.
  - destruct (seq_div kv seq p0 p1 d) as [kv1|] eqn:Hdiv; [|discriminate].
    cbn [mbind option_bind]. intros H. injection H as <- _.
    destruct (seq_div_transformer _ _ _ _ _ _ Hrec Hdiv) as [-> |(hs & _ & ->)];
      [assumption|].
    cbn [cells set_has_shift set_cells].
    apply Forall_fmap. eapply Forall_impl; [exact Htidy|].
    intros c. apply tidy_seq_div; [apply norm_p0_nonneg|exact Hwf].
  - intros H. injection H as <- _.
    rewrite clear_cells by (unfold INT32_MAX; lia).
    apply Forall_fmap, Forall_forall. intros c _. split; [reflexivity|now cbn].
Qed.

Lemma run_ops_tidy ops :
  ∀ kv kv',
    Forall (λ op, op_wf op ∧ op_named op) ops → kv_inv kv → Forall tidy (cells kv) →
    run_ops kv ops = Some kv' → Forall tidy (cells kv').
Proof.
  induction ops as [|op ops IH]; intros kv kv' Hall Hinv Htidy; cbn [run_ops].
  - intros H. now injection H as <-.
  - apply Forall_cons in Hall as [[Hwf Hnamed] Hall].
    destruct (run_op kv op) as [[kv1 r]|] eqn:Hrun; [|discriminate].
    cbn [mbind option_bind fst]. apply IH; [assumption| |].
    + eapply run_op_inv; eassumption.
    + eapply run_op_tidy; eassumption.
Qed.

Lemma seq_rm_cell_miss seq p0 p1 c :
  0 <= seq → seq ∉ seq_id c → seq_rm_cell seq p0 p1 c = c.
Proof.
  intros Hseq Hout. unfold seq_rm_cell, seq_rm_body.
  destruct (in_range p0 p1 c); [|reflexivity].
  destruct (Z.ltb_spec seq 0); [lia|].
  unfold has_seq_id. now rewrite bool_decide_eq_false_2.
Qed.

(** The removal of [seq] gives back the cell that was stamped for [seq]
    alone. *)
Lemma seq_rm_stamp_cell ub seq p0 p1 k c :
  0 <= seq → group_ids ub (k / n_seq_tokens ub) = [seq] →
  p0 <= nth (Z.to_nat k) (ub_pos ub) 0 < p1 →
  pos c = -1 → src c = -1 → seq_id c = ∅ →
  seq_rm_cell seq p0 p1 (stamp_cell ub k c) = c.
Proof.
  intros Hseq Hgroup Hr Hp Hs Hi. unfold seq_rm_cell, seq_rm_body, in_range.
  destruct (stamp_cell_fields ub k c) as (Hpos & Hids & _).
  rewrite Hpos.
  destruct (Z.leb_spec p0 (nth (Z.to_nat k) (ub_pos ub) 0)); [|lia].
  destruct (Z.ltb_spec (nth (Z.to_nat k) (ub_pos ub) 0) p1); [|lia].
  cbn [andb]. destruct (Z.ltb_spec seq 0); [lia|].
  assert (Hset : seq_id (stamp_cell ub k c) = {[seq]}).
  { rewrite Hids, Hgroup, Hi. apply set_eq. intros x.
    rewrite elem_of_union, elem_of_list_to_set, list_elem_of_singleton,
      elem_of_singleton.
    split; [intros [Hx|Hx]; [assumption|now apply not_elem_of_empty in Hx]|now left]. }
  unfold has_seq_id. rewrite bool_decide_eq_true_2
    by (rewrite Hset; now apply elem_of_singleton).
  assert (Hgone : seq_id (seq_erase seq (stamp_cell ub k c)) = ∅).
  { cbn [seq_id seq_erase set_seq_id]. rewrite Hset. apply set_eq. intros x.
    rewrite elem_of_difference. split; [tauto|].
    intros Hx. now apply not_elem_of_empty in Hx. }
  unfold is_empty. rewrite (bool_decide_eq_true_2 _ Hgone). cbn [fst].
  destruct c as [cp cd cs ct ci]. cbn in *. subst.
  unfold set_src, set_pos, seq_erase, set_seq_id. cbn. f_equal.
  exact Hgone.
Qed.

(** The sweep of [seq_rm] leaves [new_head] at the size, or at a cell
    that held [seq]. *)
Lemma seq_rm_sweep_head sz seq p0 p1 lo cs :
  0 <= seq →
  ∀ i a,
    (∀ (k : nat) c, cs !! k = Some c → seq ∈ seq_id c → lo <= i + Z.of_nat k) →
    a.2 = sz ∨ lo <= a.2 →
    (for_cells (seq_rm_body sz seq p0 p1) i cs a).2.2 = sz ∨
    lo <= (for_cells (seq_rm_body sz seq p0 p1) i cs a).2.2.
Proof.
  intros Hseq. induction cs as [|c cs IH]; intros i a Hlo Ha; [exact Ha|].
  rewrite for_cells_cons_2. apply IH.
  - intros k c' Hc' Hin. specialize (Hlo (S k) c' Hc' Hin). lia.
  - destruct a as [u nh]. unfold seq_rm_body.
    destruct (in_range p0 p1 c); [|exact Ha].
    destruct (Z.ltb_spec seq 0); [lia|].
    destruct (has_seq_id c seq) eqn:Hhas; [|exact Ha].
    apply bool_decide_eq_true in Hhas. specialize (Hlo 0%nat c eq_refl Hhas).
    destruct (is_empty _); cbn [snd]; [|exact Ha].
    cbn in Ha. destruct (Z.eqb_spec nh sz); [right; lia|exact Ha].
Qed.

Lemma seq_rm_stamped ub seq p0 p1 h cs :
  ubatch_wf ub → (∀ s, 0 <= s < n_seqs ub → group_ids ub s = [seq]) →
  0 <= seq → Forall (λ c, seq ∉ seq_id c) cs →
  Forall (λ p, p0 <= p < p1) (ub_pos ub) →
  free_run cs (n_tokens ub) h → pos_iff_ids cs → Forall tidy cs →
  map (seq_rm_cell seq p0 p1) (stamped ub h (n_tokens ub) cs) = cs.
Proof.
  intros Hwf Hgroups Hseq Hfresh Hpos (Hh & Hfit & Hfree) Hids Htidy.
  apply list_eq. intros idx. rewrite list_lookup_fmap. unfold stamped.
  rewrite list_lookup_imap. destruct (cs !! idx) as [c|] eqn:Hc; [|reflexivity].
  cbn. f_equal.
  rewrite Forall_lookup in Hfresh, Htidy. unfold pos_iff_ids in Hids.
  rewrite Forall_lookup in Hids.
  destruct (Z.leb_spec 0 (Z.of_nat idx - h)) as [Hlo|Hlo]; cbn [andb];
    [|now apply seq_rm_cell_miss, (Hfresh idx)].
  destruct (Z.ltb_spec (Z.of_nat idx - h) (n_tokens ub)) as [Hhi|Hhi];
    [|now apply seq_rm_cell_miss, (Hfresh idx)].
  set (k := Z.of_nat idx - h) in *.
  destruct Hwf as (Hns & Hnst & Hnt & Hlen & _).
  assert (Hgroup : 0 <= k / n_seq_tokens ub < n_seqs ub).
  { assert (0 < n_seq_tokens ub) by nia.
    split; [apply Z.div_pos; lia|apply Z.div_lt_upper_bound; nia]. }
  destruct (Hfree (Z.of_nat idx)) as (c0 & Hc0 & Hneg); [lia|].
  apply get_lookup in Hc0 as [_ Hc0]. rewrite Nat2Z.id, Hc in Hc0.
  injection Hc0 as <-.
  destruct (Htidy idx c Hc) as [Hsrc Hm1].
  apply seq_rm_stamp_cell; try assumption.
  - now apply Hgroups.
  - destruct (nth_lookup_or_length (ub_pos ub) (Z.to_nat k) 0) as [Hl|Hl]; [|lia].
    apply (proj1 (Forall_lookup _ _) Hpos) in Hl. exact Hl.
  - now apply Hm1.
  - destruct (decide (seq_id c = ∅)) as [|Hne]; [assumption|].
    apply (Hids idx c Hc) in Hne. lia.
Qed.

(** X27. On a transformer pool of at most 2^30 cells, in a state reached
    from the initial one: a slot found for a batch of a sequence that no
    cell holds is given back by the removal of that sequence over a range
    that holds the positions of the batch. The state is then what it was
    before [find_slot], but for [head], which is left at the slot. *)
Theorem find_slot_then_seq_rm_restores kv_size ops kv ub seq p0 p1 kv' si :
  Z.of_nat kv_size <= 1073741824 →
  Forall (λ op, op_wf op ∧ op_named op) ops →
  run_ops (init false kv_size) ops = Some kv →
  ubatch_wf ub → (∀ s, 0 <= s < n_seqs ub → group_ids ub s = [seq]) →
  0 <= seq → Forall (λ c, seq ∉ seq_id c) (cells kv) →
  Forall (λ p, norm_p0 p0 <= p < norm_p1 p1) (ub_pos ub) →
  find_slot kv ub = Some (kv', si) → found si = true →
  seq_rm kv' seq p0 p1 = (set_head (boundaries si).1 kv, true).
Proof.
  intros Hsz Hall Hrun Hwf Hgroups Hseq Hfresh Hpos Hfs Hfound.
  assert (Hinit_ids : pos_iff_ids (cells (init false kv_size))).
  { unfold pos_iff_ids, init. cbn [cells]. apply Forall_replicate. exact freed_iff. }
  assert (Hinit_tidy : Forall tidy (cells (init false kv_size))).
  { unfold init. cbn [cells]. apply Forall_replicate. split; [reflexivity|now cbn]. }
  destruct (run_ops_ids ops (init false kv_size) kv Hall (init_inv kv_size Hsz)
              Hinit_ids Hrun) as [Hinv Hids].
  pose proof (run_ops_tidy ops (init false kv_size) kv Hall (init_inv kv_size Hsz)
                Hinit_tidy Hrun) as Htidy.
  pose proof Hinv as (Hrec & Hsz' & Hhd & Hused).
  assert (Hpos0 : Forall (λ p, 0 <= p) (ub_pos ub)).
  { eapply Forall_impl; [exact Hpos|]. intros p Hp. cbn in Hp.
    pose proof (norm_p0_nonneg p0). lia. }
  pose proof (find_slot_inv kv ub kv' si Hwf Hpos0 Hinv Hfs) as Hinv'.
  destruct (find_slot_success kv ub kv' si Hrec Hsz' Hhd Hwf Hfs Hfound)
    as (h & [Hfree _] & -> & ->).
  cbn [boundaries fst].
  pose proof (seq_rm_stamped ub seq (norm_p0 p0) (norm_p1 p1) h (cells kv) Hwf
                Hgroups Hseq Hfresh Hpos Hfree Hids Htidy) as Hback.
  pose proof (seq_rm_inv _ seq p0 p1 Hinv') as Hinv2. revert Hinv2.
  set (kv1 := set_used (wrap_u32 (used kv + n_tokens ub))
                (set_cells (stamped ub h (n_tokens ub) (cells kv)) (set_head h kv))).
  assert (Hsz1 : size kv1 = size kv) by (unfold size; cbn [cells kv1 set_used set_cells]; unfold kv1, stamped;
      cbn [cells set_used set_cells]; now rewrite length_imap).
  unfold seq_rm. change (recurrent kv1) with (recurrent kv). rewrite Hrec.
  change (cells kv1) with (stamped ub h (n_tokens ub) (cells kv)).
  change (head kv1) with h. change (used kv1) with (wrap_u32 (used kv + n_tokens ub)).
  rewrite Hsz1.
  pose proof (for_cells_map (seq_rm_body (size kv) seq (norm_p0 p0) (norm_p1 p1))
                (seq_rm_cell seq (norm_p0 p0) (norm_p1 p1)) 0
                (stamped ub h (n_tokens ub) (cells kv))
                (wrap_u32 (used kv + n_tokens ub), size kv)
                (seq_rm_body_cell _ _ _ _)) as Hcs.
  pose proof (seq_rm_sweep_head (size kv) seq (norm_p0 p0) (norm_p1 p1) h
                (stamped ub h (n_tokens ub) (cells kv)) Hseq 0
                (wrap_u32 (used kv + n_tokens ub), size kv)) as Hnh.
  destruct (for_cells _ _ _ _) as [cs [u nh]]. cbn [fst snd] in *.
  rewrite Hback in Hcs. subst cs.
  destruct Hnh as [Hnh|Hnh]; [|now left|..].
  { intros k c Hc Hin. unfold stamped in Hc. rewrite list_lookup_imap in Hc.
    destruct (cells kv !! k) as [c0|] eqn:Hc0; [|discriminate]. cbn in Hc.
    injection Hc as <-.
    destruct (Z.leb_spec 0 (Z.of_nat k - h)); [lia|]. cbn [andb] in Hin.
    exfalso. rewrite Forall_lookup in Hfresh. exact (Hfresh k c0 Hc0 Hin). }
  - rewrite Hnh, Z.eqb_refl. cbn [negb andb]. intros (_ & _ & _ & Hu).
    cbn [used cells set_used set_cells] in Hu. rewrite Hu, <- Hused.
    unfold kv1. now destruct kv.
  - destruct (Z.ltb_spec nh h); [lia|]. rewrite andb_false_r.
    intros (_ & _ & _ & Hu).
    cbn [used cells set_used set_cells] in Hu. rewrite Hu, <- Hused.
    unfold kv1. now destruct kv.
Qed.

Lemma find_slot_then_seq_rm_restores_witness :
  ∃ kv kv' si,
    run_ops (init false 8) ops_S2_div = Some kv ∧
    find_slot kv (ub_seq 1 [5; 6]) = Some (kv', si) ∧ found si = true ∧
    seq_rm kv' 1 (-1) (-1) = (set_head (boundaries si).1 kv, true).
Proof.
  exists (default (init false 8) (run_ops (init false 8) ops_S2_div)).
  eexists _, _.
  split; [vm_compute; reflexivity|]. split; [vm_compute; reflexivity|].
  split; [reflexivity|].
  eapply (find_slot_then_seq_rm_restores 8 ops_S2_div _ (ub_seq 1 [5; 6]) 1 (-1) (-1)).
  - simpl. lia.
  - unfold ops_S2_div.
    assert (Hwf : ∀ ps, ubatch_wf (ub_seq0 ps)).
    { intros ps. unfold ubatch_wf, ub_seq0. simpl. repeat split; try lia.
      intros s Hs. assert (s = 0) as -> by lia. exists 1, [0]. simpl.
      repeat split. lia. }
    assert (Hnamed : ∀ ps, groups_named (ub_seq0 ps)).
    { intros ps s Hs. cbn in Hs. assert (s = 0) as -> by lia. discriminate. }
    repeat constructor; try apply Hwf; try apply Hnamed; simpl; lia.
  - vm_compute. reflexivity.
  - unfold ubatch_wf, ub_seq. simpl. repeat split; try lia.
    intros s Hs. assert (s = 0) as -> by lia. exists 1, [1]. simpl.
    repeat split. lia.
  - intros s Hs. cbn in Hs. assert (s = 0) as -> by lia. reflexivity.
  - lia.
  - vm_compute. repeat constructor; compute_done.
  - repeat constructor; vm_compute; try discriminate; reflexivity.
  - vm_compute. reflexivity.
  - reflexivity.
Defined.
